(** * GithubManager: storage core, shallow embedding and verification

    The development embeds the parts of the C sources that the storage
    and query properties depend on:

    - [utils.c]: big-endian integer packing, the two binary searches;
    - [date.c]: the bit-packed 32-bit timestamp;
    - [format.c], [lazy.c]: binary member writer and the lazy flush-back;
    - [cache.c]: the paged LRU block cache over [pread]/[pwrite];
    - [indexer.c]: external merge sort, grouping pass, lower-bound search;
    - [user.c]: the friends list;
    - [querySolver.c]: the ordering of "Top-N" outputs.

    Conventions.  A C [int] is a [Z] in the signed 32-bit range, with
    [wrap32] written where the arithmetic can leave it; a [pos_t]
    (unsigned long long) is a [Z] in [0, 2^64); a byte is a [Z] in
    [0, 256); arrays are lists read with stdpp's lookup.  Loops are
    fuel-indexed fixpoints whose outcome records whether the loop
    returned, ran out of steps or left the array. *)

From Stdlib Require Import ZArith List Lia Bool Permutation Sorted.
From stdpp Require Import base list gmap.

Open Scope Z_scope.

(* ================================================================== *)
(** * Part I: the embedding *)
(* ================================================================== *)

(** ** Machine integers and bytes *)

Definition wrap32 (z : Z) : Z := (z + 2^31) mod 2^32 - 2^31.

Definition int_range (z : Z) : Prop := - 2^31 <= z < 2^31.

Definition pos_t_range (z : Z) : Prop := 0 <= z < 2^64.

Definition byte_range (z : Z) : Prop := 0 <= z < 256.

(** [a / b] on C ints truncates toward zero. *)
Definition cdiv (a b : Z) : Z := Z.quot a b.

(** [a << k] on a 32-bit int (the value wraps into the sign bit). *)
Definition shl32 (a k : Z) : Z := wrap32 (Z.shiftl a k).

(** Result of running a piece of C code with a bound on the number of
    loop iterations: it returns, or it reads or writes outside of an
    array, divides by zero, calls [exit(EXIT_FAILURE)], or is still
    running when the bound is reached. *)
Inductive outcome (A : Type) : Type :=
| Returned (a : A)
| OutOfBounds
| OutOfFuel
| DivisionByZero
| ExitFailure.
Arguments Returned {A} a.
Arguments OutOfBounds {A}.
Arguments OutOfFuel {A}.
Arguments DivisionByZero {A}.
Arguments ExitFailure {A}.

#[global] Instance outcome_ret : MRet outcome := @Returned.
#[global] Instance outcome_bind : MBind outcome := fun A B f m =>
  match m with
  | Returned a => f a
  | OutOfBounds => OutOfBounds
  | OutOfFuel => OutOfFuel
  | DivisionByZero => DivisionByZero
  | ExitFailure => ExitFailure
  end.

(** An array read that must succeed. *)
Definition read_cell {A} (o : option A) : outcome A :=
  match o with Some a => Returned a | None => OutOfBounds end.

(** [array[i]] for a C array held in a list; [None] outside of it. *)
Definition array_get {A} (l : list A) (i : Z) : option A :=
  if i <? 0 then None else l !! Z.to_nat i.

(** ** utils.c *)

Module Utils.

(** [writeIntToBinaryString]: the four bytes of [n], most significant first. *)
Definition writeIntToBinaryString (n : Z) : list Z :=
  [ Z.land (Z.shiftr n 24) 255;
    Z.land (Z.shiftr n 16) 255;
    Z.land (Z.shiftr n 8) 255;
    Z.land n 255 ].

(** [readIntFromBinaryString]: inverse of the above on the first four
    bytes (the masks cancel the sign extension of [char]). *)
Definition readIntFromBinaryString (bytes : list Z) : Z :=
  let b i := default 0 (bytes !! i) in
  wrap32 (Z.lor (Z.lor (Z.lor
            (Z.land (Z.shiftl (b 0%nat) 24) 4278190080)
            (Z.land (Z.shiftl (b 1%nat) 16) 16711680))
            (Z.land (Z.shiftl (b 2%nat) 8) 65280))
            (Z.land (b 3%nat) 255)).

(** [IntListToBinaryString] into an existing buffer. *)
Definition IntListToBinaryString (N : nat) (l : list Z) : list Z :=
  concat (map writeIntToBinaryString (take N l)).

(** [containedInSortedArray]: the loop [while (m = (l + r) / 2, l <= r)]. *)
Fixpoint containedInSortedArray_loop (fuel : nat) (array : list Z) (val l r : Z)
  : outcome bool :=
  match fuel with
  | O => OutOfFuel
  | S fuel' =>
      let m := cdiv (wrap32 (l + r)) 2 in
      if l <=? r then
        match array_get array m with
        | None => OutOfBounds
        | Some am =>
            if am <? val then containedInSortedArray_loop fuel' array val (m + 1) r
            else if am >? val then containedInSortedArray_loop fuel' array val l (m - 1)
            else Returned true
        end
      else Returned false
  end.

Definition containedInSortedArray (fuel : nat) (array : list Z) (array_length val : Z)
  : outcome bool :=
  containedInSortedArray_loop fuel array val 0 (array_length - 1).

(** [binSearchInList]: the loop [while (l[p] != key)]; after the loop
    the function returns [key == l[p]]. *)
Fixpoint binSearchInList_loop (fuel : nat) (key : Z) (l : list Z) (m n p : Z)
  : outcome bool :=
  match fuel with
  | O => OutOfFuel
  | S fuel' =>
      match array_get l p with
      | None => OutOfBounds
      | Some lp =>
          if negb (lp =? key) then
            let m' := if lp >? key then m else p + 1 in
            let n' := if lp >? key then p - 1 else n in
            binSearchInList_loop fuel' key l m' n' (cdiv (wrap32 (m' + n')) 2)
          else Returned (key =? lp)
      end
  end.

Definition binSearchInList (fuel : nat) (key : Z) (l : list Z) (N : Z) : outcome bool :=
  let m := 0 in
  let n := N - 1 in
  binSearchInList_loop fuel key l m n (cdiv (wrap32 (m + n)) 2).

(** libc's [qsort] applied with comparator [cmp]: the order it gives to
    elements that compare equal is unspecified; the embedding uses a
    stable insertion sort, which moves an element past another one only
    when the comparator returns a positive number for the pair. *)
Fixpoint qsort_insert {A} (cmp : A -> A -> Z) (x : A) (l : list A) : list A :=
  match l with
  | [] => [x]
  | y :: l' => if cmp x y <=? 0 then x :: y :: l' else y :: qsort_insert cmp x l'
  end.

Fixpoint qsort {A} (cmp : A -> A -> Z) (l : list A) : list A :=
  match l with
  | [] => []
  | x :: l' => qsort_insert cmp x (qsort cmp l')
  end.

(** [removeDuplicates] on a GArray of ints: the loop
    [for (i = 1; i < N; i++)] with [n] iterations left.  [prev] is
    assigned once, before the loop. *)
Fixpoint removeDuplicates_for (n : nat) (array : list Z) (prev : Z) (write i : nat)
  : list Z * nat :=
  match n with
  | O => (array, write)
  | S n' =>
      let cur := default 0 (array !! i) in
      if decide (cur ≠ prev)
      then removeDuplicates_for n' (<[write := cur]> array) prev (S write) (S i)
      else removeDuplicates_for n' array prev write (S i)
  end.

Definition removeDuplicates (array : list Z) : list Z :=
  match array with
  | [] => []
  | prev :: _ =>
      let N := length array in
      let '(array', write) := removeDuplicates_for (N - 1) array prev 1 1 in
      (* g_array_remove_range(array, write, N - write) *)
      if decide (write < N)%nat then take write array' else array'
  end.

(** A [GHashTable] with direct hashing from ints to ints, both held
    in pointers.  [g_hash_table_lookup] returns the value, and [NULL]
    for a key that is not there: a stored 0 reads as [NULL] too. *)
Definition g_hash_table_lookup (t : gmap Z Z) (k : Z) : Z := default 0 (t !! k).

(** [increaseNumberInHashTableIfFound(users, id, new)]: the table and
    [*new] afterwards. *)
Definition increaseNumberInHashTableIfFound (users : gmap Z Z) (id : Z) (new : Z)
  : gmap Z Z * Z :=
  let searchResult := g_hash_table_lookup users id in
  if decide (searchResult ≠ 0)
  then (<[id := wrap32 (searchResult + 1)]> users, new)
  else (<[id := 1]> users, wrap32 (new + 1)).

(** [storeNumberInHashTableIfGreater(users, id, value)]. *)
Definition storeNumberInHashTableIfGreater (users : gmap Z Z) (id : Z) (value : Z)
  : gmap Z Z :=
  let searchResult := g_hash_table_lookup users id in
  if decide (searchResult ≠ 0)
  then (if searchResult <? value then <[id := value]> users else users)
  else <[id := value]> users.

(** The table after the ids [seen] were counted one by one: every id
    that occurs is mapped to the number of times it occurs. *)
Definition counted (t : gmap Z Z) (seen : list Z) : Prop :=
  forall id, t !! id = if decide (id ∈ seen)
                       then Some (Z.of_nat (length (filter (fun x => x = id) seen)))
                       else None.

(** The table after the pairs [ps] of an id and a number were stored:
    every id that occurs is mapped to the greatest of its numbers. *)
Definition greatest_stored (t : gmap Z Z) (ps : list (Z * Z)) : Prop :=
  forall id, t !! id = if decide (id ∈ map fst ps)
                       then Some (foldr Z.max 0 (map snd (filter (fun p => p.1 = id) ps)))
                       else None.

(** [checkInt(str, length)]: the first [length] characters are digits,
    and there is at least one. *)
Fixpoint checkInt_for (n : nat) (str : list Z) : outcome bool :=
  match n with
  | O => Returned true
  | S n' =>
      c ← read_cell (head str);
      if (c <? 48) || (c >? 57) then Returned false
      else checkInt_for n' (tail str)
  end.

Definition checkInt (str : list Z) (length : Z) : outcome bool :=
  if length =? 0 then Returned false
  else checkInt_for (Z.to_nat length) str.

(** [atoi] of the C library, [(int) strtol(str, NULL, 10)]: white
    space, an optional sign, then digits up to the first character
    that is not one.  A buffer that ends before such a character is
    read past its end. *)
Definition isspace (c : Z) : bool := (c =? 32) || ((9 <=? c) && (c <=? 13)).
Definition isdigit (c : Z) : bool := (48 <=? c) && (c <=? 57).

Fixpoint atoi_digits (str : list Z) (acc : Z) : outcome Z :=
  match str with
  | [] => OutOfBounds
  | c :: rest => if isdigit c then atoi_digits rest (10 * acc + (c - 48)) else Returned acc
  end.

Fixpoint atoi_sign (str : list Z) : outcome Z :=
  match str with
  | [] => OutOfBounds
  | c :: rest =>
      if isspace c then atoi_sign rest
      else if c =? 45 then v ← atoi_digits rest 0; Returned (- v)
      else if c =? 43 then atoi_digits rest 0
      else atoi_digits str 0
  end.

Definition atoi (str : list Z) : outcome Z :=
  v ← atoi_sign str;
  Returned (wrap32 (Z.max (- 2^63) (Z.min (2^63 - 1) v))).

(** [safeStringToInt(str, length, i)]: the flag and [*i] afterwards.
    [str[length]] is read, overwritten with NUL for [atoi] and then
    restored. *)
Definition safeStringToInt (str : list Z) (length : Z) (i : Z) : outcome (bool * Z) :=
  ok ← checkInt str length;
  if ok : bool then
    temp ← read_cell (array_get str length);
    v ← atoi (<[Z.to_nat length := 0]> str);
    Returned (true, v)
  else Returned (false, i).

(** What [fprintf] writes for [%d]: the decimal digits of an int, after
    a minus sign when it is negative. *)
Fixpoint decimal (fuel : nat) (n : Z) (acc : list Z) : list Z :=
  match fuel with
  | O => acc
  | S fuel' =>
      let acc' := (48 + n mod 10) :: acc in
      if n <? 10 then acc' else decimal fuel' (n / 10) acc'
  end.

Definition print_int (n : Z) : list Z :=
  if n <? 0 then 45 :: decimal 10 (- n) [] else decimal 10 n [].

End Utils.

(** ** date.c *)

Module Date.

Record date : Type := mkDate {
  year : Z; month : Z; day : Z; hour : Z; minute : Z; second : Z
}.

(** [getCompactedDate]:
    [(year-2005) << 26 | month << 22 | day << 17 | hour << 12 | minute << 6 | second]. *)
Definition getCompactedDate (d : date) : Z :=
  Z.lor (Z.lor (Z.lor (Z.lor (Z.lor
    (shl32 (wrap32 (year d - 2005)) 26)
    (shl32 (month d) 22))
    (shl32 (day d) 17))
    (shl32 (hour d) 12))
    (shl32 (minute d) 6))
    (second d).

(** [getUncompactedDate]: [>>] on a signed int is the arithmetic shift. *)
Definition getUncompactedDate (c : Z) : date :=
  {| second := Z.land c 63;
     minute := Z.land (Z.shiftr c 6) 63;
     hour := Z.land (Z.shiftr c 12) 31;
     day := Z.land (Z.shiftr c 17) 31;
     month := Z.land (Z.shiftr c 22) 15;
     year := wrap32 (2005 + Z.land (Z.shiftr c 26) 63) |}.

(** The ranges of the fields of a date accepted by [isDateValid]
    (between 2005-04-07 and the current date), with the year bounded by
    what six bits hold. *)
Definition valid_range (d : date) : Prop :=
  0 <= year d - 2005 < 64 /\ 1 <= month d <= 12 /\ 1 <= day d <= 31 /\
  0 <= hour d <= 23 /\ 0 <= minute d <= 59 /\ 0 <= second d <= 59.

(** The compact form read as an unsigned 32-bit word. *)
Definition as_unsigned32 (c : Z) : Z := c mod 2^32.

(** [dateCompare]: the macro [COMPARE] applied to the six fields in
    turn, each under the [else] of the one before. *)
Definition dateCompare (d1 d2 : date) : Z :=
  if negb (year d1 =? year d2) then (if year d1 <? year d2 then -1 else 1)
  else if negb (month d1 =? month d2) then (if month d1 <? month d2 then -1 else 1)
  else if negb (day d1 =? day d2) then (if day d1 <? day d2 then -1 else 1)
  else if negb (hour d1 =? hour d2) then (if hour d1 <? hour d2 then -1 else 1)
  else if negb (minute d1 =? minute d2) then (if minute d1 <? minute d2 then -1 else 1)
  else if negb (second d1 =? second d2) then (if second d1 <? second d2 then -1 else 1)
  else 0.

(** [isLeapYear]; [%] on ints is the remainder of the truncated division. *)
Definition isLeapYear (year : Z) : bool :=
  ((Z.rem year 4 =? 0) && negb (Z.rem year 100 =? 0)) || (Z.rem year 400 =? 0).

(** [isDateValid], with the date that [setToCurrentDate] stores in [now]
    as a parameter.  [monthsLength] has twelve cells; [||] reads
    [monthsLength[month - 1]] only when [day < 1] is false. *)
Definition isDateValid (now : date) (d : date) : outcome bool :=
  let monthsLength :=
    [31; if isLeapYear (year d) then 29 else 28; 31; 30; 31; 30; 31; 31; 30; 31; 30; 31] in
  let minimumDate := mkDate 2005 4 6 23 59 59 in
  if (hour d <? 0) || (hour d >? 23) then Returned false
  else if (minute d <? 0) || (minute d >? 59) then Returned false
  else if (second d <? 0) || (second d >? 59) then Returned false
  else if (month d <? 1) && (month d >? 12) then Returned false
  else if day d <? 1 then Returned false
  else
    len ← read_cell (array_get monthsLength (month d - 1));
    if day d >? len then Returned false
    else Returned ((dateCompare minimumDate d =? -1) && (dateCompare d now =? -1)).

(** [str[i] != c], a read of the buffer. *)
Definition char_differs (str : list Z) (i : Z) (c : Z) : outcome bool :=
  x ← read_cell (array_get str i); Returned (negb (x =? c)).

(** [readDate(str, length, date, time)]: [Some] of the date stored in
    [*date] when the function returns true.  The fields of the new
    [struct date] are written before they are read; a time that
    [safeStringToInt] does not accept leaves the date at midnight. *)
Definition readDate (now : date) (str : list Z) (length : Z) (time : bool)
  : outcome (option date) :=
  if negb (length =? (if time then 19 else 10)) then Returned None
  else
    b4 ← char_differs str 4 45;
    b7 ← (if b4 : bool then Returned true else char_differs str 7 45);
    b10 ← (if b7 : bool then Returned true
           else if time then char_differs str 10 32 else Returned false);
    b13 ← (if b10 : bool then Returned true
           else if time then char_differs str 13 58 else Returned false);
    b16 ← (if b13 : bool then Returned true
           else if time then char_differs str 16 58 else Returned false);
    if b16 : bool then Returned None
    else
      '(ok_y, y) ← Utils.safeStringToInt str 4 0;
      if negb ok_y then Returned None else
      '(ok_m, m) ← Utils.safeStringToInt (drop 5 str) 2 0;
      if negb ok_m then Returned None else
      '(ok_d, dd) ← Utils.safeStringToInt (drop 8 str) 2 0;
      if negb ok_d then Returned None else
      tm ← (if time then
              '(ok_h, h) ← Utils.safeStringToInt (drop 11 str) 2 0;
              if negb ok_h then Returned None else
              '(ok_mi, mi) ← Utils.safeStringToInt (drop 14 str) 2 0;
              if negb ok_mi then Returned None else
              '(ok_s, sec) ← Utils.safeStringToInt (drop 17 str) 2 0;
              if negb ok_s then Returned None else Returned (Some (h, mi, sec))
            else Returned None);
      let d := match tm with
               | Some (h, mi, sec) => mkDate y m dd h mi sec
               | None => mkDate y m dd 0 0 0
               end in
      r ← isDateValid now d;
      Returned (if r : bool then Some d else None).

(** The length of month [m] of year [y], as [isDateValid] sets up
    [monthsLength]. *)
Definition month_length (y m : Z) : Z :=
  nth (Z.to_nat (m - 1))
      [31; if isLeapYear y then 29 else 28; 31; 30; 31; 30; 31; 31; 30; 31; 30; 31] 0.

(** [checkDate(str, length)]: every one of the six fields has to be
    accepted by [safeStringToInt]. *)
Definition checkDate (now : date) (str : list Z) (length : Z) : outcome bool :=
  if negb (length =? 19) then Returned false
  else
    b4 ← char_differs str 4 45;
    b7 ← (if b4 : bool then Returned true else char_differs str 7 45);
    b10 ← (if b7 : bool then Returned true else char_differs str 10 32);
    b13 ← (if b10 : bool then Returned true else char_differs str 13 58);
    b16 ← (if b13 : bool then Returned true else char_differs str 16 58);
    if b16 : bool then Returned false
    else
      '(ok_y, y) ← Utils.safeStringToInt str 4 0;
      if negb ok_y then Returned false else
      '(ok_m, m) ← Utils.safeStringToInt (drop 5 str) 2 0;
      if negb ok_m then Returned false else
      '(ok_d, dd) ← Utils.safeStringToInt (drop 8 str) 2 0;
      if negb ok_d then Returned false else
      '(ok_h, h) ← Utils.safeStringToInt (drop 11 str) 2 0;
      if negb ok_h then Returned false else
      '(ok_mi, mi) ← Utils.safeStringToInt (drop 14 str) 2 0;
      if negb ok_mi then Returned false else
      '(ok_s, sec) ← Utils.safeStringToInt (drop 17 str) 2 0;
      if negb ok_s then Returned false else
      isDateValid now (mkDate y m dd h mi sec).

(** [printDate(date, out)]: the characters written to [out]. *)
Definition printDate (d : date) : list Z :=
  let two (n : Z) (sep : list Z) :=
    (if n <? 10 then 48 :: Utils.print_int n else Utils.print_int n) ++ sep in
  Utils.print_int (year d) ++ [45]
  ++ two (month d) [45] ++ two (day d) [32]
  ++ two (hour d) [58] ++ two (minute d) [58] ++ two (second d) [].

(** [(pos_t)getCompactedDate(d)]: the conversion of the int to the
    unsigned 64-bit key of the date indexes. *)
Definition date_key (d : date) : Z := (getCompactedDate d) mod 2^64.

End Date.

(** Ascending order of a C array of ints. *)
Definition sorted_asc (l : list Z) : Prop :=
  forall (i j : nat) a b, (i <= j)%nat -> l !! i = Some a -> l !! j = Some b -> a <= b.

(** ** user.c *)

Module User.

Record user : Type := mkUser {
  followers : Z;              (* length of follower_list *)
  following : Z;              (* length of following_list *)
  follower_list : list Z;
  following_list : list Z;
  friends : Z;                (* length of friends_list *)
  friends_list : list Z       (* NULL is the empty list *)
}.

(** [compareInts]: [*(int* )a - *(int* )b]. *)
Definition compareInts (a b : Z) : Z := wrap32 (a - b).

(** [qsort(small, small_l, sizeof(int), compareInts)]: the first
    [small_l] cells of the array are sorted in place. *)
Definition qsort_prefix (arr : list Z) (n : Z) : list Z :=
  Utils.qsort compareInts (take (Z.to_nat n) arr) ++ drop (Z.to_nat n) arr.

(** The loop [for (i = 0; i < big_l; i++)] of [calculateFriends]:
    [n] iterations remain, [ans] is the GArray built so far. *)
Fixpoint friends_loop (small : list Z) (small_l : Z) (big : list Z)
    (i : Z) (n : nat) (ans : list Z) : outcome (list Z) :=
  match n with
  | O => Returned ans
  | S n' =>
      x ← read_cell (array_get big i);
      found ← Utils.containedInSortedArray (S (Z.to_nat small_l)) small small_l x;
      friends_loop small small_l big (i + 1) n' (if found : bool then ans ++ [x] else ans)
  end.

(** [calculateFriends]: the smaller of the two lists is sorted in place
    (a side effect on the user), the larger one is walked in its stored
    order. *)
Definition calculateFriends (u : user) : outcome user :=
  if (followers u =? 0) || (following u =? 0) then
    Returned (mkUser (followers u) (following u) (follower_list u) (following_list u) 0 [])
  else
    let small_is_followers := followers u <? following u in
    let small := if small_is_followers then follower_list u else following_list u in
    let small_l := Z.min (followers u) (following u) in
    let big := if small_is_followers then following_list u else follower_list u in
    let big_l := Z.max (followers u) (following u) in
    let small' := qsort_prefix small small_l in
    ans ← friends_loop small' small_l big 0 (Z.to_nat big_l) [];
    Returned (mkUser (followers u) (following u)
                (if small_is_followers then small' else follower_list u)
                (if small_is_followers then following_list u else small')
                (Z.of_nat (length ans)) ans).

(** [areUsersFriends]. *)
Definition areUsersFriends (a : user) (b_id : Z) : outcome bool :=
  Utils.containedInSortedArray (S (Z.to_nat (friends a))) (friends_list a) (friends a) b_id.

End User.

(** ** querySolver.c *)

Module QuerySolver.

(** [struct keyValuePair] with both pointers read through
    [GPOINTER_TO_INT]: a user id and its counter. *)
Record KeyValuePair : Type := mkPair { key : Z; value : Z }.

(** A [GHashTable] from user id to counter, as the list of its entries
    in the order in which [g_hash_table_foreach] visits them (an order
    fixed by the table's internal layout, not by the ids). *)
Definition GHashTable : Type := list KeyValuePair.

(** [savePairToArray] appends to the GArray. *)
Definition savePairToArray (arr : list KeyValuePair) (p : KeyValuePair)
  : list KeyValuePair := arr ++ [p].

(** [comparePair]: [p1->value < p2->value], i.e. 1 or 0. *)
Definition comparePair (p1 p2 : KeyValuePair) : Z :=
  if value p1 <? value p2 then 1 else 0.

(** [g_array_sort] is a stable sort. *)
Definition g_array_sort (pairs : list KeyValuePair)
    (cmp : KeyValuePair -> KeyValuePair -> Z) : list KeyValuePair :=
  Utils.qsort cmp pairs.

(** [getHashTableOrganizedyValues]. *)
Definition getHashTableOrganizedyValues (t : GHashTable) : list KeyValuePair :=
  let pairs := fold_left savePairToArray t [] in
  g_array_sort pairs comparePair.

(** The rows a Top-N query prints: the first [MIN(N, c)] pairs of the
    organized array, [c] being the number of users in the table. *)
Definition topN (N : Z) (t : GHashTable) : list KeyValuePair :=
  let pairs := getHashTableOrganizedyValues t in
  let c := Z.of_nat (length pairs) in
  take (Z.to_nat (Z.min N c)) pairs.

(** The ordering the specification asks of a Top-N output: counts
    decrease, and equal counts come by increasing user id. *)
Definition ordered_by_count_then_id (out : list KeyValuePair) : Prop :=
  forall (i j : nat) p q, (i < j)%nat -> out !! i = Some p -> out !! j = Some q ->
    value p >= value q /\ (value p = value q -> key p < key q).

Definition count_ge (p q : KeyValuePair) : Prop := value p >= value q.

(** What the sort does provide: counts never increase down the list. *)
Definition ordered_by_count (out : list KeyValuePair) : Prop :=
  forall (i j : nat) p q, (i < j)%nat -> out !! i = Some p -> out !! j = Some q ->
    value p >= value q.

End QuerySolver.

(** ** cache.c *)

Module Cache.

Definition CACHE_LINE_SIZE : Z := 1024.

(** Messages printed on [stderr]. *)
Inductive message : Type :=
| WriteError (fd : Z)     (* updateCacheLine: error writing to file *)
| ReadError (fd : Z).     (* updateCacheLine: error reading file *)

(** The host files, by descriptor; a byte is a [Z]. *)
Abbreviation filesystem := (gmap Z (list Z)).

(** Writing [buf] into a file at byte [pos]: a write that starts past
    the end leaves a hole of zero bytes. *)
Definition write_at (content : list Z) (pos : nat) (buf : list Z) : list Z :=
  take pos content ++ replicate (pos - length content) 0
    ++ buf ++ drop (pos + length buf) content.

(** [pwrite(fd, buf, |buf|, pos)]; [None] is the return value -1. *)
Definition pwrite (fs : filesystem) (fd : Z) (buf : list Z) (pos : Z)
  : option filesystem :=
  content ← fs !! fd;
  Some (<[fd := write_at content (Z.to_nat pos) buf]> fs).

(** [pread(fd, buf, n, pos)]: the bytes read (fewer than [n] at the end
    of the file); [None] is the return value -1. *)
Definition pread (fs : filesystem) (fd : Z) (n : Z) (pos : Z) : option (list Z) :=
  content ← fs !! fd;
  Some (take (Z.to_nat n) (drop (Z.to_nat pos) content)).

Record KEY : Type := mkKey { file_desc : Z; pos : Z }.

(** [struct line]; the links [prev]/[next] are held by the cache's queue. *)
Record line : Type := mkLine {
  key : KEY;
  loaded : bool;
  altered : bool;
  data : list Z                (* CACHE_LINE_SIZE bytes *)
}.

(** [struct cache].  A [Line] pointer is the index of the line in
    [lines]; the doubly linked list is the list of these indices from
    [first] (most recently accessed) to [last]; the hash table maps a
    key, as the pair of its fields, to a line. *)
Record cache : Type := mkCache {
  lines : list line;
  queue : list nat;
  posLinePairs : gmap (Z * Z) nat;
  hits : Z;
  misses : Z
}.

(** The cache together with the files under it and [stderr]. *)
Record world : Type := mkWorld {
  the_cache : cache;
  files : filesystem;
  stderr : list message
}.

Definition key_pair (k : KEY) : Z * Z := (file_desc k, pos k).

Definition fresh_line : line :=
  mkLine (mkKey (-1) 0) false false (replicate (Z.to_nat CACHE_LINE_SIZE) 0).

(** [getCache]. *)
Definition getCache (line_num : nat) : cache :=
  mkCache (replicate line_num fresh_line) (seq 0 line_num) ∅ 0 0.

Definition get_line (c : cache) (l : nat) : line := default fresh_line (lines c !! l).

Definition set_line (c : cache) (l : nat) (ln : line) : cache :=
  mkCache (<[l := ln]> (lines c)) (queue c) (posLinePairs c) (hits c) (misses c).

(** [updateCacheLine]: flush the line if altered, load it if not
    loaded, both at the line's current key (the [old_key] argument is
    not used by the C function). *)
Definition updateCacheLine (l : nat) (w : world) : world :=
  let ln := get_line (the_cache w) l in
  if negb (loaded ln) || altered ln then
    (* if (line->altered) *)
    let '(fs1, err1, ln1) :=
      if altered ln then
        match pwrite (files w) (file_desc (key ln)) (data ln) (pos (key ln)) with
        | Some fs' => (fs', [], mkLine (key ln) (loaded ln) false (data ln))
        | None => (files w, [WriteError (file_desc (key ln))],
                   mkLine (key ln) (loaded ln) false (data ln))
        end
      else (files w, [], ln) in
    (* if (!line->loaded) *)
    let '(err2, ln2) :=
      if negb (loaded ln1) then
        match pread fs1 (file_desc (key ln1)) CACHE_LINE_SIZE (pos (key ln1)) with
        | None => ([ReadError (file_desc (key ln1))],
                   mkLine (key ln1) true (altered ln1) (data ln1))
        | Some bytes =>
            let d := bytes ++ drop (length bytes) (data ln1) in
            let d' := if Z.of_nat (length bytes) <? CACHE_LINE_SIZE
                      then <[length bytes := 0]> d else d in
            ([], mkLine (key ln1) true (altered ln1) d')
        end
      else ([], ln1) in
    mkWorld (set_line (the_cache w) l ln2) fs1 (stderr w ++ err1 ++ err2)
  else w.

(** Moving line [l] to the head of the queue. *)
Definition move_to_front (l : nat) (q : list nat) : list nat :=
  l :: filter (fun x => x ≠ l) q.

(** [getCacheLine]: the line holding byte [p] of file [fd]. *)
Definition getCacheLine (w : world) (fd : Z) (p : Z) : nat * world :=
  let c := the_cache w in
  let k := mkKey fd (p - p mod CACHE_LINE_SIZE) in
  let '(l, c1) :=
    match posLinePairs c !! key_pair k with
    | Some l => (* Hit *)
        (l, mkCache (lines c) (queue c) (posLinePairs c) (hits c + 1) (misses c))
    | None => (* Miss *)
        let l := default 0%nat (last (queue c)) in
        let ln := get_line c l in
        let table1 := if loaded ln then delete (key_pair (key ln)) (posLinePairs c)
                      else posLinePairs c in
        (* old_key = l->key; l->key = key; l->loaded = false; l->altered = false; *)
        let ln' := mkLine k false false (data ln) in
        (l, mkCache (<[l := ln']> (lines c)) (queue c)
                    (<[key_pair k := l]> table1) (hits c) (misses c + 1))
    end in
  let c2 := if decide (head (queue c1) = Some l) then c1
            else mkCache (lines c1) (move_to_front l (queue c1))
                         (posLinePairs c1) (hits c1) (misses c1) in
  (l, updateCacheLine l (mkWorld c2 (files w) (stderr w))).

(** [getStr]: [max_write] bytes from position [p], page after page. *)
Fixpoint getStr_pages (fuel : nat) (w : world) (fd : Z) (p : Z) (max_write : Z)
  : outcome (list Z * world) :=
  match fuel with
  | O => OutOfFuel
  | S fuel' =>
      let '(l, w1) := getCacheLine w fd p in
      let line_pos := p mod CACHE_LINE_SIZE in
      let str_len := CACHE_LINE_SIZE - line_pos in
      let write := Z.min str_len max_write in
      let got := take (Z.to_nat write)
                   (drop (Z.to_nat line_pos) (data (get_line (the_cache w1) l))) in
      if write <? max_write then
        '(rest, w2) ← getStr_pages fuel' w1 fd (p + str_len) (max_write - str_len);
        Returned (got ++ rest, w2)
      else Returned (got, w1)
  end.

Definition getStr (w : world) (fd : Z) (p : Z) (max_write : Z)
  : outcome (list Z * world) :=
  getStr_pages (S (Z.to_nat max_write)) w fd p max_write.

(** [setStr]: copies [write] bytes of [buffer] to position [p] and
    marks the touched lines altered. *)
Fixpoint setStr_pages (fuel : nat) (w : world) (fd : Z) (p : Z) (buffer : list Z) (write : Z)
  : outcome world :=
  match fuel with
  | O => OutOfFuel
  | S fuel' =>
      let '(l, w1) := getCacheLine w fd p in
      let ln := get_line (the_cache w1) l in
      let line_pos := p mod CACHE_LINE_SIZE in
      let str_len := CACHE_LINE_SIZE - line_pos in
      let write_cur := Z.min str_len write in
      let d := take (Z.to_nat line_pos) (data ln)
               ++ take (Z.to_nat write_cur) buffer
               ++ drop (Z.to_nat (line_pos + write_cur)) (data ln) in
      let w2 := mkWorld (set_line (the_cache w1) l (mkLine (key ln) (loaded ln) true d))
                        (files w1) (stderr w1) in
      if write_cur <? write then
        setStr_pages fuel' w2 fd (p + str_len) (drop (Z.to_nat str_len) buffer)
                     (write - str_len)
      else Returned w2
  end.

Definition setStr (w : world) (fd : Z) (p : Z) (buffer : list Z) (write : Z)
  : outcome world :=
  setStr_pages (S (Z.to_nat write)) w fd p buffer write.

(** [flushCache]: [updateCacheLine] on every entry of the hash table. *)
Definition flushCache (w : world) : world :=
  foldr (fun '(_, l) w' => updateCacheLine l w') w
        (map_to_list (posLinePairs (the_cache w))).

(** Byte [p] of file [fd] on disk. *)
Definition file_byte (w : world) (fd : Z) (p : nat) : option Z :=
  content ← files w !! fd; content !! p.

(** What [updateCacheLine] leaves in a line that it loads: the bytes
    that [pread] returns over the old bytes, and a 0 after them when
    the file ends inside the page. *)
Definition loaded_data (fs : filesystem) (k : KEY) (old : list Z) : list Z :=
  match pread fs (file_desc k) CACHE_LINE_SIZE (pos k) with
  | None => old
  | Some bytes =>
      let d := bytes ++ drop (length bytes) old in
      if Z.of_nat (length bytes) <? CACHE_LINE_SIZE then <[length bytes := 0]> d else d
  end.

(** *** Invariants of the cache *)

(** A key made by [getCacheLine]: the start of a page. *)
Definition page_key (k : KEY) : Prop := 0 <= pos k /\ pos k mod CACHE_LINE_SIZE = 0.

(** The structure of the cache: there is a line, the queue lists every
    line once, every line holds [CACHE_LINE_SIZE] bytes, the hash table
    maps exactly the keys of the loaded lines, each to its line, and
    these keys are starts of pages. *)
Definition cache_wf (c : cache) : Prop :=
  lines c <> [] /\
  Permutation (queue c) (seq 0 (length (lines c))) /\
  (forall l ln, lines c !! l = Some ln -> length (data ln) = Z.to_nat CACHE_LINE_SIZE) /\
  (forall k l, posLinePairs c !! k = Some l ->
     exists ln, lines c !! l = Some ln /\ key_pair (key ln) = k /\
                loaded ln = true /\ page_key (key ln)) /\
  (forall l ln, lines c !! l = Some ln -> loaded ln = true ->
     posLinePairs c !! key_pair (key ln) = Some l).

(** The line holds the bytes of its page, as far as the file reaches. *)
Definition line_agrees (fs : filesystem) (ln : line) : Prop :=
  forall content (i : nat) b,
    fs !! file_desc (key ln) = Some content ->
    content !! (Z.to_nat (pos (key ln)) + i)%nat = Some b ->
    (i < Z.to_nat CACHE_LINE_SIZE)%nat ->
    data ln !! i = Some b.

(** No loaded line has a pending write, and every loaded line agrees
    with its file. *)
Definition cache_clean (w : world) : Prop :=
  forall l ln, lines (the_cache w) !! l = Some ln -> loaded ln = true ->
    altered ln = false /\ line_agrees (files w) ln.

End Cache.

(** ** format.c *)

Module Format.

Inductive FormatType : Type :=
| BOOL | BINARY_BOOL | TYPE | BINARY_TYPE | INT | BINARY_INT | BINARY_DOUBLE
| STRING | STRING_NULL | INTLIST | BINARY_INTLIST | DATE | DATE_TIME
| BINARY_DATE_TIME.

(** [struct internal_pair] (the displacement of the length is not
    needed: objects are lists of members). *)
Record INTERNAL_PAIR : Type := mkPair { list_member : Z; length_member : Z }.

(** [struct format]. *)
Record format : Type := mkFormat {
  members : Z;
  types : list FormatType;
  lists : list INTERNAL_PAIR;
  separator : Z
}.

(** The value held by a member of the formatted struct. *)
Inductive member_value : Type :=
| VBool (b : bool)
| VType (t : Z)
| VInt (n : Z)
| VDouble (bytes : list Z)            (* the 8 bytes of the double *)
| VString (s : option (list Z))       (* char*, NULL is None *)
| VIntList (l : option (list Z))      (* int*, NULL is None *)
| VDate (d : Date.date).

Definition stringSize (type : FormatType) : Z :=
  match type with
  | BINARY_BOOL => 1
  | BINARY_TYPE => 1
  | BINARY_INT => 4
  | BINARY_DATE_TIME => 4
  | DATE => 10
  | DATE_TIME => 19
  | BINARY_DOUBLE => 8
  | _ => 0
  end.

Definition elemStringSize (type : FormatType) : Z :=
  match type with
  | BINARY_INTLIST => 4
  | STRING | STRING_NULL => 1
  | _ => 0
  end.

Definition isBinary (f : format) : bool := separator f =? 0.
Definition getFormatMembers (f : format) : Z := members f.
Definition getMemberType (f : format) (i : Z) : outcome FormatType :=
  read_cell (array_get (types f) i).
Definition getListPairListMember (f : format) (i : Z) : outcome Z :=
  p ← read_cell (array_get (lists f) i); Returned (list_member p).
Definition getListPairLengthMember (f : format) (i : Z) : outcome Z :=
  p ← read_cell (array_get (lists f) i); Returned (length_member p).

(** [*(int* )p] on the bytes of a buffer, in the byte order of the host
    (little-endian). *)
Definition host_int_of_bytes (bytes : list Z) : Z :=
  let b i := default 0 (bytes !! i) in
  wrap32 (b 0%nat + b 1%nat * 2^8 + b 2%nat * 2^16 + b 3%nat * 2^24).

(** [strncpy(dest, str, n)]: the bytes up to the first NUL, then NULs. *)
Fixpoint strncpy (str : list Z) (n : nat) : list Z :=
  match n with
  | O => []
  | S n' =>
      match str with
      | [] => replicate n 0
      | c :: str' => if c =? 0 then replicate n 0 else c :: strncpy str' n'
      end
  end.

(** [BinaryStringTointList]. *)
Fixpoint BinaryStringTointList (bytes : list Z) (N : nat) : list Z :=
  match N with
  | O => []
  | S N' => Utils.readIntFromBinaryString bytes
              :: BinaryStringTointList (drop 4 bytes) N'
  end.

(** [(int)str[0]]: [char] is signed, so a byte of 128 or more is read
    as a negative number. *)
Definition signed_char (b : Z) : Z := (b + 128) mod 256 - 128.

(** [readBinaryMember]: the member decoded from [str]. *)
Definition readBinaryMember (type : FormatType) (str : list Z) (str_len : Z)
  : outcome member_value :=
  match type with
  | BINARY_BOOL => Returned (VBool (negb (default 0 (str !! 0%nat) =? 0)))
  | BINARY_TYPE => Returned (VType (signed_char (default 0 (str !! 0%nat))))
  | BINARY_INT => Returned (VInt (Utils.readIntFromBinaryString str))
  | BINARY_DOUBLE => Returned (VDouble (take 8 str))
  | STRING_NULL | STRING =>
      if str_len =? 0 then Returned (VString None)
      else Returned (VString (Some (strncpy str (Z.to_nat str_len))))
  | BINARY_INTLIST =>
      let N := cdiv str_len 4 in
      if N =? 0 then Returned (VIntList None)
      else Returned (VIntList (Some (BinaryStringTointList str (Z.to_nat N))))
  | BINARY_DATE_TIME =>
      Returned (VDate (Date.getUncompactedDate (Utils.readIntFromBinaryString str)))
  | _ => ExitFailure
  end.

(** Overwriting the start of a buffer. *)
Definition blit (bytes dest : list Z) : list Z :=
  bytes ++ drop (length bytes) dest.

(** [writeBinaryMember(type, src, dest, dest_len)]: the contents of
    [dest] afterwards.  [dest] comes in holding whatever the buffer
    held before the call.  In the [BINARY_INT] case the C function
    passes [*(int* )dest], not [*(int* )src], to
    [writeIntToBinaryString]. *)
Definition writeBinaryMember (type : FormatType) (src : member_value)
    (dest : list Z) (dest_len : Z) : outcome (list Z) :=
  match type, src with
  | BINARY_BOOL, VBool b => Returned (blit [if b then 1 else 0] dest)
  | BINARY_TYPE, VType t => Returned (blit [t mod 256] dest)
  | BINARY_INT, _ =>
      Returned (blit (Utils.writeIntToBinaryString (host_int_of_bytes dest)) dest)
  | (STRING_NULL | STRING), VString None => Returned dest
  | (STRING_NULL | STRING), VString (Some s) =>
      if dest_len <=? Z.of_nat (length s) + 1
      then Returned (blit (take (Z.to_nat dest_len) (s ++ [0])) dest)
      else OutOfBounds
  | BINARY_INTLIST, VIntList None =>
      if cdiv dest_len 4 <=? 0 then Returned dest else OutOfBounds
  | BINARY_INTLIST, VIntList (Some l) =>
      if cdiv dest_len 4 <=? Z.of_nat (length l)
      then Returned (blit (Utils.IntListToBinaryString (Z.to_nat (cdiv dest_len 4)) l) dest)
      else OutOfBounds
  | BINARY_DATE_TIME, VDate d =>
      Returned (blit (Utils.writeIntToBinaryString (Date.getCompactedDate d)) dest)
  | (BINARY_BOOL | BINARY_TYPE | STRING_NULL | STRING | BINARY_INTLIST
     | BINARY_DATE_TIME), _ => OutOfBounds   (* the member is not of this type *)
  | _, _ => ExitFailure
  end.

(** The binary encoding of a member, as [printFormat] writes it. *)
Definition binary_encoding (type : FormatType) (v : member_value) : option (list Z) :=
  match type, v with
  | BINARY_BOOL, VBool b => Some [if b then 1 else 0]
  | BINARY_TYPE, VType t => Some [t mod 256]
  | BINARY_INT, VInt n => Some (Utils.writeIntToBinaryString n)
  | BINARY_DOUBLE, VDouble bytes => Some bytes
  | BINARY_INTLIST, VIntList None => Some []
  | BINARY_INTLIST, VIntList (Some l) => Some (Utils.IntListToBinaryString (length l) l)
  | BINARY_DATE_TIME, VDate d => Some (Utils.writeIntToBinaryString (Date.getCompactedDate d))
  | (STRING | STRING_NULL), VString None => Some []
  | (STRING | STRING_NULL), VString (Some s) => Some s
  | _, _ => None
  end.

End Format.

(** ** lazy.c *)

Module Lazy.
Import Format.

(** [struct lazy]; [file] is the descriptor of the file. *)
Record lazy : Type := mkLazy {
  file : Z;
  pos : Z;
  format : Format.format;
  obj : list member_value;
  loaded : list bool;
  altered : list bool;
  string_pos : list Z;
  string_pos_it : Z;
  list_index : Z
}.

Definition wrap64 (z : Z) : Z := z mod 2^64.

(** [makeLazy] on a binary format ([NULL] on a textual one). *)
Definition makeLazy (file : Z) (pos : Z) (f : Format.format) (obj : list member_value)
  : option lazy :=
  if negb (isBinary f) then None
  else
    let n := Z.to_nat (getFormatMembers f) in
    Some (mkLazy file pos f obj (replicate n false) (replicate n false)
                 (<[0%nat := pos]> (replicate (S n) 0)) 0 0).

(** Array writes that must stay inside the array. *)
Definition array_set {A} (l : list A) (i : Z) (x : A) : outcome (list A) :=
  if (0 <=? i) && (i <? Z.of_nat (length l)) then Returned (<[Z.to_nat i := x]> l)
  else OutOfBounds.

(** [*(int* )member]. *)
Definition as_int (v : member_value) : outcome Z :=
  match v with VInt n => Returned n | _ => OutOfBounds end.

Definition with_string_pos (l : lazy) (sp : list Z) (it li : Z) : lazy :=
  mkLazy (file l) (pos l) (format l) (obj l) (loaded l) (altered l) sp it li.

(** [loadStringPos], with [get] standing for [getLazyMember]; [n]
    bounds the iterations of the loop. *)
Fixpoint loadStringPos_loop
    (get : lazy -> Z -> Cache.world -> outcome (member_value * lazy * Cache.world))
    (n : nat) (l : lazy) (p : Z) (w : Cache.world) : outcome (lazy * Cache.world) :=
  if string_pos_it l <? p then
    match n with
    | O => OutOfFuel
    | S n' =>
        let it := string_pos_it l + 1 in
        t ← getMemberType (format l) (it - 1);
        prev ← read_cell (array_get (string_pos l) (it - 1));
        if stringSize t =? 0 then
          (* the length is unknown: a binary list type *)
          lm ← getListPairLengthMember (format l) (list_index l);
          '(v, l1, w1) ← get (with_string_pos l (string_pos l) it (list_index l + 1)) lm w;
          len ← as_int v;
          sp ← array_set (string_pos l1) it
                 (wrap64 (wrap64 (wrap32 (len * elemStringSize t)) + prev));
          loadStringPos_loop get n' (with_string_pos l1 sp (string_pos_it l1) (list_index l1)) p w1
        else
          sp ← array_set (string_pos l) it (wrap64 (stringSize t + prev));
          loadStringPos_loop get n' (with_string_pos l sp it (list_index l)) p w
    end
  else Returned (l, w).

(** [getLazyMember]; [fuel] bounds the depth of the recursion through
    [loadStringPos]. *)
Fixpoint getLazyMember (fuel : nat) (l : lazy) (member : Z) (w : Cache.world)
  : outcome (member_value * lazy * Cache.world) :=
  match fuel with
  | O => OutOfFuel
  | S fuel' =>
      ld ← read_cell (array_get (loaded l) member);
      if ld : bool then
        v ← read_cell (array_get (obj l) member); Returned (v, l, w)
      else
        '(l1, w1) ← loadStringPos_loop (getLazyMember fuel')
                      (Z.to_nat (getFormatMembers (format l)) + 1) l (member + 1) w;
        hi ← read_cell (array_get (string_pos l1) (member + 1));
        lo ← read_cell (array_get (string_pos l1) member);
        let length := wrap32 (hi - lo) in
        '(buffer, w2) ← Cache.getStr w1 (file l1) lo length;
        t ← getMemberType (format l1) member;
        v ← readBinaryMember t buffer length;
        o ← array_set (obj l1) member v;
        ld' ← array_set (loaded l1) member true;
        Returned (v, mkLazy (file l1) (pos l1) (format l1) o ld' (altered l1)
                            (string_pos l1) (string_pos_it l1) (list_index l1), w2)
  end.

(** [setLazyMember] followed by the store through the pointer it
    returns: [*(T* )setLazyMember(l, member) = v]. *)
Definition setLazyMember (l : lazy) (member : Z) (v : member_value) : outcome lazy :=
  ld ← array_set (loaded l) member true;
  al ← array_set (altered l) member true;
  o ← array_set (obj l) member v;
  Returned (mkLazy (file l) (pos l) (format l) o ld al
                   (string_pos l) (string_pos_it l) (list_index l)).

(** [getPosOfLazyMember]. *)
Definition getPosOfLazyMember (fuel : nat) (l : lazy) (member : Z) (w : Cache.world)
  : outcome (Z * lazy * Cache.world) :=
  '(l1, w1) ← loadStringPos_loop (getLazyMember fuel)
                (Z.to_nat (getFormatMembers (format l)) + 1) l member w;
  p ← read_cell (array_get (string_pos l1) member);
  Returned (p, l1, w1).

(** The loop [while (getListPairListMember(l->format, list_index) < i)]
    of [printLazyToFile]. *)
Fixpoint advance_list_index (n : nat) (f : Format.format) (list_index i : Z) : outcome Z :=
  lm ← getListPairListMember f list_index;
  if lm <? i then
    match n with
    | O => OutOfFuel
    | S n' => advance_list_index n' f (list_index + 1) i
    end
  else Returned list_index.

(** [printLazyToFile]: the loop over the members from [i], with [n]
    members left.  [uninit len] is what a fresh buffer of [len] bytes
    holds before it is written. *)
Fixpoint printLazyToFile_loop (fuel : nat) (uninit : Z -> list Z) (n : nat)
    (i : Z) (list_index : Z) (l : lazy) (w : Cache.world) : outcome (lazy * Cache.world) :=
  match n with
  | O => Returned (l, w)
  | S n' =>
      al ← read_cell (array_get (altered l) i);
      if al : bool then
        t ← getMemberType (format l) i;
        '(length, list_index1, l1, w1) ←
          (if stringSize t =? 0 then
             li ← advance_list_index (Z.to_nat (getFormatMembers (format l)))
                    (format l) list_index i;
             lm ← getListPairLengthMember (format l) li;
             '(v, l1, w1) ← getLazyMember fuel l lm w;
             len ← as_int v;
             Returned (wrap32 (len * elemStringSize t), li, l1, w1)
           else Returned (stringSize t, list_index, l, w));
        src ← read_cell (array_get (obj l1) i);
        buffer ← writeBinaryMember t src (uninit length) length;
        p ← read_cell (array_get (string_pos l1) i);
        w2 ← Cache.setStr w1 (file l1) p buffer length;
        printLazyToFile_loop fuel uninit n' (i + 1) list_index1 l1 w2
      else printLazyToFile_loop fuel uninit n' (i + 1) list_index l w
  end.

Definition printLazyToFile (fuel : nat) (uninit : Z -> list Z) (l : lazy) (w : Cache.world)
  : outcome (lazy * Cache.world) :=
  printLazyToFile_loop fuel uninit (Z.to_nat (getFormatMembers (format l))) 0 (-1) l w.

(** Where member [k] of an object starts when the members before it are
    of fixed size: the sum of their sizes. *)
Definition member_offset (f : Format.format) (k : nat) : Z :=
  foldr Z.add 0 (map stringSize (take k (types f))).

End Lazy.

(** ** indexer.c *)

Module Indexer.

(** The maximum number of lines copied to RAM at once. *)
Definition MAX_FILE_LINES : Z := 8388608.

(** A line of the index file: two [pos_t]. *)
Record LINE : Type := mkLINE { key : Z; value : Z }.

(** Messages printed on [stderr]. *)
Inductive message : Type :=
| MustBeSorted                          (* groupIndexer: indexer must be sorted *)
| UnexpectedRead (read expected : Z).   (* unexpected number of objects read *)

#[global] Instance message_eq_dec : EqDecision message.
Proof. solve_decision. Defined.

(** A stdio stream on a file of bytes: contents and position. *)
Record FILE : Type := mkFILE { content : list Z; fpos : Z }.

Definition fseek (f : FILE) (p : Z) : FILE := mkFILE (content f) p.

Definition fwrite (f : FILE) (bytes : list Z) : FILE :=
  mkFILE (Cache.write_at (content f) (Z.to_nat (fpos f)) bytes)
         (fpos f + Z.of_nat (length bytes)).

(** [fread] of [n] bytes: what is there, and the stream afterwards. *)
Definition fread (f : FILE) (n : Z) : list Z * FILE :=
  let got := take (Z.to_nat n) (drop (Z.to_nat (fpos f)) (content f)) in
  (got, mkFILE (content f) (fpos f + Z.of_nat (length got))).

(** The bytes of an object in memory, in the byte order of the host
    (little-endian): what [fwrite(&x, sizeof x, 1, f)] writes. *)
Fixpoint host_bytes (n : nat) (v : Z) : list Z :=
  match n with
  | O => []
  | S n' => v mod 256 :: host_bytes n' (v / 256)
  end.

Fixpoint host_unsigned (bytes : list Z) : Z :=
  match bytes with
  | [] => 0
  | b :: bytes' => b + 256 * host_unsigned bytes'
  end.

Definition bytes_of_pos_t (v : Z) : list Z := host_bytes 8 v.
Definition pos_t_of_bytes (bytes : list Z) : Z := host_unsigned (take 8 bytes).
Definition bytes_of_int (v : Z) : list Z := host_bytes 4 v.
Definition int_of_bytes (bytes : list Z) : Z := wrap32 (host_unsigned (take 4 bytes)).

(** [compareAux]: the order of [pos_t]. *)
Definition compareAux (a b : Z) : Z :=
  if b >? a then -1 else if b <? a then 1 else 0.

(** [directCmp] of catalog.c (its file and cache arguments are unused). *)
Definition directCmp (a b : Z) : Z :=
  if a <? b then -1 else if a >? b then 1 else 0.

(** The loop of [removeDuplicatesAux]:
    [for (i = 1; i < elems; i++) if (aux[i] != aux[last]) aux[++last] = aux[i];]
    with [n] iterations left. *)
Fixpoint removeDuplicates_loop (n : nat) (aux : list Z) (last i : nat) : list Z * nat :=
  match n with
  | O => (aux, last)
  | S n' =>
      let ai := default 0 (aux !! i) in
      if decide (ai ≠ default 0 (aux !! last))
      then removeDuplicates_loop n' (<[S last := ai]> aux) (S last) (S i)
      else removeDuplicates_loop n' aux last (S i)
  end.

(** Decoding [elems] consecutive [pos_t] from the bytes read; cells the
    read did not reach stay as they were (zero). *)
Fixpoint decode_pos_ts (elems : nat) (bytes : list Z) : list Z :=
  match elems with
  | O => []
  | S n => pos_t_of_bytes bytes :: decode_pos_ts n (drop 8 bytes)
  end.

(** [removeDuplicatesAux(f, pos, elems, ...)]: the file afterwards, the
    new size of the block, and what was logged. *)
Definition removeDuplicatesAux (f : FILE) (p : Z) (elems : Z)
  : FILE * Z * list message :=
  let '(bytes, f1) := fread (fseek f p) (8 * elems) in
  let read := Z.of_nat (length bytes) / 8 in
  let log := if decide (read ≠ elems) then [UnexpectedRead read elems] else [] in
  let aux := Utils.qsort compareAux (decode_pos_ts (Z.to_nat elems) bytes) in
  let '(aux', last) := removeDuplicates_loop (Z.to_nat elems - 1) aux 0 1 in
  let f2 := fwrite (fseek f1 p)
              (concat (map bytes_of_pos_t (take (S last) aux'))) in
  (f2, Z.of_nat (S last), log).

(** Reading a grouped values file ([getGroupSize], [getGroupElem]: an
    [int], respectively a [pos_t], at a byte offset). *)
Definition getGroupSize (values : list Z) (group : Z) : Z :=
  int_of_bytes (drop (Z.to_nat group) values).

Definition getGroupElem (values : list Z) (group : Z) (elem : Z) : Z :=
  pos_t_of_bytes (drop (Z.to_nat (group + 4 + 8 * elem)) values).

(** The block of a group: its elements in order. *)
Definition getGroupBlock (values : list Z) (group : Z) : list Z :=
  map (fun e => getGroupElem values group (Z.of_nat e))
      (seq 0 (Z.to_nat (getGroupSize values group))).

(** *** The grouped layout as the specification describes it *)

(** A values block: the count, then the values. *)
Definition block_bytes (b : list Z) : list Z :=
  bytes_of_int (Z.of_nat (length b)) ++ concat (map bytes_of_pos_t b).

(** The values file: the blocks one after the other. *)
Definition spec_values_file (blocks : list (list Z)) : list Z :=
  concat (map block_bytes blocks).

(** The index entries (key, block offset) of consecutive groups, the
    first block being at [offset]. *)
Fixpoint spec_index (groups : list (Z * list Z)) (offset : Z) : list LINE :=
  match groups with
  | [] => []
  | (k, b) :: gs => mkLINE k offset :: spec_index gs (offset + 4 + 8 * Z.of_nat (length b))
  end.

(** Collapsing adjacent duplicates. *)
Definition spec_collapse_step (acc : list Z) (x : Z) : list Z :=
  match last acc with
  | Some y => if decide (x = y) then acc else acc ++ [x]
  | None => [x]
  end.

Definition spec_collapse (l : list Z) : list Z := fold_left spec_collapse_step l [].

(** The block of a group holding [vals]: with [dedup], sorted with
    adjacent duplicates collapsed. *)
Definition spec_block (dedup : bool) (vals : list Z) : list Z :=
  if dedup then spec_collapse (Utils.qsort compareAux vals) else vals.

(** Lines whose key and value are [pos_t]. *)
Definition line_ok (l : LINE) : Prop := pos_t_range (key l) /\ pos_t_range (value l).

(** [struct heap]: positions and run numbers are non-negative ints. *)
Record HEAP : Type := mkHEAP { values : list LINE; heap : list nat; size : nat }.

(** [struct indexer], the fields that [insertIntoIndex] touches: the
    index file, the number of lines and the flag read by [flushIndex]. *)
Record indexer : Type := mkIndexer {
  index_file : FILE;
  elem_no : Z;
  changed_since_cache_refresh : bool
}.

(** [makeIndexer]: a new, empty index file. *)
Definition makeIndexer : indexer := mkIndexer (mkFILE [] 0) 0 false.

(** The bytes of a [LINE] in the index file. *)
Definition bytes_of_LINE (l : LINE) : list Z :=
  bytes_of_pos_t (key l) ++ bytes_of_pos_t (value l).

(** [insertIntoIndex(i, key, value)]; [elem_no] is an int, and the
    properties keep it below [2^31], where [elem_no++] is exact. *)
Definition insertIntoIndex (i : indexer) (k v : Z) : indexer :=
  let f := fseek (index_file i) (elem_no i * 16) in
  mkIndexer (fwrite f (bytes_of_LINE (mkLINE k v))) (elem_no i + 1) true.

(** [parseIndexer] on an existing index file: the number of lines is
    the size of the file over [sizeof(LINE)]. *)
Definition parseIndexer (file : list Z) : indexer :=
  mkIndexer (mkFILE file (Z.of_nat (length file))) (Z.of_nat (length file) / 16) false.

(** The lines held by the bytes of an index file. *)
Fixpoint LINEs_of_bytes (n : nat) (bytes : list Z) : list LINE :=
  match n with
  | O => []
  | S n' => mkLINE (pos_t_of_bytes bytes) (pos_t_of_bytes (drop 8 bytes))
              :: LINEs_of_bytes n' (drop 16 bytes)
  end.

(** The indexer after the lines [pre] were inserted: the file holds
    their bytes and [elem_no] counts them. *)
Definition index_holds (i : indexer) (pre : list LINE) : Prop :=
  content (index_file i) = concat (map bytes_of_LINE pre) /\
  elem_no i = Z.of_nat (length pre).

Section WithComparator.

(** The indexer's [cmpKeys] as a function of the two keys it is given
    (the key file and the cache are those of the indexer). *)
Variable cmpKeys : Z -> Z -> Z.

(** The key of the value that position [p] of the heap refers to. *)
Definition heap_key (h : HEAP) (p : nat) : outcome Z :=
  j ← read_cell (heap h !! p);
  v ← read_cell (values h !! j);
  Returned (key v).

Definition heap_swap (h : HEAP) (a b : nat) : outcome HEAP :=
  x ← read_cell (heap h !! a);
  y ← read_cell (heap h !! b);
  Returned (mkHEAP (values h) (<[b := x]> (<[a := y]> (heap h))) (size h)).

(** [heapify(h, i, c, elem)]. *)
Fixpoint heapify (fuel : nat) (h : HEAP) (elem : nat) : outcome HEAP :=
  match fuel with
  | O => OutOfFuel
  | S fuel' =>
      let l := (2 * elem + 1)%nat in
      let r := (2 * elem + 2)%nat in
      smallest ←
        (if decide (l < size h)%nat then
           kl ← heap_key h l; ke ← heap_key h elem;
           Returned (if cmpKeys kl ke <? 0 then l else elem)
         else Returned elem);
      smallest ←
        (if decide (r < size h)%nat then
           kr ← heap_key h r; ks ← heap_key h smallest;
           Returned (if cmpKeys kr ks <? 0 then r else smallest)
         else Returned smallest);
      if decide (smallest ≠ elem) then
        h' ← heap_swap h elem smallest;
        heapify fuel' h' smallest
      else Returned h
  end.

(** [popHeap]: the run with the smallest key, and the heap without it. *)
Definition popHeap (h : HEAP) : outcome (nat * HEAP) :=
  ans ← read_cell (heap h !! 0%nat);
  let sz := (size h - 1)%nat in
  if decide (0 < sz)%nat then
    lastv ← read_cell (heap h !! sz);
    h' ← heapify (S sz) (mkHEAP (values h) (<[0%nat := lastv]> (heap h)) sz) 0;
    Returned (ans, h')
  else Returned (ans, mkHEAP (values h) (heap h) sz).

(** The loop of [pushHeap] that restores the heap property upwards. *)
Fixpoint pushHeap_loop (fuel : nat) (h : HEAP) (pos : nat) : outcome HEAP :=
  let parent := ((pos - 1) / 2)%nat in
  if decide (pos ≠ 0%nat) then
    kp ← heap_key h parent;
    kc ← heap_key h pos;
    if cmpKeys kp kc >? 0 then
      match fuel with
      | O => OutOfFuel
      | S fuel' => h' ← heap_swap h pos parent; pushHeap_loop fuel' h' parent
      end
    else Returned h
  else Returned h.

(** [pushHeap(h, i, c, val)]. *)
Definition pushHeap (h : HEAP) (val : nat) : outcome HEAP :=
  let pos := size h in
  if decide (pos < length (heap h))%nat then
    pushHeap_loop pos (mkHEAP (values h) (<[pos := val]> (heap h)) (S pos)) pos
  else OutOfBounds.

(** [qsort_r(buffer, size, sizeof(LINE), compareLines, &p)]. *)
Definition compareLines (a b : LINE) : Z := cmpKeys (key a) (key b).

(** First loop of [sortIndexer]: the index is cut into runs, each read
    into [buffer] (which holds [cap] lines), sorted and written to its
    temporary file.  [rest] is the part of the index not yet read, [j]
    the number of runs written. *)
Fixpoint make_runs (fuel : nat) (k cap : Z) (elem_no : Z) (rest : list LINE)
    (l : Z) (j : Z) : outcome (list (list LINE)) :=
  if l <? elem_no then
    match fuel with
    | O => OutOfFuel
    | S fuel' =>
        let size := elem_no / k + (if elem_no mod k >? j then 1 else 0) in
        if size >? cap then OutOfBounds       (* fread past the end of buffer *)
        else
          let buffer := take (Z.to_nat size) rest in
          tmp ← make_runs fuel' k cap elem_no (drop (Z.to_nat size) rest) (l + size) (j + 1);
          Returned (Utils.qsort compareLines buffer :: tmp)
    end
  else Returned [].

(** [fread(&h.values[j], sizeof(LINE), 1, tmp_files[j])]: the next line
    of run [j], if there is one. *)
Definition read_run (tmp_files : list (list LINE)) (j : nat)
  : option (LINE * list (list LINE)) :=
  match tmp_files !! j with
  | Some (x :: run) => Some (x, <[j := run]> tmp_files)
  | _ => None
  end.

(** Second loop: the heap is filled with the first line of every run. *)
Fixpoint fill_heap (n : nat) (j : nat) (tmp_files : list (list LINE)) (h : HEAP)
  : outcome (list (list LINE) * HEAP) :=
  match n with
  | O => Returned (tmp_files, h)
  | S n' =>
      match read_run tmp_files j with
      | Some (x, tmp_files') =>
          h' ← pushHeap (mkHEAP (<[j := x]> (values h)) (heap h) (size h)) j;
          fill_heap n' (S j) tmp_files' h'
      | None => fill_heap n' (S j) tmp_files h
      end
  end.

(** Third loop, [while (h.size)]: the merge. *)
Fixpoint merge_runs (fuel : nat) (tmp_files : list (list LINE)) (h : HEAP)
    (out : list LINE) : outcome (list LINE) :=
  if decide (size h ≠ 0%nat) then
    match fuel with
    | O => OutOfFuel
    | S fuel' =>
        '(branch, h1) ← popHeap h;
        v ← read_cell (values h1 !! branch);
        match read_run tmp_files branch with
        | Some (x, tmp_files') =>
            h2 ← pushHeap (mkHEAP (<[branch := x]> (values h1)) (heap h1) (size h1)) branch;
            merge_runs fuel' tmp_files' h2 (out ++ [v])
        | None => merge_runs fuel' tmp_files h1 (out ++ [v])
        end
    end
  else Returned out.

(** [sortIndexer] with [MAX_FILE_LINES] as a parameter: the index file
    afterwards.  [elem_no] is the number of lines of the index.  The
    number of runs [k] is computed in int, sum and quotient, and then
    converted to [pos_t]. *)
Definition sortIndexer_with (max_file_lines : Z) (index : list LINE)
  : outcome (list LINE) :=
  let elem_no := Z.of_nat (length index) in
  let k := (cdiv (wrap32 (elem_no + max_file_lines - 1)) max_file_lines) mod 2^64 in
  if k =? 0 then DivisionByZero       (* i->elem_no / k *)
  else
    let cap := elem_no / k in
    tmp_files ← make_runs (length index) k cap elem_no index 0 0;
    let h0 := mkHEAP (replicate (Z.to_nat k) (mkLINE 0 0)) (replicate (Z.to_nat k) 0%nat) 0 in
    '(tmp_files', h) ← fill_heap (Z.to_nat k) 0 tmp_files h0;
    merge_runs (S (length index)) tmp_files' h [].

Definition sortIndexer (index : list LINE) : outcome (list LINE) :=
  sortIndexer_with MAX_FILE_LINES index.

(** State of the loop of [groupIndexer]. *)
Record group_state : Type := mkGroup {
  dest : list LINE;          (* the new index file *)
  out : FILE;                (* the values file *)
  out_block : Z;
  out_pos : Z;
  block_length : Z;
  block_no : Z;
  last_key : Z;
  log : list message
}.

(** Closing the current block: its values are deduplicated when asked,
    and its length is written in front of it. *)
Definition close_block (removeDuplicateVals : bool) (s : group_state) : group_state :=
  let '(out1, block_length1, out_pos1, log1) :=
    if removeDuplicateVals then
      let '(f, n, lg) := removeDuplicatesAux (out s) (out_block s + 4) (block_length s) in
      (f, n, out_block s + 4 + 8 * n, lg)
    else (out s, block_length s, out_pos s, []) in
  let out2 := fwrite (fseek out1 (out_block s)) (bytes_of_int block_length1) in
  mkGroup (dest s) out2 (out_block s) out_pos1 block_length1 (block_no s)
          (last_key s) (log s ++ log1).

(** One iteration of [while (fread(&l, sizeof(LINE), 1, i->index))]. *)
Definition group_step (removeDuplicateVals : bool) (s : group_state) (l : LINE)
  : group_state :=
  let cmp := cmpKeys (key l) (last_key s) in
  let s0 := if cmp <? 0
            then mkGroup (dest s) (out s) (out_block s) (out_pos s) (block_length s)
                         (block_no s) (last_key s) (log s ++ [MustBeSorted])
            else s in
  let s1 :=
    if cmp =? 0 then
      mkGroup (dest s0) (out s0) (out_block s0) (out_pos s0) (block_length s0 + 1)
              (block_no s0) (last_key s0) (log s0)
    else
      let c := close_block removeDuplicateVals s0 in
      let out_block' := out_pos c in
      let out_pos' := out_pos c + 4 in
      mkGroup (dest c ++ [mkLINE (key l) out_block'])
              (fseek (out c) out_pos') out_block' out_pos' 1 (block_no c + 1)
              (key l) (log c) in
  mkGroup (dest s1) (fwrite (out s1) (bytes_of_pos_t (value l))) (out_block s1)
          (out_pos s1 + 8) (block_length s1) (block_no s1) (last_key s1) (log s1).

(** What [groupIndexer] leaves behind. *)
Record grouped : Type := mkGrouped {
  new_index : list LINE;     (* i->index *)
  new_values : list Z;       (* the file at [value_file], now i->values *)
  new_elem_no : Z;
  errors : list message
}.

(** [groupIndexer(i, value_file, removeDuplicateVals, c)]. *)
Definition groupIndexer (index : list LINE) (removeDuplicateVals : bool) : grouped :=
  match index with
  | [] => mkGrouped [] [] 0 []
  | l :: rest =>
      let out0 := fwrite (fseek (mkFILE [] 0) 4) (bytes_of_pos_t (value l)) in
      let s0 := mkGroup [mkLINE (key l) 0] out0 0 (4 + 8) 1 1 (key l) [] in
      let s := fold_left (group_step removeDuplicateVals) rest s0 in
      let c := close_block removeDuplicateVals s in
      mkGrouped (dest c) (content (out c)) (block_no c) (log c)
  end.

(** The loop of [retrieveKeyLowerBound] (and of [retrieveKey]):
    [while (m = (l + r) / 2, l < r)]. *)
Fixpoint search_loop (fuel : nat) (index : list LINE) (k : Z) (l r : Z)
  : outcome (Z * Z) :=
  if l <? r then
    match fuel with
    | O => OutOfFuel
    | S fuel' =>
        let m := cdiv (wrap32 (l + r)) 2 in
        aux ← read_cell (array_get index m);
        let cmp := cmpKeys k (key aux) in
        if cmp <? 0 then search_loop fuel' index k l (m - 1)
        else if cmp >? 0 then search_loop fuel' index k (m + 1) r
        else search_loop fuel' index k l m
    end
  else Returned (l, r).

(** [retrieveKeyLowerBound(i, key, c)]. *)
Definition retrieveKeyLowerBound (index : list LINE) (k : Z) : outcome Z :=
  let elem_no := Z.of_nat (length index) in
  if elem_no =? 0 then Returned 0
  else
    '(l, _) ← search_loop (length index) index k 0 (elem_no - 1);
    aux ← read_cell (array_get index l);
    if cmpKeys k (key aux) <=? 0 then Returned l else Returned (l + 1).

(** [retrieveKey(i, key, c)]: the same loop; the slot it ends on is the
    answer when its key compares equal to the search key, -1 is "not
    found". *)
Definition retrieveKey (index : list LINE) (k : Z) : outcome Z :=
  let elem_no := Z.of_nat (length index) in
  if elem_no =? 0 then Returned (-1)
  else
    '(l, _) ← search_loop (length index) index k 0 (elem_no - 1);
    aux ← read_cell (array_get index l);
    if cmpKeys k (key aux) =? 0 then Returned l else Returned (-1).

(** The complaint of the functions that take a slot number:
    "key_order %d is out of bounds". *)
Inductive slot_message : Type :=
| KeyOrderOutOfBounds (key_order : Z).

(** [retrieveEmbeddedKey(i, key_order, c)] and
    [retrieveEmbeddedValue(i, key_order, c)]: the field of the slot and
    what was printed on [stderr]. *)
Definition retrieveEmbeddedKey (index : list LINE) (key_order : Z)
  : Z * list slot_message :=
  if (key_order <? 0) || (key_order >=? Z.of_nat (length index))
  then (0, [KeyOrderOutOfBounds key_order])
  else (key (default (mkLINE 0 0) (array_get index key_order)), []).

Definition retrieveEmbeddedValue (index : list LINE) (key_order : Z)
  : Z * list slot_message :=
  if (key_order <? 0) || (key_order >=? Z.of_nat (length index))
  then (0, [KeyOrderOutOfBounds key_order])
  else (value (default (mkLINE 0 0) (array_get index key_order)), []).

(** [getEmbeddedValue(i, key, c)]. *)
Definition getEmbeddedValue (index : list LINE) (k : Z)
  : outcome (Z * list slot_message) :=
  key_order ← retrieveKey index k;
  Returned (retrieveEmbeddedValue index key_order).

(** [findEmbeddedValue(i, key, c, ans)]: the returned flag, the contents
    of [*ans] afterwards ([ans] before the call) and what was printed. *)
Definition findEmbeddedValue (index : list LINE) (k : Z) (ans : Z)
  : outcome (bool * Z * list slot_message) :=
  key_order ← retrieveKey index k;
  if key_order =? -1 then Returned (false, ans, [])
  else
    let '(v, log) := retrieveEmbeddedValue index key_order in
    Returned (true, v, log).

(** The order of the index: no earlier key is greater than a later one. *)
Definition sorted_index (index : list LINE) : Prop :=
  forall (i j : nat) a b, (i < j)%nat -> index !! i = Some a -> index !! j = Some b ->
    cmpKeys (key a) (key b) <= 0.

(** *** Invariants of the merge heap *)

(** The key that position [p] of the heap refers to. *)
Definition hkey (vals : list LINE) (hp : list nat) (p : nat) : Z :=
  key (default (mkLINE 0 0) (vals !! default 0%nat (hp !! p))).

(** Min-heap order of the first [sz] positions. *)
Definition heap_prop (vals : list LINE) (hp : list nat) (sz : nat) : Prop :=
  forall c, (0 < c < sz)%nat ->
    cmpKeys (hkey vals hp ((c - 1) / 2)) (hkey vals hp c) <= 0.

(** The first [sz] positions hold run numbers. *)
Definition heap_wf (vals : list LINE) (hp : list nat) (sz : nat) : Prop :=
  (sz <= length hp)%nat /\
  forall p j, (p < sz)%nat -> hp !! p = Some j -> (j < length vals)%nat.

(** Heap order but for position [e], which may be larger than its
    children (the state of [heapify]). *)
Definition heap_but_down (vals : list LINE) (hp : list nat) (sz e : nat) : Prop :=
  (forall c, (0 < c < sz)%nat -> ((c - 1) / 2)%nat <> e ->
     cmpKeys (hkey vals hp ((c - 1) / 2)) (hkey vals hp c) <= 0) /\
  (forall c, (0 < c < sz)%nat -> ((c - 1) / 2)%nat = e -> (0 < e)%nat ->
     cmpKeys (hkey vals hp ((e - 1) / 2)) (hkey vals hp c) <= 0).

(** Heap order but for position [pos], which may be smaller than its
    parent (the state of the loop of [pushHeap]). *)
Definition heap_but_up (vals : list LINE) (hp : list nat) (sz pos : nat) : Prop :=
  (forall c, (0 < c < sz)%nat -> c <> pos ->
     cmpKeys (hkey vals hp ((c - 1) / 2)) (hkey vals hp c) <= 0) /\
  (forall c, (0 < c < sz)%nat -> ((c - 1) / 2)%nat = pos -> (0 < pos)%nat ->
     cmpKeys (hkey vals hp ((pos - 1) / 2)) (hkey vals hp c) <= 0).

(** Exchanging two positions. *)
Definition swap_pos (a b p : nat) : nat :=
  if decide (p = a) then b else if decide (p = b) then a else p.

(** *** Invariants of the merge *)

(** The runs that are in the heap. *)
Definition active (h : HEAP) : list nat := take (size h) (heap h).

(** What is left of run [j]: the line held in [values] when the run is
    in the heap, then the unread lines of its temporary file. *)
Definition remaining (tmp_files : list (list LINE)) (h : HEAP) (j : nat) : list LINE :=
  (if decide (j ∈ active h) then [default (mkLINE 0 0) (values h !! j)] else [])
  ++ default [] (tmp_files !! j).

Definition line_le (a b : LINE) : Prop := cmpKeys (key a) (key b) <= 0.

(** The state of the merge: a heap of distinct runs, every run in
    order, the output in order and below everything that is left, and
    output and runs together holding the lines of the index. *)
Definition merge_inv (index : list LINE) (tmp_files : list (list LINE)) (h : HEAP)
    (out : list LINE) : Prop :=
  let k := length tmp_files in
  length (values h) = k /\ length (heap h) = k /\
  heap_wf (values h) (heap h) (size h) /\
  heap_prop (values h) (heap h) (size h) /\
  NoDup (active h) /\
  (forall j, (j < k)%nat -> StronglySorted line_le (remaining tmp_files h j)) /\
  StronglySorted line_le out /\
  (forall x y j, x ∈ out -> (j < k)%nat -> y ∈ remaining tmp_files h j -> line_le x y) /\
  Permutation (out ++ concat (map (remaining tmp_files h) (seq 0 k))) index.

(** Runs that are not in the heap have been read to the end. *)
Definition exhausted (tmp_files : list (list LINE)) (h : HEAP) (from : nat) : Prop :=
  forall j, (j < from)%nat -> j ∉ active h -> tmp_files !! j = Some [].

(** Slot [p] is the first one whose key compares equal to [k]. *)
Definition first_match (index : list LINE) (k : Z) (p : nat) : Prop :=
  (exists a, index !! p = Some a /\ cmpKeys k (key a) = 0) /\
  forall (i : nat) b, (i < p)%nat -> index !! i = Some b -> cmpKeys k (key b) <> 0.

(** The comparator is an order: transitive, and its sign flips when
    the arguments are exchanged. *)
Definition comparator_order : Prop :=
  (forall a b c, cmpKeys a b <= 0 -> cmpKeys b c <= 0 -> cmpKeys a c <= 0) /\
  (forall a b, cmpKeys a b < 0 <-> cmpKeys b a > 0).

(** The groups the specification describes: one per run of entries
    sharing a key, holding the values of the run in index order.  The
    state is (finished groups, key of the open group, its values). *)
Definition spec_group_step (st : list (Z * list Z) * Z * list Z) (l : LINE)
  : list (Z * list Z) * Z * list Z :=
  let '(finished, k0, cur) := st in
  if cmpKeys (key l) k0 =? 0 then (finished, k0, cur ++ [value l])
  else (finished ++ [(k0, cur)], key l, [value l]).

Definition spec_groups (index : list LINE) : list (Z * list Z) :=
  match index with
  | [] => []
  | l :: rest =>
      let '(finished, k0, cur) :=
        fold_left spec_group_step rest ([], key l, [value l]) in
      finished ++ [(k0, cur)]
  end.

(** The messages the grouping pass logs after an entry with key [k0]:
    one for every entry whose key compares below the key of the group
    that is open when the entry is read. *)
Fixpoint spec_errors (k0 : Z) (rest : list LINE) : list message :=
  match rest with
  | [] => []
  | l :: rest' =>
      (if cmpKeys (key l) k0 <? 0 then [MustBeSorted] else [])
      ++ spec_errors (if cmpKeys (key l) k0 =? 0 then k0 else key l) rest'
  end.

(** What holds between the state of the grouping loop and the groups
    met so far (finished groups, key of the open group, its values):
    the values file starts with the finished blocks, then four bytes
    kept for the count of the open block, then the open group's values. *)
Definition group_inv (removeDuplicateVals : bool) (s : group_state)
    (st : list (Z * list Z) * Z * list Z) : Prop :=
  let '(finished, k0, cur) := st in
  let done_blocks := map (fun g : Z * list Z => spec_block removeDuplicateVals g.2) finished in
  exists hdr junk,
    length hdr = 4%nat /\
    content (out s) = spec_values_file done_blocks ++ hdr
                        ++ concat (map bytes_of_pos_t cur) ++ junk /\
    out_block s = Z.of_nat (length (spec_values_file done_blocks)) /\
    out_pos s = out_block s + 4 + 8 * Z.of_nat (length cur) /\
    fpos (out s) = out_pos s /\
    block_length s = Z.of_nat (length cur) /\
    block_no s = Z.of_nat (length finished) + 1 /\
    last_key s = k0 /\
    dest s = spec_index (map (fun g : Z * list Z =>
                                (g.1, spec_block removeDuplicateVals g.2)) finished) 0
               ++ [mkLINE k0 (out_block s)] /\
    cur <> [] /\ Forall pos_t_range cur.

End WithComparator.

End Indexer.

(* ================================================================== *)
(** * Part II: properties *)
(* ================================================================== *)

(** ** Packed timestamps (date.c) *)

Section DateProofs.
Import Date.

Lemma wrap32_small z : int_range z -> wrap32 z = z.
Proof.
  unfold int_range, wrap32. intros H.
  rewrite Z.mod_small by lia. lia.
Qed.

(** OR-ing a multiple of [2^n] with a number below [2^n] adds them. *)
Lemma lor_disjoint_add hi lo n :
  0 <= n -> 0 <= lo < 2^n -> Z.lor (hi * 2^n) lo = hi * 2^n + lo.
Proof.
  intros Hn Hlo.
  rewrite <- Z.lxor_lor, <- Z.add_nocarry_lxor; try reflexivity.
  all: apply Z.bits_inj'; intros i Hi; rewrite Z.land_spec, Z.bits_0.
  all: destruct (Z.lt_ge_cases i n) as [Hlt|Hge].
  all: try (rewrite Z.mul_pow2_bits_low by lia; reflexivity).
  all: destruct (Z.eq_dec lo 0) as [->|Hne];
    [ rewrite Z.bits_0; apply andb_false_r | ].
  all: rewrite (Z.bits_above_log2 lo i); [ apply andb_false_r | lia | ].
  all: apply Z.log2_lt_pow2; try lia.
  all: apply Z.lt_le_trans with (2^n); [ lia | apply Z.pow_le_mono_r; lia ].
Qed.

Lemma wrap32_mod z : (wrap32 z) mod 2^32 = z mod 2^32.
Proof.
  unfold wrap32.
  rewrite Zminus_mod, Z.mod_mod by lia.
  rewrite <- Zminus_mod. f_equal. lia.
Qed.

Lemma wrap32_range z : int_range (wrap32 z).
Proof.
  unfold wrap32, int_range.
  pose proof (Z.mod_pos_bound (z + 2^31) (2^32)). lia.
Qed.

Lemma land_low c n : 0 <= n -> Z.land c (2^n - 1) = c mod 2^n.
Proof.
  intros. replace (2^n - 1) with (Z.ones n) by (rewrite Z.ones_equiv; lia).
  apply Z.land_ones; lia.
Qed.

(** The value of the packed word: the six fields side by side, reduced
    into the signed 32-bit range (a year from 2037 on sets the sign bit). *)
Lemma getCompactedDate_value d :
  valid_range d ->
  getCompactedDate d =
    wrap32 ((year d - 2005) * 2^26 + month d * 2^22 + day d * 2^17
            + hour d * 2^12 + minute d * 2^6 + second d).
Proof.
  unfold valid_range, getCompactedDate, shl32. intros H.
  rewrite !Z.shiftl_mul_pow2 by lia.
  rewrite (wrap32_small (year d - 2005)) by (unfold int_range; lia).
  rewrite (wrap32_small (month d * 2^22)) by (unfold int_range; lia).
  rewrite (wrap32_small (day d * 2^17)) by (unfold int_range; lia).
  rewrite (wrap32_small (hour d * 2^12)) by (unfold int_range; lia).
  rewrite (wrap32_small (minute d * 2^6)) by (unfold int_range; lia).
  set (Y := year d - 2005) in *.
  assert (HY : exists k, wrap32 (Y * 2^26) = (Y - 64 * k) * 2^26 /\
     wrap32 (Y * 2^26 + month d * 2^22 + day d * 2^17
            + hour d * 2^12 + minute d * 2^6 + second d) =
     (Y - 64 * k) * 2^26 + month d * 2^22 + day d * 2^17
            + hour d * 2^12 + minute d * 2^6 + second d).
  { destruct (Z_lt_ge_dec Y 32).
    - exists 0. split; rewrite wrap32_small by (unfold int_range; lia); lia.
    - exists 1. unfold wrap32. split.
      + replace (Y * 2^26 + 2^31) with ((Y * 2^26 - 2^31) + 1 * 2^32) by lia.
        rewrite Z.mod_add by lia. rewrite Z.mod_small by lia. lia.
      + match goal with |- (?a + 2^31) mod _ - _ = _ =>
          replace (a + 2^31) with ((a - 2^31) + 1 * 2^32) by lia end.
        rewrite Z.mod_add by lia. rewrite Z.mod_small by lia. lia. }
  destruct HY as (k & -> & ->).
  rewrite lor_disjoint_add by lia.
  replace ((Y - 64 * k) * 2^26 + month d * 2^22)
    with (((Y - 64 * k) * 16 + month d) * 2^22) by lia.
  rewrite lor_disjoint_add by lia.
  replace (((Y - 64 * k) * 16 + month d) * 2^22 + day d * 2^17)
    with ((((Y - 64 * k) * 16 + month d) * 32 + day d) * 2^17) by lia.
  rewrite lor_disjoint_add by lia.
  replace ((((Y - 64 * k) * 16 + month d) * 32 + day d) * 2^17 + hour d * 2^12)
    with (((((Y - 64 * k) * 16 + month d) * 32 + day d) * 32 + hour d) * 2^12) by lia.
  rewrite lor_disjoint_add by lia.
  replace (((((Y - 64 * k) * 16 + month d) * 32 + day d) * 32 + hour d) * 2^12 + minute d * 2^6)
    with ((((((Y - 64 * k) * 16 + month d) * 32 + day d) * 32 + hour d) * 64 + minute d) * 2^6) by lia.
  rewrite lor_disjoint_add by lia.
  lia.
Qed.

(** C8: for every date in the valid range (year-2005 in six bits, month
    1..12, day 1..31, hour 0..23, minute and second 0..59), unpacking
    the packed form gives the date back, and the packed 32-bit word is
    laid out as year-2005 (6 bits), month (4), day (5), hour (5),
    minute (6), second (6), from the most significant bit down. *)
Theorem compact_date_roundtrip d :
  valid_range d ->
  getUncompactedDate (getCompactedDate d) = d /\
  as_unsigned32 (getCompactedDate d) =
    (year d - 2005) * 2^26 + month d * 2^22 + day d * 2^17
    + hour d * 2^12 + minute d * 2^6 + second d.
Proof.
  intros H. pose proof (getCompactedDate_value d H) as Hv.
  pose proof (wrap32_mod ((year d - 2005) * 2^26 + month d * 2^22 + day d * 2^17
            + hour d * 2^12 + minute d * 2^6 + second d)) as Hm.
  rewrite <- Hv in Hm.
  pose proof (wrap32_range ((year d - 2005) * 2^26 + month d * 2^22 + day d * 2^17
            + hour d * 2^12 + minute d * 2^6 + second d)) as Hr.
  rewrite <- Hv in Hr. clear Hv.
  unfold as_unsigned32.
  set (c := getCompactedDate d) in *. clearbody c.
  unfold valid_range in H. unfold int_range in Hr.
  assert (Hu : c mod 2^32 = (year d - 2005) * 2^26 + month d * 2^22 + day d * 2^17
            + hour d * 2^12 + minute d * 2^6 + second d).
  { rewrite Hm. apply Z.mod_small. lia. }
  split; [| exact Hu].
  unfold getUncompactedDate.
  change 63 with (2^6 - 1). change 31 with (2^5 - 1). change 15 with (2^4 - 1).
  rewrite !land_low by lia. rewrite !Z.shiftr_div_pow2 by lia.
  destruct d as [y mo da h mi s]; simpl in *.
  assert (c mod 2^6 = s) by (revert Hu; clear -H Hr; Z.div_mod_to_equations; lia).
  assert (c / 2^6 mod 2^6 = mi) by (revert Hu; clear -H Hr; Z.div_mod_to_equations; lia).
  assert (c / 2^12 mod 2^5 = h) by (revert Hu; clear -H Hr; Z.div_mod_to_equations; lia).
  assert (c / 2^17 mod 2^5 = da) by (revert Hu; clear -H Hr; Z.div_mod_to_equations; lia).
  assert (c / 2^22 mod 2^4 = mo) by (revert Hu; clear -H Hr; Z.div_mod_to_equations; lia).
  assert (c / 2^26 mod 2^6 = y - 2005) by (revert Hu; clear -H Hr; Z.div_mod_to_equations; lia).
  rewrite wrap32_small by (unfold int_range; lia).
  f_equal; lia.
Qed.

(** The round trip at 2021-06-15 12:30:45. *)
Lemma compact_date_roundtrip_witness :
  valid_range (mkDate 2021 6 15 12 30 45) /\
  getUncompactedDate (getCompactedDate (mkDate 2021 6 15 12 30 45))
    = mkDate 2021 6 15 12 30 45.
Proof.
  assert (H : valid_range (mkDate 2021 6 15 12 30 45))
    by (unfold valid_range; simpl; lia).
  split; [exact H | exact (proj1 (compact_date_roundtrip _ H))].
Defined.

End DateProofs.

(** ** Binary searches (utils.c) *)

Section UtilsProofs.
Import Utils.

Lemma array_get_Some {A} (l : list A) i :
  0 <= i < Z.of_nat (length l) -> exists a, array_get l i = Some a.
Proof.
  intros H. unfold array_get.
  destruct (Z.ltb_spec i 0); [lia|].
  destruct (lookup_lt_is_Some_2 l (Z.to_nat i)) as [a Ha]; [lia|]. eauto.
Qed.

Lemma array_get_lookup {A} (l : list A) i a :
  array_get l i = Some a -> 0 <= i /\ l !! Z.to_nat i = Some a.
Proof.
  unfold array_get. destruct (Z.ltb_spec i 0); [discriminate|]. auto.
Qed.

Lemma array_get_of_nat {A} (l : list A) (i : nat) :
  array_get l (Z.of_nat i) = l !! i.
Proof.
  unfold array_get. destruct (Z.ltb_spec (Z.of_nat i) 0); [lia|].
  by rewrite Nat2Z.id.
Qed.

(** The midpoint [(l + r) / 2] of a non-empty window stays inside it. *)
Lemma cdiv_mid l r :
  0 <= l -> l <= r -> r < 2^30 ->
  let m := cdiv (wrap32 (l + r)) 2 in l <= m <= r.
Proof.
  intros. subst m. unfold cdiv.
  rewrite wrap32_small by (unfold int_range; lia).
  rewrite Z.quot_div_nonneg by lia.
  Z.div_mod_to_equations. lia.
Qed.

Lemma containedInSortedArray_loop_spec array val :
  sorted_asc array -> Z.of_nat (length array) <= 2^30 ->
  forall fuel l r,
    0 <= l -> r < Z.of_nat (length array) -> l <= r + 1 ->
    r - l + 1 < Z.of_nat fuel ->
    exists b, containedInSortedArray_loop fuel array val l r = Returned b /\
      (b = true <-> exists i, l <= i <= r /\ array_get array i = Some val).
Proof.
  intros Hs Hlen. induction fuel as [|fuel IH]; intros l r Hl Hr Hlr Hf; [lia|].
  cbn [containedInSortedArray_loop].
  destruct (Z.leb_spec l r) as [Hle|Hgt].
  - pose proof (cdiv_mid l r Hl Hle ltac:(lia)) as Hm. cbv zeta in Hm.
    set (m := cdiv (wrap32 (l + r)) 2) in *.
    destruct (array_get_Some array m ltac:(lia)) as [am Ham]. rewrite Ham.
    apply array_get_lookup in Ham as Ham'. destruct Ham' as [_ Ham'].
    destruct (Z.ltb_spec am val) as [Hlt|Hge].
    + destruct (IH (m + 1) r) as (b & Hb & Hiff); try lia.
      exists b. split; [exact Hb|]. rewrite Hiff. split.
      * intros (i & Hi & Hg). exists i. split; [lia|exact Hg].
      * intros (i & Hi & Hg). exists i. split; [|exact Hg].
        destruct (Z_lt_ge_dec m i); [lia|]. exfalso.
        apply array_get_lookup in Hg as [Hi0 Hg].
        pose proof (Hs (Z.to_nat i) (Z.to_nat m) val am ltac:(lia) Hg Ham'). lia.
    + destruct (Z.gtb_spec am val) as [Hgt|Hle'].
      * destruct (IH l (m - 1)) as (b & Hb & Hiff); try lia.
        exists b. split; [exact Hb|]. rewrite Hiff. split.
        -- intros (i & Hi & Hg). exists i. split; [lia|exact Hg].
        -- intros (i & Hi & Hg). exists i. split; [|exact Hg].
           destruct (Z_lt_ge_dec i m); [lia|]. exfalso.
           apply array_get_lookup in Hg as [Hi0 Hg].
           pose proof (Hs (Z.to_nat m) (Z.to_nat i) am val ltac:(lia) Ham' Hg). lia.
      * exists true. split; [reflexivity|]. split; [|reflexivity]. intros _.
        exists m. split; [lia|]. assert (am = val) by lia. subst am.
        unfold array_get. destruct (Z.ltb_spec m 0); [lia|]. exact Ham'.
  - exists false. split; [reflexivity|]. split; [discriminate|].
    intros (i & Hi & _). lia.
Qed.

(** The contract of [containedInSortedArray]: on an ascending array of
    at most 2^30 cells it returns, and returns true exactly for the
    values that occur in the array. *)
Lemma containedInSortedArray_spec array val :
  sorted_asc array -> Z.of_nat (length array) <= 2^30 ->
  exists b, containedInSortedArray (S (length array)) array (Z.of_nat (length array)) val
              = Returned b /\ (b = true <-> val ∈ array).
Proof.
  intros Hs Hlen. unfold containedInSortedArray.
  destruct (containedInSortedArray_loop_spec array val Hs Hlen (S (length array)) 0
              (Z.of_nat (length array) - 1)) as (b & Hb & Hiff); try lia.
  exists b. split; [exact Hb|]. rewrite Hiff. rewrite list_elem_of_lookup. split.
  - intros (i & Hi & Hg). apply array_get_lookup in Hg as [_ Hg]. eauto.
  - intros (i & Hg). exists (Z.of_nat i). apply lookup_lt_Some in Hg as Hlt.
    split; [lia|]. by rewrite array_get_of_nat.
Qed.

(** [binSearchInList] leaves its loop only on a cell equal to the key. *)
Lemma binSearchInList_loop_never_false fuel key l m n p b :
  binSearchInList_loop fuel key l m n p = Returned b -> b = true /\ key ∈ l.
Proof.
  revert m n p. induction fuel as [|fuel IH]; intros m n p; cbn [binSearchInList_loop];
    [discriminate|].
  destruct (array_get l p) as [lp|] eqn:Hg; [|discriminate].
  destruct (Z.eqb_spec lp key) as [->|Hne]; cbn [negb].
  - intros [= <-]. split; [apply Z.eqb_refl|].
    apply array_get_lookup in Hg as [_ Hg]. eapply list_elem_of_lookup_2; eauto.
  - apply IH.
Qed.

(** Hence no number of iterations makes it return for an absent key. *)
Lemma binSearchInList_absent_never_returns fuel key l N b :
  key ∉ l -> binSearchInList fuel key l N <> Returned b.
Proof.
  intros Hn H. apply binSearchInList_loop_never_false in H as [_ H]. auto.
Qed.

Lemma binSearchInList_loop_stuck fuel :
  binSearchInList_loop fuel 2 [1] 1 0 0 = OutOfFuel.
Proof.
  induction fuel as [|fuel IH]; [reflexivity|].
  cbn [binSearchInList_loop]. exact IH.
Qed.

(** C10 (failing input): searching the one-element sorted array [1]
    for the absent key 2 never returns: after the first iteration the
    loop state is m = 1, n = 0, p = 0 and reproduces itself, so every
    bound on the number of iterations is exhausted (the probes stay
    inside the array). *)
Theorem binSearchInList_absent_key_diverges :
  forall fuel, binSearchInList fuel 2 [1] 1 = OutOfFuel.
Proof.
  intros [|fuel]; [reflexivity|]. exact (binSearchInList_loop_stuck fuel).
Qed.

End UtilsProofs.

(** ** Friends (user.c) *)

Section UserProofs.
Import User.

(** C4 (failing input): with followers [1, 2] and following [2, 1, 3]
    the friends list is [2, 1]: it has the right members but keeps the
    stored order of the longer list, so it is not ascending, and the
    binary search of [areUsersFriends] misses friend 1. *)
Theorem calculateFriends_unsorted :
  exists u, calculateFriends (mkUser 2 3 [1; 2] [2; 1; 3] 0 []) = Returned u /\
    friends_list u = [2; 1] /\
    ~ sorted_asc (friends_list u) /\
    1 ∈ friends_list u /\
    areUsersFriends u 1 = Returned false.
Proof.
  eexists. split; [vm_compute; reflexivity|]. cbn [friends_list].
  split; [reflexivity|]. split; [|split; [|vm_compute; reflexivity]].
  - intros H. specialize (H 0%nat 1%nat 2 1 ltac:(lia) eq_refl eq_refl). lia.
  - set_solver.
Qed.

End UserProofs.

(** ** Ordering of Top-N outputs (querySolver.c) *)

Section QueryProofs.
Import QuerySolver Utils.

Lemma fold_savePairToArray t acc : fold_left savePairToArray t acc = acc ++ t.
Proof.
  revert acc. induction t as [|p t IH]; intros acc; simpl.
  - by rewrite app_nil_r.
  - rewrite IH. unfold savePairToArray. by rewrite <- app_assoc.
Qed.

Lemma qsort_insert_perm {A} (cmp : A -> A -> Z) x l :
  Permutation (x :: l) (qsort_insert cmp x l).
Proof.
  induction l as [|y l IH]; simpl; [reflexivity|].
  destruct (cmp x y <=? 0); [reflexivity|].
  rewrite perm_swap. by constructor.
Qed.

Lemma qsort_perm {A} (cmp : A -> A -> Z) l : Permutation l (qsort cmp l).
Proof.
  induction l as [|x l IH]; simpl; [reflexivity|].
  rewrite <- qsort_insert_perm. by constructor.
Qed.

Lemma insert_sorted_desc x l :
  StronglySorted count_ge l -> StronglySorted count_ge (qsort_insert comparePair x l).
Proof.
  induction 1 as [|y l Hs IH Hall]; simpl; [repeat constructor|].
  unfold comparePair at 1. destruct (Z.ltb_spec (value x) (value y)); simpl.
  - constructor; [exact IH|].
    rewrite <- qsort_insert_perm. constructor; [unfold count_ge; lia|exact Hall].
  - constructor; [by constructor|]. constructor; [unfold count_ge; lia|].
    eapply Forall_impl; [exact Hall|]. unfold count_ge. intros; lia.
Qed.

Lemma qsort_sorted_desc l : StronglySorted count_ge (qsort comparePair l).
Proof. induction l; simpl; [constructor|by apply insert_sorted_desc]. Qed.

(** Inserting moves a pair only past pairs with a strictly larger
    count, so the pairs of any one count keep their relative order. *)
Lemma insert_filter_count c x l :
  StronglySorted count_ge l ->
  filter (fun p => value p = c) (qsort_insert comparePair x l)
  = filter (fun p => value p = c) (x :: l).
Proof.
  induction 1 as [|y l Hs IH Hall]; simpl; [reflexivity|].
  unfold comparePair at 1. destruct (Z.ltb_spec (value x) (value y)); simpl; [|reflexivity].
  rewrite !filter_cons. rewrite IH. rewrite !filter_cons.
  destruct (decide (value y = c)), (decide (value x = c)); try reflexivity. lia.
Qed.

Lemma qsort_stable c l :
  filter (fun p => value p = c) (qsort comparePair l) = filter (fun p => value p = c) l.
Proof.
  induction l as [|x l IH]; simpl; [reflexivity|].
  rewrite insert_filter_count by apply qsort_sorted_desc.
  rewrite !filter_cons, IH. reflexivity.
Qed.

Lemma StronglySorted_lookup {A} (R : A -> A -> Prop) l :
  StronglySorted R l ->
  forall (i j : nat) p q, (i < j)%nat -> l !! i = Some p -> l !! j = Some q -> R p q.
Proof.
  induction 1 as [|x l Hs IH Hall]; intros i j p q Hij Hi Hj; [by destruct i|].
  destruct j as [|j]; [lia|]. simpl in Hj. destruct i as [|i]; simpl in Hi.
  - injection Hi as <-. rewrite Forall_forall in Hall. apply Hall.
    eapply list_elem_of_lookup_2. eauto.
  - eapply IH; [|eauto..]. lia.
Qed.

(** C9 (as amended): the rows of a Top-N query are the first
    min(N, number of users) entries of the organized array; that array
    is a rearrangement of the table's entries in which counts never
    increase, and the entries of any one count keep the order in which
    the hash table enumerates them (no ordering by user id). *)
Theorem topN_order N t :
  ordered_by_count (topN N t) /\
  topN N t = take (Z.to_nat (Z.min N (Z.of_nat (length t)))) (getHashTableOrganizedyValues t) /\
  Permutation t (getHashTableOrganizedyValues t) /\
  forall c, filter (fun p => value p = c) (getHashTableOrganizedyValues t)
            = filter (fun p => value p = c) t.
Proof.
  unfold topN, getHashTableOrganizedyValues, g_array_sort.
  rewrite fold_savePairToArray. simpl.
  split; [|split; [|split]].
  - intros i j p q Hij Hi Hj.
    apply lookup_take_Some in Hi as [Hi _]. apply lookup_take_Some in Hj as [Hj _].
    exact (StronglySorted_lookup _ _ (qsort_sorted_desc t) i j p q Hij Hi Hj).
  - rewrite <- (Permutation_length (qsort_perm comparePair t)). reflexivity.
  - apply qsort_perm.
  - intros c. apply qsort_stable.
Qed.

(** C9 (counterexample): a table that enumerates user 2 before user 1,
    both with count 1, prints user 2 first. *)
Theorem topN_ties_not_by_id :
  ~ ordered_by_count_then_id (topN 10 [mkPair 2 1; mkPair 1 1]).
Proof.
  intros H. specialize (H 0%nat 1%nat (mkPair 2 1) (mkPair 1 1) ltac:(lia) eq_refl eq_refl).
  simpl in H. lia.
Qed.

(** Scenario S5: user 1 with two commits precedes user 2 with one,
    whichever way the table enumerates them. *)
Example topN_scenario_S5 :
  map key (topN 10 [mkPair 1 2; mkPair 2 1]) = [1; 2] /\
  map key (topN 10 [mkPair 2 1; mkPair 1 2]) = [1; 2].
Proof. split; reflexivity. Qed.

End QueryProofs.
(** ** Block cache (cache.c) *)

Section CacheProofs.
Import Cache.

(** A pending write reaches the disk when the cache is flushed while
    the page is still resident. *)
Example flush_resident_page :
  exists w1, setStr (mkWorld (getCache 1) {[ 3 := replicate 2048 97 ]} []) 3 0 [88] 1
               = Returned w1 /\
             file_byte w1 3 0 = Some 97 /\
             file_byte (flushCache w1) 3 0 = Some 88.
Proof. eexists. split; [vm_compute; reflexivity|]. split; vm_compute; reflexivity. Qed.

(** C1 (failing input): a cache of one line over a file of 2048 bytes
    'a'.  [setStr] writes 'X' at offset 0 (the page becomes dirty, the
    disk still holds 'a'); a [getStr] at offset 1024 misses and recycles
    the line.  The line is rekeyed and its dirty flag is cleared before
    [updateCacheLine] runs, so nothing is written back: the disk still
    holds 'a' at offset 0, no line is dirty any more, and after a flush
    of the whole cache a read at offset 0 returns 'a'.  The write made
    through [setStr] is lost. *)
Theorem eviction_loses_dirty_page :
  let w0 := mkWorld (getCache 1) {[ 3 := replicate 2048 97 ]} [] in
  exists w1 w2 w3,
    setStr w0 3 0 [88] 1 = Returned w1 /\
    map altered (lines (the_cache w1)) = [true] /\
    getStr w1 3 1024 1 = Returned ([97], w2) /\
    file_byte w2 3 0 = Some 97 /\
    map altered (lines (the_cache w2)) = [false] /\
    misses (the_cache w2) = 2 /\
    getStr (flushCache w2) 3 0 1 = Returned ([97], w3) /\
    file_byte w3 3 0 = Some 97.
Proof.
  intros w0. subst w0.
  eexists. eexists. eexists.
  split; [vm_compute; reflexivity|].
  split; [vm_compute; reflexivity|].
  split; [vm_compute; reflexivity|].
  split; [vm_compute; reflexivity|].
  split; [vm_compute; reflexivity|].
  split; [vm_compute; reflexivity|].
  split; vm_compute; reflexivity.
Qed.

End CacheProofs.

(** ** Lazy flush-back (lazy.c, format.c) *)

Section LazyProofs.
Import Format Lazy.

(** The bytes that [writeBinaryMember] produces for a [BINARY_INT]
    member do not depend on the member. *)
Lemma writeBinaryMember_int_ignores_src src1 src2 dest dest_len :
  writeBinaryMember BINARY_INT src1 dest dest_len
  = writeBinaryMember BINARY_INT src2 dest dest_len.
Proof. reflexivity. Qed.

(** The other fixed-width kinds that the function handles are encoded
    from the member. *)
Lemma writeBinaryMember_fixed_ok t v dest enc :
  t = BINARY_BOOL \/ t = BINARY_TYPE \/ t = BINARY_DATE_TIME ->
  binary_encoding t v = Some enc ->
  length dest = length enc ->
  writeBinaryMember t v dest (stringSize t) = Returned enc.
Proof.
  intros Ht He Hl.
  assert (Hb : blit enc dest = enc).
  { unfold blit. rewrite <- Hl, drop_all. apply app_nil_r. }
  destruct Ht as [-> | [-> | ->]]; destruct v; simpl in *; try discriminate;
    injection He as <-; simpl; f_equal; exact Hb.
Qed.

(** C3 (failing input): a record of one [BINARY_INT] member stored as
    00 00 00 07 at offset 0.  The member is read (its offset becomes
    known), set to 5 and flushed with [printLazyToFile]; the buffer the
    flush allocates holds AA AA AA AA.  After the cache is flushed the
    file holds AA AA AA AA at the member's offset, not the encoding
    00 00 00 05 of the member's value. *)
Theorem flush_int_member_writes_junk :
  let f := mkFormat 1 [BINARY_INT] [] 0 in
  let w0 := Cache.mkWorld (Cache.getCache 2) {[ 3 := [0; 0; 0; 7] ]} [] in
  let uninit := fun n : Z => replicate (Z.to_nat n) 170 in
  exists l0 l1 w1 l2 l3 w3,
    makeLazy 3 0 f [VInt 0] = Some l0 /\
    getLazyMember 2 l0 0 w0 = Returned (VInt 7, l1, w1) /\
    string_pos l1 !! 0%nat = Some 0 /\
    setLazyMember l1 0 (VInt 5) = Returned l2 /\
    printLazyToFile 2 uninit l2 w1 = Returned (l3, w3) /\
    obj l3 !! 0%nat = Some (VInt 5) /\
    take 4 <$> (Cache.files (Cache.flushCache w3) !! 3) = Some [170; 170; 170; 170] /\
    binary_encoding BINARY_INT (VInt 5) = Some [0; 0; 0; 5].
Proof.
  intros f w0 uninit. subst f w0 uninit.
  do 6 eexists.
  split; [vm_compute; reflexivity|].
  split; [vm_compute; reflexivity|].
  split; [vm_compute; reflexivity|].
  split; [vm_compute; reflexivity|].
  split; [vm_compute; reflexivity|].
  split; [vm_compute; reflexivity|].
  split; vm_compute; reflexivity.
Qed.

(** The same flush of a [BINARY_BOOL] member writes its encoding. *)
Example flush_bool_member :
  let f := mkFormat 2 [BINARY_INT; BINARY_BOOL] [] 0 in
  let w0 := Cache.mkWorld (Cache.getCache 2) {[ 3 := [0; 0; 0; 7; 0] ]} [] in
  let uninit := fun n : Z => replicate (Z.to_nat n) 170 in
  exists l0 v l1 w1 l2 l3 w3,
    makeLazy 3 0 f [VInt 0; VBool false] = Some l0 /\
    getLazyMember 2 l0 1 w0 = Returned (v, l1, w1) /\
    setLazyMember l1 1 (VBool true) = Returned l2 /\
    printLazyToFile 2 uninit l2 w1 = Returned (l3, w3) /\
    Cache.files (Cache.flushCache w3) !! 3 = Some ([0; 0; 0; 7; 1] ++ replicate 1019 0).
Proof.
  intros f w0 uninit. subst f w0 uninit.
  do 7 eexists.
  split; [vm_compute; reflexivity|].
  split; [vm_compute; reflexivity|].
  split; [vm_compute; reflexivity|].
  split; vm_compute; reflexivity.
Qed.

End LazyProofs.
(** ** Indexer: lower-bound search (indexer.c) *)

Section SearchProofs.
Import Indexer.

Variable cmpKeys : Z -> Z -> Z.
Hypothesis cmp_trans : forall a b c, cmpKeys a b <= 0 -> cmpKeys b c <= 0 -> cmpKeys a c <= 0.

Variable index : list LINE.
Hypothesis index_sorted : sorted_index cmpKeys index.
Hypothesis index_small : Z.of_nat (length index) <= 2^30.

Variable k : Z.

(** Slot [i] holds a key that is not below the search key. *)
Let at_least (i : Z) : Prop :=
  forall a, array_get index i = Some a -> cmpKeys k (key a) <= 0.

Lemma at_least_mono i j : i <= j -> 0 <= i -> j < Z.of_nat (length index) ->
  at_least i -> at_least j.
Proof.
  intros Hij Hi Hj Hal b Hb.
  destruct (Z.eq_dec i j) as [->|Hne]; [by apply Hal|].
  destruct (array_get_Some index i ltac:(lia)) as [a Ha].
  specialize (Hal a Ha).
  apply array_get_lookup in Ha as [_ Ha]. apply array_get_lookup in Hb as [_ Hb].
  eapply cmp_trans; [exact Hal|].
  eapply (index_sorted (Z.to_nat i) (Z.to_nat j)); [lia|done..].
Qed.

Lemma search_loop_spec fuel l r :
  0 <= l < Z.of_nat (length index) -> -1 <= r < Z.of_nat (length index) ->
  l <= r + 1 -> r - l <= Z.of_nat fuel ->
  (forall i, 0 <= i < l -> ~ at_least i) ->
  (forall i, r < i < Z.of_nat (length index) -> at_least i) ->
  exists l' r', search_loop cmpKeys fuel index k l r = Returned (l', r') /\
    0 <= l' < Z.of_nat (length index) /\ r' <= l' /\
    (forall i, 0 <= i < l' -> ~ at_least i) /\
    (forall i, r' < i < Z.of_nat (length index) -> at_least i).
Proof.
  revert l r. induction fuel as [|fuel IH]; intros l r Hl Hr Hlr Hf Hlo Hhi.
  - cbn [search_loop]. destruct (Z.ltb_spec l r); [lia|].
    exists l, r. repeat split; auto; lia.
  - cbn [search_loop]. destruct (Z.ltb_spec l r) as [Hlt|Hge].
    2:{ exists l, r. repeat split; auto; lia. }
    pose proof (cdiv_mid l r ltac:(lia) ltac:(lia) ltac:(lia)) as Hm. cbv zeta in Hm.
    assert (Hmr : cdiv (wrap32 (l + r)) 2 < r).
    { unfold cdiv. rewrite wrap32_small by (unfold int_range; lia).
      rewrite Z.quot_div_nonneg by lia. Z.div_mod_to_equations. lia. }
    set (m := cdiv (wrap32 (l + r)) 2) in *.
    destruct (array_get_Some index m ltac:(lia)) as [aux Haux]. rewrite Haux.
    cbn [read_cell mbind outcome_bind].
    destruct (Z.ltb_spec (cmpKeys k (key aux)) 0) as [Hneg|Hnn].
    + apply IH; try lia; auto.
      intros i Hi. apply (at_least_mono m i); try lia.
      intros a Ha. rewrite Haux in Ha. injection Ha as <-. lia.
    + destruct (Z.gtb_spec (cmpKeys k (key aux)) 0) as [Hpos|Hz].
      * apply IH; try lia; auto.
        intros i Hi Hal. 
        destruct (Z_lt_ge_dec i l) as [?|?]; [apply (Hlo i); [lia|done]|].
        pose proof (at_least_mono i m ltac:(lia) ltac:(lia) ltac:(lia) Hal aux Haux). lia.
      * apply IH; try lia; auto.
        intros i Hi. apply (at_least_mono m i); try lia.
        intros a Ha. rewrite Haux in Ha. injection Ha as <-. lia.
Qed.

(** On an index of at most [2^30] lines ([index_small]) that is sorted
    by the key comparator, [retrieveKeyLowerBound] returns a slot number
    [p] between 0 and the slot count such that exactly the slots before
    [p] hold keys smaller than the search key: [p] is the smallest slot
    whose key is at least the search key, the slot count when every
    stored key is smaller, and 0 on an empty index. *)
Theorem retrieveKeyLowerBound_spec :
  exists p, retrieveKeyLowerBound cmpKeys index k = Returned p /\
    0 <= p <= Z.of_nat (length index) /\
    (forall (i : nat) a, index !! i = Some a ->
       (Z.of_nat i < p <-> cmpKeys k (key a) > 0)) /\
    (index = [] -> p = 0).
Proof.
  unfold retrieveKeyLowerBound.
  destruct (Z.eqb_spec (Z.of_nat (length index)) 0) as [Hz|Hnz].
  - exists 0. split; [reflexivity|]. split; [lia|]. split; [|done].
    intros i a Ha. apply lookup_lt_Some in Ha. lia.
  - destruct (search_loop_spec (length index) 0 (Z.of_nat (length index) - 1))
      as (l & r & -> & Hl & Hrl & Hlo & Hhi); try lia.
    cbn [mbind outcome_bind].
    destruct (array_get_Some index l Hl) as [aux Haux]. rewrite Haux.
    cbn [read_cell mbind outcome_bind].
    assert (Hsem : forall (i : nat) a, index !! i = Some a ->
              (cmpKeys k (key a) <= 0 <-> at_least (Z.of_nat i))).
    { intros i a Ha. split.
      - intros Hle b Hb. rewrite array_get_of_nat, Ha in Hb. by injection Hb as <-.
      - intros Hal. apply Hal. by rewrite array_get_of_nat. }
    destruct (Z.leb_spec (cmpKeys k (key aux)) 0) as [Hle|Hgt].
    + exists l. split; [reflexivity|]. split; [lia|]. split.
      2:{ intros ->. simpl in Hl. lia. }
      intros i a Ha. apply lookup_lt_Some in Ha as Hi. split.
      * intros Hil. pose proof (Hlo (Z.of_nat i) ltac:(lia)) as Hn.
        rewrite <- (Hsem i a Ha) in Hn. lia.
      * intros Hgt. destruct (Z_lt_ge_dec (Z.of_nat i) l); [done|]. exfalso.
        assert (Hal : at_least l).
        { intros b Hb. rewrite Haux in Hb. by injection Hb as <-. }
        pose proof (at_least_mono l (Z.of_nat i) ltac:(lia) ltac:(lia) ltac:(lia) Hal) as Hi'.
        rewrite <- (Hsem i a Ha) in Hi'. lia.
    + exists (l + 1). split; [reflexivity|]. split; [lia|]. split.
      2:{ intros ->. simpl in Hl. lia. }
      intros i a Ha. apply lookup_lt_Some in Ha as Hi. split.
      * intros Hil. destruct (Z.eq_dec (Z.of_nat i) l) as [He|Hne].
        -- subst l. rewrite array_get_of_nat, Ha in Haux. injection Haux as <-. lia.
        -- pose proof (Hlo (Z.of_nat i) ltac:(lia)) as Hn.
           rewrite <- (Hsem i a Ha) in Hn. lia.
      * intros Hg. destruct (Z_lt_ge_dec (Z.of_nat i) (l + 1)); [done|]. exfalso.
        pose proof (Hhi (Z.of_nat i) ltac:(lia)) as Hi'.
        rewrite <- (Hsem i a Ha) in Hi'. lia.
Qed.

End SearchProofs.

Lemma directCmp_trans a b c :
  Indexer.directCmp a b <= 0 -> Indexer.directCmp b c <= 0 -> Indexer.directCmp a c <= 0.
Proof.
  unfold Indexer.directCmp.
  repeat match goal with |- context [?x <? ?y] => destruct (Z.ltb_spec x y) end;
  repeat match goal with |- context [?x >? ?y] => destruct (Z.gtb_spec x y) end; lia.
Qed.

Lemma retrieveKeyLowerBound_witness :
  exists p, Indexer.retrieveKeyLowerBound Indexer.directCmp
              [Indexer.mkLINE 1 10; Indexer.mkLINE 3 30; Indexer.mkLINE 5 50] 4 = Returned p /\
            p = 2.
Proof.
  destruct (retrieveKeyLowerBound_spec Indexer.directCmp directCmp_trans
              [Indexer.mkLINE 1 10; Indexer.mkLINE 3 30; Indexer.mkLINE 5 50]) with (k := 4)
    as (p & Hp & _).
  - intros i j a b Hij Hi Hj.
    destruct i as [|[|[|i]]]; destruct j as [|[|[|j]]]; simpl in *; try lia;
      try discriminate; injection Hi as <-; injection Hj as <-; vm_compute; discriminate.
  - simpl. lia.
  - exists p. split; [exact Hp|]. vm_compute in Hp. by injection Hp as <-.
Defined.

Section SearchOverflow.
Import Indexer.

(** Beyond [2^30] lines the midpoint [(l + r) / 2] is no longer safe:
    on an index of [3 * 2^29] lines or more whose keys are all below
    the search key, the second midpoint is computed from a sum of
    [2^31] or more, which wraps to a negative int, and the search reads
    a slot before the start of the index. *)
Lemma search_midpoint_overflow cmpKeys index k :
  3 * 2^29 <= Z.of_nat (length index) < 2^31 ->
  (forall a, a ∈ index -> cmpKeys k (key a) > 0) ->
  retrieveKeyLowerBound cmpKeys index k = OutOfBounds.
Proof.
  intros HN Hall. unfold retrieveKeyLowerBound. cbv zeta.
  destruct (Z.eqb_spec (Z.of_nat (length index)) 0) as [?|_]; [lia|].
  set (N := Z.of_nat (length index)) in *.
  destruct (length index) as [|[|fuel]] eqn:Hlen; [lia|lia|].
  cbn [search_loop].
  destruct (Z.ltb_spec 0 (N - 1)) as [_|?]; [|lia].
  rewrite Z.add_0_l, wrap32_small by (unfold int_range; lia).
  assert (Hm : cdiv (N - 1) 2 = (N - 1) / 2) by (apply Z.quot_div_nonneg; lia).
  rewrite Hm. set (m := (N - 1) / 2).
  assert (Hmb : 2 * m <= N - 1 < 2 * m + 2) by (subst m; Z.div_mod_to_equations; lia).
  destruct (array_get_Some index m) as [aux Haux]; [rewrite Hlen; lia|].
  rewrite Haux. cbn [read_cell mbind outcome_bind].
  assert (Hcmp : cmpKeys k (key aux) > 0).
  { apply Hall. apply array_get_lookup in Haux as [_ Haux]. by eapply list_elem_of_lookup_2. }
  destruct (Z.ltb_spec (cmpKeys k (key aux)) 0) as [?|_]; [lia|].
  destruct (Z.gtb_spec (cmpKeys k (key aux)) 0) as [_|?]; [|lia].
  destruct (Z.ltb_spec (m + 1) (N - 1)) as [_|?]; [|lia].
  assert (Hw : wrap32 (m + 1 + (N - 1)) = m + N - 2^32).
  { unfold wrap32.
    replace (m + 1 + (N - 1) + 2^31) with ((m + N - 2^31) + 1 * 2^32) by lia.
    rewrite Z.mod_add by lia. rewrite Z.mod_small by lia. lia. }
  rewrite Hw.
  assert (Hneg : cdiv (m + N - 2^32) 2 < 0).
  { unfold cdiv. pose proof (Z.quot_rem' (m + N - 2^32) 2) as Hq.
    pose proof (Z.rem_bound_pos_neg (m + N - 2^32) 2 ltac:(lia) ltac:(lia)) as Hr. lia. }
  unfold array_get. destruct (Z.ltb_spec (cdiv (m + N - 2^32) 2) 0); [done|lia].
Qed.

(** C7 (failing input): the index of [3 * 2^29] lines, all with key 0
    and so sorted under [directCmp], searched for the key 1.  Its number
    of lines fits the int [elem_no].  The first midpoint is slot
    805306367; the key there is below 1, so [l] becomes 805306368 and
    the next sum [l + r = 2415919103] is beyond [INT_MAX]: the midpoint
    wraps to a negative slot number and the search reads before the
    start of the index, where the contract asks for the slot count. *)
Theorem retrieveKeyLowerBound_midpoint_overflow :
  let index := replicate (Z.to_nat (3 * 2^29)) (mkLINE 0 0) in
  sorted_index directCmp index /\
  Z.of_nat (length index) = 3 * 2^29 /\ 3 * 2^29 < 2^31 /\
  (forall a, a ∈ index -> directCmp 1 (key a) > 0) /\
  retrieveKeyLowerBound directCmp index 1 = OutOfBounds.
Proof.
  intros index.
  assert (Hlen : Z.of_nat (length index) = 3 * 2^29).
  { unfold index. rewrite length_replicate. apply Z2Nat.id. lia. }
  assert (Hall : forall a, a ∈ index -> directCmp 1 (key a) > 0).
  { intros a Ha. apply elem_of_replicate in Ha as [-> _]. reflexivity. }
  split_and!.
  - intros i j a b _ Hi Hj.
    apply lookup_replicate in Hi as [-> _]. apply lookup_replicate in Hj as [-> _].
    vm_compute. discriminate.
  - exact Hlen.
  - lia.
  - exact Hall.
  - apply search_midpoint_overflow; [lia|exact Hall].
Qed.

End SearchOverflow.
(** ** Indexer: files and encodings (indexer.c) *)

Section FileLemmas.
Import Indexer.

Lemma length_host_bytes n v : length (host_bytes n v) = n.
Proof. revert v. induction n as [|n IH]; intros v; simpl; [done|]. by rewrite IH. Qed.

Lemma host_unsigned_bytes n v :
  host_unsigned (host_bytes n v) = v mod 256 ^ Z.of_nat n.
Proof.
  revert v. induction n as [|n IH]; intros v.
  - simpl. by rewrite Z.mod_1_r.
  - cbn [host_bytes host_unsigned]. rewrite IH.
    rewrite Nat2Z.inj_succ, Z.pow_succ_r by lia.
    rewrite Z.rem_mul_r by lia. lia.
Qed.

Lemma length_bytes_of_pos_t v : length (bytes_of_pos_t v) = 8%nat.
Proof. apply length_host_bytes. Qed.

Lemma length_bytes_of_int v : length (bytes_of_int v) = 4%nat.
Proof. apply length_host_bytes. Qed.

Lemma pos_t_of_bytes_of v rest :
  pos_t_range v -> pos_t_of_bytes (bytes_of_pos_t v ++ rest) = v.
Proof.
  intros Hv. unfold pos_t_of_bytes, bytes_of_pos_t.
  rewrite take_app_length' by (by rewrite length_host_bytes).
  rewrite host_unsigned_bytes. apply Z.mod_small. exact Hv.
Qed.

Lemma int_of_bytes_of v rest :
  int_range v -> int_of_bytes (bytes_of_int v ++ rest) = v.
Proof.
  intros Hv. unfold int_of_bytes, bytes_of_int.
  rewrite take_app_length' by (by rewrite length_host_bytes).
  rewrite host_unsigned_bytes. unfold wrap32, int_range in *.
  change (256 ^ Z.of_nat 4) with (2^32).
  rewrite Zplus_mod_idemp_l. 
  rewrite Z.mod_small by lia. lia.
Qed.

Lemma length_encode_pos_ts vs :
  length (concat (map bytes_of_pos_t vs)) = (8 * length vs)%nat.
Proof.
  induction vs as [|v vs IH]; [done|].
  cbn [map concat]. rewrite length_app, IH, length_bytes_of_pos_t. simpl. lia.
Qed.

Lemma decode_encode_pos_ts vs rest :
  Forall pos_t_range vs ->
  decode_pos_ts (length vs) (concat (map bytes_of_pos_t vs) ++ rest) = vs.
Proof.
  induction 1 as [|v vs Hv _ IH]; [done|].
  cbn [map concat length decode_pos_ts]. rewrite <- app_assoc.
  rewrite pos_t_of_bytes_of by done. f_equal.
  rewrite drop_app_length' by (by rewrite length_bytes_of_pos_t). exact IH.
Qed.

Lemma length_block_bytes b : length (block_bytes b) = (4 + 8 * length b)%nat.
Proof.
  unfold block_bytes. by rewrite length_app, length_bytes_of_int, length_encode_pos_ts.
Qed.

(** Writing at [g] bytes past a known prefix: the prefix stays, the gap
    is what was there (zeros past the end of the file), then the bytes
    written, then what the write did not reach. *)
Lemma write_at_after pre junk g buf :
  Cache.write_at (pre ++ junk) (length pre + g) buf
  = pre ++ (take g junk ++ replicate (g - length junk) 0) ++ buf
        ++ drop (g + length buf) junk.
Proof.
  unfold Cache.write_at.
  rewrite take_app_add, length_app.
  replace (length pre + g - (length pre + length junk))%nat with (g - length junk)%nat by lia.
  rewrite <- Nat.add_assoc, drop_app_add.
  by rewrite <- !app_assoc.
Qed.

Lemma fwrite_after pre junk (g : nat) buf p :
  p = Z.of_nat (length pre + g) ->
  fwrite (mkFILE (pre ++ junk) p) buf
  = mkFILE (pre ++ (take g junk ++ replicate (g - length junk) 0) ++ buf
              ++ drop (g + length buf) junk)
           (p + Z.of_nat (length buf)).
Proof.
  intros ->. unfold fwrite. cbn [content fpos]. f_equal.
  rewrite Nat2Z.id. apply write_at_after.
Qed.

Lemma fread_after pre mid junk p n :
  p = Z.of_nat (length pre) -> n = Z.of_nat (length mid) ->
  fread (mkFILE (pre ++ mid ++ junk) p) n
  = (mid, mkFILE (pre ++ mid ++ junk) (p + n)).
Proof.
  intros -> ->. unfold fread. cbn [content fpos]. rewrite !Nat2Z.id.
  rewrite drop_app_length, take_app_length. done.
Qed.

End FileLemmas.
(** ** Sorting with a comparator *)

Section SortLemmas.
Import Utils.
Context {A : Type} (cmp : A -> A -> Z).
Hypothesis cmp_trans : forall a b c, cmp a b <= 0 -> cmp b c <= 0 -> cmp a c <= 0.
Hypothesis cmp_total : forall a b, cmp a b > 0 -> cmp b a <= 0.

Lemma qsort_insert_sorted x l :
  StronglySorted (fun a b => cmp a b <= 0) l ->
  StronglySorted (fun a b => cmp a b <= 0) (qsort_insert cmp x l).
Proof.
  induction 1 as [|y l Hs IH Hall]; simpl; [repeat constructor|].
  destruct (Z.leb_spec (cmp x y) 0) as [Hle|Hgt].
  - constructor; [by constructor|]. constructor; [done|].
    eapply Forall_impl; [exact Hall|]. intros z Hz. by eapply cmp_trans.
  - constructor; [exact IH|].
    rewrite <- qsort_insert_perm. constructor; [apply cmp_total; lia|exact Hall].
Qed.

Lemma qsort_sorted l : StronglySorted (fun a b => cmp a b <= 0) (qsort cmp l).
Proof. induction l; simpl; [constructor|by apply qsort_insert_sorted]. Qed.

End SortLemmas.

(** ** Indexer: collapsing duplicates (removeDuplicatesAux) *)

Section CollapseLemmas.
Import Indexer.

Lemma compareAux_le a b : compareAux a b <= 0 <-> a <= b.
Proof.
  unfold compareAux. destruct (Z.gtb_spec b a); [lia|].
  destruct (Z.ltb_spec b a); lia.
Qed.

Lemma StronglySorted_weaken {B} (R1 R2 : B -> B -> Prop) l :
  (forall a b, R1 a b -> R2 a b) -> StronglySorted R1 l -> StronglySorted R2 l.
Proof.
  intros HR. induction 1 as [|x l Hs IH Hall]; constructor; [done|].
  eapply Forall_impl; [exact Hall|]. intros y. apply HR.
Qed.

Lemma qsort_compareAux_sorted l : StronglySorted Z.le (Utils.qsort compareAux l).
Proof.
  eapply StronglySorted_weaken; [|apply (qsort_sorted compareAux)].
  - intros a b. apply compareAux_le.
  - intros a b c. rewrite !compareAux_le. lia.
  - intros a b. rewrite compareAux_le. intros H.
    assert (~ a <= b) by (rewrite <- compareAux_le; lia). lia.
Qed.

Lemma spec_collapse_snoc l x :
  spec_collapse (l ++ [x]) = spec_collapse_step (spec_collapse l) x.
Proof. unfold spec_collapse. by rewrite fold_left_app. Qed.

Lemma spec_collapse_nonempty l : l <> [] -> spec_collapse l <> [].
Proof.
  induction l as [|x l IH] using rev_ind; [done|]. intros _.
  rewrite spec_collapse_snoc. unfold spec_collapse_step.
  destruct (last (spec_collapse l)) as [y|] eqn:Hl; [|done].
  destruct (decide (x = y)); [|by destruct (spec_collapse l)].
  intros Heq. rewrite Heq in Hl. done.
Qed.

(** The collapsed list ends with the last element of the list. *)
Lemma spec_collapse_last l : last (spec_collapse l) = last l.
Proof.
  induction l as [|x l IH] using rev_ind; [done|].
  rewrite spec_collapse_snoc, last_snoc. unfold spec_collapse_step.
  destruct (last (spec_collapse l)) as [y|] eqn:Hl; [|done].
  destruct (decide (x = y)) as [->|]; [done|]. by rewrite last_snoc.
Qed.

Lemma spec_collapse_subseteq l : spec_collapse l ⊆ l.
Proof.
  induction l as [|x l IH] using rev_ind; [done|].
  rewrite spec_collapse_snoc. unfold spec_collapse_step.
  destruct (last (spec_collapse l)) as [y|]; [destruct (decide (x = y))|]; set_solver.
Qed.

Lemma spec_collapse_supseteq l : l ⊆ spec_collapse l.
Proof.
  induction l as [|x l IH] using rev_ind; [done|].
  rewrite spec_collapse_snoc. unfold spec_collapse_step.
  destruct (last (spec_collapse l)) as [y|] eqn:Hl.
  - destruct (decide (x = y)) as [->|]; [|set_solver].
    apply last_Some_elem_of in Hl. set_solver.
  - apply last_None in Hl. 
    destruct l as [|z l] using rev_ind; [set_solver|].
    exfalso. by eapply spec_collapse_nonempty; [|exact Hl]; destruct l.
Qed.

Lemma StronglySorted_snoc {B} (R : B -> B -> Prop) l x :
  StronglySorted R l -> Forall (fun y => R y x) l -> StronglySorted R (l ++ [x]).
Proof.
  induction 1 as [|y l Hs IH Hall]; intros Hx; simpl; [repeat constructor|].
  apply Forall_cons in Hx as [Hyx Hx]. constructor; [by apply IH|].
  apply Forall_app. split; [done|by apply Forall_singleton].
Qed.

Lemma StronglySorted_snoc_inv {B} (R : B -> B -> Prop) l x :
  StronglySorted R (l ++ [x]) -> StronglySorted R l /\ Forall (fun y => R y x) l.
Proof.
  induction l as [|y l IH]; simpl; intros Hs; [by repeat constructor|].
  apply StronglySorted_inv in Hs as [Hs Hall].
  apply IH in Hs as [Hs Hx]. apply Forall_app in Hall as [Hall Hyx].
  split; [by constructor|]. constructor; [|done]. by inversion Hyx.
Qed.

(** Collapsing an ascending list leaves a strictly ascending one. *)
Lemma spec_collapse_strict l :
  StronglySorted Z.le l -> StronglySorted Z.lt (spec_collapse l).
Proof.
  induction l as [|x l IH] using rev_ind; intros Hs; [constructor|].
  apply StronglySorted_snoc_inv in Hs as [Hs Hx]. specialize (IH Hs).
  rewrite spec_collapse_snoc. unfold spec_collapse_step.
  destruct (last (spec_collapse l)) as [y|] eqn:Hl; [|repeat constructor].
  destruct (decide (x = y)) as [->|Hne]; [done|].
  apply StronglySorted_snoc; [done|].
  rewrite spec_collapse_last in Hl.
  apply last_Some in Hl as [l' ->].
  apply Forall_app in Hx as [_ Hyx]. inversion_clear Hyx as [|? ? Hyx' _].
  assert (Hlt : y < x) by lia. clear Hyx'.
  rewrite Forall_forall. intros z Hz.
  destruct (decide (z = y)) as [->|Hzy]; [done|].
  apply list_elem_of_lookup in Hz as [i Hi].
  pose proof (spec_collapse_last (l' ++ [y])) as Hlast. rewrite last_snoc in Hlast.
  rewrite last_lookup in Hlast.
  assert (Hlen : (i < length (spec_collapse (l' ++ [y])))%nat) by (by eapply lookup_lt_Some).
  assert (i <> pred (length (spec_collapse (l' ++ [y])))) by congruence.
  pose proof (StronglySorted_lookup _ _ IH i (pred (length (spec_collapse (l' ++ [y])))) z y
                ltac:(lia) Hi Hlast). lia.
Qed.

Lemma StronglySorted_lt_NoDup l : StronglySorted Z.lt l -> NoDup l.
Proof.
  induction 1 as [|x l Hs IH Hall]; constructor; [|done].
  intros Hin. rewrite Forall_forall in Hall. specialize (Hall x Hin). lia.
Qed.

(** The in-place loop computes the collapse of the array. *)
Lemma removeDuplicates_loop_spec orig n aux lst i :
  length aux = length orig -> (lst < i)%nat -> (i + n = length orig)%nat ->
  take (S lst) aux = spec_collapse (take i orig) ->
  drop i aux = drop i orig ->
  forall aux' lst', removeDuplicates_loop n aux lst i = (aux', lst') ->
    take (S lst') aux' = spec_collapse orig /\ length aux' = length orig /\
    (S lst' <= length orig)%nat.
Proof.
  revert aux lst i. induction n as [|n IH]; intros aux lst i Hlen Hli Hin Htake Hdrop aux' lst'.
  - cbn [removeDuplicates_loop]. intros [= <- <-].
    rewrite Htake. rewrite take_ge by lia. split; [done|]. split; [done|lia].
  - cbn [removeDuplicates_loop].
    destruct (lookup_lt_is_Some_2 orig i ltac:(lia)) as [x Hx].
    assert (Hai : aux !! i = Some x).
    { rewrite <- (Nat.add_0_r i), <- lookup_drop, Hdrop, lookup_drop, Nat.add_0_r. done. }
    rewrite Hai. change (default 0 (Some x)) with x.
    assert (Hlast : aux !! lst = last (spec_collapse (take i orig))).
    { rewrite <- Htake, last_lookup, length_take_le by lia. cbn [pred].
      by rewrite lookup_take_lt by lia. }
    assert (Hsnoc : take (S i) orig = take i orig ++ [x]) by (by apply take_S_r).
    destruct (decide (x ≠ default 0 (aux !! lst))) as [Hne|Heq].
    + intros Hrun. eapply IH; [| | | | |exact Hrun]; try lia.
      * by rewrite length_insert.
      * rewrite Hsnoc, spec_collapse_snoc. unfold spec_collapse_step.
        rewrite Hlast in Hne. rewrite (take_S_r _ _ x).
        2:{ apply list_lookup_insert_eq. lia. }
        rewrite take_insert_ge by lia. rewrite Htake.
        destruct (last (spec_collapse (take i orig))) as [y|] eqn:Hy.
        -- cbn [default] in Hne. by destruct (decide (x = y)).
        -- apply lookup_ge_None in Hlast. lia.
      * rewrite drop_insert_lt by lia.
        replace (S i) with (i + 1)%nat by lia. rewrite <- !drop_drop, Hdrop. done.
    + intros Hrun. eapply IH; [| | | | |exact Hrun]; try lia; try done.
      * rewrite Hsnoc, spec_collapse_snoc. unfold spec_collapse_step.
        rewrite Htake. rewrite Hlast in Heq.
        destruct (last (spec_collapse (take i orig))) as [y|] eqn:Hy.
        -- cbn [default] in Heq. destruct (decide (x = y)); [done|]. by destruct Heq.
        -- apply lookup_ge_None in Hlast. lia.
      * replace (S i) with (i + 1)%nat by lia. rewrite <- !drop_drop, Hdrop. done.
Qed.

End CollapseLemmas.
(** ** Indexer: the grouping pass (groupIndexer) *)

Section GroupProofs.
Import Indexer.

Variable cmpKeys : Z -> Z -> Z.
Variable dedup : bool.

Abbreviation enc vs := (concat (map bytes_of_pos_t vs)).
Abbreviation blk := (spec_block dedup).
Abbreviation blocks fin := (map (fun g : Z * list Z => spec_block dedup g.2) fin).
Abbreviation groups fin := (map (fun g : Z * list Z => (g.1, spec_block dedup g.2)) fin).

Lemma spec_block_true_nonempty cur : cur <> [] -> spec_block true cur <> [].
Proof.
  intros Hne. unfold spec_block. apply spec_collapse_nonempty.
  intros Hq. apply Hne. apply Permutation_nil. rewrite <- Hq. symmetry. apply qsort_perm.
Qed.

Lemma spec_block_range b cur :
  Forall pos_t_range cur -> Forall pos_t_range (spec_block b cur).
Proof.
  intros Hr. destruct b; [|done]. unfold spec_block.
  rewrite Forall_forall in *. intros x Hx.
  apply spec_collapse_subseteq in Hx. apply Hr.
  by rewrite (qsort_perm compareAux cur).
Qed.

Lemma removeDuplicatesAux_spec pre cur junk fp :
  cur <> [] -> Forall pos_t_range cur ->
  exists junk',
    removeDuplicatesAux (mkFILE (pre ++ enc cur ++ junk) fp)
      (Z.of_nat (length pre)) (Z.of_nat (length cur))
    = (mkFILE (pre ++ enc (spec_block true cur) ++ junk')
              (Z.of_nat (length pre) + 8 * Z.of_nat (length (spec_block true cur))),
       Z.of_nat (length (spec_block true cur)), []).
Proof.
  intros Hne Hr. unfold removeDuplicatesAux, fseek. cbn [content].
  rewrite (fread_after pre (enc cur) junk) by (rewrite ?length_encode_pos_ts; lia).
  rewrite length_encode_pos_ts.
  replace (Z.of_nat (8 * length cur) / 8) with (Z.of_nat (length cur))
    by (rewrite Nat2Z.inj_mul, Z.mul_comm, Z.div_mul; lia).
  destruct (decide (Z.of_nat (length cur) ≠ Z.of_nat (length cur))) as [Hbad|_]; [done|].
  rewrite Nat2Z.id.
  assert (Hdec : decode_pos_ts (length cur) (enc cur) = cur).
  { rewrite <- (app_nil_r (enc cur)). by apply decode_encode_pos_ts. }
  rewrite Hdec. clear Hdec.
  assert (Hlen : length (Utils.qsort compareAux cur) = length cur).
  { symmetry. apply Permutation_length, qsort_perm. }
  assert (Hblk : spec_block true cur = spec_collapse (Utils.qsort compareAux cur))
    by reflexivity.
  destruct (Utils.qsort compareAux cur) as [|a aux0].
  { destruct cur; [done|simpl in Hlen; lia]. }
  destruct (removeDuplicates_loop (length cur - 1) (a :: aux0) 0 1) as [aux' lst] eqn:Hloop.
  destruct (removeDuplicates_loop_spec (a :: aux0) (length cur - 1) (a :: aux0) 0 1)
    with (aux' := aux') (lst' := lst) as (Htake & Hlen' & Hle); try done; try lia.
  { simpl in *. lia. }
  cbn [content fpos]. rewrite Htake, <- Hblk.
  rewrite (fwrite_after pre (enc cur ++ junk) 0) by lia.
  cbn [take replicate app]. rewrite length_encode_pos_ts.
  exists (drop (8 * length (spec_block true cur)) (enc cur ++ junk)).
  assert (Htl : length (take (S lst) aux') = length (spec_block true cur)).
  { by rewrite Htake, Hblk. }
  rewrite length_take_le in Htl by lia.
  rewrite Htl. cbn [take app]. rewrite Nat.sub_0_l. cbn [replicate app].
  rewrite Nat.add_0_l. do 3 f_equal. lia.
Qed.

Lemma spec_values_file_snoc bs b :
  spec_values_file (bs ++ [b]) = spec_values_file bs ++ block_bytes b.
Proof.
  unfold spec_values_file. rewrite map_app, concat_app. cbn [map concat].
  by rewrite app_nil_r.
Qed.

Lemma enc_snoc vs v : enc (vs ++ [v]) = enc vs ++ bytes_of_pos_t v.
Proof. rewrite map_app, concat_app. cbn [map concat]. by rewrite app_nil_r. Qed.

Lemma spec_index_app gs1 gs2 o :
  spec_index (gs1 ++ gs2) o
  = spec_index gs1 o
    ++ spec_index gs2 (o + Z.of_nat (length (spec_values_file (map snd gs1)))).
Proof.
  revert o. induction gs1 as [|[k b] gs1 IH]; intros o.
  - cbn. by rewrite Z.add_0_r.
  - cbn [app spec_index map snd]. rewrite IH. do 3 f_equal.
    unfold spec_values_file. cbn [map concat].
    rewrite length_app, length_block_bytes. lia.
Qed.

Lemma blocks_of_groups fin : map snd (groups fin) = blocks fin.
Proof. rewrite map_map. reflexivity. Qed.

(** Closing the open block puts its count in front of its values (the
    sorted distinct ones with [dedup]). *)
Lemma close_block_spec s fin k0 cur :
  group_inv dedup s (fin, k0, cur) ->
  exists junk',
    content (out (close_block dedup s))
      = spec_values_file (blocks (fin ++ [(k0, cur)])) ++ junk' /\
    out_pos (close_block dedup s)
      = Z.of_nat (length (spec_values_file (blocks (fin ++ [(k0, cur)])))) /\
    dest (close_block dedup s) = dest s /\
    block_no (close_block dedup s) = block_no s /\
    log (close_block dedup s) = log s /\
    out_block (close_block dedup s) = out_block s.
Proof.
  intros (hdr & junk & Hhdr & Hc & Hob & Hop & Hfp & Hbl & Hbn & Hlk & Hd & Hne & Hr).
  unfold close_block. rewrite map_app. cbn [map]. rewrite spec_values_file_snoc. cbn [snd].
  set (L := spec_values_file (blocks fin)) in *.
  destruct (out s) as [ct fp] eqn:Hout. cbn [content fpos] in *. subst ct.
  destruct dedup.
  - destruct (removeDuplicatesAux_spec (L ++ hdr) cur junk fp Hne Hr) as [junk' Hrd].
    rewrite <- !app_assoc in Hrd. rewrite length_app, Hhdr in Hrd.
    replace (out_block s + 4) with (Z.of_nat (length L + 4)) by lia.
    rewrite Hbl, Hrd. unfold fseek. cbn [content fpos].
    rewrite (fwrite_after L (hdr ++ enc (spec_block true cur) ++ junk') 0) by lia.
    cbn [take app]. rewrite Nat.sub_0_l. cbn [replicate app out content out_pos dest block_no log out_block].
    rewrite Nat.add_0_l, length_bytes_of_int.
    rewrite drop_app_length' by done.
    exists junk'. repeat split; try done.
    + unfold block_bytes. by rewrite <- !app_assoc.
    + rewrite length_app, length_block_bytes. lia.
    + by rewrite app_nil_r.
  - unfold fseek. cbn [content fpos].
    rewrite (fwrite_after L (hdr ++ enc cur ++ junk) 0) by lia.
    cbn [take app]. rewrite Nat.sub_0_l. cbn [replicate app out content out_pos dest block_no log out_block].
    rewrite Nat.add_0_l, length_bytes_of_int.
    rewrite drop_app_length' by done.
    exists junk. repeat split; try done.
    + unfold block_bytes, spec_block. rewrite Hbl. by rewrite <- !app_assoc.
    + rewrite length_app, length_block_bytes. unfold spec_block. lia.
    + by rewrite app_nil_r.
Qed.

(** One iteration of the loop keeps the invariant and logs a message
    exactly when the entry's key compares below the open group's key. *)
Lemma group_step_spec s fin k0 cur l :
  group_inv dedup s (fin, k0, cur) -> pos_t_range (value l) ->
  group_inv dedup (group_step cmpKeys dedup s l)
                  (spec_group_step cmpKeys (fin, k0, cur) l) /\
  log (group_step cmpKeys dedup s l)
    = log s ++ (if cmpKeys (key l) k0 <? 0 then [MustBeSorted] else []).
Proof.
  intros Hinv Hv. destruct s as [sd so sob sop sbl sbn slk slg].
  assert (Hlk : slk = k0)
    by (destruct Hinv as (? & ? & ? & ? & ? & ? & ? & ? & ? & ? & ?); tauto).
  subst slk. unfold group_step, spec_group_step.
  cbn [dest out out_block out_pos block_length block_no last_key log].
  set (s0 := if cmpKeys (key l) k0 <? 0 then _ else _).
  assert (Hinv0 : group_inv dedup s0 (fin, k0, cur)).
  { subst s0. destruct (cmpKeys (key l) k0 <? 0); exact Hinv. }
  assert (Hlog0 : log s0 = slg ++ (if cmpKeys (key l) k0 <? 0 then [MustBeSorted] else [])).
  { subst s0. destruct (cmpKeys (key l) k0 <? 0); cbn [log]; by rewrite ?app_nil_r. }
  clearbody s0. clear Hinv.
  destruct (cmpKeys (key l) k0 =? 0).
  - (* the entry joins the open group *)
    destruct Hinv0 as (hdr & junk & Hhdr & Hc & Hob & Hop & Hfp & Hbl & Hbn & Hlk & Hd & Hne & Hr).
    cbn [dest out out_block out_pos block_length block_no last_key log].
    split; [|exact Hlog0].
    destruct (out s0) as [ct fp] eqn:Hout. cbn [content fpos] in *. subst ct.
    set (L := spec_values_file (blocks fin)) in *.
    exists hdr, (drop 8 junk).
    cbn [dest out out_block out_pos block_length block_no last_key log].
    rewrite (app_assoc L), (app_assoc (L ++ hdr)).
    rewrite (fwrite_after ((L ++ hdr) ++ enc cur) junk 0)
      by (rewrite !length_app, length_encode_pos_ts; lia).
    cbn [take app content fpos]. rewrite Nat.sub_0_l. cbn [replicate app].
    rewrite Nat.add_0_l, length_bytes_of_pos_t, enc_snoc, length_app.
    repeat split.
    all: try done.
    all: try (cbn [length]; lia).
    + by rewrite <- !app_assoc.
    + by destruct cur.
    + apply Forall_app. split; [done|by apply Forall_singleton].
  - (* the entry opens a new group *)
    destruct (close_block_spec s0 fin k0 cur Hinv0) as (junk' & Hc & Hop & Hd & Hbn & Hlg & Hob).
    destruct Hinv0 as (hdr & junk & Hhdr & _ & Hob0 & _ & _ & _ & Hbn0 & _ & Hd0 & Hne & Hr).
    set (c := close_block dedup s0) in *. clearbody c.
    cbn [dest out out_block out_pos block_length block_no last_key log].
    split; [|by rewrite Hlg].
    set (L' := spec_values_file (blocks (fin ++ [(k0, cur)]))) in *.
    exists (take 4 junk' ++ replicate (4 - length junk') 0), (drop (4 + 8) junk').
    cbn [dest out out_block out_pos block_length block_no last_key log].
    unfold fseek. rewrite Hc.
    rewrite (fwrite_after L' junk' 4) by lia.
    cbn [content fpos]. rewrite length_bytes_of_pos_t.
    repeat split.
    all: try done.
    all: try (rewrite ?length_app, ?length_take, ?length_replicate; cbn [length]; lia).
    all: try (by apply Forall_singleton).
    f_equal. rewrite Hd, Hd0, map_app, spec_index_app, blocks_of_groups.
    cbn [map spec_index fst snd]. by rewrite Z.add_0_l, <- Hob0.
Qed.

(** The whole loop. *)
Lemma group_fold_spec rest :
  forall s fin k0 cur,
    group_inv dedup s (fin, k0, cur) -> Forall line_ok rest ->
    group_inv dedup (fold_left (group_step cmpKeys dedup) rest s)
                    (fold_left (spec_group_step cmpKeys) rest (fin, k0, cur)) /\
    log (fold_left (group_step cmpKeys dedup) rest s)
      = log s ++ spec_errors cmpKeys k0 rest.
Proof.
  induction rest as [|l rest IH]; intros s fin k0 cur Hinv Hok.
  - cbn. by rewrite app_nil_r.
  - apply Forall_cons in Hok as [[_ Hv] Hok].
    destruct (group_step_spec s fin k0 cur l Hinv Hv) as [Hinv' Hlog'].
    cbn [fold_left spec_errors].
    unfold spec_group_step in Hinv' |- * at 2.
    destruct (cmpKeys (key l) k0 =? 0).
    + destruct (IH _ _ _ _ Hinv' Hok) as [Hi Hl]. split; [exact Hi|].
      rewrite Hl, Hlog'. by rewrite <- app_assoc.
    + destruct (IH _ _ _ _ Hinv' Hok) as [Hi Hl]. split; [exact Hi|].
      rewrite Hl, Hlog'. by rewrite <- app_assoc.
Qed.

(** [groupIndexer] against the specification: the new index holds one
    entry per group, in the order of the groups, each with the offset
    of its block; the values file starts with the blocks, one after
    the other; the messages logged are the out-of-order entries. *)
Lemma groupIndexer_spec index :
  Forall line_ok index ->
  new_index (groupIndexer cmpKeys index dedup)
    = spec_index (groups (spec_groups cmpKeys index)) 0 /\
  (exists junk, new_values (groupIndexer cmpKeys index dedup)
     = spec_values_file (blocks (spec_groups cmpKeys index)) ++ junk) /\
  new_elem_no (groupIndexer cmpKeys index dedup)
    = Z.of_nat (length (spec_groups cmpKeys index)) /\
  errors (groupIndexer cmpKeys index dedup)
    = match index with [] => [] | l :: rest => spec_errors cmpKeys (key l) rest end.
Proof.
  intros Hok. destruct index as [|l rest].
  - cbn. repeat split; try done. by exists [].
  - apply Forall_cons in Hok as [[_ Hv] Hok].
    unfold groupIndexer, spec_groups.
    set (s0 := mkGroup _ _ _ _ _ _ _ _).
    assert (Hinv0 : group_inv dedup s0 ([], key l, [value l])).
    { exists [0; 0; 0; 0], []. subst s0.
      cbn [dest out out_block out_pos block_length block_no last_key log map
           spec_values_file concat length spec_index app].
      unfold fseek. cbn [content fpos].
      rewrite (fwrite_after [] [] 4) by (cbn; lia).
      cbn [take drop app replicate length Nat.sub content fpos].
      repeat split.
      all: try done.
      all: try (by apply Forall_singleton). }
    destruct (group_fold_spec rest s0 [] (key l) [value l] Hinv0 Hok) as [Hinv Hlog].
    destruct (fold_left (spec_group_step cmpKeys) rest ([], key l, [value l]))
      as [[fin k0] cur] eqn:Hst.
    destruct (close_block_spec _ fin k0 cur Hinv) as (junk' & Hc & Hop & Hd & Hbn & Hlg & Hob).
    destruct Hinv as (hdr & junk & Hhdr & _ & Hob0 & _ & _ & _ & Hbn0 & _ & Hd0 & Hne & Hr).
    cbn [new_index new_values new_elem_no errors].
    repeat split.
    + rewrite Hd, Hd0, map_app, spec_index_app, blocks_of_groups. cbn [map spec_index fst snd].
      by rewrite Z.add_0_l, Hob0.
    + by exists junk'.
    + rewrite Hbn, Hbn0, length_app. cbn [length]. lia.
    + rewrite Hlg, Hlog. subst s0. reflexivity.
Qed.

End GroupProofs.
(** ** Indexer: reading the grouped files back *)

Section GroupReadProofs.
Import Indexer.

Abbreviation enc vs := (concat (map bytes_of_pos_t vs)).

Lemma drop_enc e b : drop (8 * e) (enc b) = enc (drop e b).
Proof.
  revert b. induction e as [|e IH]; intros b; [done|].
  destruct b as [|v b]; [done|].
  cbn [map concat]. replace (8 * S e)%nat with (8 + 8 * e)%nat by lia.
  rewrite <- drop_drop. rewrite drop_app_length' by (by rewrite length_bytes_of_pos_t).
  apply IH.
Qed.

Lemma getGroupSize_layout pre b rest :
  Z.of_nat (length b) < 2^31 ->
  getGroupSize (pre ++ block_bytes b ++ rest) (Z.of_nat (length pre)) = Z.of_nat (length b).
Proof.
  intros Hb. unfold getGroupSize, block_bytes. rewrite Nat2Z.id, drop_app_length.
  rewrite <- app_assoc. apply int_of_bytes_of. unfold int_range. lia.
Qed.

Lemma getGroupElem_layout pre b rest (e : nat) v :
  Forall pos_t_range b -> b !! e = Some v ->
  getGroupElem (pre ++ block_bytes b ++ rest) (Z.of_nat (length pre)) (Z.of_nat e) = v.
Proof.
  intros Hr He. unfold getGroupElem, block_bytes.
  replace (Z.to_nat (Z.of_nat (length pre) + 4 + 8 * Z.of_nat e))
    with (length pre + (4 + 8 * e))%nat by lia.
  rewrite <- drop_drop, drop_app_length, <- app_assoc, <- drop_drop.
  rewrite drop_app_length' by (by rewrite length_bytes_of_int).
  rewrite drop_app_le by (rewrite length_encode_pos_ts; apply lookup_lt_Some in He; lia).
  rewrite drop_enc. rewrite (drop_S _ _ _ He). cbn [map concat].
  rewrite <- !app_assoc. apply pos_t_of_bytes_of.
  rewrite Forall_forall in Hr. apply Hr. by eapply list_elem_of_lookup_2.
Qed.

(** A block laid out at a known offset reads back as it was written. *)
Lemma getGroupBlock_layout pre b rest :
  Forall pos_t_range b -> Z.of_nat (length b) < 2^31 ->
  getGroupBlock (pre ++ block_bytes b ++ rest) (Z.of_nat (length pre)) = b.
Proof.
  intros Hr Hb. unfold getGroupBlock. rewrite getGroupSize_layout by done.
  rewrite Nat2Z.id. apply list_eq. intros e.
  rewrite list_lookup_fmap.
  destruct (b !! e) as [v|] eqn:He.
  - apply lookup_lt_Some in He as Hlt. rewrite lookup_seq_lt by done. cbn.
    f_equal. by apply getGroupElem_layout.
  - apply lookup_ge_None in He. by rewrite lookup_seq_ge.
Qed.

(** Entry [j] of the index points at block [j] of the values file. *)
Lemma spec_index_lookup gs o (j : nat) e :
  spec_index gs o !! j = Some e ->
  exists k b, gs !! j = Some (k, b) /\ key e = k /\
    value e = o + Z.of_nat (length (spec_values_file (map snd (take j gs)))).
Proof.
  revert o j. induction gs as [|[k b] gs IH]; intros o j Hj; [done|].
  destruct j as [|j]; cbn in Hj.
  - injection Hj as <-. exists k, b. cbn. repeat split; lia.
  - destruct (IH _ _ Hj) as (k' & b' & Hg & Hk & Hv). exists k', b'.
    repeat split; try done. rewrite Hv. cbn [take map snd].
    unfold spec_values_file. cbn [map concat]. rewrite length_app, length_block_bytes. lia.
Qed.

Lemma spec_values_file_split bs (j : nat) b :
  bs !! j = Some b ->
  spec_values_file bs
  = spec_values_file (take j bs) ++ block_bytes b ++ spec_values_file (drop (S j) bs).
Proof.
  intros Hj. rewrite <- (take_drop_middle bs j b Hj) at 1.
  unfold spec_values_file. rewrite map_app, concat_app. done.
Qed.

Lemma getGroupBlock_spec gs junk (j : nat) e k b :
  spec_index gs 0 !! j = Some e -> gs !! j = Some (k, b) ->
  Forall pos_t_range b -> Z.of_nat (length b) < 2^31 ->
  getGroupBlock (spec_values_file (map snd gs) ++ junk) (value e) = b.
Proof.
  intros He Hg Hr Hb.
  destruct (spec_index_lookup _ _ _ _ He) as (k' & b' & Hg' & _ & Hv).
  rewrite Hg in Hg'. injection Hg' as <- <-.
  rewrite (spec_values_file_split (map snd gs) j b)
    by (by rewrite list_lookup_fmap, Hg).
  rewrite Hv, Z.add_0_l, <- fmap_take. rewrite <- !app_assoc.
  by apply getGroupBlock_layout.
Qed.

End GroupReadProofs.

(** ** Indexer: order of the groups *)

Section GroupOrderProofs.
Import Indexer.

Variable cmpKeys : Z -> Z -> Z.
Hypothesis cmp_order : comparator_order cmpKeys.

Lemma cmp_trans a b c : cmpKeys a b <= 0 -> cmpKeys b c <= 0 -> cmpKeys a c <= 0.
Proof. apply cmp_order. Qed.

Lemma cmp_flip a b : cmpKeys a b < 0 <-> cmpKeys b a > 0.
Proof. apply cmp_order. Qed.

Lemma cmp_zero_sym a b : cmpKeys a b = 0 -> cmpKeys b a = 0.
Proof.
  intros H. pose proof (cmp_flip a b). pose proof (cmp_flip b a). lia.
Qed.

Lemma cmp_lt_trans a b c : cmpKeys a b < 0 -> cmpKeys b c < 0 -> cmpKeys a c < 0.
Proof.
  intros Hab Hbc.
  assert (Hac : cmpKeys a c <= 0) by (apply (cmp_trans a b c); lia).
  destruct (Z.eq_dec (cmpKeys a c) 0) as [Hz|]; [|lia].
  apply cmp_zero_sym in Hz.
  assert (cmpKeys c b <= 0) by (apply (cmp_trans c a b); lia).
  apply cmp_flip in Hbc. lia.
Qed.

Abbreviation key_le := (fun a b : LINE => cmpKeys (key a) (key b) <= 0).

Lemma sorted_index_StronglySorted index :
  sorted_index cmpKeys index <-> StronglySorted key_le index.
Proof.
  split.
  - induction index as [|x index IH]; intros Hs; constructor.
    + apply IH. intros i j a b Hij Hi Hj. by apply (Hs (S i) (S j)); [lia|..].
    + rewrite Forall_forall. intros y Hy. apply list_elem_of_lookup in Hy as [j Hj].
      by apply (Hs 0%nat (S j)); [lia|..].
  - intros Hs i j a b Hij Hi Hj. exact (StronglySorted_lookup _ _ Hs i j a b Hij Hi Hj).
Qed.

(** Keys of consecutive groups of a sorted index increase strictly. *)
Lemma spec_group_fold_keys rest :
  forall fin k0 cur,
    StronglySorted (fun a b => cmpKeys a b < 0) (map fst fin ++ [k0]) ->
    Forall (fun l => cmpKeys k0 (key l) <= 0) rest ->
    StronglySorted key_le rest ->
    forall fin' k0' cur',
      fold_left (spec_group_step cmpKeys) rest (fin, k0, cur) = (fin', k0', cur') ->
      StronglySorted (fun a b => cmpKeys a b < 0) (map fst fin' ++ [k0']).
Proof.
  induction rest as [|l rest IH]; intros fin k0 cur Hs Hk Hr fin' k0' cur'.
  - cbn. by intros [= <- <- <-].
  - cbn [fold_left spec_group_step].
    apply Forall_cons in Hk as [Hkl Hk]. apply StronglySorted_inv in Hr as [Hr Hl].
    destruct (Z.eqb_spec (cmpKeys (key l) k0) 0) as [Hz|Hnz].
    + by apply IH.
    + apply IH; [|done..].
      rewrite map_app. cbn [map fst]. apply StronglySorted_snoc; [done|].
      assert (Hlt : cmpKeys k0 (key l) < 0).
      { destruct (Z.eq_dec (cmpKeys k0 (key l)) 0) as [Hz|]; [|lia].
        apply cmp_zero_sym in Hz. done. }
      apply StronglySorted_snoc_inv in Hs as [_ Hall].
      apply Forall_app. split; [|apply Forall_singleton; exact Hlt].
      eapply Forall_impl; [exact Hall|]. intros x Hx. cbn in Hx. by eapply cmp_lt_trans.
Qed.

Lemma spec_groups_keys_strict index :
  sorted_index cmpKeys index ->
  StronglySorted (fun a b => cmpKeys a b < 0) (map fst (spec_groups cmpKeys index)).
Proof.
  intros Hs. apply sorted_index_StronglySorted in Hs.
  destruct index as [|l rest]; [constructor|].
  apply StronglySorted_inv in Hs as [Hr Hl]. unfold spec_groups.
  destruct (fold_left (spec_group_step cmpKeys) rest ([], key l, [value l]))
    as [[fin k0] cur] eqn:Hst.
  rewrite map_app. cbn [map fst].
  eapply (spec_group_fold_keys rest [] (key l) [value l]); [| | |exact Hst]; try done.
  repeat constructor.
Qed.

(** The values of the groups, put end to end, are the values of the
    index. *)
Lemma spec_group_fold_values rest :
  forall fin k0 cur fin' k0' cur',
    fold_left (spec_group_step cmpKeys) rest (fin, k0, cur) = (fin', k0', cur') ->
    concat (map snd fin') ++ cur' = concat (map snd fin) ++ cur ++ map value rest.
Proof.
  induction rest as [|l rest IH]; intros fin k0 cur fin' k0' cur'.
  - cbn. intros [= <- <- <-]. by rewrite app_nil_r.
  - cbn [fold_left spec_group_step].
    destruct (cmpKeys (key l) k0 =? 0); intros Hf; apply IH in Hf; rewrite Hf.
    + cbn [map]. by rewrite <- !app_assoc.
    + rewrite map_app, concat_app. cbn [map concat snd]. by rewrite <- !app_assoc.
Qed.

Lemma spec_groups_values index :
  concat (map snd (spec_groups cmpKeys index)) = map value index.
Proof.
  destruct index as [|l rest]; [done|]. unfold spec_groups.
  destruct (fold_left (spec_group_step cmpKeys) rest ([], key l, [value l]))
    as [[fin k0] cur] eqn:Hst.
  apply spec_group_fold_values in Hst.
  rewrite map_app, concat_app. cbn [map concat snd]. rewrite app_nil_r. exact Hst.
Qed.

(** If nothing is logged the index is sorted. *)
Lemma spec_errors_none rest :
  forall k0, MustBeSorted ∉ spec_errors cmpKeys k0 rest ->
    StronglySorted key_le rest /\ Forall (fun l => cmpKeys k0 (key l) <= 0) rest.
Proof.
  induction rest as [|l rest IH]; intros k0 Hn; [by split; constructor|].
  cbn [spec_errors] in Hn. rewrite elem_of_app in Hn.
  apply Decidable.not_or in Hn as [Hn1 Hn2].
  destruct (Z.ltb_spec (cmpKeys (key l) k0) 0) as [Hlt|Hge]; [exfalso; apply Hn1; by left|].
  apply IH in Hn2 as [Hs Hall].
  assert (Hk0l : cmpKeys k0 (key l) <= 0).
  { pose proof (cmp_flip k0 (key l)). pose proof (cmp_flip (key l) k0). lia. }
  destruct (Z.eqb_spec (cmpKeys (key l) k0) 0) as [Hz|Hnz].
  - split; constructor; try done.
    eapply Forall_impl; [exact Hall|]. intros x Hx. cbn in *.
    apply (cmp_trans (key l) k0 (key x)); [lia|done].
  - split; constructor; try done.
    eapply Forall_impl; [exact Hall|]. intros x Hx. cbn in *.
    by apply (cmp_trans k0 (key l) (key x)).
Qed.

Lemma unsorted_index_logged index :
  ~ sorted_index cmpKeys index ->
  MustBeSorted ∈ match index with
                 | [] => []
                 | l :: rest => spec_errors cmpKeys (key l) rest
                 end.
Proof.
  intros Hns. destruct index as [|l rest].
  - exfalso. apply Hns. intros i j a b _ Hi. done.
  - destruct (decide (MustBeSorted ∈ spec_errors cmpKeys (key l) rest)) as [|Hn]; [done|].
    exfalso. apply Hns. apply sorted_index_StronglySorted.
    apply spec_errors_none in Hn as [Hs Hall]. by constructor.
Qed.

End GroupOrderProofs.
(** ** Indexer: grouping of sorted and of unsorted indexes *)

Section GroupTheorems.
Import Indexer.

Lemma spec_index_keys gs o : map key (spec_index gs o) = map fst gs.
Proof.
  revert o. induction gs as [|[k b] gs IH]; intros o; [done|].
  cbn [spec_index map key fst]. by rewrite IH.
Qed.

Lemma spec_values_file_app bs1 bs2 :
  spec_values_file (bs1 ++ bs2) = spec_values_file bs1 ++ spec_values_file bs2.
Proof. unfold spec_values_file. by rewrite map_app, concat_app. Qed.

(** Blocks lie in the values file in the order of their index entries. *)
Lemma spec_index_offsets gs (i j : nat) a b :
  (i < j)%nat -> spec_index gs 0 !! i = Some a -> spec_index gs 0 !! j = Some b ->
  value a < value b.
Proof.
  intros Hij Ha Hb.
  destruct (spec_index_lookup _ _ _ _ Ha) as (ka & ba & Hga & _ & ->).
  destruct (spec_index_lookup _ _ _ _ Hb) as (kb & bb & Hgb & _ & ->).
  replace j with (i + (j - i))%nat by lia.
  rewrite <- take_take_drop, map_app, spec_values_file_app, length_app.
  rewrite (drop_S _ _ _ Hga).
  destruct (j - i)%nat as [|m] eqn:Hm; [lia|].
  cbn [take map snd]. unfold spec_values_file at 3. cbn [map concat].
  rewrite length_app, length_block_bytes. lia.
Qed.

Lemma length_spec_collapse l : (length (spec_collapse l) <= length l)%nat.
Proof.
  induction l as [|x l IH] using rev_ind; [done|].
  rewrite spec_collapse_snoc, length_app. unfold spec_collapse_step. cbn [length].
  destruct (last (spec_collapse l)) as [y|] eqn:Hl.
  - destruct (decide (x = y)); [lia|]. rewrite length_app. cbn [length]. lia.
  - cbn [length]. lia.
Qed.

Lemma length_spec_block d vs : (length (spec_block d vs) <= length vs)%nat.
Proof.
  destruct d; [|done]. unfold spec_block.
  etransitivity; [apply length_spec_collapse|].
  by rewrite <- (Permutation_length (qsort_perm compareAux vs)).
Qed.

Lemma spec_block_true_NoDup vs : NoDup (spec_block true vs).
Proof.
  apply StronglySorted_lt_NoDup, spec_collapse_strict, qsort_compareAux_sorted.
Qed.

Lemma spec_block_true_elem_of vs v : v ∈ spec_block true vs <-> v ∈ vs.
Proof.
  unfold spec_block. rewrite (qsort_perm compareAux vs) at 2. split.
  - apply spec_collapse_subseteq.
  - apply spec_collapse_supseteq.
Qed.

Lemma length_concat_elem {B} (ls : list (list B)) l :
  l ∈ ls -> (length l <= length (concat ls))%nat.
Proof.
  induction 1 as [l ls|l l' ls _ IH]; cbn [concat]; rewrite length_app; lia.
Qed.

Lemma elem_of_concat {B} (ls : list (list B)) l x :
  x ∈ l -> l ∈ ls -> x ∈ concat ls.
Proof.
  intros Hx. induction 1 as [l ls|l l' ls _ IH]; cbn [concat]; rewrite elem_of_app; auto.
Qed.

(** A group of the index holds values of the index, no more than the
    index has lines. *)
Lemma spec_groups_group cmpKeys index (i : nat) k vs :
  Forall line_ok index -> spec_groups cmpKeys index !! i = Some (k, vs) ->
  Forall pos_t_range vs /\ (length vs <= length index)%nat.
Proof.
  intros Hok Hg.
  assert (Hin : vs ∈ map snd (spec_groups cmpKeys index)).
  { apply list_elem_of_fmap. exists (k, vs). split; [done|]. by eapply list_elem_of_lookup_2. }
  split.
  - rewrite Forall_forall. intros v Hv.
    assert (Hc : v ∈ concat (map snd (spec_groups cmpKeys index))).
    { by eapply elem_of_concat. }
    rewrite spec_groups_values in Hc. apply list_elem_of_fmap in Hc as (l & -> & Hl).
    rewrite Forall_forall in Hok. by apply Hok.
  - apply length_concat_elem in Hin. rewrite spec_groups_values, length_map in Hin. done.
Qed.

Lemma directCmp_order : comparator_order directCmp.
Proof.
  split; [exact directCmp_trans|]. intros a b. unfold directCmp.
  repeat match goal with |- context [?x <? ?y] => destruct (Z.ltb_spec x y) end;
  repeat match goal with |- context [?x >? ?y] => destruct (Z.gtb_spec x y) end; lia.
Qed.

(** C6: grouping a sorted index with [dedup = true].  Along the slots
    of the new index the keys increase strictly (so they are unique)
    and so do the block offsets (the blocks lie in the values file in
    key order); the keys are the keys of the runs of the sorted index,
    in order; the block of every entry has no two equal values and
    holds exactly the values of its run.  In particular the entries
    (7,3), (7,3), (7,5) give the single group 7 with block [3, 5]. *)
Theorem group_dedup_sorted :
  (forall cmpKeys index,
     comparator_order cmpKeys -> sorted_index cmpKeys index ->
     Forall line_ok index -> Z.of_nat (length index) < 2^31 ->
     let g := groupIndexer cmpKeys index true in
     (forall (i j : nat) a b, (i < j)%nat ->
        new_index g !! i = Some a -> new_index g !! j = Some b ->
        cmpKeys (key a) (key b) < 0 /\ value a < value b) /\
     map key (new_index g) = map fst (spec_groups cmpKeys index) /\
     new_elem_no g = Z.of_nat (length (new_index g)) /\
     (forall (i : nat) e, new_index g !! i = Some e ->
        NoDup (getGroupBlock (new_values g) (value e)) /\
        exists k vs, spec_groups cmpKeys index !! i = Some (k, vs) /\ key e = k /\
          forall v, v ∈ getGroupBlock (new_values g) (value e) <-> v ∈ vs)) /\
  (let g := groupIndexer directCmp [mkLINE 7 3; mkLINE 7 3; mkLINE 7 5] true in
   new_index g = [mkLINE 7 0] /\ getGroupBlock (new_values g) 0 = [3; 5]).
Proof.
  split; [|split; vm_compute; reflexivity].
  intros cmpKeys index Hord Hs Hok Hlen g.
  destruct (groupIndexer_spec cmpKeys true index Hok) as (Hidx & [junk Hval] & Hno & _).
  fold g in Hidx, Hval, Hno.
  assert (Hkeys : map key (new_index g) = map fst (spec_groups cmpKeys index)).
  { rewrite Hidx, spec_index_keys, map_map. reflexivity. }
  split; [|split; [exact Hkeys|split]].
  - intros i j a b Hij Ha Hb. split.
    + pose proof (spec_groups_keys_strict cmpKeys Hord index Hs) as Hst.
      rewrite <- Hkeys in Hst.
      apply (StronglySorted_lookup _ _ Hst i j); [done|..];
        by rewrite list_lookup_fmap, ?Ha, ?Hb.
    + rewrite Hidx in Ha, Hb. by eapply spec_index_offsets.
  - rewrite Hno, Hidx. f_equal.
    rewrite <- (length_map key), spec_index_keys. by rewrite !length_map.
  - intros i e He. rewrite Hidx in He.
    destruct (spec_index_lookup _ _ _ _ He) as (k & b & Hg & Hk & _).
    rewrite list_lookup_fmap in Hg.
    destruct (spec_groups cmpKeys index !! i) as [[k' vs]|] eqn:Hgi; [|done].
    cbn in Hg. injection Hg as <- <-.
    destruct (spec_groups_group cmpKeys index i k' vs Hok Hgi) as [Hr Hl].
    assert (Hblock : getGroupBlock (new_values g) (value e) = spec_block true vs).
    { rewrite Hval.
      replace (map (fun g0 : Z * list Z => spec_block true g0.2) (spec_groups cmpKeys index))
        with (map snd (map (fun g0 : Z * list Z => (g0.1, spec_block true g0.2))
                           (spec_groups cmpKeys index)))
        by (by rewrite map_map).
      eapply (getGroupBlock_spec _ junk i e k'); [exact He| |by apply spec_block_range|].
      - by rewrite list_lookup_fmap, Hgi.
      - pose proof (length_spec_block true vs). lia. }
    rewrite Hblock. split; [apply spec_block_true_NoDup|].
    exists k', vs. repeat split; try done.
    + by apply spec_block_true_elem_of.
    + by apply spec_block_true_elem_of.
Qed.

(** The general statement at the three collaborators of scenario S6. *)
Lemma group_dedup_sorted_witness :
  let g := groupIndexer directCmp [mkLINE 7 3; mkLINE 7 3; mkLINE 7 5] true in
  map key (new_index g) = map fst (spec_groups directCmp [mkLINE 7 3; mkLINE 7 3; mkLINE 7 5]).
Proof.
  intros g.
  assert (Hs : sorted_index directCmp [mkLINE 7 3; mkLINE 7 3; mkLINE 7 5]).
  { intros i j a b Hij Hi Hj.
    destruct i as [|[|[|i]]]; destruct j as [|[|[|j]]]; simpl in *; try lia;
      try discriminate; injection Hi as <-; injection Hj as <-; vm_compute; discriminate. }
  assert (Hok : Forall line_ok [mkLINE 7 3; mkLINE 7 3; mkLINE 7 5]).
  { repeat constructor; cbn; lia. }
  exact (proj1 (proj2 (proj1 group_dedup_sorted directCmp _ directCmp_order Hs Hok
                         ltac:(cbn; lia)))).
Defined.

(** C2 (as amended): when [groupIndexer] is given an index that is not
    sorted, it logs "indexer must be sorted", once for every entry whose
    key compares below the key of the group that is open when the entry
    is read ([spec_errors]), which happens at least once, and goes on:
    the new index and the values file are still written, with one group
    for every run of adjacent entries that share a key. *)
Theorem group_unsorted_logged_and_grouped cmpKeys dedup index :
  comparator_order cmpKeys -> Forall line_ok index ->
  ~ sorted_index cmpKeys index ->
  let g := groupIndexer cmpKeys index dedup in
  let groups := map (fun r : Z * list Z => (r.1, spec_block dedup r.2))
                    (spec_groups cmpKeys index) in
  errors g = match index with
             | [] => []
             | l :: rest => spec_errors cmpKeys (key l) rest
             end /\
  MustBeSorted ∈ errors g /\
  new_index g = spec_index groups 0 /\
  (exists junk, new_values g = spec_values_file (map snd groups) ++ junk) /\
  new_elem_no g = Z.of_nat (length groups) /\
  new_index g <> [] /\ new_values g <> [].
Proof.
  intros Hord Hok Hns g groups.
  destruct (groupIndexer_spec cmpKeys dedup index Hok) as (Hidx & [junk Hval] & Hno & Herr).
  fold g in Hidx, Hval, Hno, Herr. fold groups in Hidx.
  assert (Hb : map snd groups
               = map (fun g0 : Z * list Z => spec_block dedup g0.2) (spec_groups cmpKeys index)).
  { subst groups. by rewrite map_map. }
  assert (Hne : exists r rs, groups = rs ++ [r]).
  { subst groups. destruct index as [|l rest].
    - exfalso. apply Hns. intros i j a b _ Hi. done.
    - unfold spec_groups.
      destruct (fold_left (spec_group_step cmpKeys) rest ([], key l, [value l]))
        as [[fin k0] cur].
      rewrite map_app. cbn [map]. eauto. }
  destruct Hne as (r & rs & Hgr).
  split; [exact Herr|].
  split; [rewrite Herr; by apply unsorted_index_logged|].
  split; [exact Hidx|]. split; [exists junk; by rewrite Hb|].
  split; [subst groups; by rewrite Hno, length_map|].
  split.
  - rewrite Hidx, Hgr. intros Hnil. apply (f_equal (map key)) in Hnil.
    rewrite spec_index_keys, map_app in Hnil. by destruct (map fst rs).
  - rewrite Hval, <- Hb, Hgr, map_app, spec_values_file_app. cbn [map].
    intros Hnil. apply (f_equal length) in Hnil.
    rewrite !length_app in Hnil. unfold spec_values_file at 2 in Hnil.
    cbn [map concat] in Hnil. rewrite length_app, length_block_bytes in Hnil.
    cbn [length] in Hnil. lia.
Qed.

Lemma group_unsorted_witness :
  MustBeSorted ∈ errors (groupIndexer directCmp [mkLINE 2 20; mkLINE 1 10] false) /\
  new_index (groupIndexer directCmp [mkLINE 2 20; mkLINE 1 10] false) <> [].
Proof.
  assert (Hns : ~ sorted_index directCmp [mkLINE 2 20; mkLINE 1 10]).
  { intros Hs. specialize (Hs 0%nat 1%nat _ _ ltac:(lia) eq_refl eq_refl).
    vm_compute in Hs. by apply Hs. }
  assert (Hok : Forall line_ok [mkLINE 2 20; mkLINE 1 10]).
  { repeat constructor; cbn; lia. }
  pose proof (group_unsorted_logged_and_grouped directCmp false _ directCmp_order Hok Hns) as H.
  cbv zeta in H. destruct H as (_ & H1 & _ & _ & _ & H2 & _). by split.
Defined.

(** C2 (counterexample): on the unsorted index (2,20), (1,10) the pass
    does log the error, but it also writes a new index of two entries
    and a values file of two blocks: the operation is not aborted. *)
Theorem group_unsorted_not_rejected :
  let index := [mkLINE 2 20; mkLINE 1 10] in
  let g := groupIndexer directCmp index false in
  ~ sorted_index directCmp index /\
  errors g = [MustBeSorted] /\
  new_index g = [mkLINE 2 0; mkLINE 1 12] /\
  map (fun e => getGroupBlock (new_values g) (value e)) (new_index g) = [[20]; [10]] /\
  ~ (new_index g = [] /\ new_values g = []).
Proof.
  intros index g. split.
  { intros Hs. specialize (Hs 0%nat 1%nat _ _ ltac:(lia) eq_refl eq_refl).
    vm_compute in Hs. by apply Hs. }
  split; [vm_compute; reflexivity|]. split; [vm_compute; reflexivity|].
  split; [vm_compute; reflexivity|]. intros [H _]. vm_compute in H. discriminate.
Qed.

End GroupTheorems.

(** ** Indexer: the merge heap (heapify, popHeap, pushHeap) *)

Section HeapProofs.
Import Indexer.
Local Open Scope nat_scope.

Variable cmpKeys : Z -> Z -> Z.
Hypothesis cmp_order : comparator_order cmpKeys.

Lemma cmp_ge_flip a b : (cmpKeys a b >= 0)%Z -> (cmpKeys b a <= 0)%Z.
Proof.
  intros H. pose proof (cmp_flip cmpKeys cmp_order a b).
  pose proof (cmp_flip cmpKeys cmp_order b a). lia.
Qed.

Lemma cmp_refl a : (cmpKeys a a <= 0)%Z.
Proof. pose proof (cmp_flip cmpKeys cmp_order a a). lia. Qed.

Lemma parent_spec c : 0 < c -> c = 2 * ((c - 1) / 2) + 1 \/ c = 2 * ((c - 1) / 2) + 2.
Proof.
  intros H. pose proof (Nat.div_mod_eq (c - 1) 2) as Hd.
  pose proof (Nat.mod_upper_bound (c - 1) 2 ltac:(lia)). lia.
Qed.

Lemma parent_child c e : 0 < c -> ((c - 1) / 2 = e <-> c = 2 * e + 1 \/ c = 2 * e + 2).
Proof.
  intros H. pose proof (parent_spec c H). split; [lia|].
  intros [-> | ->].
  - replace (2 * e + 1 - 1) with (e * 2) by lia. apply Nat.div_mul. lia.
  - replace (2 * e + 2 - 1) with (1 + e * 2) by lia. rewrite Nat.div_add by lia. done.
Qed.

Lemma parent_lt c : 0 < c -> (c - 1) / 2 < c.
Proof. intros H. pose proof (parent_spec c H). lia. Qed.

Section Swap.
Variables (vals : list LINE) (hp : list nat) (a b x y : nat).
Hypothesis Ha : hp !! a = Some x.
Hypothesis Hb : hp !! b = Some y.

Let hp' := <[b := x]> (<[a := y]> hp).

Lemma swap_lookup p : hp' !! p = hp !! swap_pos a b p.
Proof.
  subst hp'. unfold swap_pos.
  apply lookup_lt_Some in Ha as Hla. apply lookup_lt_Some in Hb as Hlb.
  destruct (decide (p = b)) as [->|Hpb].
  - rewrite list_lookup_insert_eq by (by rewrite length_insert).
    destruct (decide (b = a)) as [->|]; [congruence|done].
  - rewrite list_lookup_insert_ne by done.
    destruct (decide (p = a)) as [->|Hpa].
    + by rewrite list_lookup_insert_eq.
    + by rewrite list_lookup_insert_ne.
Qed.

Lemma swap_hkey p : hkey vals hp' p = hkey vals hp (swap_pos a b p).
Proof. unfold hkey. by rewrite swap_lookup. Qed.

Lemma swap_length : length hp' = length hp.
Proof. subst hp'. by rewrite !length_insert. Qed.

Lemma swap_pos_inj : Inj (=) (=) (swap_pos a b).
Proof.
  intros p q. unfold swap_pos.
  repeat case_decide; congruence.
Qed.

Lemma swap_perm sz : a < sz -> b < sz -> Permutation (take sz hp') (take sz hp).
Proof.
  intros Hsa Hsb. apply Permutation_inj. split.
  - by rewrite !length_take, swap_length.
  - exists (swap_pos a b). split; [apply swap_pos_inj|].
    intros i. destruct (decide (i < sz)) as [Hi|Hi].
    + rewrite !lookup_take_lt; [apply swap_lookup| |done].
      unfold swap_pos. repeat case_decide; lia.
    + rewrite !lookup_take_ge; [done| |lia].
      unfold swap_pos. repeat case_decide; lia.
Qed.

Lemma swap_wf sz : a < sz -> b < sz -> heap_wf vals hp sz -> heap_wf vals hp' sz.
Proof.
  intros Hsa Hsb [Hlen Hwf]. split; [by rewrite swap_length|].
  intros p j Hp Hj. rewrite swap_lookup in Hj.
  apply (Hwf (swap_pos a b p)); [|done]. unfold swap_pos. repeat case_decide; lia.
Qed.

End Swap.

Lemma heap_key_ok h p :
  heap_wf (values h) (heap h) (size h) -> p < size h ->
  heap_key h p = Returned (hkey (values h) (heap h) p).
Proof.
  intros [Hlen Hwf] Hp. unfold heap_key, hkey.
  destruct (lookup_lt_is_Some_2 (heap h) p ltac:(lia)) as [j Hj]. rewrite Hj.
  destruct (lookup_lt_is_Some_2 (values h) j (Hwf p j Hp Hj)) as [v Hv].
  cbn. rewrite Hv. reflexivity.
Qed.

Lemma heap_swap_ok h a b :
  size h <= length (heap h) -> a < size h -> b < size h ->
  exists x y, heap h !! a = Some x /\ heap h !! b = Some y /\
    heap_swap h a b = Returned (mkHEAP (values h) (<[b := x]> (<[a := y]> (heap h))) (size h)).
Proof.
  intros Hlen Ha Hb. unfold heap_swap.
  destruct (lookup_lt_is_Some_2 (heap h) a ltac:(lia)) as [x Hx].
  destruct (lookup_lt_is_Some_2 (heap h) b ltac:(lia)) as [y Hy].
  exists x, y. rewrite Hx, Hy. done.
Qed.

Lemma bind_Returned_inv {A B} (m : outcome A) (f : A -> outcome B) b :
  m ≫= f = Returned b -> exists a, m = Returned a /\ f a = Returned b.
Proof. destruct m; cbn; try discriminate. eauto. Qed.

Lemma cmp_le_trans a b c :
  (cmpKeys a b <= 0)%Z -> (cmpKeys b c <= 0)%Z -> (cmpKeys a c <= 0)%Z.
Proof. apply cmp_order. Qed.

(** [heapify] restores the heap order below position [e]. *)
Lemma heapify_spec vals sz fuel :
  forall hp e,
    heap_wf vals hp sz -> e < sz -> sz - e <= fuel ->
    heap_but_down cmpKeys vals hp sz e ->
    exists hp', heapify cmpKeys fuel (mkHEAP vals hp sz) e = Returned (mkHEAP vals hp' sz) /\
      heap_wf vals hp' sz /\ heap_prop cmpKeys vals hp' sz /\
      Permutation (take sz hp') (take sz hp) /\ length hp' = length hp.
Proof.
  induction fuel as [|fuel IH]; intros hp e Hwf He Hfuel [Hda Hdb]; [lia|].
  cbn [heapify size].
  set (h := mkHEAP vals hp sz).
  assert (Hk : forall p, p < sz -> heap_key h p = Returned (hkey vals hp p)).
  { intros p Hp. by apply (heap_key_ok h p). }
  set (l := 2 * e + 1). set (r := 2 * e + 2).
  (* the smallest of e and its children *)
  assert (Hsm : exists s,
    (s = e \/ (s = l /\ l < sz) \/ (s = r /\ r < sz)) /\
    (l < sz -> (cmpKeys (hkey vals hp s) (hkey vals hp l) <= 0)%Z) /\
    (r < sz -> (cmpKeys (hkey vals hp s) (hkey vals hp r) <= 0)%Z) /\
    (cmpKeys (hkey vals hp s) (hkey vals hp e) <= 0)%Z /\
    (smallest ← (if decide (l < sz) then
                   kl ← heap_key h l; ke ← heap_key h e;
                   Returned (if (cmpKeys kl ke <? 0)%Z then l else e)
                 else Returned e);
     (if decide (r < sz) then
        kr ← heap_key h r; ks ← heap_key h smallest;
        Returned (if (cmpKeys kr ks <? 0)%Z then r else smallest)
      else Returned smallest)) = Returned s).
  { destruct (decide (l < sz)) as [Hl|Hl].
    - rewrite (Hk l Hl), (Hk e He). cbn [mbind outcome_bind].
      destruct (Z.ltb_spec (cmpKeys (hkey vals hp l) (hkey vals hp e)) 0) as [Hle|Hle].
      + destruct (decide (r < sz)) as [Hr|Hr].
        * rewrite (Hk r Hr), (Hk l Hl). cbn [mbind outcome_bind].
          destruct (Z.ltb_spec (cmpKeys (hkey vals hp r) (hkey vals hp l)) 0) as [Hrl|Hrl].
          -- exists r. repeat split; auto; try lia; intros.
             ++ apply cmp_refl.
             ++ apply (cmp_le_trans _ (hkey vals hp l)); lia.
          -- exists l. repeat split; auto; try lia; intros.
             ++ apply cmp_refl.
             ++ apply cmp_ge_flip. lia.
        * exists l. cbn [mbind outcome_bind]. repeat split; auto; try lia; intros.
          apply cmp_refl.
      + destruct (decide (r < sz)) as [Hr|Hr].
        * rewrite (Hk r Hr), (Hk e He). cbn [mbind outcome_bind].
          destruct (Z.ltb_spec (cmpKeys (hkey vals hp r) (hkey vals hp e)) 0) as [Hre|Hre].
          -- exists r. repeat split; auto; try lia; intros.
             ++ apply (cmp_le_trans _ (hkey vals hp e)); [lia|]. apply cmp_ge_flip. lia.
             ++ apply cmp_refl.
          -- exists e. repeat split; auto; try lia; intros.
             ++ apply cmp_ge_flip. lia.
             ++ apply cmp_ge_flip. lia.
             ++ apply cmp_refl.
        * exists e. cbn [mbind outcome_bind]. repeat split; auto; try lia; intros.
          -- apply cmp_ge_flip. lia.
          -- apply cmp_refl.
    - destruct (decide (r < sz)) as [Hr|Hr]; [subst l r; lia|].
      exists e. cbn [mbind outcome_bind]. repeat split; auto; try lia; intros.
      apply cmp_refl. }
  destruct Hsm as (s & Hs & Hsl & Hsr & Hse & Hrun).
  apply bind_Returned_inv in Hrun as (s1 & Hrun1 & Hrun2).
  subst h. cbn [size] in *. rewrite Hrun1. cbn [mbind outcome_bind].
  rewrite Hrun2. cbn [mbind outcome_bind]. clear Hrun1 Hrun2 s1.
  destruct (decide (s ≠ e)) as [Hne|Heq].
  - (* exchange with the smallest child and go down *)
    assert (Hss : s < sz) by lia.
    destruct (heap_swap_ok (mkHEAP vals hp sz) e s) as (x & y & Hx & Hy & ->);
      cbn [heap size]; try done; try apply Hwf.
    cbn [mbind outcome_bind values heap size].
    set (hp1 := <[s := x]> (<[e := y]> hp)).
    assert (Hk1 : forall p, hkey vals hp1 p = hkey vals hp (swap_pos e s p))
      by (intros p; by apply swap_hkey).
    assert (Hse' : (s - 1) / 2 = e) by (apply parent_child; lia).
    destruct (IH hp1 s) as (hp' & Hrun & Hwf' & Hprop & Hperm & Hlen); try done.
    + by apply swap_wf.
    + lia.
    + split.
      * intros c Hc Hpc. rewrite !Hk1. unfold swap_pos.
        pose proof (parent_lt c ltac:(lia)) as Hplt.
        destruct (decide (c = e)) as [->|Hce].
        -- (* new e against its parent *)
           repeat case_decide; try lia. apply Hdb; [lia|done|lia].
        -- destruct (decide (c = s)) as [->|Hcs].
           ++ repeat case_decide; try lia; done.
           ++ destruct (decide ((c - 1) / 2 = e)) as [Hpe|Hpe].
              ** (* the sibling of s *)
                 repeat case_decide; try lia.
                 apply parent_child in Hpe; [|lia].
                 destruct Hpe as [->| ->]; [apply Hsl|apply Hsr]; lia.
              ** repeat case_decide; try lia. apply Hda; [lia|done].
      * intros c Hc Hpc Hs0. rewrite !Hk1. unfold swap_pos.
        rewrite Hse'. pose proof (parent_lt c ltac:(lia)).
        repeat case_decide; try lia. rewrite <- Hpc. apply Hda; [lia|lia].
    + exists hp'. split; [exact Hrun|]. split; [done|]. split; [done|].
      split; [|by rewrite Hlen; apply swap_length].
      rewrite Hperm. by apply swap_perm.
  - (* e is the smallest: the heap is in order *)
    assert (s = e) by (destruct (decide (s = e)); [done|by destruct Heq]). subst s.
    exists hp. split; [done|]. split; [done|]. split; [|done].
    intros c Hc. destruct (decide ((c - 1) / 2 = e)) as [Hpe|Hpe].
    + rewrite Hpe. apply parent_child in Hpe; [|lia].
      destruct Hpe as [->| ->]; [apply Hsl|apply Hsr]; lia.
    + by apply Hda.
Qed.

(** The loop of [pushHeap] restores the heap order above [pos]. *)
Lemma pushHeap_loop_spec vals sz fuel :
  forall hp pos,
    heap_wf vals hp sz -> pos < sz -> pos <= fuel ->
    heap_but_up cmpKeys vals hp sz pos ->
    exists hp', pushHeap_loop cmpKeys fuel (mkHEAP vals hp sz) pos
                  = Returned (mkHEAP vals hp' sz) /\
      heap_wf vals hp' sz /\ heap_prop cmpKeys vals hp' sz /\
      Permutation (take sz hp') (take sz hp) /\ length hp' = length hp.
Proof.
  induction fuel as [|fuel IH]; intros hp pos Hwf Hpos Hfuel [Hua Hub].
  - assert (pos = 0) by lia. subst pos. cbn.
    exists hp. repeat split; try done; try apply Hwf.
    intros c Hc. apply Hua; lia.
  - cbn [pushHeap_loop].
    destruct (decide (pos ≠ 0)) as [Hp0|Hp0].
    2:{ assert (pos = 0) by lia. subst pos.
        exists hp. repeat split; try done; try apply Hwf.
        intros c Hc. apply Hua; lia. }
    pose proof (parent_lt pos ltac:(lia)) as Hq.
    set (q := (pos - 1) / 2) in *.
    rewrite (heap_key_ok (mkHEAP vals hp sz) q), (heap_key_ok (mkHEAP vals hp sz) pos);
      cbn [values heap size]; try done; try lia.
    cbn [mbind outcome_bind].
    destruct (Z.gtb_spec (cmpKeys (hkey vals hp q) (hkey vals hp pos)) 0) as [Hgt|Hle].
    + destruct (heap_swap_ok (mkHEAP vals hp sz) pos q) as (x & y & Hx & Hy & ->);
        cbn [heap size]; try done; try apply Hwf; try lia.
      cbn [mbind outcome_bind values heap size].
      set (hp1 := <[q := x]> (<[pos := y]> hp)).
      assert (Hk1 : forall p, hkey vals hp1 p = hkey vals hp (swap_pos pos q p))
        by (intros p; by apply swap_hkey).
      assert (Hpq : (cmpKeys (hkey vals hp pos) (hkey vals hp q) <= 0)%Z)
        by (apply cmp_ge_flip; lia).
      destruct (IH hp1 q) as (hp' & Hrun & Hwf' & Hprop & Hperm & Hlen); try done; try lia.
      * apply swap_wf; try done; lia.
      * split.
        -- intros c Hc Hcq. rewrite !Hk1. unfold swap_pos.
           pose proof (parent_lt c ltac:(lia)) as Hplt.
           destruct (decide (c = pos)) as [->|Hcp].
           ++ fold q. repeat case_decide; try lia; try done.
           ++ destruct (decide ((c - 1) / 2 = pos)) as [Hpp|Hpp].
              ** repeat case_decide; try lia; try (by apply Hub; [lia| |lia]).
              ** destruct (decide ((c - 1) / 2 = q)) as [Hpq'|Hpq'].
                 --- repeat case_decide; try lia;
                       try (apply (cmp_le_trans _ (hkey vals hp q)); [done|];
                            rewrite <- Hpq'; apply Hua; lia).
                 --- repeat case_decide; try lia; try (apply Hua; lia).
        -- intros c Hc Hcq Hq0. rewrite !Hk1. unfold swap_pos.
           pose proof (parent_lt q ltac:(lia)) as Hqlt.
           pose proof (parent_lt c ltac:(lia)) as Hclt.
           assert (Hqq : (cmpKeys (hkey vals hp ((q - 1) / 2)) (hkey vals hp q) <= 0)%Z)
             by (apply Hua; lia).
           destruct (decide (c = pos)) as [->|Hcp].
           ++ repeat case_decide; try lia; try done.
           ++ repeat case_decide; try lia;
                try (apply (cmp_le_trans _ (hkey vals hp q)); [done|];
                     rewrite <- Hcq; apply Hua; lia).
      * exists hp'. split; [exact Hrun|]. split; [done|]. split; [done|].
        split; [|by rewrite Hlen; apply swap_length].
        rewrite Hperm. apply swap_perm; try done; lia.
    + exists hp. split; [done|]. split; [done|]. split; [|done].
      intros c Hc. destruct (decide (c = pos)) as [->|Hcp]; [fold q; lia|].
      by apply Hua.
Qed.

(** The root of a heap holds a smallest key. *)
Lemma heap_prop_min vals hp sz p :
  heap_prop cmpKeys vals hp sz -> p < sz ->
  (cmpKeys (hkey vals hp 0) (hkey vals hp p) <= 0)%Z.
Proof.
  intros Hh. induction p as [p IH] using lt_wf_ind. intros Hp.
  destruct (decide (p = 0)) as [->|Hp0]; [apply cmp_refl|].
  pose proof (parent_lt p ltac:(lia)) as Hq.
  apply (cmp_le_trans _ (hkey vals hp ((p - 1) / 2))).
  - apply IH; lia.
  - apply Hh. lia.
Qed.

End HeapProofs.

(** ** Indexer: popping and pushing runs *)

Section HeapOpsProofs.
Import Indexer.
Local Open Scope nat_scope.

Variable cmpKeys : Z -> Z -> Z.
Hypothesis cmp_order : comparator_order cmpKeys.

(** [popHeap] hands out the run at the root and leaves a heap of the
    other runs. *)
Lemma popHeap_spec vals hp sz :
  heap_wf vals hp sz -> heap_prop cmpKeys vals hp sz -> 0 < sz ->
  exists b hp',
    hp !! 0 = Some b /\
    popHeap cmpKeys (mkHEAP vals hp sz) = Returned (b, mkHEAP vals hp' (sz - 1)) /\
    heap_wf vals hp' (sz - 1) /\ heap_prop cmpKeys vals hp' (sz - 1) /\
    Permutation (b :: take (sz - 1) hp') (take sz hp) /\ length hp' = length hp.
Proof.
  intros [Hlen Hwf] Hprop Hsz. unfold popHeap. cbn [heap size values].
  destruct (lookup_lt_is_Some_2 hp 0 ltac:(lia)) as [b Hb]. rewrite Hb.
  cbn [read_cell mbind outcome_bind]. exists b.
  destruct (decide (0 < sz - 1)) as [Hpos|Hzero].
  - destruct (lookup_lt_is_Some_2 hp (sz - 1) ltac:(lia)) as [lastv Hl]. rewrite Hl.
    cbn [read_cell mbind outcome_bind].
    set (hp1 := <[0 := lastv]> hp).
    assert (Hwf1 : heap_wf vals hp1 (sz - 1)).
    { split; [subst hp1; rewrite length_insert; lia|].
      intros p j Hp Hj. subst hp1. destruct (decide (p = 0)) as [->|Hp0].
      - rewrite list_lookup_insert_eq in Hj by lia. injection Hj as <-.
        apply (Hwf (sz - 1)); [lia|done].
      - rewrite list_lookup_insert_ne in Hj by done. apply (Hwf p); [lia|done]. }
    assert (Hk1 : forall p, p <> 0 -> hkey vals hp1 p = hkey vals hp p).
    { intros p Hp. unfold hkey. subst hp1. by rewrite list_lookup_insert_ne. }
    destruct (heapify_spec cmpKeys cmp_order vals (sz - 1) (S (sz - 1)) hp1 0)
      as (hp' & Hrun & Hwf' & Hprop' & Hperm & Hlen'); try done; try lia.
    { split; [|intros; lia].
      intros c Hc Hpc. rewrite !Hk1 by lia. apply Hprop. lia. }
    exists hp'. split; [done|]. rewrite Hrun. cbn [mbind outcome_bind].
    split; [done|]. split; [done|]. split; [done|].
    split; [|subst hp1; by rewrite Hlen', length_insert].
    rewrite Hperm. subst hp1.
    assert (Htk : take (S (sz - 1)) hp = take (sz - 1) hp ++ [lastv])
      by (by apply take_S_r).
    replace (S (sz - 1)) with sz in Htk by lia. rewrite Htk.
    destruct hp as [|h0 hp0]; [done|]. cbn in Hb. injection Hb as ->.
    cbn [insert list_insert]. destruct (sz - 1) as [|m] eqn:Hm; [lia|].
    cbn [take]. rewrite <- Permutation_cons_append. apply perm_swap.
  - exists hp. split; [done|]. split; [done|].
    assert (sz - 1 = 0) as -> by lia.
    split; [split; [lia|intros; lia]|]. split; [intros c Hc; lia|].
    split; [|done]. cbn [take]. assert (sz = 1) as -> by lia.
    destruct hp as [|h0 hp0]; [done|]. cbn in Hb. injection Hb as ->. done.
Qed.

(** [pushHeap] adds a run to the heap. *)
Lemma pushHeap_spec vals hp sz b :
  heap_wf vals hp sz -> heap_prop cmpKeys vals hp sz ->
  sz < length hp -> b < length vals ->
  exists hp',
    pushHeap cmpKeys (mkHEAP vals hp sz) b = Returned (mkHEAP vals hp' (S sz)) /\
    heap_wf vals hp' (S sz) /\ heap_prop cmpKeys vals hp' (S sz) /\
    Permutation (take (S sz) hp') (b :: take sz hp) /\ length hp' = length hp.
Proof.
  intros [Hlen Hwf] Hprop Hsz Hb. unfold pushHeap. cbn [heap size values].
  destruct (decide (sz < length hp)) as [_|]; [|lia].
  set (hp1 := <[sz := b]> hp).
  assert (Hk1 : forall p, p <> sz -> hkey vals hp1 p = hkey vals hp p).
  { intros p Hp. unfold hkey. subst hp1. by rewrite list_lookup_insert_ne. }
  destruct (pushHeap_loop_spec cmpKeys cmp_order vals (S sz) sz hp1 sz)
    as (hp' & Hrun & Hwf' & Hprop' & Hperm & Hlen'); try lia.
  - split; [subst hp1; rewrite length_insert; lia|].
    intros p j Hp Hj. subst hp1. destruct (decide (p = sz)) as [->|Hne].
    + rewrite list_lookup_insert_eq in Hj by lia. by injection Hj as <-.
    + rewrite list_lookup_insert_ne in Hj by done. apply (Hwf p); [lia|done].
  - split.
    + intros c Hc Hcs. pose proof (parent_lt c ltac:(lia)).
      rewrite !Hk1 by lia. apply Hprop. lia.
    + intros c Hc Hpc. pose proof (parent_lt c ltac:(lia)). lia.
  - exists hp'. split; [done|]. split; [done|]. split; [done|].
    split; [|subst hp1; by rewrite Hlen', length_insert].
    rewrite Hperm. subst hp1.
    rewrite (take_S_r _ _ b) by (apply list_lookup_insert_eq; lia).
    rewrite take_insert_ge by lia. by rewrite <- Permutation_cons_append.
Qed.

(** Replacing the line of a run that is not in the heap keeps the heap. *)
Lemma heap_update_values vals hp sz b x :
  b ∉ take sz hp -> heap_wf vals hp sz -> heap_prop cmpKeys vals hp sz ->
  heap_wf (<[b := x]> vals) hp sz /\ heap_prop cmpKeys (<[b := x]> vals) hp sz.
Proof.
  intros Hb [Hlen Hwf] Hprop.
  assert (Hk : forall p, p < sz -> hkey (<[b := x]> vals) hp p = hkey vals hp p).
  { intros p Hp. unfold hkey.
    destruct (lookup_lt_is_Some_2 hp p ltac:(lia)) as [j Hj]. rewrite Hj. cbn.
    rewrite list_lookup_insert_ne; [done|]. intros ->. apply Hb.
    apply list_elem_of_lookup. exists p. by rewrite lookup_take_lt. }
  split.
  - split; [done|]. intros p j Hp Hj. rewrite length_insert. by apply (Hwf p).
  - intros c Hc. pose proof (parent_lt c ltac:(lia)). rewrite !Hk by lia. by apply Hprop.
Qed.

End HeapOpsProofs.

(** ** Indexer: merging the runs *)

Section MergeProofs.
Import Indexer.
Local Open Scope nat_scope.

Variable cmpKeys : Z -> Z -> Z.
Hypothesis cmp_order : comparator_order cmpKeys.

(** Taking the head off one of the lists of a family takes it off the
    concatenation. *)
Lemma concat_map_head {A} (f g : nat -> list A) (v : A) (b : nat) (l : list nat) :
  NoDup l -> b ∈ l ->
  (forall j, j ∈ l -> j <> b -> g j = f j) -> f b = v :: g b ->
  Permutation (concat (map f l)) (v :: concat (map g l)).
Proof.
  intros Hnd Hb Hfg Hfb.
  induction l as [|a l IH]; [by apply elem_of_nil in Hb|].
  apply NoDup_cons in Hnd as [Ha Hnd]. cbn.
  destruct (decide (a = b)) as [->|Hab].
  - rewrite Hfb. cbn. constructor. f_equiv.
    assert (Heq : map f l = map g l); [|by rewrite Heq].
    apply map_ext_in. intros j Hj%list_elem_of_In. symmetry. apply Hfg.
    + by right.
    + by intros ->.
  - rewrite (Hfg a) by (by left || done).
    rewrite IH; [by rewrite Permutation_middle|done|..].
    + apply elem_of_cons in Hb as [->|]; done.
    + intros j Hj. apply Hfg. by right.
Qed.

Lemma concat_map_same {A} (f g : nat -> list A) (l : list nat) :
  (forall j, j ∈ l -> g j = f j) -> concat (map g l) = concat (map f l).
Proof.
  intros Hfg. f_equal. apply map_ext_in. intros j Hj%list_elem_of_In. by apply Hfg.
Qed.

Lemma elem_of_seq_0 j k : j ∈ seq 0 k <-> j < k.
Proof. rewrite elem_of_seq. lia. Qed.

(** What is left of a run depends on its membership in the heap, its
    entry in [values] and its temporary file only. *)
Lemma remaining_ext tmp h tmp' h' j :
  (j ∈ active h' <-> j ∈ active h) ->
  (j ∈ active h -> values h' !! j = values h !! j) ->
  tmp' !! j = tmp !! j ->
  remaining tmp' h' j = remaining tmp h j.
Proof.
  intros Hact Hval Htmp. unfold remaining. rewrite Htmp.
  destruct (decide (j ∈ active h')) as [H1|H1], (decide (j ∈ active h)) as [H2|H2];
    try tauto.
  by rewrite Hval.
Qed.

Lemma line_le_trans a b c : line_le cmpKeys a b -> line_le cmpKeys b c -> line_le cmpKeys a c.
Proof. unfold line_le. apply cmp_order. Qed.

Lemma line_le_refl a : line_le cmpKeys a a.
Proof. unfold line_le. by apply cmp_refl. Qed.

(** The run at the root of the heap holds the least line left. *)
Lemma root_least tmp h b v :
  heap_prop cmpKeys (values h) (heap h) (size h) ->
  heap h !! 0 = Some b -> values h !! b = Some v ->
  (forall j, j < length tmp -> StronglySorted (line_le cmpKeys) (remaining tmp h j)) ->
  exhausted tmp h (length tmp) ->
  forall j y, j < length tmp -> y ∈ remaining tmp h j -> line_le cmpKeys v y.
Proof.
  intros Hprop Hb Hv Hsorted Hex j y Hj Hy.
  specialize (Hsorted j Hj). unfold remaining in *.
  destruct (decide (j ∈ active h)) as [Hact|Hact].
  - apply list_elem_of_lookup in Hact as [p Hp]. unfold active in Hp.
    apply lookup_take_Some in Hp as [Hp Hlt].
    pose proof (heap_prop_min cmpKeys cmp_order _ _ _ p Hprop Hlt) as Hmin.
    unfold hkey in Hmin. rewrite Hb, Hp in Hmin. cbn in Hmin. rewrite Hv in Hmin. cbn in Hmin.
    cbn in Hsorted, Hy. apply StronglySorted_inv in Hsorted as [_ Hall].
    apply elem_of_cons in Hy as [->|Hy]; [exact Hmin|].
    eapply line_le_trans; [exact Hmin|].
    rewrite Forall_forall in Hall. by apply Hall.
  - rewrite (Hex j Hj Hact) in Hy. cbn in Hy. by apply elem_of_nil in Hy.
Qed.

Lemma concat_map_nil {A} (f : nat -> list A) (l : list nat) :
  (forall j, j ∈ l -> f j = []) -> concat (map f l) = [].
Proof.
  induction l as [|a l IH]; intros Hf; [done|]. cbn.
  rewrite (Hf a) by (by left). cbn. apply IH. intros j Hj. apply Hf. by right.
Qed.

(** The invariant looks at the runs through [remaining] only. *)
Lemma merge_inv_same index tmp h out tmp' h' :
  merge_inv cmpKeys index tmp h out ->
  length tmp' = length tmp ->
  length (values h') = length tmp -> length (heap h') = length tmp ->
  heap_wf (values h') (heap h') (size h') ->
  heap_prop cmpKeys (values h') (heap h') (size h') ->
  NoDup (active h') ->
  (forall j, j < length tmp -> remaining tmp' h' j = remaining tmp h j) ->
  merge_inv cmpKeys index tmp' h' out.
Proof.
  intros Hinv Hlt Hlv' Hlh' Hwf' Hprop' Hnd' Hrem.
  unfold merge_inv in *. cbv zeta in *.
  destruct Hinv as (Hlv & Hlh & Hwf & Hprop & Hnd & Hsorted & Hout & Hle & Hperm).
  rewrite Hlt. split_and!; try done.
  - intros j Hj. rewrite Hrem by done. by apply Hsorted.
  - intros x y j Hx Hj Hy. rewrite Hrem in Hy by done. by apply (Hle x y j).
  - rewrite (concat_map_same (remaining tmp h)); [done|].
    intros j Hj%elem_of_seq_0. by apply Hrem.
Qed.

(** Moving the least line left from its run to the output. *)
Lemma merge_inv_emit index tmp h out tmp' h' v b :
  merge_inv cmpKeys index tmp h out ->
  length tmp' = length tmp ->
  length (values h') = length tmp -> length (heap h') = length tmp ->
  heap_wf (values h') (heap h') (size h') ->
  heap_prop cmpKeys (values h') (heap h') (size h') ->
  NoDup (active h') ->
  b < length tmp ->
  (forall j, j < length tmp -> j <> b -> remaining tmp' h' j = remaining tmp h j) ->
  remaining tmp h b = v :: remaining tmp' h' b ->
  (forall j y, j < length tmp -> y ∈ remaining tmp h j -> line_le cmpKeys v y) ->
  merge_inv cmpKeys index tmp' h' (out ++ [v]) /\
  length (concat (map (remaining tmp h) (seq 0 (length tmp)))) =
    S (length (concat (map (remaining tmp' h') (seq 0 (length tmp'))))).
Proof.
  intros Hinv Hlt Hlv' Hlh' Hwf' Hprop' Hnd' Hb Hrem Hremb Hmin.
  unfold merge_inv in *. cbv zeta in *.
  destruct Hinv as (Hlv & Hlh & Hwf & Hprop & Hnd & Hsorted & Hout & Hle & Hperm).
  rewrite Hlt.
  assert (Hsub : forall j y, j < length tmp -> y ∈ remaining tmp' h' j -> y ∈ remaining tmp h j).
  { intros j y Hj Hy. destruct (decide (j = b)) as [->|Hjb].
    - rewrite Hremb. by right.
    - by rewrite <- Hrem. }
  assert (Hcat : Permutation (concat (map (remaining tmp h) (seq 0 (length tmp))))
                   (v :: concat (map (remaining tmp' h') (seq 0 (length tmp))))).
  { apply (concat_map_head _ _ v b); [apply NoDup_seq|by apply elem_of_seq_0| |done].
    intros j Hj%elem_of_seq_0 Hjb. by apply Hrem. }
  split; [split_and!; try done|].
  - intros j Hj. destruct (decide (j = b)) as [->|Hjb].
    + specialize (Hsorted b Hj). rewrite Hremb in Hsorted.
      by apply StronglySorted_inv in Hsorted as [? _].
    + rewrite Hrem by done. by apply Hsorted.
  - apply StronglySorted_snoc; [done|]. apply Forall_forall. intros x Hx.
    apply (Hle x v b); [done..|]. rewrite Hremb. by left.
  - intros x y j Hx Hj Hy. apply elem_of_app in Hx as [Hx|Hx].
    + apply (Hle x y j); [done..|]. by apply Hsub.
    + apply list_elem_of_singleton in Hx as ->. apply (Hmin j); [done|]. by apply Hsub.
  - rewrite <- Hperm, Hcat, <- app_assoc. cbn. done.
  - by rewrite Hcat.
Qed.

Lemma read_run_Some tmp j x tmp' :
  read_run tmp j = Some (x, tmp') ->
  exists run, tmp !! j = Some (x :: run) /\ tmp' = <[j := run]> tmp.
Proof.
  unfold read_run. destruct (tmp !! j) as [[|y run]|] eqn:E; try done.
  intros [= -> <-]. by exists run.
Qed.

Lemma read_run_None tmp j :
  read_run tmp j = None -> j < length tmp -> tmp !! j = Some [].
Proof.
  unfold read_run. intros H Hj.
  destruct (lookup_lt_is_Some_2 tmp j Hj) as [[|y run] E]; rewrite E in *; done.
Qed.

(** The merge loop returns, and its output is the index in order. *)
Lemma merge_runs_spec index fuel : forall tmp h out,
  merge_inv cmpKeys index tmp h out -> exhausted tmp h (length tmp) ->
  length (concat (map (remaining tmp h) (seq 0 (length tmp)))) < fuel ->
  exists out', merge_runs cmpKeys fuel tmp h out = Returned out' /\
    StronglySorted (line_le cmpKeys) out' /\ Permutation out' index.
Proof.
  induction fuel as [|fuel IH]; intros tmp h out Hinv Hex Hfuel; [lia|].
  cbn [merge_runs]. destruct (decide (size h <> 0)) as [Hsz|Hsz].
  - destruct h as [vals hp sz]. cbn [size values heap] in *.
    pose proof Hinv as Hinv0.
    unfold merge_inv in Hinv. cbv zeta in Hinv. cbn [size values heap] in Hinv.
    destruct Hinv as (Hlv & Hlh & Hwf & Hprop & Hnd & Hsorted & Hout & Hle & Hperm).
    unfold active in Hnd. cbn [size values heap] in Hnd.
    destruct (popHeap_spec cmpKeys cmp_order vals hp sz Hwf Hprop ltac:(lia))
      as (b & hp' & Hb & Hpop & Hwf' & Hprop' & Hpermh & Hlh').
    rewrite Hpop. cbn.
    assert (Hbk : b < length vals).
    { destruct Hwf as [_ Hwf]. apply (Hwf 0 b); [lia|done]. }
    destruct (lookup_lt_is_Some_2 vals b Hbk) as [v Hv]. rewrite Hv. cbn.
    assert (Hnd' : NoDup (b :: take (sz - 1) hp')).
    { by rewrite Hpermh. }
    apply NoDup_cons in Hnd' as [Hbnot Hnd'].
    assert (Hmem : forall j, j <> b -> j ∈ take (sz - 1) hp' <-> j ∈ take sz hp).
    { intros j Hj. rewrite <- Hpermh. rewrite elem_of_cons. naive_solver. }
    assert (Hbin : b ∈ take sz hp).
    { rewrite <- Hpermh. by left. }
    pose proof (root_least tmp (mkHEAP vals hp sz) b v Hprop Hb Hv Hsorted Hex) as Hmin.
    destruct (read_run tmp b) as [[x tmp']|] eqn:Hread.
    + apply read_run_Some in Hread as (run & Hrun & ->).
      destruct (heap_update_values cmpKeys vals hp' (sz - 1) b x Hbnot Hwf' Hprop')
        as [Hwf2 Hprop2].
      destruct (pushHeap_spec cmpKeys cmp_order (<[b := x]> vals) hp' (sz - 1) b
                  Hwf2 Hprop2) as (hp2 & Hpush & Hwf3 & Hprop3 & Hperm3 & Hlh3).
      { destruct Hwf as [? _]. lia. }
      { by rewrite length_insert. }
      rewrite Hpush. cbn.
      assert (Hact : Permutation (take (S (sz - 1)) hp2) (take sz hp)).
      { by rewrite Hperm3. }
      destruct (merge_inv_emit index tmp (mkHEAP vals hp sz) out (<[b := run]> tmp)
                  (mkHEAP (<[b := x]> vals) hp2 (S (sz - 1))) v b) as [Hinv' Hlen];
        cbn [size values heap]; try done.
      * by rewrite length_insert.
      * rewrite length_insert. lia.
      * lia.
      * unfold active. cbn. by rewrite Hact.
      * lia.
      * intros j Hj Hjb. apply remaining_ext; unfold active; cbn [size values heap].
        -- by rewrite Hact.
        -- intros _. by rewrite list_lookup_insert_ne.
        -- by rewrite list_lookup_insert_ne.
      * unfold remaining, active. cbn [size values heap].
        rewrite !decide_True by (by rewrite ?Hact).
        rewrite Hv, Hrun, !list_lookup_insert_eq by lia. done.
      * apply (IH _ _ _ Hinv').
        -- intros j Hj Hjact. rewrite length_insert in Hj.
           unfold active in Hjact. cbn [size values heap] in Hjact. rewrite Hact in Hjact.
           assert (j <> b) by (by intros ->).
           rewrite list_lookup_insert_ne by done. by apply Hex.
        -- lia.
    + pose proof (read_run_None _ _ Hread ltac:(lia)) as Hrun.
      destruct (merge_inv_emit index tmp (mkHEAP vals hp sz) out tmp
                  (mkHEAP vals hp' (sz - 1)) v b) as [Hinv' Hlen];
        cbn [size values heap]; try done.
      * lia.
      * lia.
      * intros j Hj Hjb. apply remaining_ext; unfold active; cbn [size values heap]; try done.
        by apply Hmem.
      * unfold remaining, active. cbn [size values heap].
        rewrite decide_True by done. rewrite decide_False by done.
        by rewrite Hv, Hrun.
      * apply (IH _ _ _ Hinv').
        -- intros j Hj Hjact. unfold active in Hjact. cbn [size values heap] in Hjact.
           destruct (decide (j = b)) as [->|Hjb]; [done|].
           apply Hex; [done|]. unfold active. cbn [size values heap]. by rewrite <- Hmem.
        -- lia.
  - exists out. split; [done|].
    unfold merge_inv in Hinv. cbv zeta in Hinv.
    destruct Hinv as (Hlv & Hlh & Hwf & Hprop & Hnd & Hsorted & Hout & Hle & Hperm).
    split; [done|]. rewrite <- Hperm.
    rewrite concat_map_nil; [by rewrite app_nil_r|].
    intros j Hj%elem_of_seq_0. unfold remaining.
    assert (Hnil : active h = []).
    { unfold active. replace (size h) with 0 by lia. done. }
    rewrite Hnil. rewrite decide_False by apply not_elem_of_nil.
    rewrite (Hex j Hj); [done|]. rewrite Hnil. apply not_elem_of_nil.
Qed.

(** Distinct run numbers below [n] are at most [n]. *)
Lemma NoDup_bounded_length (l : list nat) n :
  NoDup l -> (forall x, x ∈ l -> x < n) -> length l <= n.
Proof.
  intros Hnd Hb. transitivity (length (seq 0 n)); [|by rewrite length_seq].
  apply submseteq_length.
  apply NoDup_submseteq; [done|]. intros x Hx. apply elem_of_seq_0. by apply Hb.
Qed.

(** Filling the heap keeps the lines where the merge expects them. *)
Lemma fill_heap_spec index : forall n j tmp h,
  merge_inv cmpKeys index tmp h [] -> exhausted tmp h j ->
  (forall j', j' ∈ active h -> j' < j) ->
  j + n = length tmp ->
  exists tmp' h', fill_heap cmpKeys n j tmp h = Returned (tmp', h') /\
    merge_inv cmpKeys index tmp' h' [] /\ exhausted tmp' h' (length tmp') /\
    length tmp' = length tmp.
Proof.
  induction n as [|n IH]; intros j tmp h Hinv Hex Hact Hjn.
  - exists tmp, h. cbn. replace j with (length tmp) in Hex by lia. done.
  - cbn [fill_heap]. destruct h as [vals hp sz].
    pose proof Hinv as Hinv0. unfold merge_inv in Hinv. cbv zeta in Hinv.
    cbn [size values heap] in Hinv.
    destruct Hinv as (Hlv & Hlh & Hwf & Hprop & Hnd & Hsorted & Hout & Hle & Hperm).
    unfold active in Hnd, Hact. cbn [size values heap] in Hnd, Hact.
    assert (Hjnot : j ∉ take sz hp).
    { intros Hj%Hact. lia. }
    destruct (read_run tmp j) as [[x tmp']|] eqn:Hread.
    + apply read_run_Some in Hread as (run & Hrun & ->).
      destruct (heap_update_values cmpKeys vals hp sz j x Hjnot Hwf Hprop) as [Hwf2 Hprop2].
      destruct (pushHeap_spec cmpKeys cmp_order (<[j := x]> vals) hp sz j Hwf2 Hprop2)
        as (hp2 & Hpush & Hwf3 & Hprop3 & Hperm3 & Hlh3).
      { pose proof (NoDup_bounded_length _ j Hnd Hact) as Hlen.
        rewrite length_take in Hlen. destruct Hwf as [? _]. lia. }
      { rewrite length_insert. lia. }
      cbn [size values heap]. rewrite Hpush. cbn.
      assert (Hinv' : merge_inv cmpKeys index (<[j := run]> tmp)
                        (mkHEAP (<[j := x]> vals) hp2 (S sz)) []).
      { apply (merge_inv_same index tmp (mkHEAP vals hp sz)); cbn [size values heap];
          try done.
        - by rewrite length_insert.
        - rewrite length_insert. lia.
        - lia.
        - unfold active. cbn [size values heap]. rewrite Hperm3.
          by apply NoDup_cons.
        - intros j' Hj'. destruct (decide (j' = j)) as [->|Hne].
          + unfold remaining, active. cbn [size values heap].
            rewrite decide_True by (rewrite Hperm3; by left).
            rewrite decide_False by done.
            rewrite Hrun, !list_lookup_insert_eq by lia. done.
          + apply remaining_ext; unfold active; cbn [size values heap].
            * rewrite Hperm3, elem_of_cons. naive_solver.
            * intros _. by rewrite list_lookup_insert_ne.
            * by rewrite list_lookup_insert_ne. }
      destruct (IH (S j) _ _ Hinv') as (tmp' & h' & Hfill & Hinv2 & Hex2 & Hlen2).
      * intros j' Hj' Hnot. unfold active in Hnot. cbn [size values heap] in Hnot.
        rewrite Hperm3, not_elem_of_cons in Hnot. destruct Hnot as [Hne Hnot].
        rewrite list_lookup_insert_ne by done. apply Hex; [lia|done].
      * intros j'. unfold active. cbn [size values heap].
        rewrite Hperm3, elem_of_cons. intros [->|Hj'%Hact]; lia.
      * rewrite length_insert. lia.
      * exists tmp', h'. rewrite length_insert in Hlen2. done.
    + pose proof (read_run_None _ _ Hread ltac:(lia)) as Hrun.
      destruct (IH (S j) _ _ Hinv0) as (tmp' & h' & Hfill & Hinv2 & Hex2 & Hlen2).
      * intros j' Hj' Hnot. destruct (decide (j' = j)) as [->|Hne]; [done|].
        apply Hex; [lia|done].
      * intros j' Hj'%Hact. lia.
      * lia.
      * by exists tmp', h'.
Qed.

Lemma compareLines_sorted l :
  StronglySorted (line_le cmpKeys) (Utils.qsort (compareLines cmpKeys) l).
Proof.
  apply (qsort_sorted (compareLines cmpKeys)).
  - intros a b c. unfold compareLines. apply cmp_order.
  - intros a b. unfold compareLines. intros H. apply cmp_ge_flip; [done|lia].
Qed.

(** Cutting the index into runs, when its length is a multiple of the
    number of runs: every run fits the buffer. *)
Lemma make_runs_spec k cap N :
  (0 < k)%Z -> (N mod k = 0)%Z -> cap = (N / k)%Z -> (0 < cap)%Z ->
  forall fuel rest l j,
    (0 <= j <= k)%Z -> l = (j * cap)%Z -> Z.of_nat (length rest) = (N - l)%Z ->
    Z.to_nat (k - j) <= fuel ->
    exists runs, make_runs cmpKeys fuel k cap N rest l j = Returned runs /\
      length runs = Z.to_nat (k - j) /\
      Forall (StronglySorted (line_le cmpKeys)) runs /\
      Permutation (concat runs) rest.
Proof.
  intros Hk Hmod Hcap Hpos.
  assert (HN : N = (k * cap)%Z).
  { subst cap. rewrite (Z.div_mod N k) at 1 by lia. lia. }
  induction fuel as [|fuel IH]; intros rest l j Hj Hl Hrest Hfuel.
  - assert (j = k) by lia. subst j. cbn.
    rewrite (proj2 (Z.ltb_ge l N)) by lia.
    exists []. replace (k - k)%Z with 0%Z by lia. split_and!; try done.
    destruct rest; [done|cbn in Hrest; lia].
  - cbn [make_runs]. destruct (Z.ltb_spec l N) as [Hlt|Hge].
    + assert (Hjk : (j < k)%Z) by nia.
      rewrite Hmod. destruct (Z.gtb_spec 0 j) as [?|_]; [lia|].
      rewrite <- Hcap, Z.add_0_r.
      destruct (Z.gtb_spec cap cap) as [?|_]; [lia|].
      destruct (IH (drop (Z.to_nat cap) rest) (l + cap)%Z (j + 1)%Z)
        as (runs & Hruns & Hlen & Hall & Hperm); [lia|lia| |lia|].
      { rewrite length_drop. nia. }
      rewrite Hruns. cbn.
      eexists. split; [done|]. split_and!.
      * cbn. rewrite Hlen. lia.
      * constructor; [apply compareLines_sorted|done].
      * cbn. rewrite Hperm, <- qsort_perm. by rewrite take_drop.
    + assert (j = k) by nia. subst j.
      exists []. replace (k - k)%Z with 0%Z by lia. split_and!; try done.
      destruct rest; [done|cbn in Hrest; lia].
Qed.

Lemma map_lookup_seq {A} (d : A) (l : list A) :
  map (fun j => default d (l !! j)) (seq 0 (length l)) = l.
Proof.
  induction l as [|x l IH] using rev_ind; [done|].
  rewrite length_app. cbn [length]. rewrite seq_app, map_app. cbn. f_equal.
  - rewrite <- IH at 2. apply map_ext_in. intros j Hj%list_elem_of_In%elem_of_seq_0.
    by rewrite lookup_app_l.
  - by rewrite list_lookup_middle.
Qed.

(** Before the heap is filled every line is in its temporary file. *)
Lemma merge_inv_init index runs :
  Forall (StronglySorted (line_le cmpKeys)) runs ->
  Permutation (concat runs) index ->
  merge_inv cmpKeys index runs
    (mkHEAP (replicate (length runs) (mkLINE 0 0)) (replicate (length runs) 0) 0) [].
Proof.
  intros Hall Hperm. unfold merge_inv. cbv zeta. cbn [size values heap].
  assert (Hrem : forall j, remaining runs
            (mkHEAP (replicate (length runs) (mkLINE 0 0)) (replicate (length runs) 0) 0) j
            = default [] (runs !! j)).
  { intros j. unfold remaining, active. cbn [size values heap take].
    by rewrite decide_False by apply not_elem_of_nil. }
  split_and!.
  - by rewrite length_replicate.
  - by rewrite length_replicate.
  - split; [lia|]. intros p j Hp. lia.
  - intros c Hc. lia.
  - unfold active. cbn. constructor.
  - intros j Hj. rewrite Hrem.
    destruct (lookup_lt_is_Some_2 runs j Hj) as [run Hrun]. rewrite Hrun. cbn.
    rewrite Forall_forall in Hall. apply Hall. by eapply list_elem_of_lookup_2.
  - constructor.
  - intros x y j Hx. by apply elem_of_nil in Hx.
  - cbn. rewrite (concat_map_same (fun j => default [] (runs !! j))); [|by intros].
    by rewrite map_lookup_seq.
Qed.

(** On an index that is not empty, whose length is a multiple of the
    number of runs and small enough for the int sum
    [elem_no + MAX_FILE_LINES - 1], [sortIndexer] returns, and the index
    file then holds the same lines in the order of their keys. *)
Lemma sortIndexer_with_sorted M index :
  (0 < M)%Z -> index <> [] ->
  (Z.of_nat (length index) + M - 1 < 2^31)%Z ->
  (Z.of_nat (length index) mod ((Z.of_nat (length index) + M - 1) / M) = 0)%Z ->
  exists out, sortIndexer_with cmpKeys M index = Returned out /\
    sorted_index cmpKeys out /\ Permutation out index.
Proof.
  intros HM Hne Hint Hmod. unfold sortIndexer_with. cbv zeta.
  set (N := Z.of_nat (length index)) in *.
  assert (HN : (0 < N)%Z).
  { subst N. destruct index; [done|cbn; lia]. }
  assert (Hkeq : ((cdiv (wrap32 (N + M - 1)) M) mod 2^64 = (N + M - 1) / M)%Z).
  { rewrite wrap32_small by (unfold int_range; lia).
    unfold cdiv. rewrite Z.quot_div_nonneg by lia.
    apply Z.mod_small. split; [apply Z.div_pos; lia|].
    apply Z.le_lt_trans with (N + M - 1)%Z; [|lia].
    apply Z.div_le_upper_bound; nia. }
  rewrite Hkeq.
  set (k := ((N + M - 1) / M)%Z) in *.
  assert (Hk : (0 < k)%Z).
  { subst k. apply Z.div_str_pos. lia. }
  assert (Hcap : (0 < N / k)%Z).
  { pose proof (Z.div_mod N k ltac:(lia)) as Hdm. rewrite Hmod in Hdm. nia. }
  destruct (Z.eqb_spec k 0) as [?|_]; [lia|].
  destruct (make_runs_spec k (N / k) N Hk Hmod eq_refl Hcap (length index) index 0%Z 0%Z)
    as (runs & Hruns & Hlen & Hall & Hperm); [lia|lia|lia| |].
  { pose proof (Z.div_mod N k ltac:(lia)) as Hdm. rewrite Hmod in Hdm. subst N. nia. }
  rewrite Hruns. cbn.
  replace (k - 0)%Z with k in Hlen by lia. rewrite <- Hlen.
  destruct (fill_heap_spec index (length runs) 0 runs _ (merge_inv_init index runs Hall Hperm))
    as (tmp' & h & Hfill & Hinv & Hex & Hlen').
  { intros j Hj. lia. }
  { intros j. unfold active. cbn. intros Hj. by apply elem_of_nil in Hj. }
  { done. }
  rewrite Hfill. cbn.
  destruct (merge_runs_spec index (S (length index)) tmp' h [] Hinv Hex)
    as (out & Hout & Hsorted & Hpermo).
  { unfold merge_inv in Hinv. cbv zeta in Hinv.
    destruct Hinv as (_ & _ & _ & _ & _ & _ & _ & _ & Hp). cbn in Hp.
    apply Permutation_length in Hp. lia. }
  exists out. split_and!; try done. by apply sorted_index_StronglySorted.
Qed.

(** An index of at most [MAX_FILE_LINES] lines is one run. *)
Lemma sortIndexer_one_run index :
  index <> [] -> (Z.of_nat (length index) <= MAX_FILE_LINES)%Z ->
  exists out, sortIndexer cmpKeys index = Returned out /\
    sorted_index cmpKeys out /\ Permutation out index.
Proof.
  intros Hne Hle. apply sortIndexer_with_sorted; [done|done|unfold MAX_FILE_LINES in *; lia|].
  assert (HN : (0 < Z.of_nat (length index))%Z).
  { destruct index; [done|cbn; lia]. }
  replace ((Z.of_nat (length index) + MAX_FILE_LINES - 1) / MAX_FILE_LINES)%Z with 1%Z.
  - apply Z.mod_1_r.
  - apply Z.div_unique with (r := (Z.of_nat (length index) - 1)%Z);
      unfold MAX_FILE_LINES in *; lia.
Qed.

End MergeProofs.

(** ** Indexer: the external sort (sortIndexer) *)

Section SortIndexerProofs.
Import Indexer.

(** C5 (failing input): on an index without entries the number of runs
    [k = (elem_no + MAX_FILE_LINES - 1) / MAX_FILE_LINES] is 0, and the
    size of the buffer, [elem_no / k], divides by it. *)
Theorem sortIndexer_empty_divides_by_zero cmpKeys :
  sortIndexer cmpKeys [] = DivisionByZero.
Proof. reflexivity. Qed.

(** Scenario S2: the five entries (3,30), (1,10), (4,40), (1,11), (2,20). *)
Example sortIndexer_scenario_S2 :
  sortIndexer directCmp
    [mkLINE 3 30; mkLINE 1 10; mkLINE 4 40; mkLINE 1 11; mkLINE 2 20]
  = Returned [mkLINE 1 10; mkLINE 1 11; mkLINE 2 20; mkLINE 3 30; mkLINE 4 40].
Proof. vm_compute. reflexivity. Qed.

(** Several runs, with a buffer of two lines: four entries make two
    runs that the heap merges. *)
Example sortIndexer_with_two_runs :
  sortIndexer_with directCmp 2 [mkLINE 3 30; mkLINE 1 10; mkLINE 4 40; mkLINE 2 20]
  = Returned [mkLINE 1 10; mkLINE 2 20; mkLINE 3 30; mkLINE 4 40].
Proof. vm_compute. reflexivity. Qed.

(** When the number of runs does not divide the number of entries the
    first runs have one line more than [buffer] holds: three entries
    with a buffer sized for [elem_no / k = 1] line. *)
Example sortIndexer_with_buffer_overflow :
  sortIndexer_with directCmp 2 [mkLINE 3 30; mkLINE 1 10; mkLINE 4 40] = OutOfBounds.
Proof. vm_compute. reflexivity. Qed.

End SortIndexerProofs.

(** ** Indexer: exact search (retrieveKey, findEmbeddedValue) *)

Section RetrieveProofs.
Import Indexer.

Variable cmpKeys : Z -> Z -> Z.
Hypothesis cmp_order : comparator_order cmpKeys.

Variable index : list LINE.
Hypothesis index_sorted : sorted_index cmpKeys index.
Hypothesis index_small : Z.of_nat (length index) <= 2^30.

Variable k : Z.

Abbreviation first_match := (Indexer.first_match cmpKeys index k).

Lemma before_first_match p i b :
  first_match p -> (i < p)%nat -> index !! i = Some b -> cmpKeys k (key b) > 0.
Proof.
  intros [(a & Ha & Hka) Hfirst] Hi Hb.
  pose proof (Hfirst i b Hi Hb) as Hne.
  pose proof (index_sorted i p b a Hi Hb Ha) as Hba.
  pose proof (cmp_zero_sym cmpKeys cmp_order _ _ Hka) as Hak.
  assert (Hbk : cmpKeys (key b) k <= 0).
  { apply (cmp_trans cmpKeys cmp_order _ (key a)); lia. }
  pose proof (cmp_flip cmpKeys cmp_order k (key b)). lia.
Qed.

Lemma after_first_match p i b :
  first_match p -> (p <= i)%nat -> index !! i = Some b -> cmpKeys k (key b) <= 0.
Proof.
  intros [(a & Ha & Hka) _] Hi Hb.
  destruct (decide (i = p)) as [->|Hne].
  - rewrite Ha in Hb. injection Hb as <-. lia.
  - pose proof (index_sorted p i a b ltac:(lia) Ha Hb) as Hab.
    apply (cmp_trans cmpKeys cmp_order _ (key a)); lia.
Qed.

(** With a matching key in the index the loop closes in on the first
    matching slot. *)
Lemma search_loop_hit p : first_match p ->
  forall fuel l r,
    0 <= l <= Z.of_nat p -> Z.of_nat p <= r < Z.of_nat (length index) ->
    r - l <= Z.of_nat fuel ->
    search_loop cmpKeys fuel index k l r = Returned (Z.of_nat p, Z.of_nat p).
Proof.
  intros Hp. induction fuel as [|fuel IH]; intros l r Hl Hr Hf.
  - cbn [search_loop]. destruct (Z.ltb_spec l r); [lia|].
    by replace l with (Z.of_nat p) by lia; replace r with (Z.of_nat p) by lia.
  - cbn [search_loop]. destruct (Z.ltb_spec l r) as [Hlt|Hge].
    2:{ by replace l with (Z.of_nat p) by lia; replace r with (Z.of_nat p) by lia. }
    pose proof (cdiv_mid l r ltac:(lia) ltac:(lia) ltac:(lia)) as Hm. cbv zeta in Hm.
    assert (Hmr : cdiv (wrap32 (l + r)) 2 < r).
    { unfold cdiv. rewrite wrap32_small by (unfold int_range; lia).
      rewrite Z.quot_div_nonneg by lia. Z.div_mod_to_equations. lia. }
    set (m := cdiv (wrap32 (l + r)) 2) in *.
    destruct (array_get_Some index m ltac:(lia)) as [aux Haux]. rewrite Haux.
    cbn [read_cell mbind outcome_bind].
    apply array_get_lookup in Haux as [_ Haux].
    destruct (Z.ltb_spec (cmpKeys k (key aux)) 0) as [Hneg|Hnn].
    + apply IH; try lia.
      destruct (Z_lt_ge_dec (Z.of_nat p) m) as [?|Hpm]; [lia|].
      destruct (decide (Z.to_nat m = p)) as [He|Hne].
      * destruct Hp as [(a & Ha & Hka) _]. rewrite He, Ha in Haux.
        injection Haux as <-. lia.
      * pose proof (before_first_match p (Z.to_nat m) aux Hp ltac:(lia) Haux). lia.
    + destruct (Z.gtb_spec (cmpKeys k (key aux)) 0) as [Hpos|Hz].
      * apply IH; try lia.
        destruct (Z_lt_ge_dec m (Z.of_nat p)) as [?|Hpm]; [lia|].
        pose proof (after_first_match p (Z.to_nat m) aux Hp ltac:(lia) Haux). lia.
      * apply IH; try lia.
        destruct (Z_lt_ge_dec m (Z.of_nat p)) as [Hmp|?]; [|lia].
        pose proof (before_first_match p (Z.to_nat m) aux Hp ltac:(lia) Haux). lia.
Qed.

Lemma retrieveKey_hit p : first_match p ->
  retrieveKey cmpKeys index k = Returned (Z.of_nat p).
Proof.
  intros Hp. pose proof Hp as [(a & Ha & Hka) _].
  apply lookup_lt_Some in Ha as Hlt.
  unfold retrieveKey.
  destruct (Z.eqb_spec (Z.of_nat (length index)) 0) as [?|_]; [lia|].
  rewrite (search_loop_hit p Hp) by lia.
  cbn [mbind outcome_bind]. rewrite array_get_of_nat, Ha.
  cbn [read_cell mbind outcome_bind]. by rewrite Hka.
Qed.

Lemma retrieveKey_miss :
  (forall a, a ∈ index -> cmpKeys k (key a) <> 0) ->
  retrieveKey cmpKeys index k = Returned (-1).
Proof.
  intros Hno. unfold retrieveKey.
  destruct (Z.eqb_spec (Z.of_nat (length index)) 0) as [?|Hnz]; [done|].
  destruct (search_loop_spec cmpKeys (cmp_trans cmpKeys cmp_order) index index_sorted
              index_small k (length index) 0 (Z.of_nat (length index) - 1))
    as (l & r & -> & Hl & _); try lia.
  cbn [mbind outcome_bind].
  destruct (array_get_Some index l Hl) as [aux Haux]. rewrite Haux.
  cbn [read_cell mbind outcome_bind].
  apply array_get_lookup in Haux as [_ Haux].
  apply list_elem_of_lookup_2, Hno in Haux.
  by destruct (Z.eqb_spec (cmpKeys k (key aux)) 0).
Qed.

(** Either some slot is the first match or no key matches. *)
Lemma first_match_dec :
  (exists p, first_match p) \/ (forall a, a ∈ index -> cmpKeys k (key a) <> 0).
Proof.
  destruct (list_find (fun a => cmpKeys k (key a) = 0) index) as [[p a]|] eqn:E.
  - left. exists p. apply list_find_Some in E as (Ha & Hka & Hfirst).
    split; [by exists a|]. intros i b Hi Hb. by apply (Hfirst i).
  - right. apply list_find_None in E. rewrite Forall_forall in E. done.
Qed.

End RetrieveProofs.

Lemma sorted_index_directCmp_example :
  Indexer.sorted_index Indexer.directCmp
    [Indexer.mkLINE 1 10; Indexer.mkLINE 3 30; Indexer.mkLINE 3 31; Indexer.mkLINE 5 50].
Proof.
  apply sorted_index_StronglySorted.
  repeat (constructor; [|repeat constructor; vm_compute; discriminate]). constructor.
Qed.

Section RetrieveTheorems.
Import Indexer.

(** X1: on an index sorted by an order comparator, [retrieveKey]
    returns the first slot whose key compares equal to the search key,
    and -1 exactly when no key of the index compares equal. *)
Theorem retrieveKey_first_or_absent cmpKeys index k :
  comparator_order cmpKeys -> sorted_index cmpKeys index ->
  Z.of_nat (length index) <= 2^30 ->
  exists r, retrieveKey cmpKeys index k = Returned r /\
    ((r = -1 /\ forall a, a ∈ index -> cmpKeys k (key a) <> 0) \/
     (exists p, r = Z.of_nat p /\ first_match cmpKeys index k p)).
Proof.
  intros Hord Hs Hlen.
  destruct (first_match_dec cmpKeys index k) as [[p Hp]|Hno].
  - exists (Z.of_nat p). split; [by apply retrieveKey_hit|]. right. by exists p.
  - exists (-1). split; [by apply retrieveKey_miss|]. by left.
Qed.

Lemma retrieveKey_first_or_absent_witness :
  exists r, retrieveKey directCmp
              [mkLINE 1 10; mkLINE 3 30; mkLINE 3 31; mkLINE 5 50] 3 = Returned r /\
            r = 1.
Proof.
  destruct (retrieveKey_first_or_absent directCmp
              [mkLINE 1 10; mkLINE 3 30; mkLINE 3 31; mkLINE 5 50] 3
              directCmp_order sorted_index_directCmp_example) as (r & Hr & _).
  - simpl. lia.
  - exists r. split; [exact Hr|]. vm_compute in Hr. by injection Hr as <-.
Defined.

(** X2: on an index of at most [2^30] lines that is sorted by an order
    comparator, [findEmbeddedValue] answers true with the value of the
    first slot whose key compares equal to the search key, and false,
    leaving [*ans] as it was, when no key compares equal; it never
    complains about bounds. *)
Theorem findEmbeddedValue_first_value cmpKeys index k ans :
  comparator_order cmpKeys -> sorted_index cmpKeys index ->
  Z.of_nat (length index) <= 2^30 ->
  exists found v, findEmbeddedValue cmpKeys index k ans = Returned (found, v, []) /\
    (found = true ->
       exists p a, first_match cmpKeys index k p /\ index !! p = Some a /\ v = value a) /\
    (found = false ->
       v = ans /\ forall a, a ∈ index -> cmpKeys k (key a) <> 0).
Proof.
  intros Hord Hs Hlen. unfold findEmbeddedValue.
  destruct (first_match_dec cmpKeys index k) as [[p Hp]|Hno].
  - rewrite (retrieveKey_hit cmpKeys Hord index Hs Hlen k p Hp).
    cbn [mbind outcome_bind].
    destruct (Z.eqb_spec (Z.of_nat p) (-1)) as [?|_]; [lia|].
    pose proof Hp as [(a & Ha & Hka) _]. apply lookup_lt_Some in Ha as Hlt.
    unfold retrieveEmbeddedValue.
    destruct (Z.ltb_spec (Z.of_nat p) 0) as [?|_]; [lia|].
    destruct (Z.geb_spec (Z.of_nat p) (Z.of_nat (length index))) as [?|_]; [lia|].
    cbn [orb]. rewrite array_get_of_nat, Ha. cbn.
    exists true, (value a). split; [done|]. split; [|done].
    intros _. by exists p, a.
  - rewrite (retrieveKey_miss cmpKeys Hord index Hs Hlen k Hno).
    cbn. exists false, ans. split; [done|]. split; [done|]. done.
Qed.

Lemma findEmbeddedValue_first_value_witness :
  exists found v,
    findEmbeddedValue directCmp
      [mkLINE 1 10; mkLINE 3 30; mkLINE 3 31; mkLINE 5 50] 3 0 = Returned (found, v, []) /\
    found = true /\ v = 30.
Proof.
  destruct (findEmbeddedValue_first_value directCmp
              [mkLINE 1 10; mkLINE 3 30; mkLINE 3 31; mkLINE 5 50] 3 0
              directCmp_order sorted_index_directCmp_example) as (found & v & Hr & _).
  - simpl. lia.
  - exists found, v. split; [exact Hr|]. vm_compute in Hr. by injection Hr as <- <-.
Defined.

(** X3: [getEmbeddedValue] on a key that no slot holds, of an index of
    at most [2^30] lines that is sorted by an order comparator, passes
    -1 to [retrieveEmbeddedValue]: it prints the out-of-bounds complaint
    and returns 0, the same number it returns for a key mapped to 0. *)
Theorem getEmbeddedValue_absent_key cmpKeys index k :
  comparator_order cmpKeys -> sorted_index cmpKeys index ->
  Z.of_nat (length index) <= 2^30 ->
  (forall a, a ∈ index -> cmpKeys k (key a) <> 0) ->
  getEmbeddedValue cmpKeys index k = Returned (0, [KeyOrderOutOfBounds (-1)]).
Proof.
  intros Hord Hs Hlen Hno. unfold getEmbeddedValue.
  by rewrite (retrieveKey_miss cmpKeys Hord index Hs Hlen k Hno).
Qed.

Lemma getEmbeddedValue_absent_key_witness :
  getEmbeddedValue directCmp
    [mkLINE 1 10; mkLINE 3 30; mkLINE 3 31; mkLINE 5 50] 4
  = Returned (0, [KeyOrderOutOfBounds (-1)]).
Proof.
  apply (getEmbeddedValue_absent_key directCmp
           [mkLINE 1 10; mkLINE 3 30; mkLINE 3 31; mkLINE 5 50] 4
           directCmp_order sorted_index_directCmp_example).
  - simpl. lia.
  - intros a Ha. repeat (apply elem_of_cons in Ha as [->|Ha]; [vm_compute; discriminate|]).
    by apply elem_of_nil in Ha.
Defined.

End RetrieveTheorems.

(** ** Indexer: filling the index file (insertIntoIndex, parseIndexer) *)

Section InsertProofs.
Import Indexer.

Lemma length_bytes_of_LINE l : length (bytes_of_LINE l) = 16%nat.
Proof. unfold bytes_of_LINE. by rewrite length_app, !length_bytes_of_pos_t. Qed.

Lemma length_concat_bytes_of_LINE ls :
  length (concat (map bytes_of_LINE ls)) = (16 * length ls)%nat.
Proof.
  induction ls as [|l ls IH]; [done|].
  cbn [map concat length]. rewrite length_app, length_bytes_of_LINE, IH. lia.
Qed.

Lemma LINEs_of_bytes_encode ls rest :
  Forall line_ok ls ->
  LINEs_of_bytes (length ls) (concat (map bytes_of_LINE ls) ++ rest) = ls.
Proof.
  induction 1 as [|[k v] ls [Hk Hv] _ IH]; [done|].
  cbn [map concat length LINEs_of_bytes].
  change (bytes_of_LINE (mkLINE k v)) with (bytes_of_pos_t k ++ bytes_of_pos_t v).
  cbn [key value] in *. rewrite <- !app_assoc.
  rewrite pos_t_of_bytes_of by done.
  rewrite (drop_app_length' (bytes_of_pos_t k) _ 8) by (by rewrite length_bytes_of_pos_t).
  rewrite pos_t_of_bytes_of by done. f_equal.
  rewrite (app_assoc (bytes_of_pos_t k)).
  rewrite (drop_app_length' (bytes_of_pos_t k ++ bytes_of_pos_t v) _ 16)
    by (by rewrite length_app, !length_bytes_of_pos_t).
  apply IH.
Qed.

Abbreviation holds := index_holds.

Lemma insertIntoIndex_holds i pre k v :
  holds i pre -> holds (insertIntoIndex i k v) (pre ++ [mkLINE k v]).
Proof.
  intros [Hc He]. unfold insertIntoIndex, index_holds, fseek.
  destruct i as [[c p] n ch]. cbn [index_file elem_no content fpos] in *. subst c n.
  rewrite <- (app_nil_r (concat (map bytes_of_LINE pre))) at 1.
  rewrite (fwrite_after _ [] 0) by (rewrite length_concat_bytes_of_LINE; lia).
  cbn [content fpos take drop replicate Nat.sub length app].
  rewrite map_app, concat_app. cbn [map concat].
  rewrite !app_nil_r, length_app. cbn. split; [done|lia].
Qed.

Lemma insert_all_holds ls : forall i pre,
  holds i pre ->
  holds (fold_left (fun i l => insertIntoIndex i (key l) (value l)) ls i) (pre ++ ls).
Proof.
  induction ls as [|[k v] ls IH]; intros i pre Hi; cbn [fold_left].
  - by rewrite app_nil_r.
  - replace (pre ++ mkLINE k v :: ls) with ((pre ++ [mkLINE k v]) ++ ls)
      by (by rewrite <- app_assoc).
    apply IH. cbn [key value]. by apply insertIntoIndex_holds.
Qed.

(** X4: inserting the lines [ls] (fewer than [2^31], the range of the
    int [elem_no]) one after the other into a new indexer leaves an
    index file that is the concatenation of their 16-byte records in
    insertion order, with [elem_no] their number; decoding the file
    gives [ls] back, and [parseIndexer] on the file finds the same
    number of lines. *)
Theorem insertIntoIndex_round_trip ls :
  Forall line_ok ls -> Z.of_nat (length ls) < 2^31 ->
  let i := fold_left (fun i l => insertIntoIndex i (key l) (value l)) ls makeIndexer in
  content (index_file i) = concat (map bytes_of_LINE ls) /\
  elem_no i = Z.of_nat (length ls) /\
  LINEs_of_bytes (length ls) (content (index_file i)) = ls /\
  elem_no (parseIndexer (content (index_file i))) = Z.of_nat (length ls).
Proof.
  intros Hok _ i.
  destruct (insert_all_holds ls makeIndexer []) as [Hc He]; [done|].
  cbn [app] in Hc, He. fold i in Hc, He.
  split; [done|]. split; [done|]. split.
  - rewrite Hc. rewrite <- (app_nil_r (concat _)). by apply LINEs_of_bytes_encode.
  - unfold parseIndexer. cbn [elem_no]. rewrite Hc, length_concat_bytes_of_LINE.
    rewrite Nat2Z.inj_mul, Z.mul_comm. by rewrite Z.div_mul.
Qed.

Lemma insertIntoIndex_round_trip_witness :
  let i := insertIntoIndex (insertIntoIndex makeIndexer 3 30) 1 10 in
  LINEs_of_bytes 2 (content (index_file i)) = [mkLINE 3 30; mkLINE 1 10] /\
  elem_no i = 2.
Proof.
  intros i.
  destruct (insertIntoIndex_round_trip [mkLINE 3 30; mkLINE 1 10]) as (_ & He & Hd & _).
  - repeat constructor; cbn; unfold pos_t_range; lia.
  - cbn. lia.
  - split; [exact Hd|exact He].
Defined.

End InsertProofs.

(** ** Indexer: the heap of runs, the sort and the grouping pass *)

Section IndexerTheorems.
Import Indexer.
Local Open Scope nat_scope.

(** The key of run [j] in [values]. *)
Abbreviation run_key vals j := (key (default (mkLINE 0 0) (vals !! j))).

(** X5: [popHeap] on a heap that is not empty returns a run of the heap
    whose key is not above the key of any run in the heap, and leaves a
    heap of the other runs. *)
Theorem popHeap_returns_least cmpKeys vals hp sz :
  comparator_order cmpKeys ->
  heap_wf vals hp sz -> heap_prop cmpKeys vals hp sz -> 0 < sz ->
  exists b hp',
    popHeap cmpKeys (mkHEAP vals hp sz) = Returned (b, mkHEAP vals hp' (sz - 1)) /\
    b ∈ take sz hp /\
    (forall j, j ∈ take sz hp -> (cmpKeys (run_key vals b) (run_key vals j) <= 0)%Z) /\
    Permutation (b :: take (sz - 1) hp') (take sz hp) /\
    heap_wf vals hp' (sz - 1) /\ heap_prop cmpKeys vals hp' (sz - 1).
Proof.
  intros Hord Hwf Hprop Hsz.
  destruct (popHeap_spec cmpKeys Hord vals hp sz Hwf Hprop Hsz)
    as (b & hp' & Hb & Hpop & Hwf' & Hprop' & Hperm & _).
  exists b, hp'. split; [done|]. split; [|split; [|done]].
  - rewrite <- Hperm. by left.
  - intros j Hj. apply list_elem_of_lookup in Hj as [p Hp].
    apply lookup_take_Some in Hp as [Hp Hlt].
    pose proof (heap_prop_min cmpKeys Hord vals hp sz p Hprop Hlt) as Hmin.
    unfold hkey in Hmin. by rewrite Hb, Hp in Hmin.
Qed.

Lemma popHeap_returns_least_witness :
  exists b hp',
    popHeap directCmp (mkHEAP [mkLINE 5 0; mkLINE 2 0; mkLINE 9 0] [1; 0; 2] 3)
    = Returned (b, mkHEAP [mkLINE 5 0; mkLINE 2 0; mkLINE 9 0] hp' 2) /\ b = 1.
Proof.
  destruct (popHeap_returns_least directCmp [mkLINE 5 0; mkLINE 2 0; mkLINE 9 0]
              [1; 0; 2] 3 directCmp_order) as (b & hp' & Hpop & _).
  - split; [simpl; lia|]. intros p j Hp Hj.
    destruct p as [|[|[|p]]]; simpl in Hj; try lia; injection Hj as <-; simpl; lia.
  - intros c Hc. destruct c as [|[|[|c]]]; try lia; vm_compute; discriminate.
  - lia.
  - exists b, hp'. split; [exact Hpop|]. vm_compute in Hpop. by injection Hpop as <- _.
Defined.

(** X6: [pushHeap] of a run into a heap with a free cell returns a heap
    of the old runs and the new one; on a full heap the store
    [h->heap[pos] = val] falls outside of the array. *)
Theorem pushHeap_adds_run cmpKeys vals hp sz b :
  comparator_order cmpKeys ->
  heap_wf vals hp sz -> heap_prop cmpKeys vals hp sz -> b < length vals ->
  (sz < length hp ->
     exists hp',
       pushHeap cmpKeys (mkHEAP vals hp sz) b = Returned (mkHEAP vals hp' (S sz)) /\
       Permutation (take (S sz) hp') (b :: take sz hp) /\
       heap_wf vals hp' (S sz) /\ heap_prop cmpKeys vals hp' (S sz)) /\
  (length hp <= sz -> pushHeap cmpKeys (mkHEAP vals hp sz) b = OutOfBounds).
Proof.
  intros Hord Hwf Hprop Hb. split.
  - intros Hsz.
    destruct (pushHeap_spec cmpKeys Hord vals hp sz b Hwf Hprop Hsz Hb)
      as (hp' & Hpush & Hwf' & Hprop' & Hperm & _).
    by exists hp'.
  - intros Hfull. unfold pushHeap. cbn [size heap].
    by rewrite decide_False by lia.
Qed.

Lemma pushHeap_adds_run_witness :
  exists hp',
    pushHeap directCmp (mkHEAP [mkLINE 5 0; mkLINE 2 0; mkLINE 9 0] [0; 2; 0] 2) 1
    = Returned (mkHEAP [mkLINE 5 0; mkLINE 2 0; mkLINE 9 0] hp' 3) /\
    hp' !! 0 = Some 1.
Proof.
  destruct (pushHeap_adds_run directCmp [mkLINE 5 0; mkLINE 2 0; mkLINE 9 0]
              [0; 2; 0] 2 1 directCmp_order) as [Hpush _].
  - split; [simpl; lia|]. intros p j Hp Hj.
    destruct p as [|[|p]]; simpl in Hj; try lia; injection Hj as <-; simpl; lia.
  - intros c Hc. destruct c as [|[|c]]; try lia; vm_compute; discriminate.
  - simpl. lia.
  - destruct Hpush as (hp' & Hpush & _); [simpl; lia|].
    exists hp'. split; [exact Hpush|]. vm_compute in Hpush. by injection Hpush as <-.
Defined.

(** X7: on an index that is not empty, of at most
    [2^31 - MAX_FILE_LINES] lines (so that the int sum
    [elem_no + MAX_FILE_LINES - 1] does not overflow) and whose number
    of lines is a multiple of the number of runs (every index of 1 to
    [MAX_FILE_LINES] lines is one run), [sortIndexer] returns, and the
    index file then holds the same lines, no key above a later one. *)
Theorem sortIndexer_sorts cmpKeys index :
  comparator_order cmpKeys -> index <> [] ->
  (Z.of_nat (length index) <= 2^31 - MAX_FILE_LINES)%Z ->
  (Z.of_nat (length index)
     mod ((Z.of_nat (length index) + MAX_FILE_LINES - 1) / MAX_FILE_LINES) = 0)%Z ->
  exists out, sortIndexer cmpKeys index = Returned out /\
    sorted_index cmpKeys out /\ Permutation out index.
Proof.
  intros Hord Hne Hint Hmod. apply sortIndexer_with_sorted; try done.
  unfold MAX_FILE_LINES in *. lia.
Qed.

Lemma sortIndexer_sorts_witness :
  exists out,
    sortIndexer directCmp [mkLINE 3 30; mkLINE 1 10; mkLINE 2 20] = Returned out /\
    out = [mkLINE 1 10; mkLINE 2 20; mkLINE 3 30].
Proof.
  destruct (sortIndexer_sorts directCmp [mkLINE 3 30; mkLINE 1 10; mkLINE 2 20]
              directCmp_order) as (out & Hout & _).
  - discriminate.
  - vm_compute. discriminate.
  - reflexivity.
  - exists out. split; [exact Hout|]. vm_compute in Hout. by injection Hout as <-.
Defined.

Local Close Scope nat_scope.

(** X8: [removeDuplicatesAux] on a block of [pos_t] values stored in a
    file rewrites the block in place as its distinct values in
    increasing order, returns their number and prints nothing; the
    bytes before the block are not touched. *)
Theorem removeDuplicatesAux_sorts_block pre cur junk fp :
  cur <> [] -> Forall pos_t_range cur ->
  exists out junk',
    removeDuplicatesAux (mkFILE (pre ++ concat (map bytes_of_pos_t cur) ++ junk) fp)
      (Z.of_nat (length pre)) (Z.of_nat (length cur))
    = (mkFILE (pre ++ concat (map bytes_of_pos_t out) ++ junk')
              (Z.of_nat (length pre) + 8 * Z.of_nat (length out)),
       Z.of_nat (length out), []) /\
    StronglySorted Z.lt out /\ (forall v, v ∈ out <-> v ∈ cur).
Proof.
  intros Hne Hr.
  destruct (removeDuplicatesAux_spec pre cur junk fp Hne Hr) as [junk' Heq].
  exists (spec_block true cur), junk'. split; [exact Heq|]. split.
  - unfold spec_block. apply spec_collapse_strict, qsort_compareAux_sorted.
  - apply spec_block_true_elem_of.
Qed.

Lemma removeDuplicatesAux_sorts_block_witness :
  exists out junk',
    removeDuplicatesAux
      (mkFILE ([0; 0; 0; 0] ++ concat (map bytes_of_pos_t [5; 3; 5]) ++ []) 0) 4 3
    = (mkFILE ([0; 0; 0; 0] ++ concat (map bytes_of_pos_t out) ++ junk')
              (4 + 8 * Z.of_nat (length out)), Z.of_nat (length out), []) /\
    out = [3; 5].
Proof.
  destruct (removeDuplicatesAux_sorts_block [0; 0; 0; 0] [5; 3; 5] [] 0)
    as (out & junk' & Heq & Hs & Hin).
  - discriminate.
  - repeat constructor; unfold pos_t_range; lia.
  - exists out, junk'. split; [exact Heq|].
    assert (H3 : 3 ∈ out) by (apply Hin; set_solver).
    assert (H5 : 5 ∈ out) by (apply Hin; set_solver).
    assert (Hsub : forall v, v ∈ out -> v = 3 \/ v = 5).
    { intros v Hv%Hin. set_solver. }
    clear Heq Hin.
    destruct out as [|a out]; [by apply elem_of_nil in H3|].
    apply StronglySorted_inv in Hs as [Hs Ha]. rewrite Forall_forall in Ha.
    destruct (Hsub a ltac:(left)) as [->| ->].
    + apply elem_of_cons in H5 as [?|H5]; [lia|].
      destruct out as [|b out]; [by apply elem_of_nil in H5|].
      apply StronglySorted_inv in Hs as [Hs Hb]. rewrite Forall_forall in Hb.
      destruct (Hsub b ltac:(right; left)) as [->| ->].
      * specialize (Ha 3 ltac:(left)). lia.
      * destruct out as [|c out]; [done|].
        specialize (Hb c ltac:(left)).
        destruct (Hsub c ltac:(right; right; left)) as [->| ->]; lia.
    + apply elem_of_cons in H3 as [?|H3]; [lia|]. specialize (Ha 3 H3). lia.
Defined.

(** X9: grouping without duplicate removal loses no value, whatever
    the order of the index: the blocks of the new index, read slot by
    slot from the new values file, are the values of the old index in
    their order, and the new [elem_no] is the number of slots. *)
Theorem groupIndexer_keeps_values cmpKeys index :
  Forall line_ok index -> Z.of_nat (length index) < 2^31 ->
  let g := groupIndexer cmpKeys index false in
  concat (map (fun e => getGroupBlock (new_values g) (value e)) (new_index g))
    = map value index /\
  new_elem_no g = Z.of_nat (length (new_index g)).
Proof.
  intros Hok Hlen g.
  destruct (groupIndexer_spec cmpKeys false index Hok) as (Hidx & [junk Hval] & Hno & _).
  fold g in Hidx, Hval, Hno.
  set (gs := spec_groups cmpKeys index) in *.
  assert (Hgs : map (fun g0 : Z * list Z => (g0.1, spec_block false g0.2)) gs = gs).
  { rewrite <- (map_id gs) at 2. apply map_ext. by intros [??]. }
  assert (Hbs : map (fun g0 : Z * list Z => spec_block false g0.2) gs = map snd gs).
  { apply map_ext. by intros [??]. }
  rewrite Hgs in Hidx. rewrite Hbs in Hval.
  assert (Hlenidx : length (new_index g) = length gs).
  { rewrite Hidx. clear. generalize 0. induction gs as [|[k b] gs IH]; intros o; [done|].
    cbn. by rewrite IH. }
  split.
  - rewrite <- (spec_groups_values cmpKeys index). fold gs. f_equal.
    apply list_eq. intros j. rewrite !list_lookup_fmap.
    destruct (new_index g !! j) as [e|] eqn:He.
    + rewrite Hidx in He.
      destruct (spec_index_lookup gs 0 j e He) as (k & b & Hj & _).
      rewrite Hj. cbn. f_equal. rewrite Hval.
      destruct (spec_groups_group cmpKeys index j k b Hok Hj) as [Hr Hl].
      apply (getGroupBlock_spec gs junk j e k b He Hj Hr). lia.
    + apply lookup_ge_None in He. rewrite Hlenidx in He.
      apply lookup_ge_None in He. by rewrite He.
  - by rewrite Hno, Hlenidx.
Qed.

Lemma groupIndexer_keeps_values_witness :
  let g := groupIndexer directCmp [mkLINE 7 3; mkLINE 7 3; mkLINE 9 5] false in
  concat (map (fun e => getGroupBlock (new_values g) (value e)) (new_index g)) = [3; 3; 5].
Proof.
  intros g.
  destruct (groupIndexer_keeps_values directCmp [mkLINE 7 3; mkLINE 7 3; mkLINE 9 5])
    as [H _].
  - repeat constructor; cbn; unfold pos_t_range; lia.
  - simpl. lia.
  - exact H.
Defined.

End IndexerTheorems.

(** ** utils.c: searches, packing and counters *)

Section UtilsTheorems.
Import Utils.

Lemma sorted_asc_example : sorted_asc [2; 3; 5; 8].
Proof.
  intros i j a b Hij Hi Hj.
  destruct i as [|[|[|[|i]]]]; destruct j as [|[|[|[|j]]]]; simpl in *;
    try lia; try discriminate; injection Hi as <-; injection Hj as <-; lia.
Qed.

(** X10: on an array in ascending order [containedInSortedArray]
    returns, and it returns true exactly when the value is in the
    array (false on an empty array). *)
Theorem containedInSortedArray_decides_membership array val :
  sorted_asc array -> Z.of_nat (length array) <= 2^30 ->
  exists b, containedInSortedArray (S (length array)) array (Z.of_nat (length array)) val
              = Returned b /\ (b = true <-> val ∈ array).
Proof. apply containedInSortedArray_spec. Qed.

Lemma containedInSortedArray_decides_membership_witness :
  exists b, containedInSortedArray 5 [2; 3; 5; 8] 4 5 = Returned b /\ b = true.
Proof.
  destruct (containedInSortedArray_decides_membership [2; 3; 5; 8] 5 sorted_asc_example)
    as (b & Hb & _).
  - simpl. lia.
  - exists b. split; [exact Hb|]. vm_compute in Hb. by injection Hb as <-.
Defined.

(** The loop of [binSearchInList] with the key between [m] and [n]. *)
Lemma binSearchInList_loop_found key l :
  sorted_asc l -> Z.of_nat (length l) <= 2^30 ->
  forall fuel m n (i : nat),
    0 <= m <= Z.of_nat i -> Z.of_nat i <= n < Z.of_nat (length l) ->
    l !! i = Some key -> n - m < Z.of_nat fuel ->
    binSearchInList_loop fuel key l m n (cdiv (wrap32 (m + n)) 2) = Returned true.
Proof.
  intros Hs Hlen. induction fuel as [|fuel IH]; intros m n i Hm Hn Hi Hf; [lia|].
  cbn [binSearchInList_loop].
  pose proof (cdiv_mid m n ltac:(lia) ltac:(lia) ltac:(lia)) as Hp. cbv zeta in Hp.
  set (p := cdiv (wrap32 (m + n)) 2) in *.
  destruct (array_get_Some l p ltac:(lia)) as [lp Hlp]. rewrite Hlp.
  apply array_get_lookup in Hlp as [_ Hlp].
  destruct (Z.eqb_spec lp key) as [->|Hne]; cbn [negb].
  - by rewrite Z.eqb_refl.
  - destruct (Z.gtb_spec lp key) as [Hgt|Hle].
    + apply (IH _ _ i); try lia; [|done].
      destruct (Z_lt_ge_dec (Z.of_nat i) p) as [?|Hge]; [lia|].
      pose proof (Hs (Z.to_nat p) i lp key ltac:(lia) Hlp Hi). lia.
    + apply (IH _ _ i); try lia; [|done].
      destruct (Z_lt_ge_dec p (Z.of_nat i)) as [?|Hge]; [lia|].
      pose proof (Hs i (Z.to_nat p) key lp ltac:(lia) Hi Hlp). lia.
Qed.

(** X11: on a list in ascending order that holds the key,
    [binSearchInList] returns true. *)
Theorem binSearchInList_finds_present_key key l :
  sorted_asc l -> Z.of_nat (length l) <= 2^30 -> key ∈ l ->
  binSearchInList (S (length l)) key l (Z.of_nat (length l)) = Returned true.
Proof.
  intros Hs Hlen Hin. apply list_elem_of_lookup in Hin as [i Hi].
  apply lookup_lt_Some in Hi as Hlt.
  unfold binSearchInList. cbv zeta.
  apply (binSearchInList_loop_found key l Hs Hlen _ _ _ i); try lia; done.
Qed.

Lemma binSearchInList_finds_present_key_witness :
  binSearchInList 5 8 [2; 3; 5; 8] 4 = Returned true.
Proof.
  apply (binSearchInList_finds_present_key 8 [2; 3; 5; 8] sorted_asc_example).
  - simpl. lia.
  - set_solver.
Defined.

Lemma shl_mask_byte b k :
  0 <= k -> 0 <= b < 256 -> Z.land (Z.shiftl b k) (Z.shiftl 255 k) = b * 2^k.
Proof.
  intros Hk Hb. rewrite <- Z.shiftl_land.
  change 255 with (2^8 - 1). rewrite land_low by lia.
  rewrite Z.mod_small by lia. by rewrite Z.shiftl_mul_pow2.
Qed.

Lemma bytes_of_word n :
  n mod 2^32 = ((n / 2^24) mod 2^8) * 2^24 + ((n / 2^16) mod 2^8) * 2^16
               + ((n / 2^8) mod 2^8) * 2^8 + n mod 2^8.
Proof.
  replace (n / 2^16) with (n / 2^8 / 2^8) by (rewrite Z.div_div by lia; f_equal).
  replace (n / 2^24) with (n / 2^8 / 2^8 / 2^8) by (rewrite !Z.div_div by lia; f_equal).
  set (q1 := n / 2^8). set (q2 := q1 / 2^8). set (q3 := q2 / 2^8).
  pose proof (Z.div_mod n (2^8) ltac:(lia)) as E0. fold q1 in E0.
  pose proof (Z.div_mod q1 (2^8) ltac:(lia)) as E1. fold q2 in E1.
  pose proof (Z.div_mod q2 (2^8) ltac:(lia)) as E2. fold q3 in E2.
  pose proof (Z.div_mod q3 (2^8) ltac:(lia)) as E3.
  pose proof (Z.mod_pos_bound n (2^8) ltac:(lia)).
  pose proof (Z.mod_pos_bound q1 (2^8) ltac:(lia)).
  pose proof (Z.mod_pos_bound q2 (2^8) ltac:(lia)).
  pose proof (Z.mod_pos_bound q3 (2^8) ltac:(lia)).
  symmetry. apply (Z.mod_unique_pos _ _ (q3 / 2^8)); lia.
Qed.

Lemma wrap32_of_mod n : int_range n -> wrap32 (n mod 2^32) = n.
Proof. unfold wrap32, int_range. intros H. Z.div_mod_to_equations. lia. Qed.

Lemma readInt_writeInt n rest :
  int_range n -> readIntFromBinaryString (writeIntToBinaryString n ++ rest) = n.
Proof.
  intros Hn. unfold readIntFromBinaryString, writeIntToBinaryString.
  cbn [app lookup list_lookup default id]. unfold id.
  change 255 with (2^8 - 1). rewrite !land_low by lia. rewrite !Z.shiftr_div_pow2 by lia.
  change (2^8 - 1) with 255.
  set (b0 := (n / 2^24) mod 2^8). set (b1 := (n / 2^16) mod 2^8).
  set (b2 := (n / 2^8) mod 2^8). set (b3 := n mod 2^8).
  assert (H0 : 0 <= b0 < 256) by (apply Z.mod_pos_bound; lia).
  assert (H1 : 0 <= b1 < 256) by (apply Z.mod_pos_bound; lia).
  assert (H2 : 0 <= b2 < 256) by (apply Z.mod_pos_bound; lia).
  assert (H3 : 0 <= b3 < 256) by (apply Z.mod_pos_bound; lia).
  change 4278190080 with (Z.shiftl 255 24). change 16711680 with (Z.shiftl 255 16).
  change 65280 with (Z.shiftl 255 8).
  rewrite !shl_mask_byte by lia.
  rewrite (Z.mod_small b3 (2^8)) by lia.
  rewrite (lor_disjoint_add b0 (b1 * 2^16) 24) by lia.
  replace (b0 * 2^24 + b1 * 2^16) with ((b0 * 2^8 + b1) * 2^16) by lia.
  rewrite (lor_disjoint_add _ (b2 * 2^8) 16) by lia.
  replace ((b0 * 2^8 + b1) * 2^16 + b2 * 2^8) with ((b0 * 2^16 + b1 * 2^8 + b2) * 2^8) by lia.
  rewrite (lor_disjoint_add _ b3 8) by lia.
  replace ((b0 * 2^16 + b1 * 2^8 + b2) * 2^8 + b3)
    with (b0 * 2^24 + b1 * 2^16 + b2 * 2^8 + b3) by lia.
  subst b0 b1 b2 b3. rewrite <- bytes_of_word. by apply wrap32_of_mod.
Qed.

(** X12: [readIntFromBinaryString] undoes [writeIntToBinaryString] on
    every C int, negative ones included, and the four characters
    written are bytes. *)
Theorem int_binary_string_round_trip n :
  int_range n ->
  readIntFromBinaryString (writeIntToBinaryString n) = n /\
  Forall byte_range (writeIntToBinaryString n).
Proof.
  intros Hn. split.
  - rewrite <- (app_nil_r (writeIntToBinaryString n)). by apply readInt_writeInt.
  - unfold writeIntToBinaryString. change 255 with (2^8 - 1). rewrite !land_low by lia.
    repeat constructor; apply Z.mod_pos_bound; lia.
Qed.

Lemma int_binary_string_round_trip_witness :
  readIntFromBinaryString (writeIntToBinaryString (-2)) = -2.
Proof.
  apply (int_binary_string_round_trip (-2)). unfold int_range. lia.
Defined.

Lemma length_writeIntToBinaryString n : length (writeIntToBinaryString n) = 4%nat.
Proof. reflexivity. Qed.

Lemma BinaryStringTointList_IntListToBinaryString l rest :
  Forall int_range l ->
  Format.BinaryStringTointList (IntListToBinaryString (length l) l ++ rest) (length l) = l.
Proof.
  unfold IntListToBinaryString. rewrite firstn_all.
  induction 1 as [|n l Hn _ IH]; [done|].
  cbn [map concat length Format.BinaryStringTointList]. rewrite <- app_assoc.
  rewrite readInt_writeInt by done. f_equal.
  rewrite (drop_app_length' (writeIntToBinaryString n) _ 4) by done. apply IH.
Qed.

(** X13: [BinaryStringTointList] undoes [IntListToBinaryString]: the
    [N] ints of a list, written as [4 * N] characters, are read back
    unchanged. *)
Theorem int_list_binary_string_round_trip l :
  Forall int_range l ->
  Format.BinaryStringTointList (IntListToBinaryString (length l) l) (length l) = l /\
  length (IntListToBinaryString (length l) l) = (4 * length l)%nat.
Proof.
  intros Hl. split.
  - rewrite <- (app_nil_r (IntListToBinaryString _ _)).
    by apply BinaryStringTointList_IntListToBinaryString.
  - unfold IntListToBinaryString. rewrite firstn_all. clear Hl.
    induction l as [|n l IH]; [done|]. cbn [map concat]. rewrite length_app, IH. cbn. lia.
Qed.

Lemma int_list_binary_string_round_trip_witness :
  Format.BinaryStringTointList (IntListToBinaryString 3 [7; -1; 300]) 3 = [7; -1; 300].
Proof.
  apply (int_list_binary_string_round_trip [7; -1; 300]).
  repeat constructor; unfold int_range; lia.
Defined.

(** The loop of [removeDuplicates]: [done] is the part already
    written, [junk] the cells between the write and the read index. *)
Lemma removeDuplicates_for_spec prev rest : forall done junk,
  exists junk',
    removeDuplicates_for (length rest) (done ++ junk ++ rest) prev
      (length done) (length done + length junk)
    = ((done ++ filter (fun x => x ≠ prev) rest) ++ junk',
       length (done ++ filter (fun x => x ≠ prev) rest)) /\
    length ((done ++ filter (fun x => x ≠ prev) rest) ++ junk')
    = length (done ++ junk ++ rest).
Proof.
  induction rest as [|x rest IH]; intros done junk.
  - exists junk. cbn [length removeDuplicates_for]. rewrite filter_nil, !app_nil_r. done.
  - cbn [length removeDuplicates_for].
    assert (Hcur : (done ++ junk ++ x :: rest) !! (length done + length junk)%nat = Some x).
    { rewrite app_assoc, <- length_app. apply list_lookup_middle. done. }
    rewrite Hcur. change (default 0 (Some x)) with x. rewrite filter_cons.
    assert (E1 : (done ++ [x]) ++ filter (fun x => x ≠ prev) rest
                 = done ++ x :: filter (fun x => x ≠ prev) rest)
      by (by rewrite <- app_assoc).
    destruct (decide (x ≠ prev)) as [Hne|Heq].
    + destruct junk as [|j junk].
      * assert (Hins : <[length done := x]> (done ++ [] ++ x :: rest)
                       = (done ++ [x]) ++ [] ++ rest).
        { cbn [app]. rewrite list_insert_id by (by apply list_lookup_middle).
          by rewrite <- app_assoc. }
        rewrite Hins.
        destruct (IH (done ++ [x]) []) as (junk' & Hrun & Hlen).
        rewrite E1 in Hrun, Hlen. exists junk'. split.
        -- etrans; [|exact Hrun]. f_equal; rewrite ?length_app; cbn; lia.
        -- rewrite Hlen. rewrite ?length_app. cbn [length]. rewrite ?length_app. cbn [length]. lia.
      * assert (Hins : <[length done := x]> (done ++ (j :: junk) ++ x :: rest)
                       = (done ++ [x]) ++ (junk ++ [x]) ++ rest).
        { rewrite insert_app_r_alt by lia. rewrite Nat.sub_diag. cbn.
          rewrite <- !app_assoc. done. }
        rewrite Hins.
        destruct (IH (done ++ [x]) (junk ++ [x])) as (junk' & Hrun & Hlen).
        rewrite E1 in Hrun, Hlen. exists junk'. split.
        -- etrans; [|exact Hrun]. f_equal; rewrite ?length_app; cbn; lia.
        -- rewrite Hlen. rewrite ?length_app. cbn [length]. rewrite ?length_app. cbn [length]. lia.
    + destruct (IH done (junk ++ [x])) as (junk' & Hrun & Hlen).
      assert (E2 : done ++ (junk ++ [x]) ++ rest = done ++ junk ++ x :: rest)
        by (by rewrite <- app_assoc).
      rewrite E2 in Hrun, Hlen. exists junk'. split; [|exact Hlen].
      etrans; [|exact Hrun]. f_equal; rewrite ?length_app; cbn; lia.
Qed.

(** X14: [removeDuplicates] on an array whose length fits the int [N]
    keeps the first element and removes the later elements equal to
    it, and nothing else: [prev] is never advanced, so any other
    element stays however often it is repeated. *)
Theorem removeDuplicates_drops_copies_of_first a l :
  Z.of_nat (length (a :: l)) < 2^31 ->
  removeDuplicates (a :: l) = a :: filter (fun x => x ≠ a) l.
Proof.
  intros _. unfold removeDuplicates. cbv zeta.
  replace (length (a :: l) - 1)%nat with (length l) by (cbn [length]; lia). cbn [length].
  destruct (removeDuplicates_for_spec a l [a] []) as (junk' & Hrun & Hlen).
  cbn [app length Nat.add] in Hrun, Hlen. rewrite Hrun.
  destruct (decide (S (length (filter (fun x => x ≠ a) l)) < S (length l))%nat) as [Hlt|Hge].
  - by apply (take_app_length' (a :: filter (fun x => x ≠ a) l) junk').
  - rewrite length_app in Hlen.
    assert (junk' = []) as ->; [|by rewrite app_nil_r].
    apply nil_length_inv. lia.
Qed.

Lemma removeDuplicates_drops_copies_of_first_witness :
  removeDuplicates [1; 2; 2; 1; 3; 3] = [1; 2; 2; 3; 3].
Proof.
  rewrite (removeDuplicates_drops_copies_of_first 1 [2; 2; 1; 3; 3]).
  - reflexivity.
  - cbn. lia.
Defined.

Lemma default_Some {A} (d x : A) : default d (Some x) = x.
Proof. reflexivity. Qed.

Lemma default_None {A} (d : A) : default d None = d.
Proof. reflexivity. Qed.

Lemma increaseNumber_counted t new seen id :
  Z.of_nat (length seen) < 2^31 - 1 ->
  counted t seen -> new = Z.of_nat (size t) -> (size t <= length seen)%nat ->
  let r := increaseNumberInHashTableIfFound t id new in
  counted r.1 (seen ++ [id]) /\ r.2 = Z.of_nat (size r.1) /\
  (size r.1 <= length (seen ++ [id]))%nat.
Proof.
  intros Hlen Ht Hnew Hsz. cbv zeta.
  unfold increaseNumberInHashTableIfFound, g_hash_table_lookup.
  pose proof (Ht id) as Hid. rewrite length_app. cbn [length].
  assert (Hother : forall id', id' <> id ->
            (if decide (id' ∈ seen ++ [id])
             then Some (Z.of_nat (length (filter (fun x => x = id') (seen ++ [id]))))
             else None) = t !! id').
  { intros id' Hne. rewrite (Ht id'), filter_app.
    rewrite (filter_cons_False _ id) by (by intros ->). rewrite filter_nil, app_nil_r.
    destruct (decide (id' ∈ seen)) as [Hin|Hnin].
    - by rewrite decide_True by set_solver.
    - by rewrite decide_False by set_solver. }
  destruct (decide (id ∈ seen)) as [Hin|Hnin].
  - set (c := length (filter (fun x => x = id) seen)) in *.
    assert (Hc : (1 <= c <= length seen)%nat).
    { split; [|apply length_filter].
      subst c. destruct (filter _ seen) eqn:E; [|cbn; lia].
      exfalso. eapply (filter_nil_not_elem_of _ _ id E); done. }
    rewrite Hid, default_Some. rewrite decide_True by lia. cbn [fst snd].
    rewrite wrap32_small by (unfold int_range; lia).
    split; [|split].
    + intros id'. destruct (decide (id' = id)) as [->|Hne].
      * rewrite lookup_insert_eq, decide_True by set_solver.
        rewrite filter_app, filter_cons_True, filter_nil, length_app by done.
        fold c. cbn [length]. f_equal. lia.
      * rewrite lookup_insert_ne by done. by rewrite Hother.
    + rewrite map_size_insert_Some by (by rewrite Hid). done.
    + rewrite map_size_insert_Some by (by rewrite Hid). lia.
  - rewrite Hid, default_None. rewrite decide_False by lia. cbn [fst snd].
    rewrite wrap32_small by (unfold int_range; lia).
    split; [|split].
    + intros id'. destruct (decide (id' = id)) as [->|Hne].
      * rewrite lookup_insert_eq, decide_True by set_solver.
        rewrite filter_app, filter_cons_True, filter_nil, length_app by done.
        destruct (filter (fun x => x = id) seen) eqn:E; [done|].
        exfalso. apply Hnin.
        assert (Hz : z ∈ filter (fun x => x = id) seen) by (rewrite E; left).
        apply list_elem_of_filter in Hz as [-> ?]. done.
      * rewrite lookup_insert_ne by done. by rewrite Hother.
    + rewrite map_size_insert_None by done. lia.
    + rewrite map_size_insert_None by done. lia.
Qed.

Lemma increaseNumber_fold ids :
  Z.of_nat (length ids) < 2^31 ->
  let r := fold_left (fun st id => increaseNumberInHashTableIfFound st.1 id st.2) ids (∅, 0) in
  counted r.1 ids /\ r.2 = Z.of_nat (size r.1) /\ (size r.1 <= length ids)%nat.
Proof.
  induction ids as [|id ids IH] using rev_ind; intros Hlen r.
  - subst r. cbn. split; [|done]. intros id. rewrite decide_False by set_solver. done.
  - subst r. rewrite fold_left_app. cbn [fold_left].
    rewrite length_app in Hlen. cbn [length] in Hlen.
    destruct IH as (Hc & Hn & Hs); [lia|].
    apply increaseNumber_counted; try done. lia.
Qed.

(** X15: counting the ids of a list (fewer than [2^31] of them) with
    [increaseNumberInHashTableIfFound], from an empty table and a zero
    counter, maps every id of the list to the number of times it
    occurs, holds no other key, and leaves the counter at the number of
    distinct ids. *)
Theorem increaseNumber_counts_occurrences ids :
  Z.of_nat (length ids) < 2^31 ->
  let r := fold_left (fun st id => increaseNumberInHashTableIfFound st.1 id st.2) ids (∅, 0) in
  counted r.1 ids /\ r.2 = Z.of_nat (size r.1).
Proof.
  intros Hlen r. destruct (increaseNumber_fold ids Hlen) as (Hc & Hn & _). done.
Qed.

Lemma increaseNumber_counts_occurrences_witness :
  let r := fold_left (fun st id => increaseNumberInHashTableIfFound st.1 id st.2)
             [7; 9; 7] (∅, 0) in
  r.1 !! 7 = Some 2 /\ r.2 = 2.
Proof.
  intros r.
  destruct (increaseNumber_counts_occurrences [7; 9; 7]) as [Hc Hn]; [simpl; lia|].
  fold r in Hc, Hn. split.
  - by rewrite (Hc 7).
  - rewrite Hn. by vm_compute.
Defined.

Lemma foldr_max_nonneg l : 0 <= foldr Z.max 0 l.
Proof. induction l; cbn; lia. Qed.

Lemma foldr_max_snoc l v : foldr Z.max 0 (l ++ [v]) = Z.max (foldr Z.max 0 l) (Z.max v 0).
Proof. induction l as [|x l IH]; cbn; [lia|]. rewrite IH. lia. Qed.

Lemma storeNumber_greatest t ps id v :
  0 <= v -> greatest_stored t ps ->
  greatest_stored (storeNumberInHashTableIfGreater t id v) (ps ++ [(id, v)]).
Proof.
  intros Hv Ht id'. unfold storeNumberInHashTableIfGreater, g_hash_table_lookup.
  rewrite map_app, filter_app. cbn [map fst].
  destruct (decide (id' = id)) as [->|Hne].
  - destruct (decide (id ∈ map fst ps ++ [id])) as [_|Hn]; [|exfalso; apply Hn; set_solver].
    rewrite (filter_cons_True _ (id, v)) by reflexivity. rewrite filter_nil, map_app. cbn [map snd].
    rewrite foldr_max_snoc. rewrite (Z.max_l v 0) by lia.
    pose proof (Ht id) as Hid.
    pose proof (foldr_max_nonneg (map snd (filter (fun p => p.1 = id) ps))) as Hm.
    set (m := foldr Z.max 0 (map snd (filter (fun p => p.1 = id) ps))) in *.
    destruct (decide (id ∈ map fst ps)) as [Hin|Hnin].
    + rewrite Hid, default_Some. destruct (decide (m ≠ 0)) as [Hm0|Hm0].
      * destruct (Z.ltb_spec m v).
        -- rewrite lookup_insert_eq. f_equal. lia.
        -- rewrite Hid. f_equal. lia.
      * rewrite lookup_insert_eq. f_equal. lia.
    + rewrite Hid, default_None. rewrite decide_False by lia.
      rewrite lookup_insert_eq. f_equal.
      assert (Hnil : filter (fun p : Z * Z => p.1 = id) ps = []).
      { destruct (filter _ ps) as [|p ?] eqn:E; [done|]. exfalso. apply Hnin.
        assert (Hp : p ∈ filter (fun p : Z * Z => p.1 = id) ps) by (rewrite E; left).
        apply list_elem_of_filter in Hp as [<- Hp].
        apply list_elem_of_fmap. by exists p. }
      subst m. rewrite Hnil. cbn. lia.
  - rewrite (filter_cons_False _ (id, v)) by (by cbn; intros <-).
    rewrite filter_nil, app_nil_r.
    assert (Hlk : forall t', (t' = t \/ t' = <[id := v]> t) -> t' !! id' = t !! id').
    { intros t' [->| ->]; [done|]. by rewrite lookup_insert_ne. }
    rewrite Hlk.
    + rewrite (Ht id').
      destruct (decide (id' ∈ map fst ps)) as [Hin|Hnin].
      * destruct (decide (id' ∈ map fst ps ++ [id])) as [_|Hn]; [done|].
        exfalso; apply Hn; set_solver.
      * destruct (decide (id' ∈ map fst ps ++ [id])) as [Hn|_]; [|done].
        exfalso. set_solver.
    + destruct (decide (default 0 (t !! id) ≠ 0)); [|by right].
      destruct (default 0 (t !! id) <? v); [by right|by left].
Qed.

(** X16: storing pairs of an id and a number that is not negative with
    [storeNumberInHashTableIfGreater], from an empty table, maps every
    id of the list to the greatest of its numbers and holds no other
    key. *)
Theorem storeNumber_keeps_greatest ps :
  Forall (fun p : Z * Z => 0 <= p.2) ps ->
  greatest_stored
    (fold_left (fun t p => storeNumberInHashTableIfGreater t p.1 p.2) ps ∅) ps.
Proof.
  induction ps as [|[id v] ps IH] using rev_ind; intros Hps.
  - intros id. cbn. by rewrite decide_False by set_solver.
  - apply Forall_app in Hps as [Hps Hv]. apply Forall_inv in Hv.
    rewrite fold_left_app. cbn [fold_left fst snd].
    apply storeNumber_greatest; [exact Hv|]. by apply IH.
Qed.

Lemma storeNumber_keeps_greatest_witness :
  fold_left (fun t p => storeNumberInHashTableIfGreater t p.1 p.2)
    [(7, 12); (9, 0); (7, 40); (7, 3)] ∅ !! 7 = Some 40.
Proof.
  rewrite (storeNumber_keeps_greatest [(7, 12); (9, 0); (7, 40); (7, 3)]).
  - reflexivity.
  - repeat constructor; cbn; lia.
Defined.

End UtilsTheorems.

(** ** date.c: order and validation *)

Section DateTheorems.
Import Date.

(** The six fields of a date side by side. *)
Abbreviation packed d :=
  ((year d - 2005) * 2^26 + month d * 2^22 + day d * 2^17
   + hour d * 2^12 + minute d * 2^6 + second d).

Lemma date_key_value d :
  valid_range d ->
  date_key d = if packed d <? 2^31 then packed d else packed d + 2^64 - 2^32.
Proof.
  intros Hv. unfold date_key. rewrite getCompactedDate_value by done.
  unfold valid_range in Hv.
  assert (Hp : 0 <= packed d < 2^32) by lia.
  destruct (Z.ltb_spec (packed d) (2^31)) as [Hlt|Hge].
  - rewrite wrap32_small by (unfold int_range; lia). apply Z.mod_small. lia.
  - unfold wrap32.
    replace (packed d + 2^31) with ((packed d - 2^31) + 1 * 2^32) by lia.
    rewrite Z.mod_add by lia. rewrite (Z.mod_small (packed d - 2^31)) by lia.
    replace (packed d - 2^31 - 2^31) with ((packed d + 2^64 - 2^32) + (-1) * 2^64) by lia.
    rewrite Z.mod_add by lia. apply Z.mod_small. lia.
Qed.

Lemma dateCompare_packed d1 d2 :
  valid_range d1 -> valid_range d2 ->
  dateCompare d1 d2 = Indexer.directCmp (packed d1) (packed d2).
Proof.
  unfold valid_range, dateCompare, Indexer.directCmp. intros H1 H2.
  repeat match goal with
         | |- context [?x =? ?y] => destruct (Z.eqb_spec x y); cbn [negb]
         end;
  repeat match goal with
         | |- context [?x <? ?y] => destruct (Z.ltb_spec x y)
         | |- context [?x >? ?y] => destruct (Z.gtb_spec x y)
         end; try reflexivity; exfalso; lia.
Qed.

(** X17: on dates whose fields are in range, the unsigned 64-bit key
    that the date indexes store ([(pos_t)getCompactedDate(d)]) orders
    dates as [dateCompare] does, years from 2037 on included (their
    packed int is negative, and the conversion to [pos_t] puts them
    above the others). *)
Theorem date_key_order d1 d2 :
  valid_range d1 -> valid_range d2 ->
  Indexer.directCmp (date_key d1) (date_key d2) = dateCompare d1 d2.
Proof.
  intros H1 H2. rewrite dateCompare_packed by done.
  rewrite !date_key_value by done.
  unfold valid_range in H1, H2.
  assert (Hp1 : 0 <= packed d1 < 2^32) by lia.
  assert (Hp2 : 0 <= packed d2 < 2^32) by lia.
  destruct (Z.ltb_spec (packed d1) (2^31)), (Z.ltb_spec (packed d2) (2^31)).
  all: unfold Indexer.directCmp.
  all: repeat match goal with
         | |- context [?x <? ?y] => destruct (Z.ltb_spec x y)
         | |- context [?x >? ?y] => destruct (Z.gtb_spec x y)
         end; try reflexivity; exfalso; lia.
Qed.

Lemma date_key_order_witness :
  Indexer.directCmp (date_key (mkDate 2036 12 31 23 59 59))
                    (date_key (mkDate 2037 1 1 0 0 0)) = -1.
Proof.
  rewrite (date_key_order (mkDate 2036 12 31 23 59 59) (mkDate 2037 1 1 0 0 0)).
  - reflexivity.
  - unfold valid_range; cbn; lia.
  - unfold valid_range; cbn; lia.
Defined.

(** X18: the month test of [isDateValid], [month < 1 && month > 12],
    never fails: on a date whose time of day is in range, whose day is
    at least 1 and whose month is not one of 1 to 12 the function goes
    on to read [monthsLength[month - 1]], outside of the array. *)
Theorem isDateValid_month_unchecked now d :
  0 <= hour d <= 23 -> 0 <= minute d <= 59 -> 0 <= second d <= 59 ->
  1 <= day d ->
  month d < 1 \/ 12 < month d ->
  isDateValid now d = OutOfBounds.
Proof.
  intros Hh Hm Hs Hd Hmo. unfold isDateValid. cbv zeta.
  destruct (Z.ltb_spec (hour d) 0); [lia|]. destruct (Z.gtb_spec (hour d) 23); [lia|].
  destruct (Z.ltb_spec (minute d) 0); [lia|]. destruct (Z.gtb_spec (minute d) 59); [lia|].
  destruct (Z.ltb_spec (second d) 0); [lia|]. destruct (Z.gtb_spec (second d) 59); [lia|].
  cbn [orb].
  assert (Hand : (month d <? 1) && (month d >? 12) = false).
  { destruct (Z.ltb_spec (month d) 1); destruct (Z.gtb_spec (month d) 12); cbn; lia || done. }
  rewrite Hand.
  destruct (Z.ltb_spec (day d) 1); [lia|].
  assert (Hget : forall l : list Z, length l = 12%nat -> array_get l (month d - 1) = None).
  { intros l Hl. unfold array_get. destruct (Z.ltb_spec (month d - 1) 0); [done|].
    apply lookup_ge_None. lia. }
  by rewrite Hget.
Qed.

Lemma isDateValid_month_unchecked_witness :
  isDateValid (mkDate 2022 1 1 0 0 0) (mkDate 2010 13 1 0 0 0) = OutOfBounds.
Proof.
  apply isDateValid_month_unchecked; cbn; lia.
Defined.

Lemma isDateValid_true_fields now d :
  isDateValid now d = Returned true ->
  (1 <= month d <= 12 /\ 1 <= day d <= 31 /\ 0 <= hour d <= 23 /\
   0 <= minute d <= 59 /\ 0 <= second d <= 59 /\ 2005 <= year d <= year now) /\
  (year now < 2069 -> valid_range d).
Proof.
  unfold isDateValid. cbv zeta. intros H.
  destruct (Z.ltb_spec (hour d) 0); [done|]. destruct (Z.gtb_spec (hour d) 23); [done|].
  destruct (Z.ltb_spec (minute d) 0); [done|]. destruct (Z.gtb_spec (minute d) 59); [done|].
  destruct (Z.ltb_spec (second d) 0); [done|]. destruct (Z.gtb_spec (second d) 59); [done|].
  cbn [orb] in H.
  destruct ((month d <? 1) && (month d >? 12)); [done|].
  destruct (Z.ltb_spec (day d) 1); [done|].
  destruct (array_get _ (month d - 1)) as [len|] eqn:Hlen; [|done].
  cbn [read_cell mbind outcome_bind] in H.
  apply array_get_lookup in Hlen as [Hm0 Hlen].
  apply lookup_lt_Some in Hlen as Hm12. cbn [length] in Hm12.
  assert (Hlen31 : len <= 31).
  { apply list_elem_of_lookup_2 in Hlen.
    repeat (apply elem_of_cons in Hlen as [->|Hlen]; [try lia; by destruct (isLeapYear _)|]).
    by apply elem_of_nil in Hlen. }
  destruct (Z.gtb_spec (day d) len); [done|].
  injection H as H. apply andb_true_iff in H as [Hmin Hnow].
  apply Z.eqb_eq in Hmin, Hnow.
  assert (Hy : 2005 <= year d <= year now).
  { unfold dateCompare in Hmin, Hnow. cbn [year month day hour minute second] in Hmin.
    split.
    - destruct (Z.eqb_spec 2005 (year d)); cbn [negb] in Hmin; [lia|].
      destruct (Z.ltb_spec 2005 (year d)); [lia|done].
    - destruct (Z.eqb_spec (year d) (year now)); cbn [negb] in Hnow; [lia|].
      destruct (Z.ltb_spec (year d) (year now)); [lia|done]. }
  split; [lia|]. intros Hc. unfold valid_range. lia.
Qed.

(** On a month from 1 to 12 [isDateValid] returns, and the day it
    accepts is a day of that month. *)
Lemma isDateValid_in_range_day now d :
  1 <= month d <= 12 ->
  (exists b, isDateValid now d = Returned b) /\
  (isDateValid now d = Returned true -> 1 <= day d <= month_length (year d) (month d)) /\
  28 <= month_length (year d) (month d) <= 31.
Proof.
  intros Hmo. unfold isDateValid, month_length. cbv zeta.
  set (monthsLength := [31; if isLeapYear (year d) then 29 else 28; 31; 30; 31; 30; 31; 31;
                        30; 31; 30; 31]).
  assert (Hget : array_get monthsLength (month d - 1)
                 = Some (nth (Z.to_nat (month d - 1)) monthsLength 0)).
  { unfold array_get. destruct (Z.ltb_spec (month d - 1) 0); [lia|].
    destruct (lookup_lt_is_Some_2 monthsLength (Z.to_nat (month d - 1))) as [x Hx];
      [cbn; lia|].
    by rewrite nth_lookup, Hx. }
  assert (Hlen : 28 <= nth (Z.to_nat (month d - 1)) monthsLength 0 <= 31).
  { assert (Hc : exists m : nat, Z.to_nat (month d - 1) = m /\ (m < 12)%nat)
      by (eexists; split; [reflexivity|lia]).
    destruct Hc as (m & -> & Hm). subst monthsLength.
    do 12 (destruct m as [|m]; [cbn; try destruct (isLeapYear _); lia|]). lia. }
  rewrite Hget. cbn [read_cell mbind outcome_bind].
  split; [|split; [|exact Hlen]].
  - repeat (match goal with |- context [if ?c then _ else _] => destruct c end; eauto).
  - intros H.
    repeat (match type of H with context [if ?c then _ else _] =>
              destruct c eqn:?; try done end).
    lia.
Qed.

(** X19: on a date whose month is one of 1 to 12 [isDateValid] returns;
    when it accepts the date, the day is a day of that month (of
    February of a leap year where [isLeapYear] says so), the time of
    day is in range and the year is from 2005 to the year of the clock;
    while the clock shows a year before 2069 the date satisfies
    [valid_range], the domain on which the packed form is exact. *)
Theorem isDateValid_accepts_in_range now d :
  1 <= month d <= 12 ->
  (exists b, isDateValid now d = Returned b) /\
  (isDateValid now d = Returned true ->
   1 <= day d <= month_length (year d) (month d) /\
   month_length (year d) (month d) <= 31 /\
   0 <= hour d <= 23 /\ 0 <= minute d <= 59 /\ 0 <= second d <= 59 /\
   2005 <= year d <= year now /\
   (year now < 2069 -> valid_range d)).
Proof.
  intros Hmo. destruct (isDateValid_in_range_day now d Hmo) as (Hret & Hday & Hlen).
  split; [exact Hret|]. intros H.
  destruct (isDateValid_true_fields now d H) as [(_ & _ & Hh & Hmi & Hs & Hy) Hrange].
  specialize (Hday H). split_and!; try done; lia.
Qed.

Lemma isDateValid_accepts_in_range_witness :
  1 <= day (mkDate 2012 2 29 12 0 0) <= month_length 2012 2.
Proof.
  destruct (isDateValid_accepts_in_range (mkDate 2022 1 1 0 0 0) (mkDate 2012 2 29 12 0 0))
    as [_ H].
  - cbn. lia.
  - apply H. reflexivity.
Defined.

End DateTheorems.

(** ** user.c: the friends list *)

Section FriendsTheorems.
Import Utils User.

(** Two comparators that agree on the elements of a list sort it the
    same way. *)
Lemma qsort_insert_ext {A} (cmp1 cmp2 : A -> A -> Z) x l :
  (forall y, y ∈ l -> (cmp1 x y <=? 0) = (cmp2 x y <=? 0)) ->
  qsort_insert cmp1 x l = qsort_insert cmp2 x l.
Proof.
  induction l as [|y l IH]; intros H; [done|]. cbn [qsort_insert].
  rewrite (H y) by (by left). destruct (cmp2 x y <=? 0); [done|].
  f_equal. apply IH. intros z Hz. apply H. by right.
Qed.

Lemma qsort_ext_in {A} (cmp1 cmp2 : A -> A -> Z) l :
  (forall x y, x ∈ l -> y ∈ l -> (cmp1 x y <=? 0) = (cmp2 x y <=? 0)) ->
  qsort cmp1 l = qsort cmp2 l.
Proof.
  induction l as [|x l IH]; intros H; [done|]. cbn [qsort].
  rewrite IH by (intros; apply H; by right).
  apply qsort_insert_ext. intros y Hy. apply H; [by left|].
  right. by rewrite (qsort_perm cmp2 l).
Qed.

(** On ids that are not negative the difference of [compareInts] does
    not leave the range of an int, and [qsort] puts them in ascending
    order. *)
Lemma qsort_compareInts_sorted l :
  Forall (fun x => 0 <= x < 2^31) l -> sorted_asc (qsort compareInts l).
Proof.
  intros Hl.
  rewrite (qsort_ext_in compareInts (fun a b => a - b)).
  - pose proof (qsort_sorted (fun a b : Z => a - b) ltac:(intros; lia) ltac:(intros; lia) l)
      as Hs.
    intros i j a b Hij Ha Hb. destruct (decide (i = j)) as [->|Hne].
    + rewrite Ha in Hb. injection Hb as <-. lia.
    + pose proof (StronglySorted_lookup _ _ Hs i j a b ltac:(lia) Ha Hb). cbn in *. lia.
  - intros x y Hx Hy. rewrite Forall_forall in Hl.
    pose proof (Hl x Hx). pose proof (Hl y Hy).
    unfold compareInts. rewrite wrap32_small by (unfold int_range; lia). done.
Qed.

(** The loop over the longer list: the ids found in the shorter one,
    in the order of the longer one. *)
Lemma friends_loop_spec small big :
  sorted_asc small -> Z.of_nat (length small) <= 2^30 ->
  forall n (i : nat) ans,
    (i + n = length big)%nat ->
    friends_loop small (Z.of_nat (length small)) big (Z.of_nat i) n ans
    = Returned (ans ++ filter (fun x => x ∈ small) (drop i big)).
Proof.
  intros Hs Hlen. induction n as [|n IH]; intros i ans Hi.
  - cbn. rewrite drop_ge by lia. by rewrite filter_nil, app_nil_r.
  - cbn [friends_loop]. rewrite array_get_of_nat.
    destruct (lookup_lt_is_Some_2 big i ltac:(lia)) as [x Hx]. rewrite Hx.
    cbn [read_cell mbind outcome_bind]. rewrite Nat2Z.id.
    destruct (containedInSortedArray_spec small x Hs Hlen) as (b & -> & Hb).
    cbn [mbind outcome_bind].
    replace (Z.of_nat i + 1) with (Z.of_nat (S i)) by lia.
    rewrite IH by lia. f_equal.
    rewrite (drop_S big x i Hx), filter_cons.
    destruct b.
    + rewrite decide_True by (by apply Hb). by rewrite <- app_assoc.
    + rewrite decide_False; [done|]. intros Hin. apply Hb in Hin. done.
Qed.

Lemma filter_elem_of_nil (l : list Z) : filter (fun x : Z => x ∈ []) l = [].
Proof.
  induction l as [|y l IH]; [done|]. rewrite filter_cons_False by set_solver. apply IH.
Qed.

Lemma calculateFriends_spec u :
  followers u = Z.of_nat (length (follower_list u)) ->
  following u = Z.of_nat (length (following_list u)) ->
  Forall (fun x => 0 <= x < 2^31) (follower_list u) ->
  Forall (fun x => 0 <= x < 2^31) (following_list u) ->
  followers u <= 2^30 -> following u <= 2^30 ->
  exists u', calculateFriends u = Returned u' /\
    (forall x, x ∈ friends_list u' <-> x ∈ follower_list u /\ x ∈ following_list u) /\
    friends_list u' =
      (if followers u <? following u
       then filter (fun x => x ∈ follower_list u) (following_list u)
       else filter (fun x => x ∈ following_list u) (follower_list u)) /\
    friends u' = Z.of_nat (length (friends_list u')) /\
    Permutation (follower_list u') (follower_list u) /\
    Permutation (following_list u') (following_list u).
Proof.
  intros Hfs Hfg Hrs Hrg Hls Hlg. unfold calculateFriends.
  destruct (Z.eqb_spec (followers u) 0) as [Hz|Hnz]; cbn [orb].
  { exists (mkUser (followers u) (following u) (follower_list u) (following_list u) 0 []).
    assert (follower_list u = []) as Hnil by (apply nil_length_inv; lia).
    split; [done|]. cbn [friends_list friends follower_list following_list].
    rewrite Hnil.
    rewrite !filter_elem_of_nil. split_and!; try done; [set_solver|by destruct (followers u <? following u)]. }
  destruct (Z.eqb_spec (following u) 0) as [Hz|Hnz'].
  { exists (mkUser (followers u) (following u) (follower_list u) (following_list u) 0 []).
    assert (following_list u = []) as Hnil by (apply nil_length_inv; lia).
    split; [done|]. cbn [friends_list friends follower_list following_list].
    rewrite Hnil.
    rewrite !filter_elem_of_nil. split_and!; try done; [set_solver|by destruct (followers u <? following u)]. }
  cbv zeta. unfold qsort_prefix.
  destruct (Z.ltb_spec (followers u) (following u)) as [Hlt|Hge].
  - rewrite Z.min_l, Z.max_r by lia.
    assert (Hn : Z.to_nat (followers u) = length (follower_list u)) by lia.
    assert (Hm : Z.to_nat (following u) = length (following_list u)) by lia.
    rewrite Hn, Hm, firstn_all, drop_all, app_nil_r.
    assert (Hrun : friends_loop (qsort compareInts (follower_list u)) (followers u)
                     (following_list u) 0 (length (following_list u)) []
                   = Returned (filter (fun x => x ∈ follower_list u) (following_list u))).
    { assert (Hsl : followers u
                    = Z.of_nat (length (qsort compareInts (follower_list u)))).
      { rewrite Hfs. f_equal. apply Permutation_length, qsort_perm. }
      rewrite Hsl.
      rewrite (friends_loop_spec _ _ (qsort_compareInts_sorted _ Hrs) ltac:(lia) _ 0%nat)
        by done.
      cbn [app drop]. f_equal. apply list_filter_iff. intros x.
      by rewrite <- (qsort_perm compareInts). }
    rewrite Hrun. cbn [mbind outcome_bind].
    eexists. split; [reflexivity|].
    cbn [friends_list friends follower_list following_list].
    split_and!; try done.
    + intros x. rewrite list_elem_of_filter. tauto.
    + symmetry. apply qsort_perm.
  - rewrite Z.min_r, Z.max_l by lia.
    assert (Hn : Z.to_nat (followers u) = length (follower_list u)) by lia.
    assert (Hm : Z.to_nat (following u) = length (following_list u)) by lia.
    rewrite Hn, Hm, firstn_all, drop_all, app_nil_r.
    assert (Hrun : friends_loop (qsort compareInts (following_list u)) (following u)
                     (follower_list u) 0 (length (follower_list u)) []
                   = Returned (filter (fun x => x ∈ following_list u) (follower_list u))).
    { assert (Hsl : following u
                    = Z.of_nat (length (qsort compareInts (following_list u)))).
      { rewrite Hfg. f_equal. apply Permutation_length, qsort_perm. }
      rewrite Hsl.
      rewrite (friends_loop_spec _ _ (qsort_compareInts_sorted _ Hrg) ltac:(lia) _ 0%nat)
        by done.
      cbn [app drop]. f_equal. apply list_filter_iff. intros x.
      by rewrite <- (qsort_perm compareInts). }
    rewrite Hrun. cbn [mbind outcome_bind].
    eexists. split; [reflexivity|].
    cbn [friends_list friends follower_list following_list].
    split_and!; try done.
    + intros x. rewrite list_elem_of_filter. tauto.
    + symmetry. apply qsort_perm.
Qed.

(** X20: for a user whose two lists have the recorded lengths and hold
    ids that are not negative, [calculateFriends] returns; the friends
    list holds the ids of the longer list that are also in the shorter
    one, in the order of the longer list, so an id is a friend exactly
    when it is in both lists; [friends] is the length of the list; and
    both lists keep their members. *)
Theorem calculateFriends_intersection u :
  followers u = Z.of_nat (length (follower_list u)) ->
  following u = Z.of_nat (length (following_list u)) ->
  Forall (fun x => 0 <= x < 2^31) (follower_list u) ->
  Forall (fun x => 0 <= x < 2^31) (following_list u) ->
  followers u <= 2^30 -> following u <= 2^30 ->
  exists u', calculateFriends u = Returned u' /\
    (forall x, x ∈ friends_list u' <-> x ∈ follower_list u /\ x ∈ following_list u) /\
    friends_list u' =
      (if followers u <? following u
       then filter (fun x => x ∈ follower_list u) (following_list u)
       else filter (fun x => x ∈ following_list u) (follower_list u)) /\
    friends u' = Z.of_nat (length (friends_list u')) /\
    Permutation (follower_list u') (follower_list u) /\
    Permutation (following_list u') (following_list u).
Proof.
  intros Hfs Hfg Hrs Hrg Hls Hlg.
  destruct (calculateFriends_spec u Hfs Hfg Hrs Hrg Hls Hlg) as (u' & Hrun & Hrest).
  exists u'. by split.
Qed.

Lemma calculateFriends_intersection_witness :
  exists u', calculateFriends (mkUser 2 3 [5; 1] [2; 1; 5] 0 []) = Returned u' /\
    friends_list u' = [1; 5].
Proof.
  destruct (calculateFriends_intersection (mkUser 2 3 [5; 1] [2; 1; 5] 0 []))
    as (u' & Hu & _ & Hl & _).
  - reflexivity.
  - reflexivity.
  - repeat constructor; lia.
  - repeat constructor; lia.
  - cbn. lia.
  - cbn. lia.
  - exists u'. split; [exact Hu|]. rewrite Hl. vm_compute. reflexivity.
Defined.

End FriendsTheorems.

(** ** cache.c: the invariants of the cache, reads and writes *)

Section CacheInvariants.
Import Cache.

Lemma get_line_lookup c l ln : lines c !! l = Some ln -> get_line c l = ln.
Proof. unfold get_line. by intros ->. Qed.

(** [updateCacheLine] on a line that is loaded and has no pending write
    does nothing. *)
Lemma updateCacheLine_idle l w ln :
  lines (the_cache w) !! l = Some ln -> loaded ln = true -> altered ln = false ->
  updateCacheLine l w = w.
Proof.
  intros Hl Hld Hal. unfold updateCacheLine.
  rewrite (get_line_lookup _ _ _ Hl), Hld, Hal. done.
Qed.

(** [updateCacheLine] on a line that was just assigned a new key. *)
Lemma updateCacheLine_load l w ln :
  lines (the_cache w) !! l = Some ln -> loaded ln = false -> altered ln = false ->
  exists err,
    updateCacheLine l w
    = mkWorld (set_line (the_cache w) l
                 (mkLine (key ln) true false (loaded_data (files w) (key ln) (data ln))))
              (files w) (stderr w ++ err).
Proof.
  intros Hl Hld Hal. unfold updateCacheLine, loaded_data.
  rewrite (get_line_lookup _ _ _ Hl). destruct ln as [k ld al d].
  cbn [loaded altered key data] in *. subst ld al. cbn [negb orb key loaded altered data].
  destruct (pread (files w) (file_desc k) CACHE_LINE_SIZE (pos k)) as [bytes|];
    eexists; reflexivity.
Qed.

(** [updateCacheLine] on a loaded line with a pending write: the line
    is written to its file (when there is one) and keeps its bytes. *)
Lemma updateCacheLine_flush l w ln :
  lines (the_cache w) !! l = Some ln -> loaded ln = true -> altered ln = true ->
  exists err,
    updateCacheLine l w
    = mkWorld (set_line (the_cache w) l (mkLine (key ln) true false (data ln)))
              (default (files w)
                 (pwrite (files w) (file_desc (key ln)) (data ln) (pos (key ln))))
              (stderr w ++ err).
Proof.
  intros Hl Hld Hal. unfold updateCacheLine.
  rewrite (get_line_lookup _ _ _ Hl). destruct ln as [k ld al d].
  cbn [loaded altered key data] in *. subst ld al. cbn [negb orb key loaded altered data].
  destruct (pwrite (files w) (file_desc k) d (pos k)) as [fs'|];
    cbn [negb loaded key altered data default];
    eexists; reflexivity.
Qed.

Lemma length_loaded_data fs k old :
  length old = Z.to_nat CACHE_LINE_SIZE ->
  length (loaded_data fs k old) = Z.to_nat CACHE_LINE_SIZE.
Proof.
  intros Hold. unfold loaded_data, pread.
  destruct (fs !! file_desc k) as [content|]; cbn; [|done].
  set (bytes := take (Z.to_nat CACHE_LINE_SIZE) (drop (Z.to_nat (pos k)) content)).
  assert (Hb : (length bytes <= Z.to_nat CACHE_LINE_SIZE)%nat).
  { subst bytes. rewrite length_take. lia. }
  assert (Hd : length (bytes ++ drop (length bytes) old) = Z.to_nat CACHE_LINE_SIZE).
  { rewrite length_app, length_drop. lia. }
  destruct (Z.of_nat (length bytes) <? CACHE_LINE_SIZE); [by rewrite length_insert|done].
Qed.

Lemma loaded_data_agrees fs k old :
  length old = Z.to_nat CACHE_LINE_SIZE -> 0 <= pos k ->
  line_agrees fs (mkLine k true false (loaded_data fs k old)).
Proof.
  intros Hold Hpos content i b Hfs Hb Hi. cbn [key data] in *.
  unfold loaded_data, pread. rewrite Hfs. cbn.
  set (bytes := take (Z.to_nat CACHE_LINE_SIZE) (drop (Z.to_nat (pos k)) content)).
  assert (Hbi : bytes !! i = Some b).
  { subst bytes. rewrite lookup_take_lt by done. by rewrite lookup_drop. }
  apply lookup_lt_Some in Hbi as Hlt.
  assert (Hd : (bytes ++ drop (length bytes) old) !! i = Some b).
  { by rewrite lookup_app_l. }
  destruct (Z.of_nat (length bytes) <? CACHE_LINE_SIZE); [|done].
  rewrite list_lookup_insert_ne by lia. done.
Qed.

Lemma move_to_front_perm l q :
  NoDup q -> l ∈ q -> Permutation (move_to_front l q) q.
Proof.
  intros Hnd Hl. unfold move_to_front.
  induction q as [|x q IH]; [by apply elem_of_nil in Hl|].
  apply NoDup_cons in Hnd as [Hx Hnd]. rewrite filter_cons.
  destruct (decide (x ≠ l)) as [Hne|Heq].
  - apply elem_of_cons in Hl as [->|Hl]; [done|].
    rewrite Permutation_swap. constructor. by apply IH.
  - assert (x = l) as -> by (destruct (decide (x = l)); [done|by exfalso; apply Heq]).
    constructor. clear IH Hl Hnd.
    induction q as [|y q IH]; [done|]. rewrite filter_cons.
    destruct (decide (y ≠ l)) as [?|Hyl].
    + constructor. apply IH. set_solver.
    + exfalso. apply Hx. destruct (decide (y = l)) as [->|?]; [left|by exfalso; apply Hyl].
Qed.

Lemma cache_wf_last c :
  cache_wf c -> exists l ln, last (queue c) = Some l /\ lines c !! l = Some ln.
Proof.
  intros (Hne & Hq & _).
  destruct (last (queue c)) as [l|] eqn:Hlast.
  - assert (Hin : l ∈ queue c).
    { apply last_Some in Hlast as [q' ->]. set_solver. }
    rewrite Hq in Hin. apply elem_of_seq in Hin.
    destruct (lookup_lt_is_Some_2 (lines c) l ltac:(lia)) as [ln Hln]. by exists l, ln.
  - apply last_None in Hlast. rewrite Hlast in Hq.
    apply Permutation_length in Hq. rewrite length_seq in Hq. cbn in Hq.
    destruct (lines c); [done|cbn in Hq; lia].
Qed.

Lemma cache_wf_queue c l ln :
  cache_wf c -> lines c !! l = Some ln ->
  forall q', q' = queue c \/ q' = move_to_front l (queue c) ->
  Permutation q' (seq 0 (length (lines c))).
Proof.
  intros (_ & Hq & _) Hl q' [->| ->]; [done|].
  rewrite move_to_front_perm; [done| |].
  - rewrite Hq. apply NoDup_seq.
  - rewrite Hq. apply elem_of_seq. apply lookup_lt_Some in Hl. lia.
Qed.

(** The queue after [getCacheLine] touched line [l]. *)
Lemma queue_step l (c1 : cache) :
  queue (if decide (head (queue c1) = Some l) then c1
         else mkCache (lines c1) (move_to_front l (queue c1)) (posLinePairs c1)
                      (hits c1) (misses c1)) = queue c1 \/
  queue (if decide (head (queue c1) = Some l) then c1
         else mkCache (lines c1) (move_to_front l (queue c1)) (posLinePairs c1)
                      (hits c1) (misses c1)) = move_to_front l (queue c1).
Proof. destruct (decide _); [by left|by right]. Qed.

(** A hit: the line found in the table is flushed if it has a pending
    write, and keeps its bytes. *)
Lemma getCacheLine_hit w fd p l ln0 :
  posLinePairs (the_cache w) !! (fd, p - p mod CACHE_LINE_SIZE) = Some l ->
  lines (the_cache w) !! l = Some ln0 -> loaded ln0 = true ->
  exists w',
    getCacheLine w fd p = (l, w') /\
    lines (the_cache w') = <[l := mkLine (key ln0) true false (data ln0)]> (lines (the_cache w)) /\
    posLinePairs (the_cache w') = posLinePairs (the_cache w) /\
    (queue (the_cache w') = queue (the_cache w) \/
     queue (the_cache w') = move_to_front l (queue (the_cache w))) /\
    files w' = (if altered ln0
                then default (files w)
                       (pwrite (files w) (file_desc (key ln0)) (data ln0) (pos (key ln0)))
                else files w) /\
    (altered ln0 = false -> stderr w' = stderr w).
Proof.
  intros Ht Hl Hld. unfold getCacheLine. cbv zeta. unfold key_pair at 1.
  cbn [file_desc pos]. rewrite Ht.
  set (c1 := mkCache (lines (the_cache w)) (queue (the_cache w))
               (posLinePairs (the_cache w)) (hits (the_cache w) + 1) (misses (the_cache w))).
  set (c2 := if decide (head (queue c1) = Some l) then c1 else _).
  assert (Hl2 : lines c2 = lines (the_cache w)) by (subst c2; by destruct (decide _)).
  assert (Ht2 : posLinePairs c2 = posLinePairs (the_cache w))
    by (subst c2; by destruct (decide _)).
  pose proof (queue_step l c1) as Hq2. fold c2 in Hq2. cbn [queue c1] in Hq2.
  destruct (altered ln0) eqn:Hal.
  - destruct (updateCacheLine_flush l (mkWorld c2 (files w) (stderr w)) ln0)
      as [err ->]; cbn [the_cache]; try done; [by rewrite Hl2|].
    eexists. split; [reflexivity|]. cbn [the_cache files stderr set_line lines posLinePairs queue].
    rewrite Hl2, Ht2. split_and!; try done.
  - rewrite (updateCacheLine_idle l (mkWorld c2 (files w) (stderr w)) ln0);
      cbn [the_cache]; try done; [|by rewrite Hl2].
    eexists. split; [reflexivity|]. cbn [the_cache files stderr].
    rewrite Hl2, Ht2. split_and!; try done.
    symmetry. apply list_insert_id. rewrite Hl. f_equal.
    destruct ln0; cbn in *; by subst.
Qed.

(** A miss: the last line of the queue gets the key and the bytes of
    the page; the table loses the old key of that line. *)
Lemma getCacheLine_miss w fd p l ln :
  posLinePairs (the_cache w) !! (fd, p - p mod CACHE_LINE_SIZE) = None ->
  last (queue (the_cache w)) = Some l -> lines (the_cache w) !! l = Some ln ->
  let k := mkKey fd (p - p mod CACHE_LINE_SIZE) in
  exists w',
    getCacheLine w fd p = (l, w') /\
    lines (the_cache w')
      = <[l := mkLine k true false (loaded_data (files w) k (data ln))]> (lines (the_cache w)) /\
    posLinePairs (the_cache w')
      = <[key_pair k := l]> (if loaded ln then delete (key_pair (key ln)) (posLinePairs (the_cache w))
                             else posLinePairs (the_cache w)) /\
    (queue (the_cache w') = queue (the_cache w) \/
     queue (the_cache w') = move_to_front l (queue (the_cache w))) /\
    files w' = files w.
Proof.
  intros Ht Hlast Hl k. unfold getCacheLine. cbv zeta. unfold key_pair at 1.
  cbn [file_desc pos]. rewrite Ht, Hlast.
  change (default 0%nat (Some l)) with l. rewrite (get_line_lookup _ _ _ Hl).
  set (c1 := mkCache _ _ _ _ _).
  set (c2 := if decide (head (queue c1) = Some l) then c1 else _).
  assert (Hl2 : lines c2 = lines c1) by (subst c2; by destruct (decide _)).
  assert (Ht2 : posLinePairs c2 = posLinePairs c1) by (subst c2; by destruct (decide _)).
  pose proof (queue_step l c1) as Hq2. fold c2 in Hq2. cbn [queue c1] in Hq2.
  apply lookup_lt_Some in Hl as Hlt.
  destruct (updateCacheLine_load l (mkWorld c2 (files w) (stderr w))
              (mkLine k false false (data ln))) as [err ->]; cbn [the_cache]; try done.
  { rewrite Hl2. subst c1. cbn [lines]. by rewrite list_lookup_insert_eq. }
  eexists. split; [reflexivity|].
  cbn [the_cache files stderr set_line lines posLinePairs queue key data].
  rewrite Hl2, Ht2. subst c1. cbn [lines posLinePairs].
  rewrite list_insert_insert_eq. split_and!; try done.
Qed.

Lemma page_start p :
  0 <= p -> page_key (mkKey 0 (p - p mod CACHE_LINE_SIZE)).
Proof.
  intros Hp. unfold page_key, CACHE_LINE_SIZE. cbn [pos].
  pose proof (Z.mod_pos_bound p 1024 ltac:(lia)).
  split; [Z.div_mod_to_equations; lia|].
  rewrite Zminus_mod, Z.mod_mod, Z.sub_diag by lia. done.
Qed.

Lemma key_of_pair k fd pg : key_pair k = (fd, pg) -> k = mkKey fd pg.
Proof. destruct k. unfold key_pair. cbn. by intros [= -> ->]. Qed.

(** [getCacheLine] keeps the cache well formed, and returns a loaded
    line without pending write, registered in the table under the key
    of the page; the other lines are not touched. *)
Lemma getCacheLine_wf w fd p :
  cache_wf (the_cache w) -> 0 <= p ->
  exists l w' ln,
    getCacheLine w fd p = (l, w') /\
    cache_wf (the_cache w') /\
    lines (the_cache w') !! l = Some ln /\
    key ln = mkKey fd (p - p mod CACHE_LINE_SIZE) /\
    loaded ln = true /\ altered ln = false /\
    posLinePairs (the_cache w') !! (fd, p - p mod CACHE_LINE_SIZE) = Some l /\
    (forall l', l' <> l -> lines (the_cache w') !! l' = lines (the_cache w) !! l').
Proof.
  intros Hwf Hp. pose proof Hwf as (Hne & Hq & Hlen & Htl & Hlt).
  set (k := mkKey fd (p - p mod CACHE_LINE_SIZE)).
  assert (Hpk : page_key k).
  { destruct (page_start p Hp) as [H1 H2]. split; done. }
  destruct (posLinePairs (the_cache w) !! (fd, p - p mod CACHE_LINE_SIZE)) as [l|] eqn:Ht.
  - destruct (Htl _ _ Ht) as (ln0 & Hl & Hk & Hld & Hpg).
    apply key_of_pair in Hk. fold k in Hk.
    destruct (getCacheLine_hit w fd p l ln0 Ht Hl Hld)
      as (w' & Hrun & Hlines & Htab & Hqueue & _).
    apply lookup_lt_Some in Hl as Hllt.
    exists l, w', (mkLine (key ln0) true false (data ln0)).
    split; [done|]. rewrite Hlines, Htab.
    split; [|split_and!; try done].
    + split_and!.
      * rewrite Hlines. intros Hnil. apply (f_equal length) in Hnil.
        rewrite length_insert in Hnil. by destruct (lines (the_cache w)).
      * rewrite Hlines, length_insert.
        by apply (cache_wf_queue _ l ln0 Hwf Hl).
      * rewrite Hlines. intros l' ln' [(<- & <- & _)|[_ Hl']]%list_lookup_insert_Some.
        -- cbn [data]. by apply (Hlen l).
        -- by apply (Hlen l').
      * rewrite Htab, Hlines. intros k' l' Hk'.
        destruct (Htl _ _ Hk') as (ln' & Hl' & Hkp & Hld' & Hpg').
        destruct (decide (l' = l)) as [->|Hne'].
        -- rewrite Hl in Hl'. injection Hl' as <-.
           eexists. rewrite list_lookup_insert_eq by done. split; [done|].
           cbn [key loaded]. done.
        -- exists ln'. by rewrite list_lookup_insert_ne.
      * rewrite Htab, Hlines.
        intros l' ln' [(<- & <- & _)|[Hne' Hl']]%list_lookup_insert_Some Hld'.
        -- cbn [key]. by apply (Hlt l ln0).
        -- by apply Hlt.
    + by rewrite list_lookup_insert_eq.
    + intros l' Hne'. by rewrite list_lookup_insert_ne.
  - destruct (cache_wf_last _ Hwf) as (l & ln & Hlast & Hl).
    destruct (getCacheLine_miss w fd p l ln Ht Hlast Hl)
      as (w' & Hrun & Hlines & Htab & Hqueue & _). fold k in Hlines, Htab.
    apply lookup_lt_Some in Hl as Hllt.
    set (ln1 := mkLine k true false (loaded_data (files w) k (data ln))) in *.
    set (table1 := if loaded ln then delete (key_pair (key ln)) (posLinePairs (the_cache w))
                   else posLinePairs (the_cache w)) in *.
    assert (Ht1 : forall k' l', table1 !! k' = Some l' ->
              posLinePairs (the_cache w) !! k' = Some l' /\ l' <> l).
    { intros k' l' Hk'. subst table1.
      destruct (loaded ln) eqn:Hld.
      - apply lookup_delete_Some in Hk' as [Hne' Hk']. split; [done|].
        intros ->. destruct (Htl _ _ Hk') as (ln' & Hl' & Hkp & _).
        rewrite Hl in Hl'. injection Hl' as <-. done.
      - split; [done|]. intros ->. destruct (Htl _ _ Hk') as (ln' & Hl' & _ & Hld' & _).
        rewrite Hl in Hl'. injection Hl' as <-. congruence. }
    exists l, w', ln1.
    split; [done|]. rewrite Hlines, Htab.
    split; [|split_and!; try done].
    + split_and!.
      * rewrite Hlines. intros Hnil. apply (f_equal length) in Hnil.
        rewrite length_insert in Hnil. by destruct (lines (the_cache w)).
      * rewrite Hlines, length_insert.
        by apply (cache_wf_queue _ l ln Hwf Hl).
      * rewrite Hlines. intros l' ln' [(<- & <- & _)|[_ Hl']]%list_lookup_insert_Some.
        -- cbn [data ln1]. apply length_loaded_data. by apply (Hlen l).
        -- by apply (Hlen l').
      * rewrite Htab, Hlines. intros k' l' [[<- <-]|[Hne' Hk']]%lookup_insert_Some.
        -- exists ln1. by rewrite list_lookup_insert_eq.
        -- destruct (Ht1 _ _ Hk') as [Hk'' Hnel].
           destruct (Htl _ _ Hk'') as (ln' & Hl' & Hrest).
           exists ln'. by rewrite list_lookup_insert_ne.
      * rewrite Htab, Hlines.
        intros l' ln' [(<- & <- & _)|[Hne' Hl']]%list_lookup_insert_Some Hld'.
        -- cbn [key ln1]. by rewrite lookup_insert_eq.
        -- pose proof (Hlt _ _ Hl' Hld') as Hk'.
           rewrite lookup_insert_ne.
           2:{ intros Heq. rewrite <- Heq in Hk'. unfold key_pair in Hk'. cbn in Hk'.
               congruence. }
           subst table1. destruct (loaded ln) eqn:Hld; [|done].
           rewrite lookup_delete_ne; [done|].
           intros Heq. rewrite <- Heq in Hk'. rewrite (Hlt _ _ Hl Hld) in Hk'. congruence.
    + by rewrite list_lookup_insert_eq.
    + unfold key_pair. cbn. by rewrite lookup_insert_eq.
    + intros l' Hne'. by rewrite list_lookup_insert_ne.
Qed.

(** On a clean cache [getCacheLine] changes no file, stays clean, and
    the line it returns agrees with the page. *)
Lemma getCacheLine_clean w fd p :
  cache_wf (the_cache w) -> cache_clean w -> 0 <= p ->
  exists l w' ln,
    getCacheLine w fd p = (l, w') /\
    cache_wf (the_cache w') /\ cache_clean w' /\ files w' = files w /\
    lines (the_cache w') !! l = Some ln /\
    key ln = mkKey fd (p - p mod CACHE_LINE_SIZE) /\
    length (data ln) = Z.to_nat CACHE_LINE_SIZE /\
    line_agrees (files w) ln.
Proof.
  intros Hwf Hcl Hp.
  destruct (getCacheLine_wf w fd p Hwf Hp)
    as (l & w' & ln & Hrun & Hwf' & Hl' & Hkey & Hld & Hal & Htab & Hother).
  pose proof Hwf as (Hne & Hq & Hlen & Htl & Hlt).
  pose proof Hwf' as (_ & _ & Hlen' & _).
  assert (Hpk : 0 <= p - p mod CACHE_LINE_SIZE).
  { destruct (page_start p Hp) as [H1 _]. done. }
  assert (Hfl : files w' = files w /\ line_agrees (files w) ln).
  { destruct (posLinePairs (the_cache w) !! (fd, p - p mod CACHE_LINE_SIZE)) as [l0|] eqn:Ht.
    - destruct (Htl _ _ Ht) as (ln0 & Hl0 & Hk0 & Hld0 & Hpg0).
      destruct (Hcl _ _ Hl0 Hld0) as [Hal0 Hag0].
      destruct (getCacheLine_hit w fd p l0 ln0 Ht Hl0 Hld0)
        as (w'' & Hrun' & Hlines & _ & _ & Hfiles & _).
      rewrite Hrun in Hrun'. injection Hrun' as <- <-.
      rewrite Hal0 in Hfiles. split; [done|].
      rewrite Hlines, list_lookup_insert_eq in Hl' by (by eapply lookup_lt_Some).
      injection Hl' as <-. exact Hag0.
    - destruct (cache_wf_last _ Hwf) as (l0 & ln0 & Hlast & Hl0).
      destruct (getCacheLine_miss w fd p l0 ln0 Ht Hlast Hl0)
        as (w'' & Hrun' & Hlines & _ & _ & Hfiles).
      rewrite Hrun in Hrun'. injection Hrun' as <- <-.
      split; [done|].
      rewrite Hlines, list_lookup_insert_eq in Hl' by (by eapply lookup_lt_Some).
      injection Hl' as <-. apply loaded_data_agrees; [by apply (Hlen l)|done]. }
  destruct Hfl as [Hfiles Hag].
  exists l, w', ln. split_and!; try done.
  - intros l' ln' Hl'' Hld'. rewrite Hfiles.
    destruct (decide (l' = l)) as [->|Hne'].
    + rewrite Hl' in Hl''. injection Hl'' as <-. done.
    + rewrite Hother in Hl'' by done. by apply (Hcl l').
  - by apply (Hlen' l).
Qed.

(** The bytes that [getStr] copies out of a line that agrees with its
    page. *)
Lemma line_bytes fs ln content (p : Z) (m : nat) :
  line_agrees fs ln -> fs !! file_desc (key ln) = Some content ->
  0 <= p -> pos (key ln) = p - p mod CACHE_LINE_SIZE ->
  (Z.to_nat (p mod CACHE_LINE_SIZE) + m <= Z.to_nat CACHE_LINE_SIZE)%nat ->
  (Z.to_nat p + m <= length content)%nat ->
  take m (drop (Z.to_nat (p mod CACHE_LINE_SIZE)) (data ln)) = take m (drop (Z.to_nat p) content).
Proof.
  intros Hag Hfs Hp Hpos Hm Hc.
  pose proof (Z.mod_pos_bound p CACHE_LINE_SIZE ltac:(unfold CACHE_LINE_SIZE; lia)) as Hmod.
  apply list_eq. intros i. rewrite !lookup_take, !lookup_drop.
  destruct (decide (i < m)%nat) as [Hi|_]; [|done].
  destruct (lookup_lt_is_Some_2 content (Z.to_nat p + i) ltac:(lia)) as [b Hb].
  rewrite Hb. apply (Hag content); [done| |lia].
  pose proof (Z.mod_le p CACHE_LINE_SIZE Hp ltac:(unfold CACHE_LINE_SIZE; lia)).
  rewrite Hpos. rewrite <- Hb. f_equal. lia.
Qed.

(** The read loop on a clean cache. *)
Lemma getStr_pages_clean fd content : forall fuel w p n,
  cache_wf (the_cache w) -> cache_clean w -> files w !! fd = Some content ->
  0 <= p -> 0 <= n -> p + n <= Z.of_nat (length content) ->
  (Z.to_nat n < fuel)%nat ->
  exists w',
    getStr_pages fuel w fd p n
    = Returned (take (Z.to_nat n) (drop (Z.to_nat p) content), w') /\
    cache_wf (the_cache w') /\ cache_clean w' /\ files w' = files w.
Proof.
  induction fuel as [|fuel IH]; intros w p n Hwf Hcl Hfs Hp Hn Hend Hfuel; [lia|].
  cbn [getStr_pages].
  destruct (getCacheLine_clean w fd p Hwf Hcl Hp)
    as (l & w1 & ln & -> & Hwf1 & Hcl1 & Hfiles1 & Hl & Hkey & Hlen & Hag).
  rewrite (get_line_lookup _ _ _ Hl).
  pose proof (Z.mod_pos_bound p CACHE_LINE_SIZE ltac:(unfold CACHE_LINE_SIZE; lia)) as Hmod.
  set (str_len := CACHE_LINE_SIZE - p mod CACHE_LINE_SIZE).
  assert (Hsl : str_len = CACHE_LINE_SIZE - p mod CACHE_LINE_SIZE) by done.
  assert (Hfs' : files w !! file_desc (key ln) = Some content) by (by rewrite Hkey).
  assert (Hpos : pos (key ln) = p - p mod CACHE_LINE_SIZE) by (by rewrite Hkey).
  destruct (Z.ltb_spec (Z.min str_len n) n) as [Hlt|Hge].
  - rewrite Z.min_l by lia.
    destruct (IH w1 (p + str_len) (n - str_len)) as (w2 & -> & Hwf2 & Hcl2 & Hfiles2);
      try done; try lia; [by rewrite Hfiles1|].
    cbn [mbind outcome_bind]. exists w2. split; [|split_and!; try done; congruence].
    f_equal. f_equal.
    rewrite (line_bytes (files w) ln content p (Z.to_nat str_len)); try done; try lia.
    replace (Z.to_nat (p + str_len)) with (Z.to_nat p + Z.to_nat str_len)%nat by lia.
    rewrite <- drop_drop, take_take_drop. f_equal. lia.
  - rewrite Z.min_r by lia. exists w1. split; [|done].
    f_equal. f_equal. apply (line_bytes (files w)); try done; lia.
Qed.

Lemma getCache_wf n : (0 < n)%nat -> cache_wf (getCache n).
Proof.
  intros Hn. unfold getCache. split_and!; cbn [lines queue posLinePairs].
  - destruct n; [lia|done].
  - by rewrite length_replicate.
  - intros l ln [-> _]%lookup_replicate. cbn. by rewrite length_replicate.
  - intros k l Hk. by rewrite lookup_empty in Hk.
  - intros l ln [-> _]%lookup_replicate. done.
Qed.

Lemma getCache_clean n fs err : cache_clean (mkWorld (getCache n) fs err).
Proof. intros l ln [-> _]%lookup_replicate. done. Qed.

(** The read loop keeps any well-formed cache well formed, and returns
    as many bytes as were asked for. *)
Lemma getStr_pages_wf fd : forall fuel w p n,
  cache_wf (the_cache w) -> 0 <= p -> 0 <= n -> (Z.to_nat n < fuel)%nat ->
  exists got w', getStr_pages fuel w fd p n = Returned (got, w') /\
    cache_wf (the_cache w') /\ length got = Z.to_nat n.
Proof.
  induction fuel as [|fuel IH]; intros w p n Hwf Hp Hn Hfuel; [lia|].
  cbn [getStr_pages].
  destruct (getCacheLine_wf w fd p Hwf Hp) as (l & w1 & ln & -> & Hwf1 & Hl & _).
  rewrite (get_line_lookup _ _ _ Hl).
  pose proof Hwf1 as (_ & _ & Hlen1 & _). pose proof (Hlen1 _ _ Hl) as Hdl.
  pose proof (Z.mod_pos_bound p CACHE_LINE_SIZE ltac:(unfold CACHE_LINE_SIZE; lia)) as Hmod.
  destruct (Z.ltb_spec (Z.min (CACHE_LINE_SIZE - p mod CACHE_LINE_SIZE) n) n) as [Hlt|Hge].
  - destruct (IH w1 (p + (CACHE_LINE_SIZE - p mod CACHE_LINE_SIZE))
                (n - (CACHE_LINE_SIZE - p mod CACHE_LINE_SIZE)) Hwf1)
      as (got & w2 & -> & Hwf2 & Hgot); [lia|lia|lia|].
    cbn [mbind outcome_bind]. eexists _, _. split; [done|]. split; [done|].
    rewrite length_app, length_take, length_drop, Hgot. lia.
  - eexists _, _. split; [done|]. split; [done|].
    rewrite length_take, length_drop. lia.
Qed.

(** Replacing a line by one with the same key and the same [loaded]
    flag, and as many bytes. *)
Lemma replace_line_wf c l ln ln' :
  cache_wf c -> lines c !! l = Some ln ->
  key ln' = key ln -> loaded ln' = loaded ln ->
  length (data ln') = Z.to_nat CACHE_LINE_SIZE ->
  cache_wf (set_line c l ln').
Proof.
  intros (Hne & Hq & Hlen & Htl & Hlt) Hl Hk Hld Hd.
  apply lookup_lt_Some in Hl as Hllt.
  unfold set_line. split_and!; cbn [lines queue posLinePairs].
  - intros Hnil. apply (f_equal length) in Hnil. rewrite length_insert in Hnil.
    by destruct (lines c).
  - by rewrite length_insert.
  - intros l' ln'' [(<- & <- & _)|[_ Hl']]%list_lookup_insert_Some; [done|by apply (Hlen l')].
  - intros k' l' Hk'. destruct (Htl _ _ Hk') as (ln'' & Hl' & Hkp & Hld' & Hpg).
    destruct (decide (l' = l)) as [->|Hne'].
    + rewrite Hl in Hl'. injection Hl' as <-.
      exists ln'. rewrite list_lookup_insert_eq by done. rewrite Hk, Hld. done.
    + exists ln''. by rewrite list_lookup_insert_ne.
  - intros l' ln'' [(<- & <- & _)|[Hne' Hl']]%list_lookup_insert_Some Hld'.
    + rewrite Hk. apply (Hlt l ln); [done|]. by rewrite <- Hld.
    + by apply Hlt.
Qed.

Lemma set_line_wf c l ln d :
  cache_wf c -> lines c !! l = Some ln -> loaded ln = true ->
  length d = Z.to_nat CACHE_LINE_SIZE ->
  cache_wf (set_line c l (mkLine (key ln) (loaded ln) true d)).
Proof. intros Hwf Hl _ Hd. by apply (replace_line_wf c l ln). Qed.

(** The write loop keeps a well-formed cache well formed, and returns. *)
Lemma setStr_pages_wf fd : forall fuel w p buffer n,
  cache_wf (the_cache w) -> 0 <= p -> 0 <= n <= Z.of_nat (length buffer) ->
  (Z.to_nat n < fuel)%nat ->
  exists w', setStr_pages fuel w fd p buffer n = Returned w' /\ cache_wf (the_cache w').
Proof.
  induction fuel as [|fuel IH]; intros w p buffer n Hwf Hp Hbuf Hfuel; [lia|].
  cbn [setStr_pages].
  destruct (getCacheLine_wf w fd p Hwf Hp)
    as (l & w1 & ln & -> & Hwf1 & Hl & _ & Hld & _).
  rewrite (get_line_lookup _ _ _ Hl).
  pose proof (Z.mod_pos_bound p CACHE_LINE_SIZE ltac:(unfold CACHE_LINE_SIZE; lia)) as Hmod.
  pose proof Hwf1 as (_ & _ & Hlen1 & _). pose proof (Hlen1 _ _ Hl) as Hdl.
  set (str_len := CACHE_LINE_SIZE - p mod CACHE_LINE_SIZE).
  assert (Hsl : str_len = CACHE_LINE_SIZE - p mod CACHE_LINE_SIZE) by done.
  set (d := _ ++ _ ++ _).
  assert (Hd : length d = Z.to_nat CACHE_LINE_SIZE).
  { subst d. rewrite !length_app, !length_take, length_drop. lia. }
  assert (Hwf2 : cache_wf (set_line (the_cache w1) l (mkLine (key ln) (loaded ln) true d))).
  { by apply set_line_wf. }
  destruct (Z.ltb_spec (Z.min str_len n) n) as [Hlt|Hge].
  - destruct (IH (mkWorld (set_line (the_cache w1) l (mkLine (key ln) (loaded ln) true d))
                    (files w1) (stderr w1))
                (p + str_len) (drop (Z.to_nat str_len) buffer) (n - str_len))
      as (w' & -> & Hwf'); try done; try lia.
    + rewrite length_drop. lia.
    + by exists w'.
  - by eexists.
Qed.

(** X21: on a well-formed cache (a new cache with at least one line is
    one) [getStr] from any position returns as many bytes as asked for
    and [setStr] of a buffer that holds the bytes to write returns;
    both leave the cache well formed: every line of 1024 bytes, the
    queue listing every line once, the table mapping exactly the keys
    of the loaded lines. *)
Theorem cache_stays_well_formed w fd p buffer n :
  cache_wf (the_cache w) -> 0 <= p -> 0 <= n <= Z.of_nat (length buffer) ->
  (exists got w1, getStr w fd p n = Returned (got, w1) /\
     cache_wf (the_cache w1) /\ length got = Z.to_nat n) /\
  (exists w2, setStr w fd p buffer n = Returned w2 /\ cache_wf (the_cache w2)).
Proof.
  intros Hwf Hp Hn. split.
  - apply getStr_pages_wf; try done; lia.
  - apply setStr_pages_wf; try done. lia.
Qed.

Lemma cache_stays_well_formed_witness :
  exists w2, setStr (mkWorld (getCache 2) {[ 3 := replicate 2048 97 ]} []) 3 1020
               [1; 2; 3; 4; 5; 6; 7; 8] 8 = Returned w2 /\
             cache_wf (the_cache w2).
Proof.
  destruct (cache_stays_well_formed (mkWorld (getCache 2) {[ 3 := replicate 2048 97 ]} [])
              3 1020 [1; 2; 3; 4; 5; 6; 7; 8] 8) as [_ H].
  - apply getCache_wf. lia.
  - lia.
  - cbn. lia.
  - exact H.
Defined.

(** X22: on a well-formed cache that is clean ([cache_clean]: no
    loaded line has a pending write, and every loaded line holds the
    bytes of its file as far as the file reaches; a new cache is clean),
    [getStr] of a range that lies inside the file returns the bytes of
    the file, whatever the pages it spans and whatever lines it has to
    recycle; it changes no file and leaves the cache well formed and
    clean. *)
Theorem getStr_returns_file_bytes w fd content p n :
  cache_wf (the_cache w) -> cache_clean w -> files w !! fd = Some content ->
  0 <= p -> 0 <= n -> p + n <= Z.of_nat (length content) ->
  exists w',
    getStr w fd p n = Returned (take (Z.to_nat n) (drop (Z.to_nat p) content), w') /\
    files w' = files w /\ cache_wf (the_cache w') /\ cache_clean w'.
Proof.
  intros Hwf Hcl Hfs Hp Hn Hend.
  destruct (getStr_pages_clean fd content (S (Z.to_nat n)) w p n)
    as (w' & Hrun & Hwf' & Hcl' & Hfiles); try done; [lia|].
  by exists w'.
Qed.

Lemma getStr_returns_file_bytes_witness :
  exists w',
    getStr (mkWorld (getCache 1) {[ 3 := replicate 1500 97 ++ [1; 2; 3] ]} []) 3 1022 480
    = Returned (replicate 478 97 ++ [1; 2], w').
Proof.
  destruct (getStr_returns_file_bytes
              (mkWorld (getCache 1) {[ 3 := replicate 1500 97 ++ [1; 2; 3] ]} [])
              3 (replicate 1500 97 ++ [1; 2; 3]) 1022 480) as (w' & Hrun & _).
  - apply getCache_wf. lia.
  - apply getCache_clean.
  - reflexivity.
  - lia.
  - lia.
  - cbn. lia.
  - exists w'. exact Hrun.
Defined.

Lemma pwrite_dom fs fd buf p fd' :
  is_Some (fs !! fd') -> is_Some (default fs (pwrite fs fd buf p) !! fd').
Proof.
  intros Hfd'. unfold pwrite. destruct (fs !! fd) as [c|] eqn:Hc; cbn; [|done].
  destruct (decide (fd = fd')) as [->|Hne].
  - rewrite lookup_insert_eq. by eexists.
  - by rewrite lookup_insert_ne.
Qed.

(** [getCacheLine] removes no file. *)
Lemma getCacheLine_files_dom w fd p fd' :
  cache_wf (the_cache w) -> is_Some (files w !! fd') ->
  is_Some (files (getCacheLine w fd p).2 !! fd').
Proof.
  intros Hwf Hfd'. pose proof Hwf as (_ & _ & _ & Htl & _).
  destruct (posLinePairs (the_cache w) !! (fd, p - p mod CACHE_LINE_SIZE)) as [l|] eqn:Ht.
  - destruct (Htl _ _ Ht) as (ln0 & Hl & _ & Hld & _).
    destruct (getCacheLine_hit w fd p l ln0 Ht Hl Hld) as (w' & -> & _ & _ & _ & Hf & _).
    cbn [snd]. rewrite Hf. destruct (altered ln0); [by apply pwrite_dom|done].
  - destruct (cache_wf_last _ Hwf) as (l & ln & Hlast & Hl).
    destruct (getCacheLine_miss w fd p l ln Ht Hlast Hl) as (w' & -> & _ & _ & _ & Hf).
    cbn [snd]. by rewrite Hf.
Qed.

(** The bytes of a file where a buffer was written. *)
Lemma write_at_inside content pos buf (i n : nat) :
  (i + n <= length buf)%nat ->
  take n (drop (pos + i) (write_at content pos buf)) = take n (drop i buf).
Proof.
  intros Hin. unfold write_at.
  assert (Hpre : length (take pos content ++ replicate (pos - length content) 0) = pos).
  { rewrite length_app, length_take, length_replicate. lia. }
  rewrite (app_assoc (take pos content)).
  rewrite <- drop_drop, (drop_app_length' _ _ pos (eq_sym Hpre)).
  rewrite drop_app_le by lia. rewrite take_app_le; [done|]. rewrite length_drop. lia.
Qed.

(** The line after [setStr] copied [n] bytes to offset [a]. *)
Lemma take_drop_patch (old buf : list Z) (a n : nat) :
  (a + n <= length old)%nat -> (n <= length buf)%nat ->
  take n (drop a (take a old ++ take n buf ++ drop (a + n) old)) = take n buf.
Proof.
  intros Ha Hn.
  rewrite (drop_app_length' (take a old)) by (rewrite length_take; lia).
  rewrite take_app_length'; [done|]. rewrite length_take. lia.
Qed.

(** X23: on a well-formed cache, bytes written with [setStr] inside
    one page are what the next [getStr] of the same range returns; that
    read finds the altered line in the table and writes the line to
    its file, so that a file that exists holds the bytes afterwards. *)
Theorem setStr_then_getStr w fd p buffer n :
  cache_wf (the_cache w) -> 0 <= p -> 0 <= n <= Z.of_nat (length buffer) ->
  p mod CACHE_LINE_SIZE + n <= CACHE_LINE_SIZE ->
  exists w1 w2,
    setStr w fd p buffer n = Returned w1 /\
    getStr w1 fd p n = Returned (take (Z.to_nat n) buffer, w2) /\
    cache_wf (the_cache w2) /\
    (is_Some (files w !! fd) ->
     exists content, files w2 !! fd = Some content /\
       take (Z.to_nat n) (drop (Z.to_nat p) content) = take (Z.to_nat n) buffer).
Proof.
  intros Hwf Hp Hn Hpage.
  pose proof (Z.mod_pos_bound p CACHE_LINE_SIZE ltac:(unfold CACHE_LINE_SIZE; lia)) as Hmod.
  pose proof (Z.mod_le p CACHE_LINE_SIZE Hp ltac:(unfold CACHE_LINE_SIZE; lia)) as Hmle.
  unfold setStr, getStr. cbn [setStr_pages getStr_pages].
  pose proof (getCacheLine_files_dom w fd p fd Hwf) as Hdom.
  destruct (getCacheLine_wf w fd p Hwf Hp)
    as (l & w1 & ln & Hrun1 & Hwf1 & Hl & Hkey & Hld & _ & Htab & _).
  rewrite Hrun1 in Hdom |- *. cbn [snd] in Hdom.
  rewrite (get_line_lookup _ _ _ Hl).
  pose proof Hwf1 as (_ & _ & Hlen1 & _). pose proof (Hlen1 _ _ Hl) as Hdl.
  rewrite Z.min_r by lia.
  destruct (Z.ltb_spec n n) as [?|_]; [lia|].
  set (d := take (Z.to_nat (p mod CACHE_LINE_SIZE)) (data ln) ++ take (Z.to_nat n) buffer
            ++ drop (Z.to_nat (p mod CACHE_LINE_SIZE + n)) (data ln)).
  assert (Hd : length d = Z.to_nat CACHE_LINE_SIZE).
  { subst d. rewrite !length_app, !length_take, length_drop. lia. }
  set (ln2 := mkLine (key ln) (loaded ln) true d).
  set (w2 := mkWorld (set_line (the_cache w1) l ln2) (files w1) (stderr w1)).
  assert (Hwf2 : cache_wf (the_cache w2)) by (by apply set_line_wf).
  assert (Hl2 : lines (the_cache w2) !! l = Some ln2).
  { cbn. apply list_lookup_insert_eq. by eapply lookup_lt_Some. }
  assert (Ht2 : posLinePairs (the_cache w2) !! (fd, p - p mod CACHE_LINE_SIZE) = Some l)
    by done.
  destruct (getCacheLine_hit w2 fd p l ln2 Ht2 Hl2 Hld)
    as (w3 & Hrun3 & Hlines3 & _ & _ & Hfiles3 & _).
  destruct (getCacheLine_wf w2 fd p Hwf2 Hp) as (l' & w3' & ln3 & Hrun3' & Hwf3 & _).
  rewrite Hrun3 in Hrun3'. injection Hrun3' as <- <-.
  exists w2, w3. split; [done|]. rewrite Hrun3.
  assert (Hl3 : lines (the_cache w3) !! l = Some (mkLine (key ln2) true false (data ln2))).
  { rewrite Hlines3. apply list_lookup_insert_eq. by eapply lookup_lt_Some. }
  rewrite (get_line_lookup _ _ _ Hl3). cbn [data ln2].
  assert (Hgot : take (Z.to_nat n) (drop (Z.to_nat (p mod CACHE_LINE_SIZE)) d)
                 = take (Z.to_nat n) buffer).
  { subst d.
    replace (Z.to_nat (p mod CACHE_LINE_SIZE + n))
      with (Z.to_nat (p mod CACHE_LINE_SIZE) + Z.to_nat n)%nat by lia.
    apply take_drop_patch; lia. }
  rewrite Hgot. split; [done|]. split; [done|].
  intros Hfd. destruct (Hdom Hfd) as [c1 Hc1].
  cbn [altered ln2 key data file_desc pos files w2] in Hfiles3.
  rewrite Hkey in Hfiles3. cbn [file_desc pos] in Hfiles3.
  unfold pwrite in Hfiles3. rewrite Hc1 in Hfiles3. cbn in Hfiles3.
  eexists. rewrite Hfiles3, lookup_insert_eq. split; [done|].
  replace (Z.to_nat p)
    with (Z.to_nat (p - p mod CACHE_LINE_SIZE) + Z.to_nat (p mod CACHE_LINE_SIZE))%nat by lia.
  rewrite write_at_inside by lia. exact Hgot.
Qed.

Lemma setStr_then_getStr_witness :
  exists w1 w2,
    setStr (mkWorld (getCache 1) {[ 3 := replicate 2048 97 ]} []) 3 1030 [7; 8; 9] 3
      = Returned w1 /\
    getStr w1 3 1030 3 = Returned ([7; 8; 9], w2).
Proof.
  destruct (setStr_then_getStr (mkWorld (getCache 1) {[ 3 := replicate 2048 97 ]} [])
              3 1030 [7; 8; 9] 3) as (w1 & w2 & H1 & H2 & _).
  - apply getCache_wf. lia.
  - lia.
  - cbn. lia.
  - vm_compute. discriminate.
  - by exists w1, w2.
Defined.

(** [updateCacheLine] on a loaded line of a well-formed cache: the
    line is written out if it has a pending write and keeps its key
    and bytes. *)
Lemma updateCacheLine_loaded w l ln :
  cache_wf (the_cache w) -> lines (the_cache w) !! l = Some ln -> loaded ln = true ->
  cache_wf (the_cache (updateCacheLine l w)) /\
  posLinePairs (the_cache (updateCacheLine l w)) = posLinePairs (the_cache w) /\
  lines (the_cache (updateCacheLine l w))
    = <[l := mkLine (key ln) true false (data ln)]> (lines (the_cache w)) /\
  files (updateCacheLine l w)
    = (if altered ln
       then default (files w)
              (pwrite (files w) (file_desc (key ln)) (data ln) (pos (key ln)))
       else files w).
Proof.
  intros Hwf Hl Hld. pose proof Hwf as (_ & _ & Hlen & _).
  destruct (altered ln) eqn:Hal.
  - destruct (updateCacheLine_flush l w ln Hl Hld Hal) as [err ->].
    cbn [the_cache files]. split_and!; try done.
    apply (replace_line_wf _ l ln); cbn [key loaded data];
      first [done | by rewrite Hld | by apply (Hlen l)].
  - rewrite (updateCacheLine_idle l w ln Hl Hld Hal). split_and!; try done.
    symmetry. apply list_insert_id. rewrite Hl. f_equal.
    destruct ln; cbn in *; by subst.
Qed.

(** Writing a page leaves the bytes of another page of the file as
    they are. *)
Lemma write_at_other content (pa pb : nat) buf :
  length buf = Z.to_nat CACHE_LINE_SIZE ->
  (pa + Z.to_nat CACHE_LINE_SIZE <= pb \/ pb + Z.to_nat CACHE_LINE_SIZE <= pa)%nat ->
  (pa + Z.to_nat CACHE_LINE_SIZE <= length content)%nat ->
  take (Z.to_nat CACHE_LINE_SIZE) (drop pa (write_at content pb buf))
  = take (Z.to_nat CACHE_LINE_SIZE) (drop pa content).
Proof.
  intros Hbuf Hsep Hlen. set (C := Z.to_nat CACHE_LINE_SIZE) in *.
  apply list_eq. intros i. rewrite !lookup_take, !lookup_drop.
  destruct (decide (i < C)%nat) as [Hi|_]; [|done].
  unfold write_at. destruct Hsep as [Hlo|Hhi].
  - rewrite lookup_app_l by (rewrite length_take; lia).
    by rewrite lookup_take_lt by lia.
  - replace (pb - length content)%nat with 0%nat by lia. cbn [replicate app].
    rewrite lookup_app_r by (rewrite length_take; lia).
    rewrite length_take, Nat.min_l by lia.
    rewrite lookup_app_r by lia.
    rewrite lookup_drop. f_equal. lia.
Qed.

Lemma pages_apart (a b : Z) :
  0 <= a -> 0 <= b -> a mod CACHE_LINE_SIZE = 0 -> b mod CACHE_LINE_SIZE = 0 -> a <> b ->
  (Z.to_nat a + Z.to_nat CACHE_LINE_SIZE <= Z.to_nat b \/
   Z.to_nat b + Z.to_nat CACHE_LINE_SIZE <= Z.to_nat a)%nat.
Proof.
  unfold CACHE_LINE_SIZE. intros Ha Hb Hma Hmb Hne.
  apply Z.mod_divide in Hma as [qa ->]; [|lia]. apply Z.mod_divide in Hmb as [qb ->]; [|lia].
  lia.
Qed.

(** The fold of [flushCache] over entries of the table. *)
Lemma flush_fold : forall (L : list (Z * Z * nat)) w,
  cache_wf (the_cache w) ->
  (forall k l, (k, l) ∈ L -> posLinePairs (the_cache w) !! k = Some l) ->
  let w' := foldr (fun '(_, l) w' => updateCacheLine l w') w L in
  cache_wf (the_cache w') /\
  posLinePairs (the_cache w') = posLinePairs (the_cache w) /\
  length (lines (the_cache w')) = length (lines (the_cache w)) /\
  (forall l ln, lines (the_cache w) !! l = Some ln ->
     exists ln', lines (the_cache w') !! l = Some ln' /\
       key ln' = key ln /\ data ln' = data ln /\ loaded ln' = loaded ln /\
       altered ln' = (if decide (l ∈ map snd L) then false else altered ln)) /\
  (forall fd, is_Some (files w !! fd) -> is_Some (files w' !! fd)) /\
  (forall l ln, l ∈ map snd L -> lines (the_cache w) !! l = Some ln ->
     altered ln = true -> is_Some (files w !! file_desc (key ln)) ->
     exists content, files w' !! file_desc (key ln) = Some content /\
       take (Z.to_nat CACHE_LINE_SIZE) (drop (Z.to_nat (pos (key ln))) content) = data ln).
Proof.
  induction L as [|[k l] L IH]; intros w Hwf HL; cbv zeta.
  - cbn [foldr map]. split_and!; try done.
    + intros l ln Hl. exists ln. split_and!; try done.
      all: by rewrite decide_False by apply not_elem_of_nil.
    + intros l ln Hl. by apply elem_of_nil in Hl.
  - cbn [foldr]. set (wm := foldr _ w L).
    destruct (IH w Hwf) as (Hwfm & Htabm & Hlengthm & Hlinesm & Hdomm & Htargetm).
    { intros k' l' Hin. apply HL. by right. }
    fold wm in Hwfm, Htabm, Hlinesm, Hdomm, Htargetm.
    pose proof Hwf as (_ & _ & Hlen & Htl & Hlt).
    destruct (Htl k l (HL k l ltac:(left))) as (ln0 & Hl0 & Hk0 & Hld0 & Hpg0).
    destruct (Hlinesm l ln0 Hl0) as (lnm & Hlm & Hkm & Hdm & Hldm & Halm).
    destruct (updateCacheLine_loaded wm l lnm Hwfm Hlm ltac:(congruence))
      as (Hwf' & Htab' & Hlines' & Hfiles').
    apply lookup_lt_Some in Hlm as Hllt.
    split_and!.
    + done.
    + congruence.
    + by rewrite Hlines', length_insert.
    + intros l2 ln2 Hl2. destruct (Hlinesm l2 ln2 Hl2) as (ln2m & Hl2m & Hk2 & Hd2 & Hld2 & Hal2).
      rewrite Hlines'. cbn [map snd]. destruct (decide (l2 = l)) as [->|Hne].
      * rewrite Hl0 in Hl2. injection Hl2 as <-.
        eexists. rewrite list_lookup_insert_eq by done. split; [done|]. cbn.
        rewrite decide_True by set_solver. split_and!; congruence.
      * exists ln2m. rewrite list_lookup_insert_ne by done. split_and!; try done.
        rewrite Hal2. destruct (decide (l2 ∈ map snd L)) as [Hin|Hnin].
        -- by rewrite decide_True by set_solver.
        -- by rewrite decide_False by set_solver.
    + intros fd Hfd. rewrite Hfiles'. apply Hdomm in Hfd.
      destruct (altered lnm); [by apply pwrite_dom|done].
    + intros l2 ln2 Hin2 Hl2 Hal2 Hfd2. cbn [map snd] in Hin2. rewrite Hfiles'.
      destruct (altered lnm) eqn:Halm'.
      * (* line [l] is written out now *)
        destruct (decide (l2 = l)) as [->|Hne].
        -- rewrite Hl0 in Hl2. injection Hl2 as <-.
           destruct (Hdomm _ Hfd2) as [c Hc].
           rewrite Hkm, Hdm. unfold pwrite. rewrite Hc. cbn.
           eexists. rewrite lookup_insert_eq. split; [done|].
           pose proof (write_at_inside c (Z.to_nat (pos (key ln0))) (data ln0) 0
                         (Z.to_nat CACHE_LINE_SIZE)
                         ltac:(rewrite (Hlen l ln0 Hl0); lia)) as Hw.
           rewrite Nat.add_0_r in Hw. rewrite Hw.
           cbn [drop]. apply take_ge. by rewrite (Hlen l ln0 Hl0).
        -- assert (Hin2' : l2 ∈ map snd L) by set_solver.
           destruct (Htargetm l2 ln2 Hin2' Hl2 Hal2 Hfd2) as (c2 & Hc2 & Hbytes).
           rewrite Hkm, Hdm. unfold pwrite.
           destruct (files wm !! file_desc (key ln0)) as [c0|] eqn:Hc0; cbn; [|by exists c2].
           destruct (decide (file_desc (key ln0) = file_desc (key ln2))) as [Hfd|Hfd].
           ++ rewrite Hfd, lookup_insert_eq. rewrite Hfd, Hc2 in Hc0. injection Hc0 as <-.
              eexists. split; [done|]. rewrite <- Hbytes.
              assert (Hin2'' : exists k2, (k2, l2) ∈ L).
              { apply list_elem_of_fmap in Hin2' as ([k2 l2'] & -> & Hin). by exists k2. }
              destruct Hin2'' as [k2 Hk2in].
              destruct (Htl k2 l2 (HL k2 l2 ltac:(by right)))
                as (ln2' & Hl2' & Hk2' & Hld2' & Hpg2').
              rewrite Hl2 in Hl2'. injection Hl2' as <-.
              destruct Hpg0 as [Hpa Hma]. destruct Hpg2' as [Hpb Hmb].
              apply write_at_other.
              ** by apply (Hlen l ln0).
              ** apply pages_apart; try done. intros Hpos.
                 apply Hne. pose proof (Hlt _ _ Hl0 Hld0) as Ht0.
                 pose proof (Hlt _ _ Hl2 Hld2') as Ht2.
                 assert (Hkk : key_pair (key ln2) = key_pair (key ln0)).
                 { unfold key_pair. by rewrite Hfd, Hpos. }
                 rewrite Hkk in Ht2. congruence.
              ** apply (f_equal length) in Hbytes.
                 rewrite length_take, length_drop, (Hlen l2 ln2 Hl2) in Hbytes.
                 assert (0 < Z.to_nat CACHE_LINE_SIZE)%nat by (unfold CACHE_LINE_SIZE; lia).
                 lia.
           ++ rewrite lookup_insert_ne by done. by exists c2.
      * (* line [l] has nothing pending *)
        destruct (decide (l2 ∈ map snd L)) as [Hin2'|Hnin]; [by apply (Htargetm l2)|].
        assert (l2 = l) as -> by set_solver.
        rewrite Hl0 in Hl2. injection Hl2 as <-. exfalso.
        rewrite decide_False in Halm by done. congruence.
Qed.

(** X24: [flushCache] on a well-formed cache leaves no loaded line with
    a pending write, and every line that had one is then in its file
    (when the file exists): the 1024 bytes of the file at the position
    of the line are the bytes of the line.  The cache stays well
    formed. *)
Theorem flushCache_writes_pending w :
  cache_wf (the_cache w) ->
  cache_wf (the_cache (flushCache w)) /\
  (forall l ln, lines (the_cache (flushCache w)) !! l = Some ln ->
     loaded ln = true -> altered ln = false) /\
  (forall l ln, lines (the_cache w) !! l = Some ln ->
     loaded ln = true -> altered ln = true ->
     is_Some (files w !! file_desc (key ln)) ->
     exists content, files (flushCache w) !! file_desc (key ln) = Some content /\
       take (Z.to_nat CACHE_LINE_SIZE) (drop (Z.to_nat (pos (key ln))) content) = data ln).
Proof.
  intros Hwf. pose proof Hwf as (_ & _ & _ & _ & Hlt).
  destruct (flush_fold (map_to_list (posLinePairs (the_cache w))) w Hwf)
    as (Hwf' & _ & Hlength & Hlines & _ & Htarget).
  { intros k l Hin. by apply elem_of_map_to_list in Hin. }
  assert (Hin : forall l ln, lines (the_cache w) !! l = Some ln -> loaded ln = true ->
            l ∈ map snd (map_to_list (posLinePairs (the_cache w)))).
  { intros l ln Hl Hld. apply list_elem_of_fmap.
    exists (key_pair (key ln), l). split; [done|].
    apply elem_of_map_to_list. by apply Hlt. }
  unfold flushCache. split_and!.
  - done.
  - intros l ln' Hl' Hld'.
    destruct (lookup_lt_is_Some_2 (lines (the_cache w)) l) as [ln Hl].
    { rewrite <- Hlength. by eapply lookup_lt_Some. }
    destruct (Hlines l ln Hl) as (ln'' & Hl'' & _ & _ & Hld'' & Hal'').
    rewrite Hl' in Hl''. injection Hl'' as <-.
    rewrite Hal''. rewrite decide_True; [done|].
    apply (Hin l ln); [done|]. congruence.
  - intros l ln Hl Hld Hal Hfd. apply (Htarget l ln); try done. by apply (Hin l ln).
Qed.

Lemma flushCache_writes_pending_witness :
  exists w1,
    setStr (mkWorld (getCache 1) {[ 3 := replicate 2048 97 ]} []) 3 0 [88] 1 = Returned w1 /\
    cache_wf (the_cache (flushCache w1)).
Proof.
  destruct (setStr_pages_wf 3 2 (mkWorld (getCache 1) {[ 3 := replicate 2048 97 ]} [])
              0 [88] 1) as (w1 & Hrun & Hwf1).
  - apply getCache_wf. lia.
  - lia.
  - cbn. lia.
  - lia.
  - exists w1. split; [exact Hrun|]. by apply (flushCache_writes_pending w1).
Defined.

End CacheInvariants.

(** ** user.c: [areUsersFriends] on the list that [calculateFriends] builds *)

Section FriendsLookup.
Import Utils User.

Lemma sorted_asc_cons_inv x (l : list Z) :
  sorted_asc (x :: l) -> Forall (fun y => x <= y) l /\ sorted_asc l.
Proof.
  intros Hs. split.
  - apply Forall_forall. intros y Hy. apply list_elem_of_lookup in Hy as [i Hi].
    apply (Hs 0%nat (S i) x y); [lia|done|done].
  - intros i j a b Hij Ha Hb. apply (Hs (S i) (S j) a b); [lia|done|done].
Qed.

Lemma sorted_asc_cons x (l : list Z) :
  Forall (fun y => x <= y) l -> sorted_asc l -> sorted_asc (x :: l).
Proof.
  intros Hx Hs i j a b Hij Ha Hb.
  destruct i as [|i], j as [|j]; cbn in Ha, Hb.
  - injection Ha as <-. injection Hb as <-. lia.
  - injection Ha as <-. rewrite Forall_forall in Hx. apply Hx.
    by eapply list_elem_of_lookup_2.
  - lia.
  - apply (Hs i j a b); [lia|done|done].
Qed.

Lemma sorted_asc_filter (P : Z -> Prop) `{!forall x, Decision (P x)} (l : list Z) :
  sorted_asc l -> sorted_asc (filter P l).
Proof.
  induction l as [|x l IH]; [done|]. intros Hs.
  apply sorted_asc_cons_inv in Hs as [Hx Hs].
  destruct (decide (P x)).
  - rewrite filter_cons_True by done. apply sorted_asc_cons; [|by apply IH].
    apply Forall_forall. intros y Hy. rewrite Forall_forall in Hx. apply Hx.
    by apply list_elem_of_filter in Hy as [_ Hy].
  - rewrite filter_cons_False by done. by apply IH.
Qed.

(** X25: when the longer of the two lists of a user is in ascending
    order, the friends list that [calculateFriends] builds is in
    ascending order too, and [areUsersFriends] on the user then returns
    true exactly for the ids that are in both lists. *)
Theorem areUsersFriends_after_calculateFriends u b_id :
  followers u = Z.of_nat (length (follower_list u)) ->
  following u = Z.of_nat (length (following_list u)) ->
  Forall (fun x => 0 <= x < 2^31) (follower_list u) ->
  Forall (fun x => 0 <= x < 2^31) (following_list u) ->
  followers u <= 2^30 -> following u <= 2^30 ->
  sorted_asc (if followers u <? following u then following_list u else follower_list u) ->
  exists u' r,
    calculateFriends u = Returned u' /\
    sorted_asc (friends_list u') /\
    areUsersFriends u' b_id = Returned r /\
    (r = true <-> b_id ∈ follower_list u /\ b_id ∈ following_list u).
Proof.
  intros Hfs Hfg Hrs Hrg Hls Hlg Hsorted.
  destruct (calculateFriends_spec u Hfs Hfg Hrs Hrg Hls Hlg)
    as (u' & Hrun & Hmem & Hlist & Hlen & _).
  assert (Hasc : sorted_asc (friends_list u')).
  { rewrite Hlist. destruct (followers u <? following u); by apply sorted_asc_filter. }
  assert (Hshort : Z.of_nat (length (friends_list u')) <= 2^30).
  { rewrite Hlist. destruct (followers u <? following u).
    - pose proof (length_filter (fun x => x ∈ follower_list u) (following_list u)). lia.
    - pose proof (length_filter (fun x => x ∈ following_list u) (follower_list u)). lia. }
  destruct (containedInSortedArray_spec (friends_list u') b_id Hasc Hshort) as (r & Hr & Hiff).
  exists u', r. split; [exact Hrun|]. split; [exact Hasc|]. split.
  - unfold areUsersFriends. rewrite Hlen, Nat2Z.id. exact Hr.
  - rewrite Hiff. apply Hmem.
Qed.

Lemma areUsersFriends_after_calculateFriends_witness :
  exists u' r,
    calculateFriends (mkUser 2 3 [5; 1] [1; 2; 5] 0 []) = Returned u' /\
    sorted_asc (friends_list u') /\
    areUsersFriends u' 5 = Returned r /\
    (r = true <-> 5 ∈ [5; 1] /\ 5 ∈ [1; 2; 5]).
Proof.
  apply (areUsersFriends_after_calculateFriends (mkUser 2 3 [5; 1] [1; 2; 5] 0 []) 5).
  - reflexivity.
  - reflexivity.
  - repeat constructor; lia.
  - repeat constructor; lia.
  - cbn. lia.
  - cbn. lia.
  - cbn. apply sorted_asc_cons; [repeat constructor; lia|].
    apply sorted_asc_cons; [repeat constructor; lia|].
    apply sorted_asc_cons; [constructor|]. intros i j a b _ Ha. by destruct i.
Defined.

End FriendsLookup.

(** ** format.c: members written by [writeBinaryMember] and read back *)

Section MemberRoundTrip.
Import Utils Date Format.

Lemma getUncompactedDate_getCompactedDate d :
  valid_range d -> getUncompactedDate (getCompactedDate d) = d.
Proof.
  intros H. pose proof (getCompactedDate_value d H) as Hv.
  pose proof (wrap32_mod ((year d - 2005) * 2^26 + month d * 2^22 + day d * 2^17
            + hour d * 2^12 + minute d * 2^6 + second d)) as Hm.
  rewrite <- Hv in Hm.
  pose proof (wrap32_range ((year d - 2005) * 2^26 + month d * 2^22 + day d * 2^17
            + hour d * 2^12 + minute d * 2^6 + second d)) as Hr.
  rewrite <- Hv in Hr. clear Hv.
  set (c := getCompactedDate d) in *. clearbody c.
  unfold valid_range in H. unfold int_range in Hr.
  assert (Hu : c mod 2^32 = (year d - 2005) * 2^26 + month d * 2^22 + day d * 2^17
            + hour d * 2^12 + minute d * 2^6 + second d).
  { rewrite Hm. apply Z.mod_small. lia. }
  unfold getUncompactedDate.
  change 63 with (2^6 - 1). change 31 with (2^5 - 1). change 15 with (2^4 - 1).
  rewrite !land_low by lia. rewrite !Z.shiftr_div_pow2 by lia.
  destruct d as [y mo da h mi s]; simpl in *.
  assert (c mod 2^6 = s) by (revert Hu; clear -H Hr; Z.div_mod_to_equations; lia).
  assert (c / 2^6 mod 2^6 = mi) by (revert Hu; clear -H Hr; Z.div_mod_to_equations; lia).
  assert (c / 2^12 mod 2^5 = h) by (revert Hu; clear -H Hr; Z.div_mod_to_equations; lia).
  assert (c / 2^17 mod 2^5 = da) by (revert Hu; clear -H Hr; Z.div_mod_to_equations; lia).
  assert (c / 2^22 mod 2^4 = mo) by (revert Hu; clear -H Hr; Z.div_mod_to_equations; lia).
  assert (c / 2^26 mod 2^6 = y - 2005) by (revert Hu; clear -H Hr; Z.div_mod_to_equations; lia).
  rewrite wrap32_small by (unfold int_range; lia).
  f_equal; lia.
Qed.

Lemma getCompactedDate_int_range d : valid_range d -> int_range (getCompactedDate d).
Proof. intros H. rewrite getCompactedDate_value by done. apply wrap32_range. Qed.

Lemma strncpy_no_NUL s rest :
  Forall (fun c => c <> 0) s -> strncpy (s ++ rest) (length s) = s.
Proof.
  induction 1 as [|c s Hc _ IH]; [by destruct rest|].
  cbn [app length strncpy]. destruct (Z.eqb_spec c 0); [done|]. by rewrite IH.
Qed.

Lemma cdiv_4_mul (n : nat) : cdiv (4 * Z.of_nat n) 4 = Z.of_nat n.
Proof. unfold cdiv. rewrite Z.mul_comm. apply Z.quot_mul. lia. Qed.

(** X26: a member written by [writeBinaryMember] into a buffer of its
    length is read back by [readBinaryMember] as it was: a bool, a
    [Type] below 128, a date with its fields in range, a list of ints
    that is not empty, a string that is not empty.  A double can be
    read but not written: [writeBinaryMember] has no case for
    [BINARY_DOUBLE] and exits. *)
Theorem binary_member_round_trip :
  (forall b dest, exists buf,
     writeBinaryMember BINARY_BOOL (VBool b) dest 1 = Returned buf /\
     readBinaryMember BINARY_BOOL buf 1 = Returned (VBool b)) /\
  (forall t dest, 0 <= t < 128 -> exists buf,
     writeBinaryMember BINARY_TYPE (VType t) dest 1 = Returned buf /\
     readBinaryMember BINARY_TYPE buf 1 = Returned (VType t)) /\
  (forall d dest, valid_range d -> exists buf,
     writeBinaryMember BINARY_DATE_TIME (VDate d) dest 4 = Returned buf /\
     readBinaryMember BINARY_DATE_TIME buf 4 = Returned (VDate d)) /\
  (forall l dest, l <> [] -> Forall int_range l -> 4 * Z.of_nat (length l) < 2^31 ->
     exists buf,
     writeBinaryMember BINARY_INTLIST (VIntList (Some l)) dest (4 * Z.of_nat (length l))
       = Returned buf /\
     readBinaryMember BINARY_INTLIST buf (4 * Z.of_nat (length l))
       = Returned (VIntList (Some l))) /\
  (forall s dest, s <> [] -> Forall (fun c => c <> 0) s -> Z.of_nat (length s) < 2^31 ->
     exists buf,
     writeBinaryMember STRING (VString (Some s)) dest (Z.of_nat (length s)) = Returned buf /\
     readBinaryMember STRING buf (Z.of_nat (length s)) = Returned (VString (Some s))) /\
  (forall v dest len, writeBinaryMember BINARY_DOUBLE v dest len = ExitFailure).
Proof.
  split_and!.
  - intros b dest. eexists. split; [reflexivity|]. by destruct b.
  - intros t dest Ht. eexists. split; [reflexivity|].
    unfold readBinaryMember, blit, signed_char. cbn [app lookup list_lookup default].
    unfold id. rewrite (Z.mod_small t) by lia. rewrite Z.mod_small by lia.
    do 2 f_equal. lia.
  - intros d dest Hd. eexists. split; [reflexivity|].
    unfold readBinaryMember, blit.
    rewrite readInt_writeInt by by apply getCompactedDate_int_range.
    by rewrite getUncompactedDate_getCompactedDate.
  - intros l dest Hne Hl Hlen. unfold writeBinaryMember, readBinaryMember. cbv zeta.
    rewrite cdiv_4_mul. rewrite Z.leb_refl. eexists. split; [reflexivity|].
    destruct (Z.eqb_spec (Z.of_nat (length l)) 0) as [Hz|_].
    { destruct l; [done|]. cbn [length] in Hz. lia. }
    rewrite Nat2Z.id. unfold blit.
    by rewrite BinaryStringTointList_IntListToBinaryString.
  - intros s dest Hne Hs Hlen. unfold writeBinaryMember, readBinaryMember.
    replace (Z.of_nat (length s) <=? Z.of_nat (length s) + 1) with true
      by (symmetry; apply Z.leb_le; lia).
    eexists. split; [reflexivity|].
    destruct (Z.eqb_spec (Z.of_nat (length s)) 0) as [Hz|_].
    { destruct s; [done|]. cbn [length] in Hz. lia. }
    rewrite Nat2Z.id. rewrite take_app_length. unfold blit.
    by rewrite strncpy_no_NUL.
  - intros v dest len. by destruct v.
Qed.

Lemma binary_member_round_trip_witness :
  exists buf,
    writeBinaryMember BINARY_DATE_TIME (VDate (mkDate 2021 6 15 12 30 45)) [9; 9; 9; 9] 4
      = Returned buf /\
    readBinaryMember BINARY_DATE_TIME buf 4 = Returned (VDate (mkDate 2021 6 15 12 30 45)).
Proof.
  destruct binary_member_round_trip as (_ & _ & Hdate & _).
  apply Hdate. unfold valid_range. cbn. lia.
Defined.

End MemberRoundTrip.

(** ** lazy.c: members read through the cache *)

Section LazyRead.
Import Cache Format Lazy.

Lemma stringSize_nonneg t : 0 <= stringSize t.
Proof. destruct t; cbn; lia. Qed.

Lemma stringSize_small t : stringSize t <= 19.
Proof. destruct t; cbn; lia. Qed.

Lemma member_offset_S f k t :
  types f !! k = Some t -> member_offset f (S k) = member_offset f k + stringSize t.
Proof.
  intros Ht. unfold member_offset. rewrite (take_S_r _ _ _ Ht), map_app, foldr_app.
  cbn [map foldr]. generalize (map stringSize (take k (types f))).
  intros l. induction l as [|x l IH]; cbn [foldr]; lia.
Qed.

Lemma member_offset_nonneg f k : 0 <= member_offset f k.
Proof.
  unfold member_offset. generalize (take k (types f)). intros l.
  induction l as [|t l IH]; cbn [map foldr]; [lia|]. pose proof (stringSize_nonneg t). lia.
Qed.

Lemma member_offset_mono f j k : (j <= k)%nat -> member_offset f j <= member_offset f k.
Proof.
  induction 1 as [|k Hle IH]; [lia|].
  destruct (types f !! k) as [t|] eqn:Ht.
  - rewrite (member_offset_S _ _ _ Ht). pose proof (stringSize_nonneg t). lia.
  - unfold member_offset in *. apply lookup_ge_None in Ht.
    rewrite (take_ge (types f) (S k)) by lia. rewrite (take_ge (types f) k) in IH by lia. lia.
Qed.

Lemma with_string_pos_same l :
  with_string_pos l (string_pos l) (string_pos_it l) (list_index l) = l.
Proof. by destruct l. Qed.

(** [loadStringPos] on members of fixed size: the positions up to
    [P] are filled with the start of the object plus the sizes before;
    [getLazyMember] is not called. *)
Lemma loadStringPos_fixed get p0 (P : nat) w : forall n l (it : nat),
  Forall (fun t => stringSize t <> 0) (types (format l)) ->
  length (string_pos l) = S (length (types (format l))) ->
  string_pos_it l = Z.of_nat it ->
  (forall k, (k <= it)%nat ->
     string_pos l !! k = Some (p0 + member_offset (format l) k)) ->
  (it <= P <= length (types (format l)))%nat -> (P - it <= n)%nat ->
  0 <= p0 -> p0 + member_offset (format l) P < 2^64 ->
  exists sp,
    loadStringPos_loop get n l (Z.of_nat P) w
      = Returned (with_string_pos l sp (Z.of_nat P) (list_index l), w) /\
    length sp = length (string_pos l) /\
    (forall k, (k <= P)%nat -> sp !! k = Some (p0 + member_offset (format l) k)).
Proof.
  induction n as [|n IH]; intros l it Hfix Hlen Hit Hpos Hrange Hfuel Hp0 Hend.
  - assert (it = P) as -> by lia.
    exists (string_pos l). cbn [loadStringPos_loop].
    destruct (Z.ltb_spec (string_pos_it l) (Z.of_nat P)); [lia|].
    rewrite <- Hit, with_string_pos_same. done.
  - cbn [loadStringPos_loop].
    destruct (Z.ltb_spec (string_pos_it l) (Z.of_nat P)) as [Hlt|Hge].
    2:{ assert (it = P) as -> by lia. exists (string_pos l).
        rewrite <- Hit, with_string_pos_same. done. }
    assert (Hlt' : (it < P)%nat) by lia.
    destruct (lookup_lt_is_Some_2 (types (format l)) it) as [t Ht]; [lia|].
    unfold getMemberType. rewrite Hit.
    replace (Z.of_nat it + 1 - 1) with (Z.of_nat it) by lia.
    rewrite !array_get_of_nat, Ht, (Hpos it) by lia.
    cbn [read_cell mbind outcome_bind].
    assert (Hsz : stringSize t <> 0).
    { rewrite Forall_forall in Hfix. apply Hfix. by eapply list_elem_of_lookup_2. }
    destruct (Z.eqb_spec (stringSize t) 0); [done|].
    unfold array_set.
    replace ((0 <=? Z.of_nat it + 1) && (Z.of_nat it + 1 <? Z.of_nat (length (string_pos l))))
      with true by (symmetry; apply andb_true_iff; split; [apply Z.leb_le|apply Z.ltb_lt]; lia).
    cbn [mbind outcome_bind].
    replace (Z.to_nat (Z.of_nat it + 1)) with (S it) by lia.
    assert (Hoff : wrap64 (stringSize t + (p0 + member_offset (format l) it))
                   = p0 + member_offset (format l) (S it)).
    { rewrite (member_offset_S _ _ _ Ht). unfold wrap64.
      pose proof (member_offset_nonneg (format l) it).
      pose proof (stringSize_nonneg t).
      pose proof (member_offset_mono (format l) (S it) P ltac:(lia)) as Hm.
      rewrite (member_offset_S _ _ _ Ht) in Hm.
      rewrite Z.mod_small by lia. lia. }
    rewrite Hoff.
    set (sp1 := <[S it := p0 + member_offset (format l) (S it)]> (string_pos l)).
    destruct (IH (with_string_pos l sp1 (Z.of_nat it + 1) (list_index l)) (S it))
      as (sp & Hrun & Hlen' & Hpos'); cbn [format string_pos string_pos_it with_string_pos];
      try done.
    + unfold sp1. by rewrite length_insert.
    + lia.
    + intros k Hk. unfold sp1. destruct (decide (k = S it)) as [->|Hne].
      * rewrite list_lookup_insert_eq; [done|lia].
      * rewrite list_lookup_insert_ne by done. apply Hpos. lia.
    + lia.
    + lia.
    + exists sp. split; [|split].
      * rewrite Hrun. by destruct l.
      * rewrite Hlen'. cbn [string_pos with_string_pos]. unfold sp1.
        by rewrite length_insert.
      * exact Hpos'.
Qed.

Lemma array_set_inside {A} (l : list A) (i : nat) (x : A) :
  (i < length l)%nat -> array_set l (Z.of_nat i) x = Returned (<[i := x]> l).
Proof.
  intros Hi. unfold array_set.
  replace ((0 <=? Z.of_nat i) && (Z.of_nat i <? Z.of_nat (length l))) with true
    by (symmetry; apply andb_true_iff; split; [apply Z.leb_le|apply Z.ltb_lt]; lia).
  by rewrite Nat2Z.id.
Qed.

(** A member that is not loaded, on a [Lazy] whose positions are not
    computed yet. *)
Lemma getLazyMember_unloaded fuel l p (member : nat) t w content v :
  string_pos_it l = 0 -> string_pos l !! 0%nat = Some p ->
  length (string_pos l) = S (length (types (format l))) ->
  getFormatMembers (format l) = Z.of_nat (length (types (format l))) ->
  length (obj l) = length (types (format l)) ->
  length (loaded l) = length (types (format l)) ->
  loaded l !! member = Some false ->
  Forall (fun t => stringSize t <> 0) (types (format l)) ->
  types (format l) !! member = Some t ->
  cache_wf (the_cache w) -> cache_clean w -> files w !! file l = Some content ->
  0 <= p -> p + member_offset (format l) (S member) <= Z.of_nat (length content) ->
  Z.of_nat (length content) < 2^64 ->
  readBinaryMember t
    (take (Z.to_nat (stringSize t))
       (drop (Z.to_nat (p + member_offset (format l) member)) content))
    (stringSize t) = Returned v ->
  exists l' w',
    getLazyMember (S fuel) l (Z.of_nat member) w = Returned (v, l', w') /\
    obj l' !! member = Some v /\ loaded l' !! member = Some true /\
    files w' = files w /\ cache_wf (the_cache w') /\ cache_clean w' /\
    getLazyMember (S fuel) l' (Z.of_nat member) w' = Returned (v, l', w').
Proof.
  intros Hit H0 Hsp Hmem Hobj Hlo Hld Hfix Ht Hwf Hcl Hfs Hp Hend Hsize Hread.
  apply lookup_lt_Some in Ht as Hlt.
  cbn [getLazyMember].
  rewrite (array_get_of_nat (loaded l)), Hld. cbn [read_cell mbind outcome_bind].
  replace (Z.of_nat member + 1) with (Z.of_nat (S member)) by lia.
  destruct (loadStringPos_fixed (getLazyMember fuel) p (S member) w
              (Z.to_nat (getFormatMembers (format l)) + 1) l 0)
    as (sp & Hrun & Hlen & Hpos); try done.
  - intros k Hk. assert (k = 0%nat) as -> by lia. unfold member_offset. cbn [take map foldr].
    by rewrite Z.add_0_r.
  - lia.
  - rewrite Hmem, Nat2Z.id. lia.
  - lia.
  - rewrite Hrun. cbn [mbind outcome_bind with_string_pos string_pos file format obj loaded
                       altered pos string_pos_it list_index].
    rewrite !array_get_of_nat, (Hpos (S member)), (Hpos member) by lia.
    cbn [read_cell mbind outcome_bind].
    rewrite (member_offset_S _ _ _ Ht).
    replace (p + (member_offset (format l) member + stringSize t)
             - (p + member_offset (format l) member))
      with (stringSize t) by lia.
    pose proof (stringSize_nonneg t). pose proof (stringSize_small t).
    pose proof (member_offset_nonneg (format l) member).
    rewrite (member_offset_S _ _ _ Ht) in Hend.
    rewrite wrap32_small by (unfold int_range; lia).
    destruct (getStr_pages_clean (file l) content (S (Z.to_nat (stringSize t))) w
                (p + member_offset (format l) member) (stringSize t))
      as (w' & Hget & Hwf' & Hcl' & Hfiles); try done; try lia.
    unfold getStr. rewrite Hget. cbn [mbind outcome_bind].
    unfold getMemberType. rewrite array_get_of_nat, Ht. cbn [read_cell mbind outcome_bind].
    rewrite Hread. cbn [mbind outcome_bind].
    rewrite !array_set_inside by lia.
    cbn [mbind outcome_bind].
    eexists _, w'. split; [reflexivity|].
    cbn [obj loaded].
    split; [apply list_lookup_insert_eq; lia|].
    split; [apply list_lookup_insert_eq; lia|].
    split; [done|]. split; [done|]. split; [done|].
    rewrite array_get_of_nat. cbn [loaded].
    rewrite list_lookup_insert_eq by lia.
    cbn [read_cell mbind outcome_bind].
    rewrite array_get_of_nat. cbn [obj].
    rewrite list_lookup_insert_eq by lia. done.
Qed.

(** X27: a new [Lazy] over a binary format whose members are of fixed
    size reads member [member] from the file at the start of the object
    plus the sizes of the members before it: on a well-formed cache
    that is clean ([cache_clean]: no loaded line has a pending write,
    and every loaded line holds the bytes of its file), and an object
    that lies inside the file up to the end of the member,
    [getLazyMember] returns what [readBinaryMember] decodes from these
    bytes, stores it in the object and marks the member loaded; the
    file is not changed, the cache stays well formed and clean, and a
    second call returns the member without touching the cache. *)
Theorem getLazyMember_reads_from_file fuel fd p f o l (member : nat) t w content v :
  makeLazy fd p f o = Some l ->
  members f = Z.of_nat (length (types f)) -> members f < 2^31 ->
  length o = length (types f) ->
  Forall (fun t => stringSize t <> 0) (types f) ->
  types f !! member = Some t ->
  cache_wf (the_cache w) -> cache_clean w -> files w !! fd = Some content ->
  0 <= p -> p + member_offset f (S member) <= Z.of_nat (length content) ->
  Z.of_nat (length content) < 2^64 ->
  readBinaryMember t
    (take (Z.to_nat (stringSize t)) (drop (Z.to_nat (p + member_offset f member)) content))
    (stringSize t) = Returned v ->
  exists l' w',
    getLazyMember (S fuel) l (Z.of_nat member) w = Returned (v, l', w') /\
    obj l' !! member = Some v /\ loaded l' !! member = Some true /\
    files w' = files w /\ cache_wf (the_cache w') /\ cache_clean w' /\
    getLazyMember (S fuel) l' (Z.of_nat member) w' = Returned (v, l', w').
Proof.
  intros Hmk Hmem Hint Hobj Hfix Ht Hwf Hcl Hfs Hp Hend Hsize Hread.
  unfold makeLazy in Hmk. destruct (isBinary f); [|done]. cbn [negb] in Hmk.
  injection Hmk as <-. unfold getFormatMembers. rewrite Hmem, Nat2Z.id.
  apply lookup_lt_Some in Ht as Hlt.
  apply (getLazyMember_unloaded fuel _ p member t w content v);
    cbn [string_pos_it string_pos format obj loaded file]; try done.
  - cbn [length]. by rewrite length_replicate.
  - by rewrite length_replicate.
  - by apply lookup_replicate_2.
Qed.

(** The first member of a two-member object stored at position 2 of
    file 3: a bool, before a date. *)
Lemma getLazyMember_reads_from_file_witness :
  exists l' w',
    getLazyMember 1
      (mkLazy 3 2 (mkFormat 2 [BINARY_BOOL; BINARY_DATE_TIME] [] 0)
         [VBool false; VBool false] [false; false] [false; false] [2; 0; 0] 0 0)
      0 (mkWorld (getCache 1) {[ 3 := [7; 7; 1; 0; 0; 0; 0] ]} [])
    = Returned (VBool true, l', w').
Proof.
  destruct (getLazyMember_reads_from_file 0 3 2
              (mkFormat 2 [BINARY_BOOL; BINARY_DATE_TIME] [] 0)
              [VBool false; VBool false]
              (mkLazy 3 2 (mkFormat 2 [BINARY_BOOL; BINARY_DATE_TIME] [] 0)
                 [VBool false; VBool false] [false; false] [false; false] [2; 0; 0] 0 0)
              0%nat BINARY_BOOL
              (mkWorld (getCache 1) {[ 3 := [7; 7; 1; 0; 0; 0; 0] ]} [])
              [7; 7; 1; 0; 0; 0; 0] (VBool true))
    as (l' & w' & Hrun & _).
  - reflexivity.
  - reflexivity.
  - cbn. lia.
  - reflexivity.
  - repeat constructor; cbn; lia.
  - reflexivity.
  - apply getCache_wf. lia.
  - apply getCache_clean.
  - reflexivity.
  - lia.
  - cbn. lia.
  - cbn. lia.
  - reflexivity.
  - exists l', w'. exact Hrun.
Defined.

(** X28: a member stored through [setLazyMember] is what the next
    [getLazyMember] returns, without a read of the file: the member is
    marked loaded and altered, the cache and the files are as before,
    and the other members of the object are not touched. *)
Theorem setLazyMember_then_get fuel l (member : nat) v w :
  (member < length (obj l))%nat ->
  length (loaded l) = length (obj l) -> length (altered l) = length (obj l) ->
  exists l1,
    setLazyMember l (Z.of_nat member) v = Returned l1 /\
    getLazyMember (S fuel) l1 (Z.of_nat member) w = Returned (v, l1, w) /\
    altered l1 !! member = Some true /\
    (forall k, k <> member -> obj l1 !! k = obj l !! k /\ loaded l1 !! k = loaded l !! k).
Proof.
  intros Hm Hlo Hal. unfold setLazyMember.
  rewrite !array_set_inside by lia. cbn [mbind outcome_bind].
  eexists. split; [reflexivity|]. split; [|split].
  - cbn [getLazyMember loaded obj]. rewrite !array_get_of_nat.
    rewrite list_lookup_insert_eq by lia. cbn [read_cell mbind outcome_bind].
    rewrite list_lookup_insert_eq by lia. done.
  - cbn [altered]. apply list_lookup_insert_eq. lia.
  - intros k Hk. cbn [obj loaded]. by rewrite !list_lookup_insert_ne.
Qed.

Lemma setLazyMember_then_get_witness :
  exists l1,
    setLazyMember (mkLazy 3 0 (mkFormat 1 [BINARY_BOOL] [] 0) [VBool false] [false] [false]
                     [0; 0] 0 0) 0 (VBool true) = Returned l1 /\
    getLazyMember 1 l1 0 (mkWorld (getCache 1) ∅ []) = Returned (VBool true, l1, mkWorld (getCache 1) ∅ []).
Proof.
  destruct (setLazyMember_then_get 0
              (mkLazy 3 0 (mkFormat 1 [BINARY_BOOL] [] 0) [VBool false] [false] [false]
                 [0; 0] 0 0) 0%nat (VBool true) (mkWorld (getCache 1) ∅ []))
    as (l1 & Hset & Hget & _).
  - cbn. lia.
  - reflexivity.
  - reflexivity.
  - exists l1. split; [exact Hset|exact Hget].
Defined.

End LazyRead.

(** ** lazy.c: a member written back to the file *)

Section LazyWriteBack.
Import Cache Format Lazy.

(** [setStr] inside one page: the line of the page holds the bytes and
    is marked altered. *)
Lemma setStr_one_page w fd p buffer n :
  cache_wf (the_cache w) -> 0 <= p -> 0 <= n <= Z.of_nat (length buffer) ->
  p mod CACHE_LINE_SIZE + n <= CACHE_LINE_SIZE ->
  exists w2 l ln2,
    setStr w fd p buffer n = Returned w2 /\ cache_wf (the_cache w2) /\
    lines (the_cache w2) !! l = Some ln2 /\
    Cache.key ln2 = mkKey fd (p - p mod CACHE_LINE_SIZE) /\
    Cache.loaded ln2 = true /\ Cache.altered ln2 = true /\
    take (Z.to_nat n) (drop (Z.to_nat (p mod CACHE_LINE_SIZE)) (data ln2))
      = take (Z.to_nat n) buffer /\
    (forall fd', is_Some (files w !! fd') -> is_Some (files w2 !! fd')).
Proof.
  intros Hwf Hp Hn Hpage.
  pose proof (Z.mod_pos_bound p CACHE_LINE_SIZE ltac:(unfold CACHE_LINE_SIZE; lia)) as Hmod.
  unfold setStr. cbn [setStr_pages].
  assert (Hdom : forall fd', is_Some (files w !! fd') ->
                   is_Some (files (getCacheLine w fd p).2 !! fd')).
  { intros fd'. by apply getCacheLine_files_dom. }
  destruct (getCacheLine_wf w fd p Hwf Hp)
    as (l & w1 & ln & Hrun1 & Hwf1 & Hl & Hkey & Hld & _ & Htab & _).
  rewrite Hrun1 in Hdom |- *. cbn [snd] in Hdom.
  rewrite (get_line_lookup _ _ _ Hl).
  pose proof Hwf1 as (_ & _ & Hlen1 & _). pose proof (Hlen1 _ _ Hl) as Hdl.
  rewrite Z.min_r by lia.
  destruct (Z.ltb_spec n n) as [?|_]; [lia|].
  set (d := take (Z.to_nat (p mod CACHE_LINE_SIZE)) (data ln) ++ take (Z.to_nat n) buffer
            ++ drop (Z.to_nat (p mod CACHE_LINE_SIZE + n)) (data ln)).
  assert (Hd : length d = Z.to_nat CACHE_LINE_SIZE).
  { subst d. rewrite !length_app, !length_take, length_drop. lia. }
  eexists _, l, _. split; [reflexivity|]. cbn [the_cache files].
  split; [by apply set_line_wf|].
  split; [cbn; apply list_lookup_insert_eq; by eapply lookup_lt_Some|].
  cbn [Cache.key Cache.loaded Cache.altered data].
  split; [done|]. split; [done|]. split; [done|]. split; [|done].
  subst d.
  replace (Z.to_nat (p mod CACHE_LINE_SIZE + n))
    with (Z.to_nat (p mod CACHE_LINE_SIZE) + Z.to_nat n)%nat by lia.
  apply take_drop_patch; lia.
Qed.

(** A pending line is in its file after [flushCache]. *)
Lemma flushCache_line w l ln :
  cache_wf (the_cache w) ->
  lines (the_cache w) !! l = Some ln -> Cache.loaded ln = true -> Cache.altered ln = true ->
  is_Some (files w !! file_desc (Cache.key ln)) ->
  exists content, files (flushCache w) !! file_desc (Cache.key ln) = Some content /\
    take (Z.to_nat CACHE_LINE_SIZE) (drop (Z.to_nat (Cache.pos (Cache.key ln))) content)
      = data ln.
Proof.
  intros Hwf Hl Hld Hal Hfd. pose proof Hwf as (_ & _ & _ & _ & Hlt).
  destruct (flush_fold (map_to_list (posLinePairs (the_cache w))) w Hwf)
    as (_ & _ & _ & _ & _ & Htarget).
  { intros k l' Hin. by apply elem_of_map_to_list in Hin. }
  apply (Htarget l ln); try done.
  apply list_elem_of_fmap. exists (key_pair (Cache.key ln), l). split; [done|].
  apply elem_of_map_to_list. by apply Hlt.
Qed.

Lemma take_drop_window {A} (X : list A) (a n k : nat) :
  (a + n <= k)%nat -> take n (drop a (take k X)) = take n (drop a X).
Proof.
  intros Hk. rewrite skipn_firstn_comm, take_take. f_equal. lia.
Qed.

(** The members that are not altered are skipped. *)
Lemma printLazyToFile_loop_skip fuel uninit l w : forall n (i : nat) li,
  (forall k, (i <= k < i + n)%nat -> Lazy.altered l !! k = Some false) ->
  printLazyToFile_loop fuel uninit n (Z.of_nat i) li l w = Returned (l, w).
Proof.
  induction n as [|n IH]; intros i li Hal; [done|].
  cbn [printLazyToFile_loop]. rewrite array_get_of_nat, (Hal i) by lia.
  cbn [read_cell mbind outcome_bind].
  replace (Z.of_nat i + 1) with (Z.of_nat (S i)) by lia.
  apply IH. intros k Hk. apply Hal. lia.
Qed.

Lemma binary_encoding_fixed_length t v enc :
  t = BINARY_BOOL \/ t = BINARY_TYPE \/ t = BINARY_DATE_TIME ->
  binary_encoding t v = Some enc -> Z.of_nat (length enc) = stringSize t.
Proof.
  intros [->|[->| ->]] He; destruct v; cbn in He; try done; by injection He as <-.
Qed.

(** The loop up to and past the one altered member [m]. *)
Lemma printLazyToFile_loop_one fuel uninit l (m : nat) t v enc q w w2 :
  types (Lazy.format l) !! m = Some t ->
  t = BINARY_BOOL \/ t = BINARY_TYPE \/ t = BINARY_DATE_TIME ->
  binary_encoding t v = Some enc ->
  obj l !! m = Some v -> string_pos l !! m = Some q ->
  length (uninit (stringSize t)) = length enc ->
  Lazy.altered l !! m = Some true ->
  setStr w (file l) q enc (stringSize t) = Returned w2 ->
  forall n (i : nat) li,
  (forall k, (i <= k < i + n)%nat -> k <> m -> Lazy.altered l !! k = Some false) ->
  (i <= m < i + n)%nat ->
  printLazyToFile_loop fuel uninit n (Z.of_nat i) li l w = Returned (l, w2).
Proof.
  intros Ht Hkind Henc Hobj Hpos Hun Halm Hset.
  induction n as [|n IH]; intros i li Hal Him; [lia|].
  cbn [printLazyToFile_loop]. rewrite array_get_of_nat.
  destruct (decide (i = m)) as [->|Hne].
  - rewrite Halm. cbn [read_cell mbind outcome_bind].
    unfold getMemberType. rewrite array_get_of_nat, Ht. cbn [read_cell mbind outcome_bind].
    assert (Hsz : (stringSize t =? 0) = false) by (by destruct Hkind as [->|[->| ->]]).
    rewrite Hsz. cbn [mbind outcome_bind].
    rewrite (array_get_of_nat (obj l)), Hobj. cbn [read_cell mbind outcome_bind].
    rewrite (writeBinaryMember_fixed_ok t v _ enc Hkind Henc Hun).
    cbn [mbind outcome_bind].
    rewrite array_get_of_nat, Hpos. cbn [read_cell mbind outcome_bind].
    rewrite Hset. cbn [mbind outcome_bind].
    replace (Z.of_nat m + 1) with (Z.of_nat (S m)) by lia.
    apply printLazyToFile_loop_skip. intros k Hk. apply Hal; lia.
  - rewrite (Hal i) by first [done|lia]. cbn [read_cell mbind outcome_bind].
    replace (Z.of_nat i + 1) with (Z.of_nat (S i)) by lia.
    apply IH; [|lia]. intros k Hk Hkm. apply Hal; [lia|done].
Qed.

(** X29: a member of kind bool, [Type] or date that is set on a
    [Lazy] with nothing else pending, and whose position [q] in the
    file is known and leaves the member inside one page of the cache,
    reaches the file: [printLazyToFile] returns, leaving the [Lazy] as
    it was (the altered flags are not reset), and after [flushCache]
    the bytes of the file at [q] are the binary encoding of the
    member. *)
Theorem printLazyToFile_writes_member fuel uninit l (m : nat) t v enc q w :
  getFormatMembers (Lazy.format l) = Z.of_nat (length (Lazy.altered l)) ->
  length (obj l) = length (Lazy.altered l) ->
  length (Lazy.loaded l) = length (Lazy.altered l) ->
  Forall (fun a => a = false) (Lazy.altered l) ->
  (m < length (Lazy.altered l))%nat ->
  types (Lazy.format l) !! m = Some t ->
  t = BINARY_BOOL \/ t = BINARY_TYPE \/ t = BINARY_DATE_TIME ->
  binary_encoding t v = Some enc ->
  string_pos l !! m = Some q -> Z.of_nat m <= string_pos_it l ->
  0 <= q -> q mod CACHE_LINE_SIZE + stringSize t <= CACHE_LINE_SIZE ->
  length (uninit (stringSize t)) = Z.to_nat (stringSize t) ->
  cache_wf (the_cache w) -> is_Some (files w !! file l) ->
  exists l2 w2 content,
    setLazyMember l (Z.of_nat m) v = Returned l2 /\
    printLazyToFile fuel uninit l2 w = Returned (l2, w2) /\
    files (flushCache w2) !! file l = Some content /\
    take (Z.to_nat (stringSize t)) (drop (Z.to_nat q) content) = enc.
Proof.
  intros Hmem Hobj Hlo Hclean Hm Ht Hkind Henc Hpos _ Hq Hpage Hun Hwf Hfile.
  pose proof (binary_encoding_fixed_length t v enc Hkind Henc) as Hlen.
  pose proof (Z.mod_pos_bound q CACHE_LINE_SIZE ltac:(unfold CACHE_LINE_SIZE; lia)) as Hmod.
  destruct (setStr_one_page w (file l) q enc (stringSize t) Hwf Hq ltac:(lia) Hpage)
    as (w2 & cl & ln2 & Hset & Hwf2 & Hl2 & Hkey2 & Hld2 & Hal2 & Hdata & Hdom).
  unfold setLazyMember. rewrite !array_set_inside by lia. cbn [mbind outcome_bind].
  set (l2 := mkLazy _ _ _ _ _ _ _ _ _).
  destruct (flushCache_line w2 cl ln2 Hwf2 Hl2 Hld2 Hal2) as (content & Hc & Hline).
  { rewrite Hkey2. cbn [file_desc]. by apply Hdom. }
  rewrite Hkey2 in Hc, Hline. cbn [file_desc Cache.pos] in Hc, Hline.
  exists l2, w2, content. split; [done|]. split; [|split; [done|]].
  - unfold printLazyToFile. cbn [Lazy.format l2]. rewrite Hmem, Nat2Z.id.
    change (printLazyToFile_loop fuel uninit (length (Lazy.altered l)) (Z.of_nat 0) (-1) l2 w
            = Returned (l2, w2)).
    apply (printLazyToFile_loop_one fuel uninit l2 m t v enc q w w2); cbn [l2 Lazy.format obj
      string_pos Lazy.altered file]; try done.
    + apply list_lookup_insert_eq. lia.
    + lia.
    + apply list_lookup_insert_eq. lia.
    + intros k Hk Hkm. rewrite list_lookup_insert_ne by done.
      destruct (lookup_lt_is_Some_2 (Lazy.altered l) k) as [a Ha]; [lia|].
      rewrite Ha. f_equal. rewrite Forall_forall in Hclean. apply Hclean.
      by eapply list_elem_of_lookup_2.
    + lia.
  - pose proof (Z.mod_le q CACHE_LINE_SIZE Hq ltac:(unfold CACHE_LINE_SIZE; lia)) as Hmle.
    pose proof (stringSize_nonneg t).
    replace (Z.to_nat q)
      with (Z.to_nat (q - q mod CACHE_LINE_SIZE) + Z.to_nat (q mod CACHE_LINE_SIZE))%nat by lia.
    rewrite <- drop_drop.
    rewrite <- (take_drop_window _ _ _ (Z.to_nat CACHE_LINE_SIZE)) by lia.
    rewrite Hline, Hdata. apply take_ge. lia.
Qed.

(** A bool member at position 5 of file 3, set to true and flushed. *)
Lemma printLazyToFile_writes_member_witness :
  exists l2 w2 content,
    setLazyMember
      (mkLazy 3 5 (mkFormat 1 [BINARY_BOOL] [] 0) [VBool false] [true] [false] [5; 6] 1 0)
      0 (VBool true) = Returned l2 /\
    printLazyToFile 1 (fun n => replicate (Z.to_nat n) 170) l2
      (mkWorld (getCache 1) {[ 3 := replicate 8 0 ]} []) = Returned (l2, w2) /\
    files (flushCache w2) !! 3 = Some content /\
    take 1 (drop 5 content) = [1].
Proof.
  apply (printLazyToFile_writes_member 1 (fun n => replicate (Z.to_nat n) 170)
           (mkLazy 3 5 (mkFormat 1 [BINARY_BOOL] [] 0) [VBool false] [true] [false] [5; 6] 1 0)
           0%nat BINARY_BOOL (VBool true) [1] 5
           (mkWorld (getCache 1) {[ 3 := replicate 8 0 ]} [])).
  - reflexivity.
  - reflexivity.
  - reflexivity.
  - repeat constructor.
  - cbn. lia.
  - reflexivity.
  - by left.
  - reflexivity.
  - reflexivity.
  - cbn. lia.
  - lia.
  - vm_compute. discriminate.
  - reflexivity.
  - apply getCache_wf. lia.
  - cbn [files]. rewrite lookup_singleton_eq. by eexists.
Defined.

End LazyWriteBack.

(** ** date.c: dates printed and read back *)

Section DateText.
Import Utils Date.

Lemma print_int_four n :
  1000 <= n < 10000 ->
  print_int n = [48 + n / 1000; 48 + (n / 100) mod 10; 48 + (n / 10) mod 10; 48 + n mod 10].
Proof.
  intros Hn. unfold print_int. destruct (Z.ltb_spec n 0); [lia|].
  cbn [decimal].
  destruct (Z.ltb_spec n 10); [lia|].
  destruct (Z.ltb_spec (n / 10) 10); [exfalso; Z.div_mod_to_equations; lia|].
  destruct (Z.ltb_spec (n / 10 / 10) 10); [exfalso; Z.div_mod_to_equations; lia|].
  destruct (Z.ltb_spec (n / 10 / 10 / 10) 10); [|exfalso; Z.div_mod_to_equations; lia].
  rewrite !Z.div_div by lia. change (10 * 10 * 10) with 1000. change (10 * 10) with 100.
  f_equal. f_equal. apply Z.mod_small. Z.div_mod_to_equations; lia.
Qed.

Lemma print_int_two n :
  0 <= n < 100 ->
  (if n <? 10 then 48 :: print_int n else print_int n) = [48 + n / 10; 48 + n mod 10].
Proof.
  intros Hn. unfold print_int. destruct (Z.ltb_spec n 0); [lia|].
  cbn [decimal]. destruct (Z.ltb_spec n 10).
  - rewrite Z.div_small, Z.mod_small by lia. done.
  - destruct (Z.ltb_spec (n / 10) 10); [|exfalso; Z.div_mod_to_equations; lia].
    f_equal. f_equal. apply Z.mod_small. Z.div_mod_to_equations; lia.
Qed.

Lemma digit_checks a :
  0 <= a <= 9 ->
  (48 + a <? 48) || (48 + a >? 57) = false /\ isdigit (48 + a) = true /\
  isspace (48 + a) = false /\ (48 + a =? 45) = false /\ (48 + a =? 43) = false.
Proof.
  intros Ha. unfold isdigit, isspace.
  destruct (Z.ltb_spec (48 + a) 48); [lia|]. destruct (Z.gtb_spec (48 + a) 57); [lia|].
  destruct (Z.leb_spec 48 (48 + a)); [|lia]. destruct (Z.leb_spec (48 + a) 57); [|lia].
  destruct (Z.eqb_spec (48 + a) 32); [lia|]. destruct (Z.leb_spec (48 + a) 13); [lia|].
  destruct (Z.eqb_spec (48 + a) 45); [lia|]. destruct (Z.eqb_spec (48 + a) 43); [lia|].
  by rewrite andb_false_r.
Qed.

Lemma isdigit_other t : t = 0 \/ t = 32 \/ t = 45 \/ t = 58 -> isdigit t = false.
Proof. intros [->|[->|[->| ->]]]; reflexivity. Qed.

Lemma clamp_small v : 0 <= v < 10000 -> wrap32 (Z.max (- 2^63) (Z.min (2^63 - 1) v)) = v.
Proof.
  intros Hv. rewrite Z.min_r, Z.max_r by lia. apply wrap32_small. unfold int_range. lia.
Qed.

(** [safeStringToInt] on four digits and on two digits. *)
Lemma safeStringToInt_four a b c d t rest i :
  0 <= a <= 9 -> 0 <= b <= 9 -> 0 <= c <= 9 -> 0 <= d <= 9 ->
  safeStringToInt (48 + a :: 48 + b :: 48 + c :: 48 + d :: t :: rest) 4 i
  = Returned (true, 1000 * a + 100 * b + 10 * c + d).
Proof.
  intros Ha Hb Hc Hd.
  destruct (digit_checks a Ha) as (Ca1 & Ca2 & Ca3 & Ca4 & Ca5).
  destruct (digit_checks b Hb) as (Cb1 & Cb2 & _).
  destruct (digit_checks c Hc) as (Cc1 & Cc2 & _).
  destruct (digit_checks d Hd) as (Cd1 & Cd2 & _).
  unfold safeStringToInt, checkInt, array_get. change (Z.to_nat 4) with 4%nat.
  cbn [Z.eqb checkInt_for head tail read_cell mbind outcome_bind].
  rewrite Ca1, Cb1, Cc1, Cd1. cbn [mbind outcome_bind].
  cbn [Z.ltb Z.compare lookup list_lookup read_cell mbind outcome_bind list_insert insert].
  unfold atoi. cbn [atoi_sign]. rewrite Ca3, Ca4, Ca5. cbn [atoi_digits].
  rewrite Ca2, Cb2, Cc2, Cd2. cbn [isdigit Z.leb Z.compare andb mbind outcome_bind].
  rewrite clamp_small by lia. do 2 f_equal. lia.
Qed.

Lemma safeStringToInt_two a b t rest i :
  0 <= a <= 9 -> 0 <= b <= 9 ->
  safeStringToInt (48 + a :: 48 + b :: t :: rest) 2 i = Returned (true, 10 * a + b).
Proof.
  intros Ha Hb.
  destruct (digit_checks a Ha) as (Ca1 & Ca2 & Ca3 & Ca4 & Ca5).
  destruct (digit_checks b Hb) as (Cb1 & Cb2 & _).
  unfold safeStringToInt, checkInt, array_get. change (Z.to_nat 2) with 2%nat.
  cbn [Z.eqb checkInt_for head tail read_cell mbind outcome_bind].
  rewrite Ca1, Cb1. cbn [mbind outcome_bind].
  cbn [Z.ltb Z.compare lookup list_lookup read_cell mbind outcome_bind list_insert insert].
  unfold atoi. cbn [atoi_sign]. rewrite Ca3, Ca4, Ca5. cbn [atoi_digits].
  rewrite Ca2, Cb2. cbn [isdigit Z.leb Z.compare andb mbind outcome_bind].
  rewrite clamp_small by lia. do 2 f_equal. lia.
Qed.

(** [readDate] on a text of the shape [YYYY-MM-DD hh:mm:ss]. *)
Lemma readDate_digits now y1 y2 y3 y4 m1 m2 d1 d2 h1 h2 mi1 mi2 s1 s2 t rest :
  0 <= y1 <= 9 -> 0 <= y2 <= 9 -> 0 <= y3 <= 9 -> 0 <= y4 <= 9 ->
  0 <= m1 <= 9 -> 0 <= m2 <= 9 -> 0 <= d1 <= 9 -> 0 <= d2 <= 9 ->
  0 <= h1 <= 9 -> 0 <= h2 <= 9 -> 0 <= mi1 <= 9 -> 0 <= mi2 <= 9 ->
  0 <= s1 <= 9 -> 0 <= s2 <= 9 ->
  readDate now
    ([48 + y1; 48 + y2; 48 + y3; 48 + y4; 45; 48 + m1; 48 + m2; 45; 48 + d1; 48 + d2; 32;
      48 + h1; 48 + h2; 58; 48 + mi1; 48 + mi2; 58; 48 + s1; 48 + s2] ++ t :: rest) 19 true
  = (r ← isDateValid now
           (mkDate (1000 * y1 + 100 * y2 + 10 * y3 + y4) (10 * m1 + m2) (10 * d1 + d2)
                   (10 * h1 + h2) (10 * mi1 + mi2) (10 * s1 + s2));
     Returned (if r : bool
               then Some (mkDate (1000 * y1 + 100 * y2 + 10 * y3 + y4) (10 * m1 + m2)
                                 (10 * d1 + d2) (10 * h1 + h2) (10 * mi1 + mi2)
                                 (10 * s1 + s2))
               else None)).
Proof.
  intros. unfold readDate, char_differs, array_get. cbn [app].
  change (Z.to_nat 4) with 4%nat. change (Z.to_nat 7) with 7%nat.
  change (Z.to_nat 10) with 10%nat. change (Z.to_nat 13) with 13%nat.
  change (Z.to_nat 16) with 16%nat.
  cbn [Z.eqb Pos.eqb negb Z.ltb Z.compare lookup list_lookup read_cell mbind outcome_bind].
  rewrite safeStringToInt_four by done. cbn [negb mbind outcome_bind drop].
  rewrite !safeStringToInt_two by done. cbn [negb mbind outcome_bind]. done.
Qed.

(** The text that [printDate] writes for a date that [isDateValid]
    accepts (and whose year has four digits) has 19 characters, and
    [readDate] reads it back, with the time, as the same date. *)
Lemma readDate_printDate_spec now d rest :
  isDateValid now d = Returned true -> year d < 10000 ->
  length (printDate d) = 19%nat /\
  readDate now (printDate d ++ 0 :: rest) 19 true = Returned (Some d).
Proof.
  intros Hvalid Hy.
  destruct (isDateValid_true_fields now d Hvalid) as [(Hmo & Hda & Hh & Hmi & Hs & Hyr) _].
  assert (Hprint : printDate d =
    [48 + year d / 1000; 48 + (year d / 100) mod 10; 48 + (year d / 10) mod 10;
     48 + year d mod 10; 45; 48 + month d / 10; 48 + month d mod 10; 45;
     48 + day d / 10; 48 + day d mod 10; 32; 48 + hour d / 10; 48 + hour d mod 10; 58;
     48 + minute d / 10; 48 + minute d mod 10; 58; 48 + second d / 10; 48 + second d mod 10]).
  { unfold printDate. cbv zeta. rewrite print_int_four by lia.
    rewrite !print_int_two by lia. reflexivity. }
  rewrite Hprint. split; [reflexivity|].
  rewrite readDate_digits by (Z.div_mod_to_equations; lia).
  assert (Hd : mkDate (1000 * (year d / 1000) + 100 * ((year d / 100) mod 10)
                       + 10 * ((year d / 10) mod 10) + year d mod 10)
                      (10 * (month d / 10) + month d mod 10)
                      (10 * (day d / 10) + day d mod 10)
                      (10 * (hour d / 10) + hour d mod 10)
                      (10 * (minute d / 10) + minute d mod 10)
                      (10 * (second d / 10) + second d mod 10) = d).
  { destruct d as [y mo da h mi s]. cbn [year month day hour minute second] in *.
    f_equal; Z.div_mod_to_equations; lia. }
  rewrite Hd, Hvalid. done.
Qed.

End DateText.

(** ** date.c: a time that is not made of digits *)

Section DateBadTime.
Import Utils Date.

Lemma isdigit_checkInt c : (c <? 48) || (c >? 57) = negb (isdigit c).
Proof.
  unfold isdigit. destruct (Z.ltb_spec c 48), (Z.gtb_spec c 57), (Z.leb_spec 48 c),
    (Z.leb_spec c 57); cbn; lia || done.
Qed.

(** [safeStringToInt] on two characters, digits or not. *)
Lemma safeStringToInt_two_chars c1 c2 t rest i :
  safeStringToInt (c1 :: c2 :: t :: rest) 2 i
  = Returned (if isdigit c1 && isdigit c2
              then (true, 10 * (c1 - 48) + (c2 - 48)) else (false, i)).
Proof.
  destruct (isdigit c1) eqn:H1; [destruct (isdigit c2) eqn:H2|]; cbn [andb].
  - replace c1 with (48 + (c1 - 48)) at 1 by lia.
    replace c2 with (48 + (c2 - 48)) at 1 by lia.
    unfold isdigit in H1, H2.
    apply andb_true_iff in H1 as [?%Z.leb_le ?%Z.leb_le].
    apply andb_true_iff in H2 as [?%Z.leb_le ?%Z.leb_le].
    apply safeStringToInt_two; lia.
  - unfold safeStringToInt, checkInt. change (Z.to_nat 2) with 2%nat.
    cbn [Z.eqb checkInt_for head tail read_cell mbind outcome_bind].
    rewrite !isdigit_checkInt, H1, H2. done.
  - unfold safeStringToInt, checkInt. change (Z.to_nat 2) with 2%nat.
    cbn [Z.eqb checkInt_for head tail read_cell mbind outcome_bind].
    rewrite !isdigit_checkInt, H1. done.
Qed.

(** [readDate] asked for a date with its time does not reject a text
    whose date is made of digits and whose separators are in place but
    whose time is not made of digits: it reads the date at midnight,
    and answers as [isDateValid] does for that date.  [checkDate]
    rejects the same text. *)
Lemma readDate_bad_time_spec
    now y1 y2 y3 y4 m1 m2 d1 d2 c11 c12 c14 c15 c17 c18 t rest r :
  0 <= y1 <= 9 -> 0 <= y2 <= 9 -> 0 <= y3 <= 9 -> 0 <= y4 <= 9 ->
  0 <= m1 <= 9 -> 0 <= m2 <= 9 -> 0 <= d1 <= 9 -> 0 <= d2 <= 9 ->
  isdigit c11 && isdigit c12 && isdigit c14 && isdigit c15 && isdigit c17 && isdigit c18
    = false ->
  let str := [48 + y1; 48 + y2; 48 + y3; 48 + y4; 45; 48 + m1; 48 + m2; 45;
              48 + d1; 48 + d2; 32; c11; c12; 58; c14; c15; 58; c17; c18] ++ t :: rest in
  let midnight := mkDate (1000 * y1 + 100 * y2 + 10 * y3 + y4) (10 * m1 + m2) (10 * d1 + d2)
                         0 0 0 in
  isDateValid now midnight = Returned r ->
  readDate now str 19 true = Returned (if r then Some midnight else None) /\
  checkDate now str 19 = Returned false.
Proof.
  intros ? ? ? ? ? ? ? ? Hbad str midnight Hvalid. subst str.
  unfold readDate, checkDate, char_differs, array_get. cbn [app].
  change (Z.to_nat 4) with 4%nat. change (Z.to_nat 7) with 7%nat.
  change (Z.to_nat 10) with 10%nat. change (Z.to_nat 13) with 13%nat.
  change (Z.to_nat 16) with 16%nat.
  cbn [Z.eqb Pos.eqb negb Z.ltb Z.compare lookup list_lookup read_cell mbind outcome_bind].
  rewrite safeStringToInt_four by done. cbn [negb mbind outcome_bind drop].
  rewrite !safeStringToInt_two by done. cbn [negb mbind outcome_bind].
  rewrite !safeStringToInt_two_chars.
  fold midnight.
  destruct (isdigit c11 && isdigit c12) eqn:Hh; cbn [negb mbind outcome_bind].
  2:{ rewrite Hvalid. done. }
  destruct (isdigit c14 && isdigit c15) eqn:Hm; cbn [negb mbind outcome_bind].
  2:{ rewrite Hvalid. done. }
  destruct (isdigit c17 && isdigit c18) eqn:Hs; cbn [negb mbind outcome_bind].
  2:{ rewrite Hvalid. done. }
  exfalso. apply andb_true_iff in Hm as [E3 E4], Hs as [E5 E6].
  rewrite E3, E4, E5, E6 in Hbad. done.
Qed.

(** X30: [readDate], asked for a date with its time, reads the 19
    characters that [printDate] writes for a date with a month from 1
    to 12 and a year of four digits that [isDateValid] accepts back as
    the same date.  It does not reject a text whose date is made of
    digits and whose separators are in place but whose time is not made
    of digits: it reads the date at midnight and answers as
    [isDateValid] does for that date, while [checkDate] rejects the
    text. *)
Theorem readDate_printed_and_bad_time now :
  (forall d rest,
     1 <= month d <= 12 -> year d < 10000 -> isDateValid now d = Returned true ->
     length (printDate d) = 19%nat /\
     readDate now (printDate d ++ 0 :: rest) 19 true = Returned (Some d)) /\
  (forall y1 y2 y3 y4 m1 m2 d1 d2 c11 c12 c14 c15 c17 c18 t rest r,
     0 <= y1 <= 9 -> 0 <= y2 <= 9 -> 0 <= y3 <= 9 -> 0 <= y4 <= 9 ->
     0 <= m1 <= 9 -> 0 <= m2 <= 9 -> 0 <= d1 <= 9 -> 0 <= d2 <= 9 ->
     isdigit c11 && isdigit c12 && isdigit c14 && isdigit c15 && isdigit c17 && isdigit c18
       = false ->
     let str := [48 + y1; 48 + y2; 48 + y3; 48 + y4; 45; 48 + m1; 48 + m2; 45;
                 48 + d1; 48 + d2; 32; c11; c12; 58; c14; c15; 58; c17; c18] ++ t :: rest in
     let midnight := mkDate (1000 * y1 + 100 * y2 + 10 * y3 + y4) (10 * m1 + m2)
                            (10 * d1 + d2) 0 0 0 in
     isDateValid now midnight = Returned r ->
     readDate now str 19 true = Returned (if r then Some midnight else None) /\
     checkDate now str 19 = Returned false).
Proof.
  split.
  - intros d rest _ Hy Hvalid. by apply readDate_printDate_spec.
  - intros. by apply readDate_bad_time_spec.
Qed.

(** The date 2021-06-05 12:30:45 printed and read back, and the text
    [2021-06-05 1x:30:45]. *)
Lemma readDate_printed_and_bad_time_witness :
  readDate (mkDate 2022 1 1 0 0 0) (printDate (mkDate 2021 6 5 12 30 45) ++ [0]) 19 true
    = Returned (Some (mkDate 2021 6 5 12 30 45)) /\
  readDate (mkDate 2022 1 1 0 0 0)
    [50; 48; 50; 49; 45; 48; 54; 45; 48; 53; 32; 49; 120; 58; 51; 48; 58; 52; 53; 0] 19 true
    = Returned (Some (mkDate 2021 6 5 0 0 0)).
Proof.
  destruct (readDate_printed_and_bad_time (mkDate 2022 1 1 0 0 0)) as [Hprint Hbad].
  split.
  - apply (Hprint (mkDate 2021 6 5 12 30 45) []); [cbn; lia|cbn; lia|reflexivity].
  - destruct (Hbad 2 0 2 1 0 6 0 5 49 120 51 48 52 53 0 [] true) as [Hread _];
      try lia; reflexivity || exact Hread.
Defined.

End DateBadTime.
